(** * capacity-limiter: a shallow embedding of the scheduling engine

    The development follows the TypeScript sources:
    - [DoubleLinkedList]   : src/double-linked-list.ts
    - [calculateRetryTimeout] : src/calculate-retry-timeout.ts
    - release-rule manager : src/release-rule-manager.ts
    - fail-recovery manager: src/fail-recovery-manager.ts
    - the limiter itself   : src/capacity-limiter.ts

    JavaScript numbers are modelled at their integer values ([Z]), on
    which the arithmetic of doubles is exact within [2 ^ 53]; the two
    assignments to [usedCapacity] are also given on doubles ([Doubles]).
    Task objects live in a store ([tasks]) and every index of the limiter holds
    task identifiers, so that the mutations the source performs on a shared
    task object are seen through every index.  The event loop is modelled
    by a step function over external events (calls of the public API,
    settlements of the task callbacks, timers firing). *)

From Stdlib Require Import ZArith Lia Bool.
From Stdlib Require PrimFloat.
From stdpp Require Import base option list.

Local Open Scope Z_scope.

(** ** JavaScript idioms *)

(** Truthiness of an optional number: [undefined] and [0] are falsy. *)
Definition truthy (o : option Z) : bool :=
  match o with
  | Some z => negb (z =? 0)
  | None => false
  end.

(** [a ?? b] *)
Definition nullish {A : Type} (a : option A) (b : option A) : option A :=
  match a with
  | Some _ => a
  | None => b
  end.

(** [x % y] of JavaScript takes the sign of the dividend.  For [y = 0]
    JavaScript gives [NaN], which [Z] has no value for: what is proved of
    a remainder is proved for a divisor other than 0. *)
Definition jsRem (x y : Z) : Z := Z.rem x y.

(** The whole numbers from 0 to [2 ^ 53]: sums and differences of doubles
    are exact as long as the operands and the result are among them. *)
Definition safeInteger (z : Z) : Prop := 0 <= z <= 2 ^ 53.

(** The assignments to [usedCapacity] on doubles: that of a dispatch,
    [this.usedCapacity += taskToExecute.capacity], and that of
    [releaseTaskResources],
    [this.usedCapacity = Math.max(0, this.usedCapacity - task.reservedCapacity)]. *)
Module Doubles.
Import PrimFloat.
Local Open Scope float_scope.

(** [Math.max(0, x)]: [NaN] for [NaN], [+0] for [-0]. *)
Definition mathMax0 (x : float) : float := if x <=? 0 then 0 else x.

Definition reserve (usedCapacity capacity : float) : float := usedCapacity + capacity.

Definition release (usedCapacity reservedCapacity : float) : float :=
  mathMax0 (usedCapacity - reservedCapacity).

Definition tenth : float := 1 / 10.
Definition fifth : float := 2 / 10.
End Doubles.

(** ** The doubly linked list (src/double-linked-list.ts)

    The list of nodes from [head] to [tail] is a Rocq list; the [map] from
    values to nodes is the membership of the list, the limiter never puts
    a value into a list that already holds it. *)
Module DoubleLinkedList.
Section WithValues.
Context {A : Type} `{EqDecision A}.

(** [putBefore]: scan from the head, insert before the first value that
    matches, at the tail when none does. *)
Fixpoint putBefore (value : A) (condition : A -> bool) (l : list A) : list A :=
  match l with
  | [] => [value]
  | current :: rest =>
      if condition current then value :: current :: rest
      else current :: putBefore value condition rest
  end.

(** [putAfter]: the mirror image, scan from the tail, insert after the
    first value met that matches, at the head when none does. *)
Definition putAfter (value : A) (condition : A -> bool) (l : list A) : list A :=
  rev (putBefore value condition (rev l)).

Definition push (value : A) (l : list A) : list A := l ++ [value].

(** [pickFirstMatching]: remove and return the first matching value. *)
Fixpoint pickFirstMatching (condition : A -> bool) (l : list A) : option A * list A :=
  match l with
  | [] => (None, [])
  | current :: rest =>
      if condition current then (Some current, rest)
      else let '(r, rest') := pickFirstMatching condition rest in
           (r, current :: rest')
  end.

Definition shift (l : list A) : option A * list A :=
  match l with
  | [] => (None, [])
  | value :: rest => (Some value, rest)
  end.

(** [pickLastMatching]: the mirror image of [pickFirstMatching], the scan
    goes from the tail. *)
Definition pickLastMatching (condition : A -> bool) (l : list A) : option A * list A :=
  let '(r, rest) := pickFirstMatching condition (rev l) in (r, rev rest).

(** [pop]: remove and return the value at the tail. *)
Definition pop (l : list A) : option A * list A :=
  match last l with
  | Some value => (Some value, removelast l)
  | None => (None, [])
  end.

Definition peekFirst (l : list A) : option A := head l.

Definition peekLast (l : list A) : option A := last l.

(** [delete]: unlink the node of [value], nothing when it has none. *)
Fixpoint delete (value : A) (l : list A) : list A :=
  match l with
  | [] => []
  | current :: rest =>
      if decide (current = value) then rest
      else current :: delete value rest
  end.

Definition clear (l : list A) : list A := [].

Definition length (l : list A) : Z := Z.of_nat (List.length l).
End WithValues.
End DoubleLinkedList.

Module DLL := DoubleLinkedList.

(** ** Errors (src/capacity-limiter-error.ts) *)

Inductive CapacityLimiterErrorType :=
| invalid_argument
| invalid_call
| max_capacity_exceeded
| queue_size_exceeded
| queue_timeout
| execution_timeout
| on_failure_error
| stopped_error.

(** A value thrown or used to reject: an error of the limiter (with the
    error it wraps, if any) or whatever the task callback failed with. *)
Inductive error :=
| TaskFailure (code : nat)
| CapacityLimiterError (type : CapacityLimiterErrorType)
| CapacityLimiterErrorWith (type : CapacityLimiterErrorType) (originalError : error).

(** ** Retry timeouts (src/calculate-retry-timeout.ts) *)

Record RetryOptions := mkRetryOptions {
  retries : option Z;
  minTimeout : option Z;
  maxTimeout : option Z;      (* [None] is the default, Infinity *)
  randomize : option bool;
  factor : option Z
}.

(** [Math.random()] is drawn by the environment as a fraction
    [num / den] of [0, 1); [Math.round] rounds half up.  The numbers of
    the source are doubles: the model takes [minTimeout], [factor] and
    [maxTimeout] as whole numbers and computes the product exactly, as
    the doubles do while twice the product stays within [2 ^ 53]; what is
    proved of the timeout is proved within that range. *)
Definition calculateRetryTimeout (mathRandom : Z * Z) (attempt : Z) (o : RetryOptions) : Z :=
  let factor := default 2 (factor o) in
  let minTimeout := default 1000 (minTimeout o) in
  let '(num, den) :=
    if default false (randomize o) then (fst mathRandom + snd mathRandom, snd mathRandom)
    else (1, 1) in
  let timeout :=
    (2 * num * Z.max minTimeout 1 * factor ^ (attempt - 1) + den) / (2 * den) in
  match maxTimeout o with
  | Some m => Z.min timeout m
  | None => timeout
  end.

(** ** Release rules (src/release-rule-manager.ts) *)

Inductive ReleaseRuleType := reset | reduce.

(** [ref] stands for the identity of the rule object: the manager keys
    its table by the object, two records are the same key when equal. *)
Record ReleaseRule := mkRule {
  ref : nat;
  type : ReleaseRuleType;
  value : option Z;
  interval : Z
}.

Record ReleaseRuleStatus := mkStatus {
  timerId : option nat;
  intervalId : option nat;
  lastApplied : Z
}.

Global Instance ReleaseRuleType_eq_dec : EqDecision ReleaseRuleType.
Proof. solve_decision. Defined.

Global Instance ReleaseRule_eq_dec : EqDecision ReleaseRule.
Proof. solve_decision. Defined.

(** ** Options and task parameters (src/capacity-limiter.ts) *)

(** The strategy objects [useStrategy] takes; [onFailure] names the hook. *)
Inductive StrategyObject :=
| RetryFailRecoveryStrategy (o : RetryOptions)  (* {type: 'retry', ...} *)
| CustomFailRecoveryStrategy (onFailure : nat). (* {type: 'custom', onFailure} *)

Inductive FailRecoveryStrategy :=
| StrategyNone                                  (* 'none' *)
| StrategyRetry                                 (* 'retry' *)
| Strategy (o : StrategyObject).

(** The values of the three keys that [defaultOptions] fills in.  The
    keys are optional, so an options object may also carry one with the
    value [undefined]: the last constructor of each type.  The key left
    out is [None] in the record below. *)
Inductive CapacityStrategy := reserve | claim | capacity_undefined.
Inductive TaskExceedsMaxCapacityStrategy :=
  exceeds_throw_error | wait_for_full_capacity | exceeds_undefined.
Inductive QueueSizeExceededStrategy :=
  queue_throw_error | replace | replace_by_priority | queue_undefined.

(** The options object as the caller passes it.  [minDelayBetweenTasks]
    is a property the tests and the README pass; the interface of the
    source does not declare it and no code reads it, the object keeps it. *)
Record CapacityLimiterOptions := mkOptions {
  maxCapacity : option Z;
  initiallyUsedCapacity : option Z;
  capacityStrategy : option CapacityStrategy;
  releaseRules : option (list ReleaseRule);
  taskExceedsMaxCapacityStrategy : option TaskExceedsMaxCapacityStrategy;
  maxConcurrent : option Z;
  maxQueueSize : option Z;
  queueSizeExceededStrategy : option QueueSizeExceededStrategy;
  queueWaitingLimit : option Z;
  queueWaitingTimeout : option Z;
  executionTimeout : option Z;
  failRecoveryStrategy : option FailRecoveryStrategy;
  minDelayBetweenTasks : option Z
}.

(** [{...defaultOptions, ...options}]: the default stands in for a key
    that is left out; a key given as [undefined] overrides it, and the
    comparisons of the code with ['reserve'] and ['throw-error'] then
    fail. *)
Definition optCapacityStrategy (o : CapacityLimiterOptions) : CapacityStrategy :=
  default reserve (capacityStrategy o).
Definition optTaskExceedsMaxCapacityStrategy (o : CapacityLimiterOptions) :=
  default exceeds_throw_error (taskExceedsMaxCapacityStrategy o).
Definition optQueueSizeExceededStrategy (o : CapacityLimiterOptions) :=
  default queue_throw_error (queueSizeExceededStrategy o).

Definition emptyOptions : CapacityLimiterOptions :=
  mkOptions None None None None None None None None None None None None None.

(** [TaskParams], the callable apart. *)
Record TaskParams := mkParams {
  p_capacity : option Z;
  p_priority : option Z;
  p_queueWaitingLimit : option Z;
  p_queueWaitingTimeout : option Z;
  p_executionTimeout : option Z;
  p_failRecoveryStrategy : option FailRecoveryStrategy
}.

Definition emptyParams : TaskParams := mkParams None None None None None None.

Definition defaultPriority : Z := 5.
Definition defaultCapacity : Z := 1.
Definition defaultRetriesLimit : Z := 10.
Definition maxPriority : Z := 9.
Definition defaultRetryOptions : RetryOptions := mkRetryOptions None None None None None.

(** Tasks are named by their place in the store. *)
Abbreviation TaskId := nat (only parsing).

(** The promise handed to the caller: settled at most once. *)
Inductive PromiseState :=
| Pending
| Fulfilled
| Rejected (e : error).

Definition settle (outcome : PromiseState) (p : PromiseState) : PromiseState :=
  match p with
  | Pending => outcome
  | _ => p
  end.

(** The internal [Task]. *)
Record Task := mkTask {
  priority : Z;
  capacity : Z;
  reservedCapacity : option Z;
  reservedConcurrent : option Z;
  timeAdded : Z;
  timeLimit : option Z;
  executionTimerId : option nat;
  queueWaitingTimerId : option nat;
  retryAttempt : option Z;
  params : TaskParams;
  promise : PromiseState
}.

(** Assignments to the fields of a task object. *)
Definition task_set_capacity (v : Z) (t : Task) : Task :=
  mkTask (priority t) v (reservedCapacity t) (reservedConcurrent t) (timeAdded t) (timeLimit t) (executionTimerId t) (queueWaitingTimerId t) (retryAttempt t) (params t) (promise t).
Definition task_set_reservedCapacity (v : option Z) (t : Task) : Task :=
  mkTask (priority t) (capacity t) v (reservedConcurrent t) (timeAdded t) (timeLimit t) (executionTimerId t) (queueWaitingTimerId t) (retryAttempt t) (params t) (promise t).
Definition task_set_reservedConcurrent (v : option Z) (t : Task) : Task :=
  mkTask (priority t) (capacity t) (reservedCapacity t) v (timeAdded t) (timeLimit t) (executionTimerId t) (queueWaitingTimerId t) (retryAttempt t) (params t) (promise t).
Definition task_set_timeLimit (v : option Z) (t : Task) : Task :=
  mkTask (priority t) (capacity t) (reservedCapacity t) (reservedConcurrent t) (timeAdded t) v (executionTimerId t) (queueWaitingTimerId t) (retryAttempt t) (params t) (promise t).
Definition task_set_executionTimerId (v : option nat) (t : Task) : Task :=
  mkTask (priority t) (capacity t) (reservedCapacity t) (reservedConcurrent t) (timeAdded t) (timeLimit t) v (queueWaitingTimerId t) (retryAttempt t) (params t) (promise t).
Definition task_set_queueWaitingTimerId (v : option nat) (t : Task) : Task :=
  mkTask (priority t) (capacity t) (reservedCapacity t) (reservedConcurrent t) (timeAdded t) (timeLimit t) (executionTimerId t) v (retryAttempt t) (params t) (promise t).
Definition task_set_retryAttempt (v : option Z) (t : Task) : Task :=
  mkTask (priority t) (capacity t) (reservedCapacity t) (reservedConcurrent t) (timeAdded t) (timeLimit t) (executionTimerId t) (queueWaitingTimerId t) v (params t) (promise t).
Definition task_set_promise (v : PromiseState) (t : Task) : Task :=
  mkTask (priority t) (capacity t) (reservedCapacity t) (reservedConcurrent t) (timeAdded t) (timeLimit t) (executionTimerId t) (queueWaitingTimerId t) (retryAttempt t) (params t) v.

(** ** The state of a limiter and of the runtime around it *)

(** An entry of [retryTimers]. *)
Record RetryTimerInfo := mkRetryTimerInfo {
  rt_task : TaskId;
  rt_timer : nat
}.

(** [this.stopped]: the promise [stop] made for the draining of the
    queue, with its resolver. *)
Record StoppedState := mkStopped {
  stoppedPromise : option nat
}.

(** One call of [executeTask]: the task and the [finished] flag of the
    closure. *)
Record Execution := mkExecution {
  ex_task : TaskId;
  finished : bool
}.

(** What a timer of the runtime runs when it fires. *)
Inductive TimerCallback :=
| QueueWaitingTimer (task : TaskId)
| ExecutionTimer (run : nat)
| RetryTimer (task : TaskId)
| RuleTimeout (rule : ReleaseRule)
| RuleInterval (rule : ReleaseRule).

(** A timer: its callback and the moment it is due first, the time of
    the call of [setTimeout] plus the delay asked for.  When a timer
    fires is an event of the environment ([TimerFired] below, with the
    time of the event): the runtime fires a timer no earlier than it is
    due when the delay is between 1 and 2147483647 ms, and after 1 ms
    when the delay is outside that range. *)
Record Timer := mkTimer {
  callback : TimerCallback;
  dueAt : Z
}.

(** A call of a custom [onFailure] hook that has not settled yet. *)
Record OnFailureCall := mkOnFailureCall {
  of_task : TaskId;
  of_error : error;
  of_retryAttempt : Z
}.

(** Calls the engine makes to the outside, in order. *)
Inductive Effect :=
| CallbackInvoked (task : TaskId)              (* [task.callback()] *)
| StrategyUsed (task : TaskId) (attempt : Z)   (* [failRecoveryManager.useStrategy] *)
| RuleApplied (rule : ReleaseRule) (times : Z). (* [applyRule(rule, times)] *)

Record State := mkState {
  (* fields of [CapacityLimiter] *)
  usedCapacity : Z;
  usedConcurrent : Z;
  queue : list TaskId;
  tasksByTimeAdded : list TaskId;
  tasksByTimeLimit : list TaskId;
  options : CapacityLimiterOptions;
  originalOptions : CapacityLimiterOptions;
  (* fields of [ReleaseRuleManager] *)
  releaseTimers : list (ReleaseRule * ReleaseRuleStatus);
  releaseRuleTimersEnabled : bool;
  (* field of [FailRecoveryManager] *)
  retryTimers : list RetryTimerInfo;
  (* fields of [CapacityLimiter], continued *)
  executingTasks : list TaskId;
  stopped : option StoppedState;
  (* the heap and the runtime: task objects, the closures of
     [executeTask], the timer table, the [onFailure] calls in flight, the
     promises made by [stop], and the calls made to the outside *)
  tasks : list Task;
  runs : list Execution;
  timers : list (option Timer);
  onFailureCalls : list (option OnFailureCall);
  stopPromises : list bool;
  log : list Effect
}.

(** Field updates. *)
Definition set_usedCapacity (v : Z) (s : State) : State :=
  mkState v (usedConcurrent s) (queue s) (tasksByTimeAdded s) (tasksByTimeLimit s) (options s) (originalOptions s) (releaseTimers s) (releaseRuleTimersEnabled s) (retryTimers s) (executingTasks s) (stopped s) (tasks s) (runs s) (timers s) (onFailureCalls s) (stopPromises s) (log s).
Definition set_usedConcurrent (v : Z) (s : State) : State :=
  mkState (usedCapacity s) v (queue s) (tasksByTimeAdded s) (tasksByTimeLimit s) (options s) (originalOptions s) (releaseTimers s) (releaseRuleTimersEnabled s) (retryTimers s) (executingTasks s) (stopped s) (tasks s) (runs s) (timers s) (onFailureCalls s) (stopPromises s) (log s).
Definition set_queue (v : list TaskId) (s : State) : State :=
  mkState (usedCapacity s) (usedConcurrent s) v (tasksByTimeAdded s) (tasksByTimeLimit s) (options s) (originalOptions s) (releaseTimers s) (releaseRuleTimersEnabled s) (retryTimers s) (executingTasks s) (stopped s) (tasks s) (runs s) (timers s) (onFailureCalls s) (stopPromises s) (log s).
Definition set_tasksByTimeAdded (v : list TaskId) (s : State) : State :=
  mkState (usedCapacity s) (usedConcurrent s) (queue s) v (tasksByTimeLimit s) (options s) (originalOptions s) (releaseTimers s) (releaseRuleTimersEnabled s) (retryTimers s) (executingTasks s) (stopped s) (tasks s) (runs s) (timers s) (onFailureCalls s) (stopPromises s) (log s).
Definition set_tasksByTimeLimit (v : list TaskId) (s : State) : State :=
  mkState (usedCapacity s) (usedConcurrent s) (queue s) (tasksByTimeAdded s) v (options s) (originalOptions s) (releaseTimers s) (releaseRuleTimersEnabled s) (retryTimers s) (executingTasks s) (stopped s) (tasks s) (runs s) (timers s) (onFailureCalls s) (stopPromises s) (log s).
Definition set_options (v : CapacityLimiterOptions) (s : State) : State :=
  mkState (usedCapacity s) (usedConcurrent s) (queue s) (tasksByTimeAdded s) (tasksByTimeLimit s) v (originalOptions s) (releaseTimers s) (releaseRuleTimersEnabled s) (retryTimers s) (executingTasks s) (stopped s) (tasks s) (runs s) (timers s) (onFailureCalls s) (stopPromises s) (log s).
Definition set_originalOptions (v : CapacityLimiterOptions) (s : State) : State :=
  mkState (usedCapacity s) (usedConcurrent s) (queue s) (tasksByTimeAdded s) (tasksByTimeLimit s) (options s) v (releaseTimers s) (releaseRuleTimersEnabled s) (retryTimers s) (executingTasks s) (stopped s) (tasks s) (runs s) (timers s) (onFailureCalls s) (stopPromises s) (log s).
Definition set_releaseTimers (v : list (ReleaseRule * ReleaseRuleStatus)) (s : State) : State :=
  mkState (usedCapacity s) (usedConcurrent s) (queue s) (tasksByTimeAdded s) (tasksByTimeLimit s) (options s) (originalOptions s) v (releaseRuleTimersEnabled s) (retryTimers s) (executingTasks s) (stopped s) (tasks s) (runs s) (timers s) (onFailureCalls s) (stopPromises s) (log s).
Definition set_releaseRuleTimersEnabled (v : bool) (s : State) : State :=
  mkState (usedCapacity s) (usedConcurrent s) (queue s) (tasksByTimeAdded s) (tasksByTimeLimit s) (options s) (originalOptions s) (releaseTimers s) v (retryTimers s) (executingTasks s) (stopped s) (tasks s) (runs s) (timers s) (onFailureCalls s) (stopPromises s) (log s).
Definition set_retryTimers (v : list RetryTimerInfo) (s : State) : State :=
  mkState (usedCapacity s) (usedConcurrent s) (queue s) (tasksByTimeAdded s) (tasksByTimeLimit s) (options s) (originalOptions s) (releaseTimers s) (releaseRuleTimersEnabled s) v (executingTasks s) (stopped s) (tasks s) (runs s) (timers s) (onFailureCalls s) (stopPromises s) (log s).
Definition set_executingTasks (v : list TaskId) (s : State) : State :=
  mkState (usedCapacity s) (usedConcurrent s) (queue s) (tasksByTimeAdded s) (tasksByTimeLimit s) (options s) (originalOptions s) (releaseTimers s) (releaseRuleTimersEnabled s) (retryTimers s) v (stopped s) (tasks s) (runs s) (timers s) (onFailureCalls s) (stopPromises s) (log s).
Definition set_stopped (v : option StoppedState) (s : State) : State :=
  mkState (usedCapacity s) (usedConcurrent s) (queue s) (tasksByTimeAdded s) (tasksByTimeLimit s) (options s) (originalOptions s) (releaseTimers s) (releaseRuleTimersEnabled s) (retryTimers s) (executingTasks s) v (tasks s) (runs s) (timers s) (onFailureCalls s) (stopPromises s) (log s).
Definition set_tasks (v : list Task) (s : State) : State :=
  mkState (usedCapacity s) (usedConcurrent s) (queue s) (tasksByTimeAdded s) (tasksByTimeLimit s) (options s) (originalOptions s) (releaseTimers s) (releaseRuleTimersEnabled s) (retryTimers s) (executingTasks s) (stopped s) v (runs s) (timers s) (onFailureCalls s) (stopPromises s) (log s).
Definition set_runs (v : list Execution) (s : State) : State :=
  mkState (usedCapacity s) (usedConcurrent s) (queue s) (tasksByTimeAdded s) (tasksByTimeLimit s) (options s) (originalOptions s) (releaseTimers s) (releaseRuleTimersEnabled s) (retryTimers s) (executingTasks s) (stopped s) (tasks s) v (timers s) (onFailureCalls s) (stopPromises s) (log s).
Definition set_timers (v : list (option Timer)) (s : State) : State :=
  mkState (usedCapacity s) (usedConcurrent s) (queue s) (tasksByTimeAdded s) (tasksByTimeLimit s) (options s) (originalOptions s) (releaseTimers s) (releaseRuleTimersEnabled s) (retryTimers s) (executingTasks s) (stopped s) (tasks s) (runs s) v (onFailureCalls s) (stopPromises s) (log s).
Definition set_onFailureCalls (v : list (option OnFailureCall)) (s : State) : State :=
  mkState (usedCapacity s) (usedConcurrent s) (queue s) (tasksByTimeAdded s) (tasksByTimeLimit s) (options s) (originalOptions s) (releaseTimers s) (releaseRuleTimersEnabled s) (retryTimers s) (executingTasks s) (stopped s) (tasks s) (runs s) (timers s) v (stopPromises s) (log s).
Definition set_stopPromises (v : list bool) (s : State) : State :=
  mkState (usedCapacity s) (usedConcurrent s) (queue s) (tasksByTimeAdded s) (tasksByTimeLimit s) (options s) (originalOptions s) (releaseTimers s) (releaseRuleTimersEnabled s) (retryTimers s) (executingTasks s) (stopped s) (tasks s) (runs s) (timers s) (onFailureCalls s) v (log s).
Definition set_log (v : list Effect) (s : State) : State :=
  mkState (usedCapacity s) (usedConcurrent s) (queue s) (tasksByTimeAdded s) (tasksByTimeLimit s) (options s) (originalOptions s) (releaseTimers s) (releaseRuleTimersEnabled s) (retryTimers s) (executingTasks s) (stopped s) (tasks s) (runs s) (timers s) (onFailureCalls s) (stopPromises s) v.

(** What the environment supplies during one synchronous step: the
    clock, the draws of [Math.random] and whether the callable of a task
    throws synchronously when it is invoked in this step. *)
Record Env := mkEnv {
  now : Z;
  mathRandom : TaskId -> Z * Z;
  throwsSync : TaskId -> option error
}.

(** How a function ends: normally or by throwing. *)
Inductive Completion :=
| Normal (s : State)
| Throw (e : error) (s : State).

Definition stateOf (c : Completion) : State :=
  match c with
  | Normal s => s
  | Throw _ s => s
  end.

(** ** The runtime: timers and task objects *)

Definition setTimer (cb : TimerCallback) (due : Z) (s : State) : nat * State :=
  (length (timers s), set_timers (timers s ++ [Some (mkTimer cb due)]) s).

Definition clearTimer (handle : nat) (s : State) : State :=
  set_timers (<[handle := None]> (timers s)) s.

Definition updTask (id : TaskId) (f : Task -> Task) (s : State) : State :=
  set_tasks (alter f id (tasks s)) s.

(** [task.reject(error)] and [task.resolve(result)] *)
Definition rejectTask (id : TaskId) (e : error) (s : State) : State :=
  updTask id (fun t => task_set_promise (settle (Rejected e) (promise t)) t) s.

Definition resolveTaskPromise (id : TaskId) (s : State) : State :=
  updTask id (fun t => task_set_promise (settle Fulfilled (promise t)) t) s.

Definition emit (e : Effect) (s : State) : State :=
  set_log (log s ++ [e]) s.

(** ** The release-rule manager (src/release-rule-manager.ts) *)

(** The [applyRule] callback the limiter gives to the manager. *)
Definition applyRule (rule : ReleaseRule) (times : Z) (s : State) : State :=
  let s := emit (RuleApplied rule times) s in
  match type rule with
  | reset => set_usedCapacity (default 0 (value rule)) s
  | reduce => set_usedCapacity (Z.max 0 (usedCapacity s - default 0 (value rule) * times)) s
  end.

(** [canReduceCapacity] *)
Definition canReduceCapacity (s : State) : bool := 0 <? usedCapacity s.

Definition hasRule (rule : ReleaseRule) (entries : list (ReleaseRule * ReleaseRuleStatus)) : bool :=
  bool_decide (rule ∈ map fst entries).

Definition updStatus (rule : ReleaseRule) (f : ReleaseRuleStatus -> ReleaseRuleStatus)
    (s : State) : State :=
  set_releaseTimers
    (map (fun e => if decide (fst e = rule) then (fst e, f (snd e)) else e) (releaseTimers s)) s.

Definition clearOpt (h : option nat) (s : State) : State :=
  match h with
  | Some handle => clearTimer handle s
  | None => s
  end.

Definition clearReleaseRuleTimer (rule : ReleaseRule) (status : ReleaseRuleStatus)
    (s : State) : State :=
  let s := clearOpt (timerId status) s in
  let s := clearOpt (intervalId status) s in
  updStatus rule (fun st => mkStatus None None (lastApplied st)) s.

Definition setRuleTimerWithDelay (env : Env) (rule : ReleaseRule) (delay : Z) (s : State) : State :=
  if decide (delay = interval rule) then
    let '(h, s) := setTimer (RuleInterval rule) (now env + interval rule) s in
    updStatus rule (fun st => mkStatus (timerId st) (Some h) (lastApplied st)) s
  else
    let '(h, s) := setTimer (RuleTimeout rule) (now env + delay) s in
    updStatus rule (fun st => mkStatus (Some h) (intervalId st) (lastApplied st)) s.

(** [setRules]: newcomers first, then the removal of the rules left out. *)
Fixpoint addRules (env : Env) (releaseRules : list ReleaseRule) (s : State) : State :=
  match releaseRules with
  | [] => s
  | rule :: rest =>
      if hasRule rule (releaseTimers s) then addRules env rest s
      else
        let s := set_releaseTimers
                   (releaseTimers s ++ [(rule, mkStatus None None (now env))]) s in
        let s := if releaseRuleTimersEnabled s
                 then setRuleTimerWithDelay env rule (interval rule) s else s in
        addRules env rest s
  end.

Fixpoint dropRules (releaseRules : list ReleaseRule)
    (entries : list (ReleaseRule * ReleaseRuleStatus)) (s : State) : State :=
  match entries with
  | [] => s
  | (rule, status) :: rest =>
      if bool_decide (rule ∈ releaseRules) then dropRules releaseRules rest s
      else
        let s := clearReleaseRuleTimer rule status s in
        let s := set_releaseTimers
                   (filter (fun e => fst e <> rule) (releaseTimers s)) s in
        dropRules releaseRules rest s
  end.

Definition setRules (env : Env) (releaseRules : list ReleaseRule) (s : State) : State :=
  let s := addRules env releaseRules s in
  dropRules releaseRules (releaseTimers s) s.

(** [applyMissedRules], first loop: the reset rules.  The accumulator is
    [(lastResetTime, lastResetTimeRule)]. *)
Fixpoint missedResets (now : Z) (entries : list (ReleaseRule * ReleaseRuleStatus))
    (acc : option Z * option ReleaseRule)
    : list (ReleaseRule * ReleaseRuleStatus) * (option Z * option ReleaseRule) :=
  match entries with
  | [] => ([], acc)
  | (rule, status) :: rest =>
      match type rule with
      | reset =>
          if interval rule <=? now - lastApplied status then
            let resetTime := now - jsRem (now - lastApplied status) (interval rule) in
            let acc' :=
              if negb (truthy (fst acc)) || (default 0 (fst acc) <? resetTime)
              then (Some resetTime, Some rule) else acc in
            let '(rest', r) := missedResets now rest acc' in
            ((rule, mkStatus (timerId status) (intervalId status) resetTime) :: rest', r)
          else
            let '(rest', r) := missedResets now rest acc in
            ((rule, status) :: rest', r)
      | reduce =>
          let '(rest', r) := missedResets now rest acc in
          ((rule, status) :: rest', r)
      end
  end.

(** Second loop: the reduce rules. *)
Fixpoint missedReduces (now : Z) (lastResetTime : option Z)
    (entries : list (ReleaseRule * ReleaseRuleStatus)) (s : State)
    : list (ReleaseRule * ReleaseRuleStatus) * State :=
  match entries with
  | [] => ([], s)
  | (rule, status) :: rest =>
      match type rule with
      | reduce =>
          if interval rule <=? now - lastApplied status then
            let lastReduceTime := now - jsRem (now - lastApplied status) (interval rule) in
            let s :=
              if canReduceCapacity s then
                let timesApplied :=
                  (lastReduceTime - default (lastApplied status) lastResetTime)
                  / interval rule in
                applyRule rule timesApplied s
              else s in
            let '(rest', s) := missedReduces now lastResetTime rest s in
            ((rule, mkStatus (timerId status) (intervalId status) lastReduceTime) :: rest', s)
          else
            let '(rest', s) := missedReduces now lastResetTime rest s in
            ((rule, status) :: rest', s)
      | reset =>
          let '(rest', s) := missedReduces now lastResetTime rest s in
          ((rule, status) :: rest', s)
      end
  end.

Definition applyMissedRules (now : Z) (s : State) : State :=
  let '(entries, (lastResetTime, lastResetTimeRule)) :=
    missedResets now (releaseTimers s) (None, None) in
  let s :=
    match lastResetTimeRule with
    | Some rule => applyRule rule 1 s
    | None => s
    end in
  let '(entries, s) := missedReduces now lastResetTime entries s in
  set_releaseTimers entries s.

Definition armRuleTimers (env : Env) (s : State) : State :=
  foldl (fun s e =>
           setRuleTimerWithDelay env (fst e)
             (interval (fst e) - (now env - lastApplied (snd e))) s)
        s (releaseTimers s).

Definition enableTimers (env : Env) (s : State) : State :=
  if releaseRuleTimersEnabled s then s
  else
    let s := set_releaseRuleTimersEnabled true s in
    let s := applyMissedRules (now env) s in
    armRuleTimers env s.

Definition disableTimers (s : State) : State :=
  if releaseRuleTimersEnabled s then
    let s := set_releaseRuleTimersEnabled false s in
    foldl (fun s e => clearReleaseRuleTimer (fst e) (snd e) s) s (releaseTimers s)
  else s.

Definition areTimersEnabled (s : State) : bool := releaseRuleTimersEnabled s.

(** ** The fail-recovery manager (src/fail-recovery-manager.ts) *)

(** [setRetryTimer]; [onScheduledRetry] is the callback [tryRejectTask]
    passes: [task.timeLimit = Date.now() + timeout].  The time limit and
    the moment the timer is due are the same number; the timer fires at
    the time of its [TimerFired] event, which is before that moment for
    a timeout above 2147483647 ms. *)
Definition setRetryTimer (env : Env) (id : TaskId) (timeout : Z) (s : State) : State :=
  let s := updTask id (task_set_timeLimit (Some (now env + timeout))) s in
  let '(h, s) := setTimer (RetryTimer id) (now env + timeout) s in
  set_retryTimers (retryTimers s ++ [mkRetryTimerInfo id h]) s.

(** [useStrategy], with [onReject = task.reject].  A custom hook is
    called from a promise job: the call is recorded and settles later. *)
Definition useStrategy (env : Env) (id : TaskId) (strategy : StrategyObject)
    (e : error) (attempt : Z) (s : State) : State :=
  let s := emit (StrategyUsed id attempt) s in
  match strategy with
  | RetryFailRecoveryStrategy o =>
      if default defaultRetriesLimit (retries o) <? attempt then rejectTask id e s
      else setRetryTimer env id (calculateRetryTimeout (mathRandom env id) attempt o) s
  | CustomFailRecoveryStrategy _ =>
      set_onFailureCalls (onFailureCalls s ++ [Some (mkOnFailureCall id e attempt)]) s
  end.

(** [rejectAll] *)
Definition rejectAll (e : error) (s : State) : State :=
  let s := foldl (fun s info => rejectTask (rt_task info) e (clearTimer (rt_timer info) s))
                 s (retryTimers s) in
  set_retryTimers [] s.

Definition getAwaitingTasks (s : State) : list TaskId := map rt_task (retryTimers s).

(** How a call of a custom [onFailure] hook settles. *)
Inductive OnFailureOutcome :=
| OnFailureRetry (timeout : Z)          (* resolved with {type: 'retry', timeout} *)
| OnFailureThrowError (e : error)       (* resolved with {type: 'throw-error', error} *)
| OnFailureRejected (e : error).        (* the hook itself failed *)

Definition onFailureSettled (env : Env) (call : nat) (r : OnFailureOutcome) (s : State) : State :=
  match onFailureCalls s !! call with
  | Some (Some c) =>
      let s := set_onFailureCalls (<[call := None]> (onFailureCalls s)) s in
      match r with
      | OnFailureThrowError e => rejectTask (of_task c) e s
      | OnFailureRetry timeout => setRetryTimer env (of_task c) timeout s
      | OnFailureRejected _ =>
          rejectTask (of_task c) (CapacityLimiterErrorWith on_failure_error (of_error c)) s
      end
  | _ => s
  end.

(** ** The limiter (src/capacity-limiter.ts) *)

Definition throwInvalidArgument : error := CapacityLimiterError invalid_argument.

(** The validation of the options; [None] when nothing is thrown. *)
Definition checkMaxCapacity (maxCapacity : option Z) : option error :=
  match maxCapacity with
  | None => None
  | Some m => if m <? 0 then Some (CapacityLimiterError invalid_argument) else None
  end.

Definition checkUsedCapacity (usedCapacity maxCapacity : option Z) : option error :=
  match usedCapacity with
  | None => None
  | Some u =>
      match maxCapacity with
      | None => Some (CapacityLimiterError invalid_call)
      | Some m =>
          if u <? 0 then Some (CapacityLimiterError invalid_argument)
          else if m <? u then Some (CapacityLimiterError invalid_argument)
          else None
      end
  end.

Definition checkCapacityStrategy (capacityStrategy : option CapacityStrategy)
    (maxCapacity : option Z) : option error :=
  match capacityStrategy, maxCapacity with
  | Some capacity_undefined, None => None
  | Some _, None => Some (CapacityLimiterError invalid_argument)
  | _, _ => None
  end.

Definition checkReleaseRules (releaseRules : option (list ReleaseRule))
    (maxCapacity : option Z) : option error :=
  match releaseRules, maxCapacity with
  | Some (_ :: _), None => Some (CapacityLimiterError invalid_argument)
  | _, _ => None
  end.

(** The first check that throws decides. *)
Fixpoint firstError (checks : list (option error)) : option error :=
  match checks with
  | [] => None
  | Some e :: _ => Some e
  | None :: rest => firstError rest
  end.

Definition initialState (options : CapacityLimiterOptions) : State :=
  mkState 0 0 [] [] [] options options [] false [] [] None [] [] [] [] [] [].

(** [new CapacityLimiter(options)] *)
Definition constructor (env : Env) (options : CapacityLimiterOptions) : Completion :=
  match firstError
          [ checkMaxCapacity (maxCapacity options);
            checkUsedCapacity (initiallyUsedCapacity options) (maxCapacity options);
            checkCapacityStrategy (capacityStrategy options) (maxCapacity options);
            checkReleaseRules (releaseRules options) (maxCapacity options) ] with
  | Some e => Throw e (initialState options)
  | None =>
      let s := initialState options in
      let s := set_usedCapacity (default 0 (initiallyUsedCapacity options)) s in
      Normal (setRules env (default [] (releaseRules options)) s)
  end.

Definition getOptions (s : State) : CapacityLimiterOptions := originalOptions s.

Definition setOptions (env : Env) (o : CapacityLimiterOptions) (s : State) : Completion :=
  match firstError
          [ checkMaxCapacity (maxCapacity o);
            checkCapacityStrategy (capacityStrategy o) (maxCapacity o);
            checkReleaseRules (releaseRules o) (maxCapacity o) ] with
  | Some e => Throw e s
  | None =>
      let s := set_options o s in
      let s := set_originalOptions o s in
      Normal (setRules env (default [] (releaseRules o)) s)
  end.

(** [canFitTask] *)
Definition canFitTask (s : State) (task : Task) : bool :=
  match maxCapacity (options s) with
  | None => true
  | Some m => usedCapacity s + capacity task <=? m
  end.

Definition fits (s : State) (id : TaskId) : bool :=
  match tasks s !! id with
  | Some task => canFitTask s task
  | None => false
  end.

(** [importantTask.timeLimit! <= Date.now()] *)
Definition aged (env : Env) (s : State) (id : TaskId) : bool :=
  match tasks s !! id with
  | Some task =>
      match timeLimit task with
      | Some l => l <=? now env
      | None => false
      end
  | None => false
  end.

(** The choice of [taskToExecute] in [startNextTaskIfPossible]: the head
    of [tasksByTimeLimit] when its limit has passed (nothing at all when it
    does not fit), else the first task of the queue that fits, which
    [pickFirstMatching] takes out of the queue. *)
Definition pickTaskToExecute (env : Env) (s : State) : option (TaskId * State) :=
  let fromQueue :=
    match DLL.pickFirstMatching (fits s) (queue s) with
    | (Some id, q) => Some (id, set_queue q s)
    | (None, _) => None
    end in
  match DLL.peekFirst (tasksByTimeLimit s) with
  | Some importantTask =>
      if aged env s importantTask then
        if fits s importantTask then Some (importantTask, s) else None
      else fromQueue
  | None => fromQueue
  end.

(** The bookkeeping of a dispatch: the reservation of capacity and of a
    concurrency slot, the queue-waiting timer, the three indices. *)
Definition reserveResources (id : TaskId) (s : State) : State :=
  match tasks s !! id with
  | None => s
  | Some task =>
      let s :=
        match maxCapacity (options s) with
        | Some _ =>
            let s := match optCapacityStrategy (options s) with
                     | reserve => updTask id (task_set_reservedCapacity (Some (capacity task))) s
                     | _ => s
                     end in
            set_usedCapacity (usedCapacity s + capacity task) s
        | None => s
        end in
      let s :=
        match queueWaitingTimerId task with
        | Some h => updTask id (task_set_queueWaitingTimerId None) (clearTimer h s)
        | None => s
        end in
      let s := updTask id (task_set_reservedConcurrent (Some 1)) s in
      let s := set_usedConcurrent (usedConcurrent s + 1) s in
      let s := set_queue (DLL.delete id (queue s)) s in
      let s := set_tasksByTimeAdded (DLL.delete id (tasksByTimeAdded s)) s in
      if truthy (timeLimit task)
      then set_tasksByTimeLimit (DLL.delete id (tasksByTimeLimit s)) s
      else s
  end.

(** [releaseTaskResources] *)
Definition releaseTaskResources (id : TaskId) (s : State) : State :=
  match tasks s !! id with
  | None => s
  | Some task =>
      let s := updTask id (task_set_timeLimit None) s in
      let s :=
        if truthy (reservedConcurrent task) then
          let s := set_usedConcurrent
                     (Z.max 0 (usedConcurrent s - default 0 (reservedConcurrent task))) s in
          updTask id (task_set_reservedConcurrent (Some 0)) s
        else s in
      let s :=
        if truthy (reservedCapacity task) && bool_decide (is_Some (maxCapacity (options s))) then
          let s := set_usedCapacity
                     (Z.max 0 (usedCapacity s - default 0 (reservedCapacity task))) s in
          updTask id (task_set_reservedCapacity (Some 0)) s
        else s in
      match executionTimerId task with
      | Some h => updTask id (task_set_executionTimerId None) (clearTimer h s)
      | None => s
      end
  end.

(** [removeTaskFromQueues] *)
Definition removeTaskFromQueues (id : TaskId) (s : State) : State :=
  let s := set_queue (DLL.delete id (queue s)) s in
  let s := set_tasksByTimeAdded (DLL.delete id (tasksByTimeAdded s)) s in
  set_tasksByTimeLimit (DLL.delete id (tasksByTimeLimit s)) s.

(** [Set.add], [Set.delete] on the executing set *)
Definition setAdd (id : TaskId) (l : list TaskId) : list TaskId :=
  if bool_decide (id ∈ l) then l else l ++ [id].

Definition setDelete (id : TaskId) (l : list TaskId) : list TaskId :=
  filter (fun x => x <> id) l.

(** [finished = true] in the closure of a run. *)
Definition finishRun (run : nat) (s : State) : State :=
  set_runs (alter (fun r => mkExecution (ex_task r) true) run (runs s)) s.

(** [this.stopped.stoppedResolve?.()] *)
Definition stoppedResolve (st : StoppedState) (s : State) : State :=
  match stoppedPromise st with
  | Some k => set_stopPromises (<[k := true]> (stopPromises s)) s
  | None => s
  end.

(** The functions below call [startNextTaskIfPossible] at their end, and
    [startNextTaskIfPossible] calls them and itself: they take the loop as
    [next], the loop is tied further down. *)
Section Loop.
Variable next : State -> State.

(** [tryRejectTask] *)
Definition tryRejectTask_ (env : Env) (id : TaskId) (e : error) (s : State) : State :=
  let s := releaseTaskResources id s in
  let s :=
    match tasks s !! id with
    | None => s
    | Some task =>
        match nullish (p_failRecoveryStrategy (params task))
                      (failRecoveryStrategy (options s)) with
        | None | Some StrategyNone => rejectTask id e s
        | Some strategy =>
            let attempt := default 0 (retryAttempt task) + 1 in
            let s := updTask id (task_set_retryAttempt (Some attempt)) s in
            useStrategy env id
              (match strategy with
               | Strategy o => o
               | _ => RetryFailRecoveryStrategy defaultRetryOptions
               end) e attempt s
        end
    end in
  next s.

(** [resolveTask] *)
Definition resolveTask_ (id : TaskId) (s : State) : State :=
  let s := releaseTaskResources id s in
  let s := resolveTaskPromise id s in
  next s.

(** [executeTask]: a new closure with [finished = false], the execution
    timer, the call of the callable; the handlers of its promise run
    in later steps, the [catch] branch in this one. *)
Definition executeTask_ (env : Env) (id : TaskId) (s : State) : State :=
  match tasks s !! id with
  | None => s
  | Some task =>
      let run := length (runs s) in
      let s := set_runs (runs s ++ [mkExecution id false]) s in
      let s := set_executingTasks (setAdd id (executingTasks s)) s in
      let executionTimeout :=
        nullish (p_executionTimeout (params task)) (executionTimeout (options s)) in
      let s :=
        if truthy executionTimeout then
          let '(h, s) := setTimer (ExecutionTimer run)
                                  (now env + default 0 executionTimeout) s in
          updTask id (task_set_executionTimerId (Some h)) s
        else s in
      let s := emit (CallbackInvoked id) s in
      match throwsSync env id with
      | Some e =>
          let s := set_executingTasks (setDelete id (executingTasks s)) s in
          let s := finishRun run s in
          tryRejectTask_ env id e s
      | None => s
      end
  end.

(** One round of [startNextTaskIfPossible]. *)
Definition startNextBody (env : Env) (s : State) : State :=
  match stopped s, bool_decide (DLL.length (queue s) = 0) with
  | Some st, true => stoppedResolve st s
  | _, _ =>
      if truthy (maxConcurrent (options s))
         && (default 0 (maxConcurrent (options s)) <=? usedConcurrent s)
      then s
      else
        match pickTaskToExecute env s with
        | None => s
        | Some (taskToExecute, s) =>
            let s := reserveResources taskToExecute s in
            let s := executeTask_ env taskToExecute s in
            if bool_decide (DLL.length (queue s) = 0) then disableTimers s
            else next s
        end
  end.
End Loop.

(** The loop: every round that goes on has taken a task out of the
    queue, so [S (length (queue s))] rounds are enough:
    [startNextTaskIfPossible_unfold] gives the recursion of the source
    back, [startNextTaskIfPossible_recursion] in every state a run
    reaches. *)
Fixpoint startNextRounds (rounds : nat) (env : Env) (s : State) : State :=
  match rounds with
  | O => s
  | S rounds => startNextBody (startNextRounds rounds env) env s
  end.

Definition startNextTaskIfPossible (env : Env) (s : State) : State :=
  startNextRounds (S (length (queue s))) env s.

Definition tryRejectTask (env : Env) := tryRejectTask_ (startNextTaskIfPossible env) env.
Definition resolveTask (env : Env) := resolveTask_ (startNextTaskIfPossible env).
Definition executeTask (env : Env) := executeTask_ (startNextTaskIfPossible env) env.

(** [getUsedCapacity], [setUsedCapacity], [adjustUsedCapacity] *)
Definition getUsedCapacity (env : Env) (s : State) : Z * State :=
  let s := if areTimersEnabled s then s else applyMissedRules (now env) s in
  (usedCapacity s, s).

Definition setUsedCapacity (env : Env) (v : Z) (s : State) : Completion :=
  match checkUsedCapacity (Some v) (maxCapacity (options s)) with
  | Some e => Throw e s
  | None => Normal (startNextTaskIfPossible env (set_usedCapacity v s))
  end.

Definition adjustUsedCapacity (env : Env) (diff : Z) (s : State) : Completion :=
  match maxCapacity (options s) with
  | None => Throw (CapacityLimiterError invalid_call) s
  | Some m =>
      Normal (startNextTaskIfPossible env
                (set_usedCapacity (Z.min (Z.max 0 (usedCapacity s + diff)) m) s))
  end.

Definition priorityOf (s : State) (id : TaskId) : Z :=
  match tasks s !! id with
  | Some t => priority t
  | None => 0
  end.

Definition timeLimitOf (s : State) (id : TaskId) : option Z :=
  match tasks s !! id with
  | Some t => timeLimit t
  | None => None
  end.

(** [scheduleTask], in three parts.  First the checks that throw: the
    task capacity against [maxCapacity] (with the clamp of
    wait-for-full-capacity), its sign, the priority. *)
Definition admissionChecks (id : TaskId) (task : Task) (s : State) : Completion :=
  let exceeds :=
    match maxCapacity (options s) with
    | Some m => m <? capacity task
    | None => false
    end in
  match exceeds, optTaskExceedsMaxCapacityStrategy (options s) with
  | true, exceeds_throw_error => Throw (CapacityLimiterError max_capacity_exceeded) s
  | _, _ =>
      let capacity' := if exceeds then default 0 (maxCapacity (options s)) else capacity task in
      let s := if exceeds then updTask id (task_set_capacity capacity') s else s in
      if capacity' <? 0 then Throw (CapacityLimiterError invalid_argument) s
      else if (priority task <? 0) || (maxPriority <? priority task)
      then Throw (CapacityLimiterError invalid_argument) s
      else Normal s
  end.

(** Then the full queue: [inl] goes on to insert the task, [inr] returns.
    With [queueSizeExceededStrategy] given as [undefined] none of the
    three comparisons holds and the task is inserted. *)
Definition queueOverflow (id : TaskId) (task : Task) (s : State) : State + State :=
  if truthy (maxQueueSize (options s))
     && (default 0 (maxQueueSize (options s)) <=? DLL.length (queue s))
  then
    match optQueueSizeExceededStrategy (options s) with
    | queue_throw_error =>
        inr (rejectTask id (CapacityLimiterError queue_size_exceeded) s)
    | replace_by_priority =>
        match DLL.peekLast (queue s) with
        | Some leastPriorityTask =>
            if priority task <? priorityOf s leastPriorityTask then
              inl (rejectTask leastPriorityTask (CapacityLimiterError queue_size_exceeded)
                     (removeTaskFromQueues leastPriorityTask s))
            else inr (rejectTask id (CapacityLimiterError queue_size_exceeded) s)
        | None => inr (rejectTask id (CapacityLimiterError queue_size_exceeded) s)
        end
    | replace =>
        match DLL.shift (tasksByTimeAdded s) with
        | (Some oldestTask, rest) =>
            inl (rejectTask oldestTask (CapacityLimiterError queue_size_exceeded)
                   (removeTaskFromQueues oldestTask (set_tasksByTimeAdded rest s)))
        | (None, _) => inl s
        end
    | queue_undefined => inl s
    end
  else inl s.

(** The time limit the task is queued with: the waiting limit counts from
    [timeAdded] unless the task carries a limit already. *)
Definition queuedTimeLimit (task : Task) (s : State) : option Z :=
  let queueWaitingLimit :=
    nullish (p_queueWaitingLimit (params task)) (queueWaitingLimit (options s)) in
  if truthy queueWaitingLimit && negb (truthy (timeLimit task))
  then Some (timeAdded task + default 0 queueWaitingLimit)
  else timeLimit task.

(** Last the insertion: into the queue behind the last task of the same
    or a more urgent priority and at the end of [tasksByTimeAdded]; *)
Definition insertIntoQueue (id : TaskId) (task : Task) (s : State) : State :=
  let s := set_queue
             (DLL.putAfter id (fun other => priorityOf s other <=? priority task)
                (queue s)) s in
  set_tasksByTimeAdded (DLL.push id (tasksByTimeAdded s)) s.

(** into [tasksByTimeLimit] before the first task with a later limit,
    when the task has a time limit; *)
Definition insertByTimeLimit (id : TaskId) (task : Task) (s : State) : State :=
  let limit := queuedTimeLimit task s in
  let s := updTask id (task_set_timeLimit limit) s in
  if truthy limit then
    set_tasksByTimeLimit
      (DLL.putBefore id
         (fun other => match timeLimitOf s other with
                       | Some l => default 0 limit <? l
                       | None => false
                       end)
         (tasksByTimeLimit s)) s
  else s.

(** the queue-waiting timer, not for a retry; *)
Definition armQueueWaitingTimer (env : Env) (id : TaskId) (task : Task) (s : State) : State :=
  let queueWaitingTimeout :=
    nullish (p_queueWaitingTimeout (params task)) (queueWaitingTimeout (options s)) in
  if truthy queueWaitingTimeout && negb (truthy (retryAttempt task)) then
    let '(h, s) := setTimer (QueueWaitingTimer id)
                            (now env + default 0 queueWaitingTimeout) s in
    updTask id (task_set_queueWaitingTimerId (Some h)) s
  else s.

(** and the release-rule timers are woken. *)
Definition enqueue (env : Env) (id : TaskId) (task : Task) (s : State) : State :=
  let s := insertIntoQueue id task s in
  let s := insertByTimeLimit id task s in
  let s := armQueueWaitingTimer env id task s in
  enableTimers env s.

Definition scheduleTask (env : Env) (id : TaskId) (s : State) : Completion :=
  match tasks s !! id with
  | None => Normal s
  | Some task =>
      match stopped s with
      | Some _ => Normal (rejectTask id (CapacityLimiterError stopped_error) s)
      | None =>
          match admissionChecks id task s with
          | Throw e s => Throw e s
          | Normal s =>
              match queueOverflow id task s with
              | inr s => Normal s
              | inl s => Normal (startNextTaskIfPossible env (enqueue env id task s))
              end
          end
      end
  end.

(** [schedule]: the three argument shapes come down to the parameters. *)
Definition newTask (env : Env) (p : TaskParams) : Task :=
  mkTask (default defaultPriority (p_priority p))
         (default defaultCapacity (p_capacity p))
         None None (now env) None None None None p Pending.

Definition schedule (env : Env) (p : TaskParams) (s : State) : Completion :=
  let id := length (tasks s) in
  scheduleTask env id (set_tasks (tasks s ++ [newTask env p]) s).

(** [stop] *)
Record StopParams := mkStopParams {
  stopAll : bool;
  stopWaitingTasks : bool;
  rejectExecutingTasks : bool;
  stopTaskRetries : bool
}.

(** The promises the promise returned by [stop] waits for. *)
Record StopResult := mkStopResult {
  awaitedTasks : list TaskId;
  awaitedStopped : option nat
}.

Definition rejectEach (ids : list TaskId) (e : error) (s : State) : State :=
  foldl (fun s id => rejectTask id e s) s ids.

Definition stop (env : Env) (params : option StopParams) (s : State) : StopResult * State :=
  let params :=
    match params with
    | Some p => if stopAll p then Some (mkStopParams false true true true) else Some p
    | None => None
    end in
  let s :=
    match params with
    | Some p =>
        if stopWaitingTasks p || rejectExecutingTasks p || stopWaitingTasks p then
          let e := CapacityLimiterError stopped_error in
          let s :=
            if stopWaitingTasks p then
              let s := rejectEach (queue s) e s in
              let s := set_queue (DLL.clear (queue s)) s in
              let s := set_tasksByTimeAdded (DLL.clear (tasksByTimeAdded s)) s in
              set_tasksByTimeLimit (DLL.clear (tasksByTimeLimit s)) s
            else s in
          let s :=
            if rejectExecutingTasks p then
              set_executingTasks [] (rejectEach (executingTasks s) e s)
            else s in
          if stopTaskRetries p then rejectAll e s else s
        else s
    | None => s
    end in
  let s := set_stopped (Some (mkStopped None)) s in
  let awaited := executingTasks s ++ getAwaitingTasks s in
  if bool_decide (0 < DLL.length (queue s)) then
    let k := length (stopPromises s) in
    let s := set_stopPromises (stopPromises s ++ [false]) s in
    let s := set_stopped (Some (mkStopped (Some k))) s in
    (mkStopResult awaited (Some k), startNextTaskIfPossible env s)
  else (mkStopResult awaited None, s).

(** ** The event loop *)

Inductive Event :=
| Schedule (p : TaskParams)
| CallbackResolved (run : nat)
| CallbackRejected (run : nat) (e : error)
| TimerFired (handle : nat)
| OnFailureSettled (call : nat) (r : OnFailureOutcome)
| GetUsedCapacity
| SetUsedCapacity (v : Z)
| AdjustUsedCapacity (diff : Z)
| SetOptions (o : CapacityLimiterOptions)
| Stop (p : option StopParams).

Definition applyRuleByInterval (env : Env) (rule : ReleaseRule) (s : State) : State :=
  let s := updStatus rule (fun st => mkStatus (timerId st) (intervalId st) (now env)) s in
  let s := applyRule rule 1 s in
  startNextTaskIfPossible env s.

(** What the closure of a run does when the callable settles or the
    execution timer fires: nothing once [finished]. *)
Definition whenUnfinished (run : nat) (k : TaskId -> State -> State) (s : State) : State :=
  match runs s !! run with
  | Some r =>
      if finished r then s
      else
        let s := set_executingTasks (setDelete (ex_task r) (executingTasks s)) s in
        let s := finishRun run s in
        k (ex_task r) s
  | None => s
  end.

Definition timerFired (env : Env) (handle : nat) (s : State) : Completion :=
  match timers s !! handle with
  | Some (Some t) =>
      match callback t with
      | QueueWaitingTimer id =>
          let s := clearTimer handle s in
          let s := removeTaskFromQueues id s in
          Normal (rejectTask id (CapacityLimiterError queue_timeout) s)
      | ExecutionTimer run =>
          let s := clearTimer handle s in
          Normal (whenUnfinished run
                    (fun id => tryRejectTask env id (CapacityLimiterError execution_timeout)) s)
      | RetryTimer id =>
          let s := clearTimer handle s in
          let s := set_retryTimers
                     (filter (fun info => rt_timer info <> handle) (retryTimers s)) s in
          scheduleTask env id s
      | RuleTimeout rule =>
          let s := clearTimer handle s in
          let '(h, s) := setTimer (RuleInterval rule) (now env + interval rule) s in
          let s := updStatus rule (fun st => mkStatus None (Some h) (lastApplied st)) s in
          Normal (applyRuleByInterval env rule s)
      | RuleInterval rule => Normal (applyRuleByInterval env rule s)
      end
  | _ => Normal s
  end.

Definition step (env : Env) (ev : Event) (s : State) : Completion :=
  match ev with
  | Schedule p => schedule env p s
  | CallbackResolved run => Normal (whenUnfinished run (resolveTask env) s)
  | CallbackRejected run e =>
      Normal (whenUnfinished run (fun id => tryRejectTask env id e) s)
  | TimerFired handle => timerFired env handle s
  | OnFailureSettled call r => Normal (onFailureSettled env call r s)
  | GetUsedCapacity => Normal (snd (getUsedCapacity env s))
  | SetUsedCapacity v => setUsedCapacity env v s
  | AdjustUsedCapacity diff => adjustUsedCapacity env diff s
  | SetOptions o => setOptions env o s
  | Stop p => Normal (snd (stop env p s))
  end.

(** A run of the limiter: the events in order, each with what the
    environment supplies to it; a thrown error leaves the state as the
    throw found it. *)
Fixpoint run (events : list (Env * Event)) (s : State) : State :=
  match events with
  | [] => s
  | (env, ev) :: rest => run rest (stateOf (step env ev s))
  end.

(** ** Properties the theorems are stated with *)

(** P1 of the specification, as written. *)
Definition withinLimits (s : State) : Prop :=
  (forall m, maxCapacity (options s) = Some m -> usedCapacity s <= m) /\
  (forall c, maxConcurrent (options s) = Some c -> usedConcurrent s <= c).

(** [a] comes before [b] in [l]. *)
Definition precedes (a b : TaskId) (l : list TaskId) : Prop :=
  exists l1 l2 l3, l = l1 ++ a :: l2 ++ b :: l3.

(** The release rules that cannot raise the used capacity above [m]:
    a reset value is at most [m], a reduce rule has a non-negative value
    and a positive interval, and a reset to a positive value is not
    combined with a reduce rule. *)
Definition ruleOK (m : Z) (rules : list ReleaseRule) (r : ReleaseRule) : Prop :=
  match type r with
  | reset =>
      default 0 (value r) <= m /\
      ((exists r', r' ∈ rules /\ type r' = reduce) -> default 0 (value r) <= 0)
  | reduce => 0 <= default 0 (value r) /\ 0 < interval r
  end.

Definition rulesOK (maxCapacity : option Z) (rules : list ReleaseRule) : Prop :=
  match maxCapacity with
  | Some m => Forall (ruleOK m rules) rules
  | None => True
  end.

Definition optionsOK (o : CapacityLimiterOptions) : Prop :=
  rulesOK (maxCapacity o) (default [] (releaseRules o)).

(** A reconfiguration that leaves the limits at or above what is in use. *)
Definition keepsLimits (s : State) (o : CapacityLimiterOptions) : Prop :=
  (forall m, maxCapacity o = Some m -> usedCapacity s <= m) /\
  (forall c, maxConcurrent o = Some c -> 0 < c -> usedConcurrent s <= c).

(** The runs in which every reconfiguration keeps the limits and installs
    rules that are [rulesOK]. *)
Fixpoint admissible (events : list (Env * Event)) (s : State) : Prop :=
  match events with
  | [] => True
  | (env, ev) :: rest =>
      match ev with
      | SetOptions o => optionsOK o /\ keepsLimits s o
      | _ => True
      end /\ admissible rest (stateOf (step env ev s))
  end.

(** P1 with the concurrency bound for a positive [maxConcurrent]. *)
Definition withinPositiveLimits (s : State) : Prop :=
  (forall m, maxCapacity (options s) = Some m -> usedCapacity s <= m) /\
  (forall c, maxConcurrent (options s) = Some c -> 0 < c -> usedConcurrent s <= c).

(** The loop gets past its two early returns: it is not stopped with an
    empty queue, and a slot of concurrency is free. *)
Definition passesGates (s : State) : Prop :=
  ~ (is_Some (stopped s) /\ queue s = []) /\
  truthy (maxConcurrent (options s))
  && (default 0 (maxConcurrent (options s)) <=? usedConcurrent s) = false.

(** What the release-rule manager and [applyRule] leave alone. *)
Definition besideRules (s : State) :=
  (usedConcurrent s, queue s, tasksByTimeAdded s, tasksByTimeLimit s, options s,
   originalOptions s, retryTimers s, executingTasks s, stopped s, tasks s, runs s,
   onFailureCalls s, stopPromises s).

(** Every member of [tasksByTimeLimit] carries a time limit, as the
    non-null assertions of the source on [timeLimit] take for granted. *)
Definition limitsSet (s : State) : Prop :=
  Forall (fun id => is_Some (timeLimitOf s id)) (tasksByTimeLimit s).

(** *** The invariant behind the limits

    What the accounting of capacity and concurrency relies on: the limits
    hold ([maxCapacity] is not negative), no task holds a negative
    reservation, the queued tasks have a capacity that is not negative,
    and the installed release rules are [rulesOK]. *)
Definition taskOK (t : Task) : Prop :=
  (forall r, reservedCapacity t = Some r -> 0 <= r) /\
  (forall r, reservedConcurrent t = Some r -> 0 <= r).

Definition queuedOK (store : list Task) (id : TaskId) : Prop :=
  exists t, store !! id = Some t /\ 0 <= capacity t.

Record Accounted (s : State) : Prop := mkAccounted {
  acc_capacity : forall m, maxCapacity (options s) = Some m -> 0 <= m /\ usedCapacity s <= m;
  acc_concurrent :
    forall c, maxConcurrent (options s) = Some c -> 0 < c -> usedConcurrent s <= c;
  acc_tasks : Forall taskOK (tasks s);
  acc_queue : Forall (queuedOK (tasks s)) (queue s);
  acc_limit : Forall (queuedOK (tasks s)) (tasksByTimeLimit s);
  acc_rules : rulesOK (maxCapacity (options s)) (map fst (releaseTimers s))
}.

(** What [Accounted] looks at. *)
Definition accounts (s : State) :=
  (usedCapacity s, usedConcurrent s, options s, tasks s, queue s, tasksByTimeLimit s,
   map fst (releaseTimers s)).

(** An assignment to a task that keeps [taskOK] and the sign of the
    capacity. *)
Definition benign (f : Task -> Task) : Prop :=
  forall t, (taskOK t -> taskOK (f t)) /\ (0 <= capacity t -> 0 <= capacity (f t)).

(** The timers of the release rules.  [handlesOf] is the table of the
    rules with the timers their statuses hold: the rules of the table are
    distinct, a timer of a rule that is armed is one the status of the
    rule holds, a status holds one timer at most, and none while the
    timers are disabled. *)
Definition ruleOf (cb : TimerCallback) : option ReleaseRule :=
  match cb with
  | RuleTimeout r | RuleInterval r => Some r
  | _ => None
  end.

Definition handlesOf (s : State) : list (ReleaseRule * (option nat * option nat)) :=
  map (fun e => (fst e, (timerId (snd e), intervalId (snd e)))) (releaseTimers s).

Definition holds (p : option nat * option nat) (h : nat) : Prop :=
  fst p = Some h \/ snd p = Some h.

Record RuleTimersCore (s : State) : Prop := mkRuleTimersCore {
  rt_distinct : NoDup (map fst (handlesOf s));
  rt_held : forall h t r, timers s !! h = Some (Some t) -> ruleOf (callback t) = Some r ->
                          exists p, (r, p) ∈ handlesOf s /\ holds p h;
  rt_single : forall r p, (r, p) ∈ handlesOf s -> fst p = None \/ snd p = None
}.

Definition asleep (s : State) : Prop :=
  releaseRuleTimersEnabled s = false ->
  forall r p, (r, p) ∈ handlesOf s -> p = (None, None).

Definition RuleTimersOK (s : State) : Prop := RuleTimersCore s /\ asleep s.

(** A step that leaves the timers held by the statuses alone and arms no
    timer of a rule. *)
Definition armsNoRule (s s' : State) : Prop :=
  handlesOf s' = handlesOf s /\
  releaseRuleTimersEnabled s' = releaseRuleTimersEnabled s /\
  forall h t, timers s' !! h = Some (Some t) -> is_Some (ruleOf (callback t)) ->
              timers s !! h = Some (Some t).

(** The entry of [handlesOf] for an entry of the table, the update of the
    timers a rule holds, and the status that holds none. *)
Abbreviation heldBy := (fun e : ReleaseRule * ReleaseRuleStatus =>
                        (fst e, (timerId (snd e), intervalId (snd e)))).
Abbreviation updHandles r g :=
  (map (fun e : ReleaseRule * (option nat * option nat) =>
          if decide (fst e = r) then (fst e, g (snd e)) else e)).
Abbreviation unheld := (@None nat, @None nat).

(** A timer of a rule fires for a rule of the table only. *)
Definition ruleTimersInstalled (s : State) : Prop :=
  forall h t r, timers s !! h = Some (Some t) -> ruleOf (callback t) = Some r ->
                r ∈ map fst (releaseTimers s).

(** What [Accounted] looks at but for the rules. *)
Definition accountsButRules (s : State) :=
  (usedCapacity s, usedConcurrent s, options s, tasks s, queue s, tasksByTimeLimit s).

(** What the first loop of [applyMissedRules] returns: nothing, or the
    catch-up time of a reset rule of the table. *)
Definition resetFound (keys : list ReleaseRule) (acc : option Z * option ReleaseRule) : Prop :=
  acc = (None, None) \/
  exists t r, acc = (Some t, Some r) /\ type r = reset /\ r ∈ keys.

(** *** The indices

    [tasksByTimeLimit] lists queued tasks that carry a time limit, each
    once: what makes every round of the loop that goes on shorten the
    queue. *)
Definition indexed (s : State) : Prop :=
  NoDup (tasksByTimeLimit s) /\
  forall id, id ∈ tasksByTimeLimit s -> id ∈ queue s /\ truthy (timeLimitOf s id) = true.

(** A step that leaves the two indices and the time limits of the members
    of [tasksByTimeLimit] alone. *)
Definition keepsIndex (s s' : State) : Prop :=
  tasksByTimeLimit s' = tasksByTimeLimit s /\ queue s' = queue s /\
  forall id, id ∈ tasksByTimeLimit s -> timeLimitOf s' id = timeLimitOf s id.

(** *** The places of a task

    A task that has not settled is in the queue, in a run that has not
    finished, behind an armed retry timer or behind a call of the
    [onFailure] hook that has not settled: [placesOf] counts the places a
    task is in. *)
Definition occurrences (id : TaskId) (l : list TaskId) : nat := count_occ Nat.eq_dec l id.

(** One for the task [id] itself. *)
Definition oneFor (o : option TaskId) (id : TaskId) : nat :=
  match o with
  | Some x => if decide (x = id) then 1 else 0
  | None => 0
  end.

(** The task a run, a timer, a call of the hook holds. *)
Definition runToken (x : Execution) : option TaskId :=
  if finished x then None else Some (ex_task x).

Definition retryToken (t : option Timer) : option TaskId :=
  match t with
  | Some tm => match callback tm with RetryTimer id => Some id | _ => None end
  | None => None
  end.

Definition hookToken (c : option OnFailureCall) : option TaskId := option_map of_task c.

Definition placesOf (s : State) (id : TaskId) : nat :=
  occurrences id (queue s) + occurrences id (omap runToken (runs s))
  + occurrences id (omap retryToken (timers s))
  + occurrences id (omap hookToken (onFailureCalls s)).

(** No task is in two places, and the tasks in a place are tasks of the
    store. *)
Definition onePlace (s : State) : Prop :=
  forall id, (placesOf s id <= 1)%nat /\
             ((length (tasks s) <= id)%nat -> placesOf s id = 0%nat).

(** A step that puts no task into a place and drops no task of the store. *)
Definition fillsNoPlace (s0 s : State) : Prop :=
  (forall id, placesOf s id <= placesOf s0 id)%nat /\ (length (tasks s0) <= length (tasks s))%nat.

(** The task [id] of the store is in no place. *)
Definition unplaced (id : TaskId) (s : State) : Prop :=
  onePlace s /\ placesOf s id = 0%nat /\ (id < length (tasks s))%nat.

(** What the runs keep: the indices and the places. *)
Definition placed (s : State) : Prop := indexed s /\ onePlace s.

(** *** Orders

    A list in the order of a key, least first. *)
Fixpoint ascending {A : Type} (key : A -> Z) (l : list A) : Prop :=
  match l with
  | [] => True
  | a :: rest => Forall (fun b => key a <= key b) rest /\ ascending key rest
  end.

(** *** What every step keeps

    What stays of a task object whatever is assigned to it. *)
Definition sameTask (t t' : Task) : Prop :=
  priority t' = priority t /\ timeAdded t' = timeAdded t /\ params t' = params t /\
  (promise t <> Pending -> promise t' = promise t).

Definition steady (f : Task -> Task) : Prop := forall t, sameTask t (f t).

(** What every step keeps: the tasks of the store with what stays of
    them, the runs with their task and a [finished] that is not taken
    back, and a limiter that was stopped is stopped. *)
Definition evolves (s s' : State) : Prop :=
  (forall id t, tasks s !! id = Some t -> exists t', tasks s' !! id = Some t' /\ sameTask t t') /\
  (forall r x, runs s !! r = Some x ->
     exists x', runs s' !! r = Some x' /\ ex_task x' = ex_task x /\
                (finished x = true -> finished x' = true)) /\
  (is_Some (stopped s) -> is_Some (stopped s')).

(** A step that, besides, puts nothing into the queue and keeps the
    order of what it leaves there. *)
Definition thins (s s' : State) : Prop :=
  evolves s s' /\ sublist (queue s') (queue s).

(** The queued tasks are tasks of the store with a valid priority, and
    the queue is in the order of the priorities. *)
Definition byPriority (s : State) : Prop :=
  (forall id, id ∈ queue s ->
     exists t, tasks s !! id = Some t /\ 0 <= priority t <= maxPriority) /\
  ascending (priorityOf s) (queue s).

(** The events that may put a task into the queue: [schedule], and the
    retry timer that admits a task again. *)
Definition admits (s : State) (ev : Event) : Prop :=
  match ev with
  | Schedule _ => True
  | TimerFired h =>
      match timers s !! h with
      | Some (Some t) => match callback t with RetryTimer _ => True | _ => False end
      | _ => False
      end
  | _ => False
  end.

(** The event completes the run [r]: the callable settles, or the
    execution timer of the run fires. *)
Definition completes (s : State) (ev : Event) (r : nat) : Prop :=
  match ev with
  | CallbackResolved r' | CallbackRejected r' _ => r' = r
  | TimerFired h => exists t, timers s !! h = Some (Some t) /\ callback t = ExecutionTimer r
  | _ => False
  end.

(** The tasks of the runs that have not finished: the callables in
    flight. *)
Definition inFlight (s : State) : list TaskId := omap runToken (runs s).

(** What the accounting of the concurrency looks at. *)
Definition slotsOf (s : State) : Z * list TaskId * list (option Z) :=
  (usedConcurrent s, inFlight s, map reservedConcurrent (tasks s)).

(** [usedConcurrent] counts the callables in flight, and a task holds a
    slot for each of its runs that has not finished. *)
Definition slotted (s : State) : Prop :=
  usedConcurrent s = Z.of_nat (length (inFlight s)) /\
  forall id t, tasks s !! id = Some t ->
    default 0 (reservedConcurrent t) = Z.of_nat (occurrences id (inFlight s)).

(** The task [id] holds a slot and has no run: between the reservation
    and the call of the callable, and between the end of a run and the
    release. *)
Definition owing (id : TaskId) (s : State) : Prop :=
  usedConcurrent s = Z.of_nat (length (inFlight s)) + 1 /\
  (exists t, tasks s !! id = Some t /\ reservedConcurrent t = Some 1) /\
  occurrences id (inFlight s) = 0%nat /\
  forall i t, i <> id -> tasks s !! i = Some t ->
    default 0 (reservedConcurrent t) = Z.of_nat (occurrences i (inFlight s)).

(** A step that leaves the slots alone. *)
Definition keepsSlots (s s' : State) : Prop := slotsOf s' = slotsOf s.

(** An assignment to a task that leaves its slot alone. *)
Definition keepsSlot (f : Task -> Task) : Prop :=
  forall t, reservedConcurrent (f t) = reservedConcurrent t.

(** The invariant: the tasks are in place and the slots are counted. *)
Definition counted (s : State) : Prop := placed s /\ slotted s.

(** The time limit the order of [tasksByTimeLimit] goes by. *)
Definition limitOf (s : State) (id : TaskId) : Z := default 0 (timeLimitOf s id).

(** A step that leaves the three indices, the options and the time
    limits of the queued tasks alone. *)
Definition rests (s s' : State) : Prop :=
  queue s' = queue s /\ tasksByTimeAdded s' = tasksByTimeAdded s /\
  tasksByTimeLimit s' = tasksByTimeLimit s /\ options s' = options s /\
  forall id, id ∈ queue s -> timeLimitOf s' id = timeLimitOf s id.

(** An assignment to a task that leaves its time limit alone. *)
Definition keepsLimit (f : Task -> Task) : Prop := forall t, timeLimit (f t) = timeLimit t.

(** [tasksByTimeAdded] holds the queued tasks. *)
Definition aligned (s : State) : Prop :=
  forall id, occurrences id (tasksByTimeAdded s) = occurrences id (queue s).

(** [tasksByTimeLimit] is in the order of the time limits, *)
Definition byLimit (s : State) : Prop := ascending (limitOf s) (tasksByTimeLimit s).

(** and holds every queued task that has a time limit. *)
Definition complete (s : State) : Prop :=
  forall id, id ∈ queue s -> truthy (timeLimitOf s id) = true -> id ∈ tasksByTimeLimit s.

(** A positive [maxQueueSize] comes with a [queueSizeExceededStrategy]
    that is not given as [undefined]. *)
Definition decided (o : CapacityLimiterOptions) : Prop :=
  forall n, maxQueueSize o = Some n -> 0 < n ->
            optQueueSizeExceededStrategy o <> queue_undefined.

(** The queue holds no more tasks than a positive [maxQueueSize], whose
    [queueSizeExceededStrategy] is not given as [undefined]. *)
Definition bounded (s : State) : Prop :=
  forall n, maxQueueSize (options s) = Some n -> 0 < n ->
            optQueueSizeExceededStrategy (options s) <> queue_undefined /\
            DLL.length (queue s) <= n.

(** The invariant of the indices; the bound of the queue is kept along
    with it when [b] is set. *)
Definition orderly (b : bool) (s : State) : Prop :=
  placed s /\ aligned s /\ byLimit s /\ complete s /\ (b = true -> bounded s).

(** A reconfiguration that leaves room for the queue as it is, and does
    not give the [queueSizeExceededStrategy] of a positive [maxQueueSize]
    as [undefined]. *)
Definition leavesRoom (s : State) (ev : Event) : Prop :=
  match ev with
  | SetOptions o =>
      forall n, maxQueueSize o = Some n -> 0 < n ->
                optQueueSizeExceededStrategy o <> queue_undefined /\
                DLL.length (queue s) <= n
  | _ => True
  end.

Fixpoint roomy (events : list (Env * Event)) (s : State) : Prop :=
  match events with
  | [] => True
  | (env, ev) :: rest => leavesRoom s ev /\ roomy rest (stateOf (step env ev s))
  end.

(** What the invariant says of the indices. *)
Definition indices (b : bool) (s : State) : Prop :=
  aligned s /\ byLimit s /\ complete s /\ (b = true -> bounded s).

(** The task [x] is taken out of the three indices. *)
Definition drops (x : TaskId) (s s' : State) : Prop :=
  queue s' = DLL.delete x (queue s) /\
  tasksByTimeAdded s' = DLL.delete x (tasksByTimeAdded s) /\
  tasksByTimeLimit s' = DLL.delete x (tasksByTimeLimit s) /\
  options s' = options s /\
  forall id, timeLimitOf s' id = timeLimitOf s id.

(** Room for one more task under a positive [maxQueueSize]. *)
Definition roomLeft (b : bool) (s : State) : Prop :=
  b = true -> forall n, maxQueueSize (options s) = Some n -> 0 < n ->
                        optQueueSizeExceededStrategy (options s) <> queue_undefined /\
                        DLL.length (queue s) < n.

(** The task a call made to the outside runs the callable of. *)
Definition callOf (e : Effect) : option TaskId :=
  match e with
  | CallbackInvoked id => Some id
  | _ => None
  end.

(** The tasks whose callable was called, in the order of the calls. *)
Definition invoked (s : State) : list TaskId := omap callOf (log s).

(** How many times the callable of a task was called. *)
Definition callsOf (s : State) (id : TaskId) : Z := Z.of_nat (occurrences id (invoked s)).

(** [task.retryAttempt ?? 0] *)
Definition attemptOf (t : Task) : Z := default 0 (retryAttempt t).

(** The retries the strategy a task was scheduled with allows: none for
    ['none'], [retries] or the default for a retry strategy; a custom
    strategy sets no number, and a task scheduled without a strategy
    falls to the strategy of the limiter at the time of the failure. *)
Definition ownRetries (p : TaskParams) : option Z :=
  match p_failRecoveryStrategy p with
  | Some StrategyNone => Some 0
  | Some StrategyRetry => Some (default defaultRetriesLimit (retries defaultRetryOptions))
  | Some (Strategy (RetryFailRecoveryStrategy o)) => Some (default defaultRetriesLimit (retries o))
  | _ => None
  end.

(** The places a task waits in: the queue, an armed retry timer, a call
    of the [onFailure] hook that has not settled. *)
Definition waitingOf (s : State) (id : TaskId) : nat :=
  (occurrences id (queue s) + occurrences id (omap retryToken (timers s))
   + occurrences id (omap hookToken (onFailureCalls s)))%nat.

(** What the count of the attempts looks at. *)
Definition tallyOf (s : State) : list TaskId * list (option Z) * list TaskParams :=
  (invoked s, map retryAttempt (tasks s), map params (tasks s)).

(** A step that calls no callable and counts no attempt. *)
Definition keepsTally (s s' : State) : Prop := tallyOf s' = tallyOf s.

(** An assignment to a task that leaves its attempts and its parameters
    alone. *)
Definition keepsTry (f : Task -> Task) : Prop :=
  forall t, retryAttempt (f t) = retryAttempt t /\ params (f t) = params t.

(** The callable of a task is called once more than its failures were
    counted at most, and no more than that while the task waits; with a
    number of retries of its own the task is in a place only with that
    many failures counted at most. *)
Definition attempted (s : State) : Prop :=
  (forall id, (length (tasks s) <= id)%nat -> occurrences id (invoked s) = 0%nat) /\
  forall id t, tasks s !! id = Some t ->
    callsOf s id <= attemptOf t + 1 /\
    ((0 < waitingOf s id)%nat -> callsOf s id <= attemptOf t) /\
    forall n, ownRetries (params t) = Some n ->
      callsOf s id <= Z.max n 0 + 1 /\
      ((0 < placesOf s id)%nat -> attemptOf t <= Z.max n 0).

(** The task [id] may be put into a place where it waits. *)
Definition ready (id : TaskId) (s : State) : Prop :=
  forall t, tasks s !! id = Some t ->
    callsOf s id <= attemptOf t /\
    forall n, ownRetries (params t) = Some n -> attemptOf t <= Z.max n 0.

(** The invariant: the tasks are in place and the attempts are counted. *)
Definition tallied (s : State) : Prop := placed s /\ attempted s.

(** Nothing can be started: every slot of concurrency is taken, or no
    task is selected. *)
Definition blocked (env : Env) (s : State) : Prop :=
  truthy (maxConcurrent (options s))
  && (default 0 (maxConcurrent (options s)) <=? usedConcurrent s) = true \/
  pickTaskToExecute env s = None.

(** The promise of the task is pending. *)
Definition pending (s : State) (id : TaskId) : Prop :=
  exists t, tasks s !! id = Some t /\ promise t = Pending.

(** [task.queueWaitingTimerId] *)
Definition queueTimerOf (s : State) (id : TaskId) : option nat :=
  match tasks s !! id with
  | Some t => queueWaitingTimerId t
  | None => None
  end.

(** What the settling of the promises looks at. *)
Definition wordOf (s : State) : list PromiseState * list (option nat) * option StoppedState :=
  (map promise (tasks s), map queueWaitingTimerId (tasks s), stopped s).

(** A step that arms no queue-waiting timer. *)
Definition armsNoQueueTimer (s s' : State) : Prop :=
  forall h tm id, timers s' !! h = Some (Some tm) -> callback tm = QueueWaitingTimer id ->
                  timers s !! h = Some (Some tm).

(** A step that settles no promise, arms no queue-waiting timer and
    leaves [stopped] alone. *)
Definition keepsWord (s s' : State) : Prop := wordOf s' = wordOf s /\ armsNoQueueTimer s s'.

(** An assignment to a task that leaves its promise and its
    queue-waiting timer alone. *)
Definition keepsPromise (f : Task -> Task) : Prop :=
  forall t, promise (f t) = promise t /\ queueWaitingTimerId (f t) = queueWaitingTimerId t.

(** The tasks in a place have a pending promise, and the armed
    queue-waiting timer of a task with a pending promise is the timer of
    a queued task, the one the task holds. *)
Definition awaited (s : State) : Prop :=
  (forall id, (0 < placesOf s id)%nat -> pending s id) /\
  (forall h tm id, timers s !! h = Some (Some tm) -> callback tm = QueueWaitingTimer id ->
     (id < length (tasks s))%nat /\
     (pending s id -> id ∈ queue s /\ queueTimerOf s id = Some h)).

(** The invariant of a limiter that was not stopped: the tasks are in
    place and the promises of the tasks in a place are pending. *)
Definition live (s : State) : Prop := placed s /\ awaited s.

(** The promise of the task is rejected with the error. *)
Definition rejectedWith (e : error) (s : State) (id : TaskId) : Prop :=
  exists t, tasks s !! id = Some t /\ promise t = Rejected e.

(** The retry timers know when they are due: the task an armed retry
    timer is to admit again has the moment the timer is due as its time
    limit. *)
Definition retryDue (s : State) : Prop :=
  forall h tm id, timers s !! h = Some (Some tm) -> callback tm = RetryTimer id ->
                  timeLimitOf s id = Some (dueAt tm).

(** A step that arms no retry timer. *)
Definition armsNoRetryTimer (s s' : State) : Prop :=
  forall h tm id, timers s' !! h = Some (Some tm) -> callback tm = RetryTimer id ->
                  timers s !! h = Some (Some tm).

(** A step that arms no retry timer and keeps the time limit of every
    task, the task [o] apart. *)
Definition keepsDue (o : option TaskId) (s s' : State) : Prop :=
  (forall id t, Some id <> o -> tasks s !! id = Some t ->
                exists t', tasks s' !! id = Some t' /\ timeLimit t' = timeLimit t) /\
  armsNoRetryTimer s s'.

(** No retry timer is armed for the task. *)
Definition awake (id : TaskId) (s : State) : Prop :=
  forall h tm, timers s !! h = Some (Some tm) -> callback tm <> RetryTimer id.

(** The tasks are in place and the retry timers know when they are due. *)
Definition timed (s : State) : Prop := placed s /\ retryDue s.

(** ** Scenarios *)

Module Scenario.

Definition at_ (t : Z) : Env := mkEnv t (fun _ => (0, 1)) (fun _ => None).

Definition withMaxCapacity (m : Z) : CapacityLimiterOptions :=
  mkOptions (Some m) None None None None None None None None None None None None.

Definition ofCapacity (c : Z) : TaskParams := mkParams (Some c) None None None None None.

Definition started (o : CapacityLimiterOptions) : State := stateOf (constructor (at_ 0) o).

(** A limiter whose tasks are retried, one task failed at 5 ms and asleep
    until its retry at 1005 ms. *)
Definition retrying : State :=
  run [ (at_ 0, Schedule (ofCapacity 1));
        (at_ 5, CallbackRejected 0%nat (TaskFailure 1)) ]
      (started (mkOptions (Some 10) None None None None None None None None None None
                          (Some StrategyRetry) None)).

Definition onlyStopTaskRetries : StopParams := mkStopParams false false false true.

(** One task running and one queued behind it. *)
Definition oneQueued : State :=
  run [ (at_ 0, Schedule (ofCapacity 10)); (at_ 1, Schedule (ofCapacity 10)) ]
      (started (withMaxCapacity 10)).

Definition drain : list (Env * Event) :=
  [ (at_ 10, CallbackResolved 0%nat); (at_ 20, CallbackResolved 1%nat) ].

(** A reset rule installed at 0 ms, a reduce rule added at 230 ms while
    the timers sleep, the used capacity read at 250 ms. *)
Definition resetRule : ReleaseRule := mkRule 0 reset (Some 8) 100.
Definition reduceRule : ReleaseRule := mkRule 1 reduce (Some 1) 10.

Definition rulesOptions (rules : list ReleaseRule) : CapacityLimiterOptions :=
  mkOptions (Some 10) (Some 10) (Some claim) (Some rules)
            None None None None None None None None None.

Definition lateReduceRule : State :=
  run [ (at_ 230, SetOptions (rulesOptions [resetRule; reduceRule]));
        (at_ 250, GetUsedCapacity) ]
      (started (rulesOptions [resetRule])).

(** The options of the tests of [minDelayBetweenTasks]. *)
Definition withMinDelay (d : Z) : CapacityLimiterOptions :=
  mkOptions (Some 10) None None None None None None None None None None None (Some d).

Definition threeAtOnce : State :=
  run [ (at_ 0, Schedule emptyParams); (at_ 0, Schedule emptyParams);
        (at_ 0, Schedule emptyParams) ]
      (started (withMinDelay 100)).

(** A task with an execution timeout of 100 ms under the retry strategy. *)
Definition timedTask : TaskParams :=
  mkParams (Some 1) None None None (Some 100) (Some StrategyRetry).

Definition running : State :=
  run [ (at_ 0, Schedule timedTask) ] (started (withMaxCapacity 10)).

(** A limiter full from the start with a reduce rule: a task of capacity
    3 waits for three firings of the rule and starts, the limit is raised
    and the rules are removed, the task completes. *)
Definition raised : list (Env * Event) :=
  [ (at_ 0, Schedule (ofCapacity 3));
    (at_ 10, TimerFired 0%nat); (at_ 20, TimerFired 0%nat); (at_ 30, TimerFired 0%nat);
    (at_ 31, SetOptions (withMaxCapacity 12));
    (at_ 40, CallbackResolved 0%nat) ].

(** A reset rule to 10 every 100 ms and a reduce rule of 5 every 30 ms,
    the timers asleep since 0 ms, the used capacity read at 100 ms. *)
Definition overtaken : State :=
  run [ (at_ 100, GetUsedCapacity) ]
      (started (rulesOptions [mkRule 0 reset (Some 10) 100; mkRule 1 reduce (Some 5) 30])).

(** A task of capacity 5 dispatched under [maxCapacity] 10 and
    [setUsedCapacity(2)] called while it runs; then its completion. *)
Definition holding : State :=
  run [ (at_ 0, Schedule (ofCapacity 5)); (at_ 1, SetUsedCapacity 2) ]
      (started (withMaxCapacity 10)).

Definition completed : State := run [ (at_ 2, CallbackResolved 0%nat) ] holding.

(** Capacity 8 taken, then [maxCapacity] lowered to 5. *)
Definition lowered : State :=
  run [ (at_ 0, Schedule (ofCapacity 8)); (at_ 1, SetOptions (withMaxCapacity 5)) ]
      (started (withMaxCapacity 10)).

(** The capacity filled, then tasks of capacity 2, 9 and 5 queued with
    the same priority, then the capacity freed and the tasks that start
    completed in turn. *)
Definition byAvailability : State :=
  run [ (at_ 0, Schedule (ofCapacity 10));
        (at_ 1, Schedule (ofCapacity 2));
        (at_ 2, Schedule (ofCapacity 9));
        (at_ 3, Schedule (ofCapacity 5));
        (at_ 4, CallbackResolved 0%nat);
        (at_ 5, CallbackResolved 1%nat);
        (at_ 6, CallbackResolved 2%nat) ]
      (started (withMaxCapacity 10)).

(** The capacity taken from the start; a task of priority 9 with a
    waiting limit of 50 ms, then a task of priority 1; [freed] is the
    state [setUsedCapacity(5)] hands to the loop, looked at after 60 ms. *)
Definition agedWaiting : State :=
  run [ (at_ 0, Schedule (mkParams (Some 5) (Some 9) (Some 50) None None None));
        (at_ 1, Schedule (mkParams (Some 5) (Some 1) None None None None)) ]
      (started (mkOptions (Some 10) (Some 10) None None None None None None None None None
                          None None)).

Definition freed : State := set_usedCapacity 5 agedWaiting.

(** The capacity taken from the start and a queue of one place: a task
    with a queue-waiting timeout of 100 ms waits; [newcomer] is the
    state [schedule] hands to [scheduleTask] for a second task. *)
Definition waiting : State :=
  run [ (at_ 0, Schedule (mkParams (Some 5) None None (Some 100) None None)) ]
      (started (mkOptions (Some 10) (Some 10) None None None None (Some 1) None None None None
                          None None)).

Definition newcomer (c : Z) : State :=
  set_tasks (tasks waiting ++ [newTask (at_ 1) (ofCapacity c)]) waiting.

(** The capacity taken by a first task, a task of priority 7 and a task
    of priority 2 queued behind it, then [maxCapacity] raised to 15:
    [setOptions] does not call the loop, so the next call of the loop
    finds two queued tasks that fit. *)
Definition roomMade : State :=
  run [ (at_ 0, Schedule (ofCapacity 10));
        (at_ 1, Schedule (mkParams (Some 5) (Some 7) None None None None));
        (at_ 2, Schedule (mkParams (Some 5) (Some 2) None None None None));
        (at_ 3, SetOptions (withMaxCapacity 15)) ]
      (started (withMaxCapacity 10)).

(** One callable at a time, and two tasks scheduled. *)
Definition oneAtATime : CapacityLimiterOptions :=
  mkOptions None None None None None (Some 1) None None None None None None None.

Definition twoScheduled : list (Env * Event) :=
  [ (at_ 0, Schedule emptyParams); (at_ 1, Schedule emptyParams) ].

(** A queue of two places whose strategy is given as [undefined], under
    a capacity taken from the start, and three tasks scheduled. *)
Definition undecidedQueue : CapacityLimiterOptions :=
  mkOptions (Some 10) (Some 10) None None None None (Some 2) (Some queue_undefined)
            None None None None None.

Definition threeScheduled : list (Env * Event) :=
  [ (at_ 0, Schedule emptyParams); (at_ 1, Schedule emptyParams);
    (at_ 2, Schedule emptyParams) ].

(** A queue of one place under a capacity taken from the start, and
    two tasks scheduled. *)
Definition onePlaceQueue : CapacityLimiterOptions :=
  mkOptions (Some 10) (Some 10) None None None None (Some 1) None None None None None None.

(** A task that may be retried once, and its two failures. *)
Definition retriedOnce : TaskParams :=
  mkParams None None None None None
    (Some (Strategy (RetryFailRecoveryStrategy (mkRetryOptions (Some 1) None None None None)))).

Definition failingTwice : list (Env * Event) :=
  [ (at_ 0, Schedule retriedOnce);
    (at_ 1, CallbackRejected 0%nat (TaskFailure 1));
    (at_ 2000, TimerFired 0%nat);
    (at_ 2001, CallbackRejected 1%nat (TaskFailure 1)) ].
(** A task asleep before its retry and a queued task with an earlier
    time limit that does not fit: tasks of capacity 1 (retried) and 8
    run, a task of capacity 5, priority 9 and a waiting limit of 100 ms
    waits; the first task fails at 5 ms and its retry timer fires at
    1005 ms; [blockedRetryOn] is the state after the second task has
    completed. *)
Definition retriedTask : TaskParams :=
  mkParams (Some 1) None None None None (Some StrategyRetry).

Definition blockedRetry : State :=
  run [ (at_ 0, Schedule retriedTask);
        (at_ 1, Schedule (ofCapacity 8));
        (at_ 2, Schedule (mkParams (Some 5) (Some 9) (Some 100) None None None));
        (at_ 5, CallbackRejected 0%nat (TaskFailure 1));
        (at_ 1005, TimerFired 0%nat) ]
      (started (withMaxCapacity 10)).

Definition blockedRetryOn : State :=
  run [ (at_ 1010, CallbackResolved 1%nat) ] blockedRetry.

(** A retry timeout of 3000000000 ms, above the 2147483647 ms a timer of
    the runtime can wait: the retried task fails at 5 ms and a task of
    priority 1 waits; [maxCapacity] is raised, which does not run the
    loop; the retry timer fires 1 ms after it was set, or when it is
    due. *)
Definition slowRetry : TaskParams :=
  mkParams (Some 4) None None None None
    (Some (Strategy (RetryFailRecoveryStrategy
                       (mkRetryOptions None (Some 3000000000) None None None)))).

Definition beforeRetry : State :=
  run [ (at_ 0, Schedule slowRetry);
        (at_ 1, Schedule (ofCapacity 6));
        (at_ 2, Schedule (mkParams (Some 5) (Some 1) None None None None));
        (at_ 5, CallbackRejected 0%nat (TaskFailure 1));
        (at_ 5, SetOptions (withMaxCapacity 20)) ]
      (started (withMaxCapacity 10)).

Definition firedEarly : State := run [ (at_ 6, TimerFired 0%nat) ] beforeRetry.

Definition firedWhenDue : State := run [ (at_ 3000000005, TimerFired 0%nat) ] beforeRetry.

(** The options and the events of [retrying]. *)
Definition retryOptions : CapacityLimiterOptions :=
  mkOptions (Some 10) None None None None None None None None None None
            (Some StrategyRetry) None.

Definition oneFailure : list (Env * Event) :=
  [ (at_ 0, Schedule (ofCapacity 1)); (at_ 5, CallbackRejected 0%nat (TaskFailure 1)) ].

(** [retrying] with its retry timer cleared, as the timer hands it to
    [scheduleTask]. *)
Definition woken : State :=
  set_retryTimers
    (filter (fun info => rt_timer info <> 0%nat)
            (retryTimers (run oneFailure (stateOf (constructor (at_ 0) retryOptions)))))
    (clearTimer 0%nat (run oneFailure (stateOf (constructor (at_ 0) retryOptions)))).
End Scenario.

(** * Theorems *)

Import Scenario.

(** ** Evaluations of the code where it departs from a claim *)

(** C2.  [stop({stopTaskRetries: true})] with a task asleep before its
    retry: the guard of [stop] tests [stopWaitingTasks] twice and never
    [stopTaskRetries], so [rejectAll] is not reached; the retry timer
    stays armed, the entry stays in [retryTimers] and the promise of the
    task stays pending.  [stopAll] does reach [rejectAll]. *)
Theorem stopTaskRetries_alone_leaves_retry_timers :
  let s := snd (stop (at_ 6) (Some onlyStopTaskRetries) retrying) in
  let s' := snd (stop (at_ 6) (Some (mkStopParams true false false false)) retrying) in
  retryTimers retrying = [mkRetryTimerInfo 0%nat 0%nat] /\
  retryTimers s = [mkRetryTimerInfo 0%nat 0%nat] /\
  timers s = [Some (mkTimer (RetryTimer 0%nat) 1005)] /\
  map promise (tasks s) = [Pending] /\
  retryTimers s' = [] /\
  timers s' = [None] /\
  map promise (tasks s') = [Rejected (CapacityLimiterError stopped_error)].
Proof. vm_compute. repeat split; reflexivity. Qed.

(** C4.  A reset rule due with catch-up time 200 and a reduce rule of
    interval 10 last applied at 230, at 250 ms: the catch-up calls
    [applyRule] for the reduce rule with 5 firings, counted from the
    reset time, where the claim counts
    [(250 - max 230 200) / 10 = 2] from the rule's own [lastApplied]. *)
Theorem applyMissedRules_counts_reduce_from_reset_time :
  log lateReduceRule = [RuleApplied resetRule 1; RuleApplied reduceRule 5] /\
  usedCapacity lateReduceRule = 3 /\
  map (fun e => lastApplied (snd e)) (releaseTimers lateReduceRule) = [200; 250] /\
  (250 - Z.max 230 200) / interval reduceRule = 2.
Proof. vm_compute. repeat split; reflexivity. Qed.

(** C7.  A task holds a reservation of 5 and [setUsedCapacity(2)] is
    called while it runs: its completion takes [usedCapacity] from 2 to
    0, not down by the 5 it reserved.  And the sums of doubles are
    rounded: a task of capacity 0.2 dispatched at a used capacity of 0.1
    and released leaves more than 0.1 in use. *)
Theorem release_is_clamped_and_rounded :
  optCapacityStrategy (options holding) = reserve /\
  maxCapacity (options holding) = Some 10 /\
  map reservedCapacity (tasks holding) = [Some 5] /\
  usedCapacity holding = 2 /\
  usedCapacity completed = 0 /\
  usedCapacity completed <> usedCapacity holding - 5 /\
  PrimFloat.ltb Doubles.tenth
    (Doubles.release (Doubles.reserve Doubles.tenth Doubles.fifth) Doubles.fifth) = true.
Proof. vm_compute. repeat split; try reflexivity. discriminate. Qed.

(** C8.  [stop] called twice while a task is queued: the first call
    returns a promise that waits for the stopped-promise 0; the second
    call replaces [this.stopped], makes the stopped-promise 1 and leaves
    no resolver of promise 0 behind.  When the queue has drained every
    task is settled and promise 1 is resolved, promise 0 is not; after a
    single [stop] promise 0 is resolved by the same drain. *)
Theorem second_stop_orphans_first_promise :
  let '(r1, s1) := stop (at_ 2) None oneQueued in
  let '(r2, s2) := stop (at_ 3) None s1 in
  let twice := run drain s2 in
  let once := run drain s1 in
  awaitedStopped r1 = Some 0%nat /\
  stopped s1 = Some (mkStopped (Some 0%nat)) /\
  awaitedStopped r2 = Some 1%nat /\
  stopped s2 = Some (mkStopped (Some 1%nat)) /\
  s2 <> s1 /\
  map promise (tasks twice) = [Fulfilled; Fulfilled] /\
  queue twice = [] /\ executingTasks twice = [] /\
  stopPromises twice = [false; true] /\
  stopPromises once = [true].
Proof.
  vm_compute. repeat split; try reflexivity. discriminate.
Qed.

(** C9.  The constructor accepts [minDelayBetweenTasks: -100] (the test
    'should reject negative values for minDelayBetweenTasks' expects it
    to throw), and with [minDelayBetweenTasks: 100] three tasks scheduled
    at 0 ms are all started at 0 ms. *)
Theorem negative_minDelayBetweenTasks_is_accepted :
  (exists s, constructor (at_ 0) (withMinDelay (-100)) = Normal s /\
             minDelayBetweenTasks (getOptions s) = Some (-100)) /\
  log threeAtOnce = [CallbackInvoked 0%nat; CallbackInvoked 1%nat; CallbackInvoked 2%nat] /\
  map timeAdded (tasks threeAtOnce) = [0; 0; 0].
Proof.
  split; [eexists; split; vm_compute; reflexivity|].
  vm_compute. split; reflexivity.
Qed.

(** ** Counterexamples to the claims the code departs from by design *)

(** C1, as stated, fails: the execution timer of a task under the retry
    strategy fires; the promise is not settled with [execution-timeout],
    the strategy is used and a retry is scheduled. *)
Lemma execution_timeout_is_retried :
  let s := stateOf (step (at_ 100) (TimerFired 0%nat) running) in
  timers running = [Some (mkTimer (ExecutionTimer 0%nat) 100)] /\
  map promise (tasks s) = [Pending] /\
  log s = [CallbackInvoked 0%nat; StrategyUsed 0%nat 1] /\
  retryTimers s = [mkRetryTimerInfo 0%nat 1%nat] /\
  timers s = [None; Some (mkTimer (RetryTimer 0%nat) 1100)].
Proof. vm_compute. repeat split; reflexivity. Qed.

(** C3, as stated, fails: [setOptions] lowers [maxCapacity] to 5 while
    a task holds 8. *)
Lemma lowered_limit_breaks_withinLimits :
  usedCapacity lowered = 8 /\ maxCapacity (options lowered) = Some 5 /\
  ~ withinLimits lowered.
Proof.
  split; [reflexivity|]. split; [reflexivity|].
  intros [H _]. specialize (H 5 eq_refl). vm_compute in H. apply H. reflexivity.
Qed.

(** The catch-up of the release rules breaks the limit as well: the
    reduce rule is due at 90 ms, the reset at 100 ms, the firings of the
    reduce rule are counted from the reset time, [-1] of them, and the
    used capacity goes from 10 to 15. *)
Lemma catch_up_with_negative_firings :
  log overtaken = [RuleApplied (mkRule 0 reset (Some 10) 100) 1;
                   RuleApplied (mkRule 1 reduce (Some 5) 30) (-1)] /\
  usedCapacity overtaken = 15 /\ maxCapacity (options overtaken) = Some 10.
Proof. vm_compute. repeat split; reflexivity. Qed.

(** C5, as stated, fails: tasks 2 and 3 have the same priority, task 2 is
    admitted first (at 2 ms, task 3 at 3 ms); both are dispatched, task 3
    (capacity 5) before task 2 (capacity 9). *)
Lemma later_task_dispatched_first :
  map priority (tasks byAvailability) = [5; 5; 5; 5] /\
  map timeAdded (tasks byAvailability) = [0; 1; 2; 3] /\
  log byAvailability = [CallbackInvoked 0%nat; CallbackInvoked 1%nat;
                        CallbackInvoked 3%nat; CallbackInvoked 2%nat].
Proof. vm_compute. repeat split; reflexivity. Qed.

(** ** Lemmas on the runtime and on the loop *)

Arguments useStrategy : simpl never.
Arguments setRetryTimer : simpl never.
Arguments releaseTaskResources : simpl never.
Arguments reserveResources : simpl never.
Arguments disableTimers : simpl never.
Arguments enableTimers : simpl never.
Arguments applyMissedRules : simpl never.
Arguments tryRejectTask_ : simpl never.
Arguments executeTask_ : simpl never.
Arguments startNextBody : simpl never.
Arguments rejectTask : simpl never.
Arguments resolveTaskPromise : simpl never.
Arguments updTask : simpl never.
Arguments clearTimer : simpl never.
Arguments emit : simpl never.

(** *** The log only grows *)

Lemma log_updTask id f s : log (updTask id f s) = log s.
Proof. reflexivity. Qed.
Lemma log_rejectTask id e s : log (rejectTask id e s) = log s.
Proof. reflexivity. Qed.
Lemma log_clearTimer h s : log (clearTimer h s) = log s.
Proof. reflexivity. Qed.
Lemma log_emit e s : log (emit e s) = log s ++ [e].
Proof. reflexivity. Qed.

Lemma foldl_invariant {A : Type} (P : State -> Prop) (f : State -> A -> State) (l : list A) :
  (forall s a, P s -> P (f s a)) -> forall s, P s -> P (foldl f s l).
Proof. intros Hf. induction l as [|a l IH]; intros s Hs; cbn; auto. Qed.

Lemma log_clearOpt h s : log (clearOpt h s) = log s.
Proof. destruct h; reflexivity. Qed.

Lemma log_clearReleaseRuleTimer rule status s :
  log (clearReleaseRuleTimer rule status s) = log s.
Proof. destruct status as [[?|] [?|] ?]; reflexivity. Qed.

Lemma log_disableTimers s : log (disableTimers s) = log s.
Proof.
  unfold disableTimers. destruct (releaseRuleTimersEnabled s); [|reflexivity].
  apply (foldl_invariant (fun s' => log s' = log s)); [|reflexivity].
  intros s' a Hs'. now rewrite log_clearReleaseRuleTimer.
Qed.

Lemma log_releaseTaskResources id s : log (releaseTaskResources id s) = log s.
Proof.
  unfold releaseTaskResources. destruct (tasks s !! id) as [t|]; [|reflexivity].
  destruct (truthy (reservedConcurrent t)); cbn;
    destruct (truthy (reservedCapacity t) && _); cbn;
    destruct (executionTimerId t); reflexivity.
Qed.

Lemma log_reserveResources id s : log (reserveResources id s) = log s.
Proof.
  unfold reserveResources. destruct (tasks s !! id) as [t|]; [|reflexivity].
  destruct (maxCapacity (options s)); [destruct (optCapacityStrategy (options s))|];
    cbn; destruct (queueWaitingTimerId t); cbn; destruct (truthy (timeLimit t)); reflexivity.
Qed.

Lemma log_useStrategy env id strategy e attempt s :
  log (useStrategy env id strategy e attempt s) = log s ++ [StrategyUsed id attempt].
Proof.
  unfold useStrategy. destruct strategy as [o|h]; [|reflexivity].
  destruct (_ <? _); reflexivity.
Qed.

Lemma reserveResources_lookup id s t :
  tasks s !! id = Some t -> exists t1, tasks (reserveResources id s) !! id = Some t1.
Proof.
  intros Hid. unfold reserveResources, updTask, clearTimer. rewrite Hid.
  destruct (maxCapacity (options s)); [destruct (optCapacityStrategy (options s))|];
    cbn; destruct (queueWaitingTimerId t); cbn; destruct (truthy (timeLimit t)); cbn;
    rewrite ?list_lookup_alter_eq, Hid; cbn; eauto.
Qed.

Section LogOfLoop.
Variable next : State -> State.
Hypothesis next_log : forall s, log s `prefix_of` log (next s).

Lemma tryRejectTask_log env id e s : log s `prefix_of` log (tryRejectTask_ next env id e s).
Proof.
  unfold tryRejectTask_. etransitivity; [|apply next_log].
  destruct (tasks (releaseTaskResources id s) !! id) as [t|];
    [|now rewrite log_releaseTaskResources].
  destruct (nullish _ _) as [[| |o]|];
    rewrite ?log_useStrategy, ?log_updTask, ?log_rejectTask, ?log_releaseTaskResources;
    try reflexivity; now apply prefix_app_r.
Qed.

Lemma executeTask_log env id t s :
  tasks s !! id = Some t ->
  exists rest, log (executeTask_ next env id s) = log s ++ CallbackInvoked id :: rest.
Proof.
  intros Ht. unfold executeTask_. rewrite Ht.
  set (s1 := if truthy _ then _ else _).
  assert (Hs1 : log s1 = log s).
  { subst s1. destruct (truthy _); reflexivity. }
  destruct (throwsSync env id) as [e|].
  - match goal with |- context [tryRejectTask_ next env id e ?s2] =>
      destruct (tryRejectTask_log env id e s2) as [rest Hrest] end.
    exists rest. rewrite Hrest. unfold finishRun. cbn [log set_runs set_executingTasks].
    rewrite log_emit, Hs1. now rewrite <- app_assoc.
  - exists []. now rewrite log_emit, Hs1.
Qed.

Lemma pickTaskToExecute_fits env s id s1 :
  pickTaskToExecute env s = Some (id, s1) ->
  fits s id = true /\ tasks s1 = tasks s /\ log s1 = log s.
Proof.
  unfold pickTaskToExecute.
  assert (Hq : forall l r q, DLL.pickFirstMatching (fits s) l = (Some r, q) -> fits s r = true).
  { induction l as [|x l IH]; cbn; intros r q H; [discriminate|].
    destruct (fits s x) eqn:Hx; [congruence|].
    destruct (DLL.pickFirstMatching (fits s) l) as [[r'|] q'] eqn:Hl; [|discriminate].
    injection H as -> _. eauto. }
  assert (Hfrom : match DLL.pickFirstMatching (fits s) (queue s) with
                  | (Some id0, q) => Some (id0, set_queue q s)
                  | (None, _) => None
                  end = Some (id, s1) -> fits s id = true /\ tasks s1 = tasks s /\ log s1 = log s).
  { destruct (DLL.pickFirstMatching (fits s) (queue s)) as [[r|] q] eqn:Hp; [|discriminate].
    intros [= -> <-]. split; [eauto|]. split; reflexivity. }
  destruct (DLL.peekFirst (tasksByTimeLimit s)) as [h|]; [|exact Hfrom].
  destruct (aged env s h); [|exact Hfrom].
  destruct (fits s h) eqn:Hh; [|discriminate].
  intros [= -> <-]. auto.
Qed.

Lemma startNextBody_log env s :
  log (startNextBody next env s) = log s \/
  exists id s1 rest,
    pickTaskToExecute env s = Some (id, s1) /\
    log (startNextBody next env s) = log s ++ CallbackInvoked id :: rest.
Proof.
  unfold startNextBody.
  assert (Hmain :
    (let s' := if truthy (maxConcurrent (options s))
         && (default 0 (maxConcurrent (options s)) <=? usedConcurrent s)
      then s
      else
        match pickTaskToExecute env s with
        | None => s
        | Some (taskToExecute, s) =>
            let s := reserveResources taskToExecute s in
            let s := executeTask_ next env taskToExecute s in
            if bool_decide (DLL.length (queue s) = 0) then disableTimers s
            else next s
        end in
     log s' = log s \/
     exists id s1 rest,
       pickTaskToExecute env s = Some (id, s1) /\ log s' = log s ++ CallbackInvoked id :: rest)).
  { cbn zeta. destruct (truthy _ && _); [now left|].
    destruct (pickTaskToExecute env s) as [[id s1]|] eqn:Hp; [|now left].
    right. exists id, s1.
    destruct (pickTaskToExecute_fits _ _ _ _ Hp) as (Hf & Ht & Hl).
    unfold fits in Hf. destruct (tasks s !! id) as [t|] eqn:Hid; [|discriminate].
    rewrite <- Ht in Hid.
    destruct (reserveResources_lookup _ _ _ Hid) as [t1 Hid1].
    destruct (executeTask_log env id t1 _ Hid1) as [rest Hrest].
    rewrite log_reserveResources, Hl in Hrest.
    destruct (bool_decide _).
    - exists rest. split; [reflexivity|]. now rewrite log_disableTimers.
    - destruct (next_log (executeTask_ next env id (reserveResources id s1))) as [more Hmore].
      exists (rest ++ more). split; [reflexivity|].
      rewrite Hmore, Hrest. now rewrite <- app_assoc. }
  destruct (stopped s) as [st|]; [|exact Hmain].
  destruct (bool_decide _); [|exact Hmain].
  left. unfold stoppedResolve. destruct (stoppedPromise st); reflexivity.
Qed.

Lemma startNextBody_log_prefix env s : log s `prefix_of` log (startNextBody next env s).
Proof.
  destruct (startNextBody_log env s) as [H|(id & s1 & rest & _ & H)]; rewrite H.
  - reflexivity.
  - now apply prefix_app_r.
Qed.
End LogOfLoop.

Lemma startNextRounds_log n env s : log s `prefix_of` log (startNextRounds n env s).
Proof.
  revert s. induction n as [|n IH]; intros s; cbn; [reflexivity|].
  apply startNextBody_log_prefix, IH.
Qed.

Lemma startNextTaskIfPossible_log env s :
  log (startNextTaskIfPossible env s) = log s \/
  exists id s1 rest,
    pickTaskToExecute env s = Some (id, s1) /\
    log (startNextTaskIfPossible env s) = log s ++ CallbackInvoked id :: rest.
Proof. apply startNextBody_log, startNextRounds_log. Qed.


(** *** What the release-rule manager leaves alone *)

Lemma besideRules_updStatus rule f s : besideRules (updStatus rule f s) = besideRules s.
Proof. reflexivity. Qed.

Lemma besideRules_clearReleaseRuleTimer rule status s :
  besideRules (clearReleaseRuleTimer rule status s) = besideRules s.
Proof. destruct status as [[?|] [?|] ?]; reflexivity. Qed.

Lemma besideRules_setRuleTimerWithDelay env rule delay s :
  besideRules (setRuleTimerWithDelay env rule delay s) = besideRules s.
Proof. unfold setRuleTimerWithDelay. destruct (decide _); reflexivity. Qed.

Lemma besideRules_applyRule rule times s : besideRules (applyRule rule times s) = besideRules s.
Proof. unfold applyRule. destruct (type rule); reflexivity. Qed.

Lemma besideRules_missedReduces now t entries s :
  besideRules (snd (missedReduces now t entries s)) = besideRules s.
Proof.
  revert s. induction entries as [|[rule status] entries IH]; intros s; [reflexivity|].
  cbn [missedReduces]. destruct (type rule).
  - specialize (IH s). destruct (missedReduces now t entries s). exact IH.
  - destruct (_ <=? _).
    + match goal with |- context [missedReduces now t entries ?s1] =>
        specialize (IH s1); destruct (missedReduces now t entries s1) as [e1 s2] end.
      cbn [snd] in *. rewrite IH. destruct (canReduceCapacity s); [|reflexivity].
      apply besideRules_applyRule.
    + specialize (IH s). destruct (missedReduces now t entries s). exact IH.
Qed.

Lemma besideRules_applyMissedRules now s :
  besideRules (applyMissedRules now s) = besideRules s.
Proof.
  unfold applyMissedRules.
  destruct (missedResets now (releaseTimers s) (None, None)) as [entries [t r]].
  match goal with |- context [missedReduces now t entries ?s1] =>
    pose proof (besideRules_missedReduces now t entries s1) as H;
    destruct (missedReduces now t entries s1) as [e1 s2] end.
  cbn [snd] in H. change (besideRules s2 = besideRules s). rewrite H.
  destruct r; [apply besideRules_applyRule|reflexivity].
Qed.

Lemma besideRules_enableTimers env s : besideRules (enableTimers env s) = besideRules s.
Proof.
  unfold enableTimers. destruct (releaseRuleTimersEnabled s); [reflexivity|].
  unfold armRuleTimers.
  match goal with |- besideRules (foldl ?f ?s1 ?l) = _ =>
    transitivity (besideRules s1);
    [apply (foldl_invariant (fun s' => besideRules s' = besideRules s1)); [|reflexivity]|] end.
  - intros s' a Hs'. now rewrite besideRules_setRuleTimerWithDelay.
  - now rewrite besideRules_applyMissedRules.
Qed.

Lemma besideRules_disableTimers s : besideRules (disableTimers s) = besideRules s.
Proof.
  unfold disableTimers. destruct (releaseRuleTimersEnabled s); [|reflexivity].
  match goal with |- besideRules (foldl ?f ?s1 ?l) = _ =>
    apply (foldl_invariant (fun s' => besideRules s' = besideRules s)); [|reflexivity] end.
  intros s' a Hs'. now rewrite besideRules_clearReleaseRuleTimer.
Qed.

Lemma besideRules_fields s s' :
  besideRules s' = besideRules s ->
  queue s' = queue s /\ tasksByTimeLimit s' = tasksByTimeLimit s /\
  tasks s' = tasks s /\ options s' = options s /\ usedConcurrent s' = usedConcurrent s /\
  stopped s' = stopped s /\ executingTasks s' = executingTasks s.
Proof. unfold besideRules. intros [= -> -> _ -> -> _ _ -> -> -> _ _ _]. repeat split. Qed.

(** *** The doubly linked list *)

Lemma putBefore_split {A : Type} (v : A) (c : A -> bool) (l : list A) :
  exists l1 l2, DLL.putBefore v c l = l1 ++ v :: l2 /\ l = l1 ++ l2 /\
                Forall (fun x => c x = false) l1.
Proof.
  induction l as [|x l (l1 & l2 & H1 & H2 & H3)]; cbn.
  - exists [], []. auto.
  - destruct (c x) eqn:Hx.
    + exists [], (x :: l). auto.
    + exists (x :: l1), l2. rewrite H1. cbn. split; [reflexivity|].
      split; [now f_equal|]. now constructor.
Qed.

Lemma putAfter_split {A : Type} (v : A) (c : A -> bool) (l : list A) :
  exists l1 l2, DLL.putAfter v c l = l1 ++ v :: l2 /\ l = l1 ++ l2 /\
                Forall (fun x => c x = false) l2.
Proof.
  unfold DLL.putAfter.
  destruct (putBefore_split v c (rev l)) as (k1 & k2 & H1 & H2 & H3).
  exists (rev k2), (rev k1). rewrite H1. split; [|split].
  - rewrite rev_app_distr. cbn. now rewrite <- app_assoc.
  - rewrite <- (rev_involutive l), H2. apply rev_app_distr.
  - rewrite Forall_forall in *. intros x Hx. apply H3.
    now apply list_elem_of_In, in_rev, list_elem_of_In.
Qed.

Lemma pickFirstMatching_split {A : Type} (c : A -> bool) (l : list A) :
  match DLL.pickFirstMatching c l with
  | (Some b, q) => exists l1 l2, l = l1 ++ b :: l2 /\ q = l1 ++ l2 /\
                                 Forall (fun x => c x = false) l1 /\ c b = true
  | (None, q) => q = l /\ Forall (fun x => c x = false) l
  end.
Proof.
  induction l as [|x l IH]; cbn; [auto|].
  destruct (c x) eqn:Hx.
  - exists [], l. auto.
  - destruct (DLL.pickFirstMatching c l) as [[b|] q].
    + destruct IH as (l1 & l2 & -> & -> & H3 & H4).
      exists (x :: l1), l2. auto.
    + destruct IH as [-> H]. auto.
Qed.

Lemma precedes_unique_prefix (a b : nat) (l k1 k2 k3 l1 l2 : list nat) :
  NoDup l -> l = k1 ++ a :: k2 ++ b :: k3 -> l = l1 ++ b :: l2 -> a ∈ l1.
Proof.
  intros Hnd -> H.
  assert (Hb : l1 = (k1 ++ a :: k2)).
  { change (k1 ++ a :: k2 ++ b :: k3) with (k1 ++ (a :: k2) ++ b :: k3) in *.
    rewrite app_assoc in H, Hnd.
    assert (Hn1 : b ∉ k1 ++ a :: k2).
    { apply NoDup_app in Hnd as (_ & Hd & _). intros Hin. apply (Hd b Hin). left. }
    assert (Hn2 : b ∉ l1).
    { rewrite H in Hnd. apply NoDup_app in Hnd as (_ & Hd & _).
      intros Hin. apply (Hd b Hin). left. }
    destruct (not_elem_of_app_cons_inv_l b b _ _ _ _ Hn2 Hn1 H) as [? _]. congruence. }
  subst l1. apply elem_of_app. right. left.
Qed.

(** *** One round of the loop *)

Lemma DLL_length_0 {A : Type} (l : list A) : DLL.length l = 0 <-> l = [].
Proof. unfold DLL.length. destruct l; cbn; split; intros H; try reflexivity; try lia; discriminate. Qed.

(** A round that selects nothing leaves the state alone, but for the
    promise of [stop] it may resolve. *)
Lemma startNextBody_idle next env s :
  pickTaskToExecute env s = None ->
  startNextBody next env s = s \/ exists st, startNextBody next env s = stoppedResolve st s.
Proof.
  intros Hp. unfold startNextBody. rewrite Hp.
  destruct (stopped s) as [st|]; [destruct (bool_decide _)|];
    try (destruct (truthy _ && _); now left).
  right. now exists st.
Qed.

(** A round that gets past the gates and selects a task calls its
    callable before anything else. *)
Lemma startNextBody_dispatch next env s id s1 :
  (forall s, log s `prefix_of` log (next s)) ->
  passesGates s ->
  pickTaskToExecute env s = Some (id, s1) ->
  exists rest, log (startNextBody next env s) = log s ++ CallbackInvoked id :: rest.
Proof.
  intros Hnext [Hstop Hslot] Hp.
  destruct (startNextBody_log next Hnext env s) as [H|(id' & s1' & rest & Hp' & H)].
  - exfalso. revert H. unfold startNextBody. rewrite Hp, Hslot.
    destruct (pickTaskToExecute_fits _ _ _ _ Hp) as (Hf & Ht & Hl).
    unfold fits in Hf. destruct (tasks s !! id) as [t|] eqn:Hid; [|discriminate].
    rewrite <- Ht in Hid.
    destruct (reserveResources_lookup _ _ _ Hid) as [t1 Hid1].
    destruct (executeTask_log next Hnext env id t1 _ Hid1) as [rest Hrest].
    rewrite log_reserveResources, Hl in Hrest.
    assert (Hne : forall s2, log s2 = log s ++ CallbackInvoked id :: rest ->
                  forall more, log s2 ++ more <> log s).
    { intros s2 -> more Heq. rewrite <- app_assoc in Heq.
      apply (f_equal length) in Heq. rewrite !length_app in Heq. cbn in Heq. lia. }
    assert (Hgo : log (if bool_decide (DLL.length
                         (queue (executeTask_ next env id (reserveResources id s1))) = 0)
                  then disableTimers (executeTask_ next env id (reserveResources id s1))
                  else next (executeTask_ next env id (reserveResources id s1))) <> log s).
    { destruct (bool_decide _).
      - rewrite log_disableTimers. intros Heq.
        apply (Hne _ Hrest []). now rewrite app_nil_r.
      - destruct (Hnext (executeTask_ next env id (reserveResources id s1))) as [more Hmore].
        rewrite Hmore. now apply Hne. }
    destruct (stopped s) as [st|] eqn:Hst; [|exact Hgo].
    destruct (bool_decide (DLL.length (queue s) = 0)) eqn:Hq; [|exact Hgo].
    exfalso. apply Hstop. split; [eauto|].
    apply bool_decide_eq_true_1 in Hq. now apply DLL_length_0.
  - rewrite Hp in Hp'. injection Hp' as <- <-. eauto.
Qed.


(** *** Reservation and release *)

Lemma reserveResources_reserve (s : State) (id : TaskId) (t : Task) (m : Z) :
  tasks s !! id = Some t ->
  maxCapacity (options s) = Some m ->
  optCapacityStrategy (options s) = reserve ->
  usedCapacity (reserveResources id s) = usedCapacity s + capacity t /\
  options (reserveResources id s) = options s /\
  exists t', tasks (reserveResources id s) !! id = Some t' /\
             reservedCapacity t' = Some (capacity t).
Proof.
  intros Ht Hm Hr. unfold reserveResources, updTask, clearTimer. rewrite Ht, Hm, Hr.
  destruct (queueWaitingTimerId t), (truthy (timeLimit t)); cbn;
    (split; [reflexivity|]); (split; [reflexivity|]);
    eexists; (split; [rewrite !list_lookup_alter_eq, Ht; reflexivity|reflexivity]).
Qed.

Lemma releaseTaskResources_usedCapacity (s : State) (id : TaskId) (t : Task) (r : Z) :
  tasks s !! id = Some t ->
  reservedCapacity t = Some r ->
  is_Some (maxCapacity (options s)) ->
  usedCapacity (releaseTaskResources id s)
  = if r =? 0 then usedCapacity s else Z.max 0 (usedCapacity s - r).
Proof.
  intros Ht Hr Hm. unfold releaseTaskResources, updTask, clearTimer. rewrite Ht, Hr.
  cbn. destruct (truthy (reservedConcurrent t)), (executionTimerId t); cbn;
  rewrite ?(bool_decide_eq_true_2 _ Hm); destruct (r =? 0); cbn; reflexivity.
Qed.

(** ** The claims the code confirms *)

(** A head of [tasksByTimeLimit] whose limit has passed and that fits
    is the task selected, and the first one called. *)
Lemma aged_head_fits (env : Env) (s : State) (h : TaskId) :
  DLL.peekFirst (tasksByTimeLimit s) = Some h ->
  aged env s h = true ->
  fits s h = true ->
  pickTaskToExecute env s = Some (h, s) /\
  (passesGates s ->
   exists rest, log (startNextTaskIfPossible env s) = log s ++ CallbackInvoked h :: rest).
Proof.
  intros Hhead Haged Hfit.
  assert (Hp : pickTaskToExecute env s = Some (h, s)).
  { unfold pickTaskToExecute. now rewrite Hhead, Haged, Hfit. }
  split; [exact Hp|]. intros Hg.
  apply (startNextBody_dispatch _ env s h s); auto.
  intros s0. apply startNextRounds_log.
Qed.

(** C6.  When the head [h] of [tasksByTimeLimit] has its time limit at
    or before now: if it fits the current capacity the loop selects it for
    dispatch, whatever the queue and the priorities in it are, and a loop
    that gets past its two early returns calls its callable first; if it
    does not fit the loop selects nothing and dispatches no task at all. *)
Theorem aged_head_is_selected_or_blocks (env : Env) (s : State) (h : TaskId) :
  DLL.peekFirst (tasksByTimeLimit s) = Some h ->
  aged env s h = true ->
  (fits s h = true ->
     pickTaskToExecute env s = Some (h, s) /\
     (passesGates s ->
      exists rest, log (startNextTaskIfPossible env s) = log s ++ CallbackInvoked h :: rest)) /\
  (fits s h = false ->
     pickTaskToExecute env s = None /\
     let s' := startNextTaskIfPossible env s in
     log s' = log s /\ queue s' = queue s /\ executingTasks s' = executingTasks s /\
     tasks s' = tasks s /\ usedCapacity s' = usedCapacity s /\
     usedConcurrent s' = usedConcurrent s).
Proof.
  intros Hhead Haged. split; intros Hfit.
  - now apply aged_head_fits.
  - assert (Hp : pickTaskToExecute env s = None).
    { unfold pickTaskToExecute. now rewrite Hhead, Haged, Hfit. }
    split; [exact Hp|]. cbn zeta.
    destruct (startNextBody_idle (startNextRounds (length (queue s)) env) env s Hp)
      as [H|[st H]]; unfold startNextTaskIfPossible; cbn [startNextRounds]; rewrite H.
    + repeat split.
    + unfold stoppedResolve. destruct (stoppedPromise st); repeat split.
Qed.

Lemma aged_head_is_selected_or_blocks_witness :
  queue freed = [1%nat; 0%nat] /\
  pickTaskToExecute (at_ 60) freed = Some (0%nat, freed) /\
  (exists rest,
     log (startNextTaskIfPossible (at_ 60) freed) = log freed ++ CallbackInvoked 0%nat :: rest).
Proof.
  split; [reflexivity|].
  destruct (aged_head_is_selected_or_blocks (at_ 60) freed 0%nat)
    as [Hfit _]; [reflexivity|reflexivity|].
  destruct (Hfit eq_refl) as [Hp Hlog]. split; [exact Hp|].
  apply Hlog. split; [|reflexivity].
  intros [[st Hst] _]. vm_compute in Hst. discriminate.
Defined.

(** C7.  Under [reserve] with [maxCapacity] defined, for whole numbers
    within [2 ^ 53]: the dispatch of a task sets its [reservedCapacity]
    to its capacity and adds the capacity to [usedCapacity]; releasing
    the resources of a task sets [usedCapacity] to
    [max 0 (usedCapacity - reservedCapacity)], which takes exactly the
    reserved amount off when that much is in use and leaves 0 otherwise;
    completion and failure both release before anything else, and
    dispatch followed by release restores [usedCapacity]. *)
Theorem reserve_round_trip (s : State) (id : TaskId) (t : Task) (m : Z) :
  tasks s !! id = Some t ->
  maxCapacity (options s) = Some m ->
  optCapacityStrategy (options s) = reserve ->
  safeInteger (usedCapacity s) -> safeInteger (capacity t) ->
  safeInteger (usedCapacity s + capacity t) ->
  let dispatched := reserveResources id s in
  (exists t', tasks dispatched !! id = Some t' /\ reservedCapacity t' = Some (capacity t)) /\
  usedCapacity dispatched = usedCapacity s + capacity t /\
  (forall s' t' r,
      tasks s' !! id = Some t' -> reservedCapacity t' = Some r ->
      is_Some (maxCapacity (options s')) ->
      safeInteger r -> safeInteger (usedCapacity s') ->
      usedCapacity (releaseTaskResources id s') = Z.max 0 (usedCapacity s' - r) /\
      (r <= usedCapacity s' ->
       usedCapacity (releaseTaskResources id s') = usedCapacity s' - r) /\
      (usedCapacity s' < r -> usedCapacity (releaseTaskResources id s') = 0) /\
      (forall next, resolveTask_ next id s'
                    = next (resolveTaskPromise id (releaseTaskResources id s'))) /\
      (forall next env e, exists s'',
            tryRejectTask_ next env id e s' = next s'' /\
            usedCapacity s'' = usedCapacity (releaseTaskResources id s'))) /\
  usedCapacity (releaseTaskResources id dispatched) = usedCapacity s.
Proof.
  intros Ht Hm Hr Hsu Hsc Hsum dispatched. unfold safeInteger in *.
  destruct (reserveResources_reserve s id t m Ht Hm Hr) as (Hused & Hopts & t' & Ht' & Hres).
  assert (Hrel : forall s' t' r,
      tasks s' !! id = Some t' -> reservedCapacity t' = Some r ->
      is_Some (maxCapacity (options s')) -> 0 <= r -> 0 <= usedCapacity s' ->
      usedCapacity (releaseTaskResources id s') = Z.max 0 (usedCapacity s' - r)).
  { intros s' t1 r H1 H2 H3 H4 H5.
    rewrite (releaseTaskResources_usedCapacity s' id t1 r H1 H2 H3).
    destruct (r =? 0) eqn:Hr0; [apply Z.eqb_eq in Hr0|]; lia. }
  split; [eauto|]. split; [exact Hused|]. split.
  - intros s' t1 r H1 H2 H3 [H4 _] [H5 _].
    pose proof (Hrel s' t1 r H1 H2 H3 H4 H5) as Heq.
    split; [exact Heq|]. split; [lia|]. split; [lia|].
    split; [reflexivity|]. intros next env e. unfold tryRejectTask_.
    eexists. split; [reflexivity|].
    destruct (tasks (releaseTaskResources id s') !! id) as [t2|]; [|reflexivity].
    destruct (nullish _ _) as [[| |o]|]; try reflexivity;
      unfold useStrategy; destruct o || idtac; try reflexivity;
      destruct (_ <? _); reflexivity.
  - fold dispatched in Ht', Hused, Hopts.
    rewrite (Hrel dispatched t' (capacity t) Ht' Hres); [lia| |lia|lia].
    rewrite Hopts, Hm. eauto.
Qed.

Lemma reserve_round_trip_witness :
  usedCapacity (reserveResources 1%nat oneQueued) = usedCapacity oneQueued + 10 /\
  usedCapacity (releaseTaskResources 1%nat (reserveResources 1%nat oneQueued))
  = usedCapacity oneQueued.
Proof.
  destruct (reserve_round_trip oneQueued 1%nat
              (mkTask 5 10 None None 1 None None None None (ofCapacity 10) Pending) 10)
    as (_ & H1 & _ & H2);
    [reflexivity|reflexivity|reflexivity
    |vm_compute; split; discriminate|vm_compute; split; discriminate
    |vm_compute; split; discriminate|].
  split; [exact H1|exact H2].
Defined.

Lemma log_applyRule rule times s : log s `prefix_of` log (applyRule rule times s).
Proof. unfold applyRule. destruct (type rule); cbn; now apply prefix_app_r. Qed.

Lemma log_missedReduces now t entries s :
  log s `prefix_of` log (snd (missedReduces now t entries s)).
Proof.
  revert s. induction entries as [|[rule status] entries IH]; intros s; [reflexivity|].
  cbn [missedReduces]. destruct (type rule).
  - specialize (IH s). destruct (missedReduces now t entries s). exact IH.
  - destruct (_ <=? _).
    + match goal with |- context [missedReduces now t entries ?s1] =>
        specialize (IH s1); destruct (missedReduces now t entries s1) as [e1 s2] end.
      cbn [snd] in *. etransitivity; [|exact IH].
      destruct (canReduceCapacity s); [apply log_applyRule|reflexivity].
    + specialize (IH s). destruct (missedReduces now t entries s). exact IH.
Qed.

Lemma applyMissedRules_log now s : log s `prefix_of` log (applyMissedRules now s).
Proof.
  unfold applyMissedRules.
  destruct (missedResets now (releaseTimers s) (None, None)) as [entries [t r]].
  match goal with |- context [missedReduces now t entries ?s1] =>
    pose proof (log_missedReduces now t entries s1) as H;
    destruct (missedReduces now t entries s1) as [e1 s2] end.
  cbn [snd] in H. change (log s `prefix_of` log s2). etransitivity; [|exact H].
  destruct r; [apply log_applyRule|reflexivity].
Qed.

Lemma log_setRuleTimerWithDelay env rule delay s :
  log (setRuleTimerWithDelay env rule delay s) = log s.
Proof. unfold setRuleTimerWithDelay. destruct (decide _); reflexivity. Qed.

Lemma enableTimers_log env s : log s `prefix_of` log (enableTimers env s).
Proof.
  unfold enableTimers. destruct (releaseRuleTimersEnabled s); [reflexivity|].
  unfold armRuleTimers.
  match goal with |- _ `prefix_of` log (foldl ?f ?s1 ?l) =>
    replace (log (foldl f s1 l)) with (log s1) end.
  - etransitivity; [|apply applyMissedRules_log]. reflexivity.
  - symmetry.
    match goal with |- log (foldl ?f ?s1 ?l) = _ =>
      apply (foldl_invariant (fun s' => log s' = log s1)); [|reflexivity] end.
    intros s' a Hs'. now rewrite log_setRuleTimerWithDelay.
Qed.

(** *** Admission *)

Lemma timeLimitOf_updTask_eq id f s :
  timeLimitOf (updTask id f s) id
  = match tasks s !! id with Some t => timeLimit (f t) | None => None end.
Proof.
  unfold timeLimitOf, updTask. cbn. rewrite list_lookup_alter_eq.
  destruct (tasks s !! id); reflexivity.
Qed.

Lemma timeLimitOf_updTask_ne id x f s :
  x <> id -> timeLimitOf (updTask id f s) x = timeLimitOf s x.
Proof.
  intros Hne. unfold timeLimitOf, updTask. cbn. rewrite list_lookup_alter_ne; auto.
Qed.

Lemma timeLimitOf_updTask_keeps id x f s :
  (forall t, timeLimit (f t) = timeLimit t) ->
  timeLimitOf (updTask id f s) x = timeLimitOf s x.
Proof.
  intros Hf. destruct (decide (x = id)) as [->|Hne].
  - rewrite timeLimitOf_updTask_eq. unfold timeLimitOf.
    destruct (tasks s !! id); cbn; [now rewrite Hf|reflexivity].
  - now apply timeLimitOf_updTask_ne.
Qed.

(** What [enqueue] does to the indices and to the time limits. *)
Lemma enqueue_spec env id t s :
  is_Some (tasks s !! id) ->
  let limit := queuedTimeLimit t s in
  let s' := enqueue env id t s in
  queue s' = DLL.putAfter id (fun other => priorityOf s other <=? priority t) (queue s) /\
  tasksByTimeLimit s' =
    (if truthy limit then
       DLL.putBefore id
         (fun other =>
            match timeLimitOf (updTask id (task_set_timeLimit limit) s) other with
            | Some l => default 0 limit <? l
            | None => false
            end) (tasksByTimeLimit s)
     else tasksByTimeLimit s) /\
  timeLimitOf s' id = limit /\
  (forall x, x <> id -> timeLimitOf s' x = timeLimitOf s x) /\
  options s' = options s /\ stopped s' = stopped s /\ usedConcurrent s' = usedConcurrent s /\
  log s `prefix_of` log s'.
Proof.
  intros [t0 Hid] limit s'. subst s' limit. unfold enqueue. cbv zeta.
  set (s1 := insertIntoQueue id t s).
  set (s2 := insertByTimeLimit id t s1).
  set (s3 := armQueueWaitingTimer env id t s2).
  destruct (besideRules_fields s3 _ (besideRules_enableTimers env s3))
    as (Hq & Hl & Ht & Ho & Hc & Hs & _).
  assert (Hlog : log s `prefix_of` log (enableTimers env s3)).
  { etransitivity; [|apply enableTimers_log].
    subst s3 s2 s1. unfold armQueueWaitingTimer, insertByTimeLimit.
    destruct (truthy _ && _); destruct (truthy (queuedTimeLimit _ _)); reflexivity. }
  assert (Htl : forall x, timeLimitOf (enableTimers env s3) x = timeLimitOf s2 x).
  { intros x. unfold timeLimitOf at 1. rewrite Ht. fold (timeLimitOf s3 x).
    subst s3. unfold armQueueWaitingTimer. destruct (truthy _ && _); [|reflexivity].
    cbn [setTimer]. now rewrite timeLimitOf_updTask_keeps by reflexivity. }
  assert (H3 : queue s3 = queue s2 /\ tasksByTimeLimit s3 = tasksByTimeLimit s2 /\
               options s3 = options s2 /\ stopped s3 = stopped s2 /\
               usedConcurrent s3 = usedConcurrent s2).
  { subst s3. unfold armQueueWaitingTimer. destruct (truthy _ && _); repeat split. }
  destruct H3 as (Hq3 & Hl3 & Ho3 & Hs3 & Hc3).
  rewrite Hq, Hl, Ho, Hc, Hs, Hq3, Hl3, Ho3, Hs3, Hc3, Htl.
  clear Hq Hl Ht Ho Hc Hs Hq3 Hl3 Ho3 Hs3 Hc3.
  assert (Hlim : queuedTimeLimit t s1 = queuedTimeLimit t s) by reflexivity.
  assert (H2 : queue s2 = DLL.putAfter id (fun other => priorityOf s other <=? priority t)
                            (queue s) /\
               options s2 = options s /\ stopped s2 = stopped s /\
               usedConcurrent s2 = usedConcurrent s /\
               tasks s2 = alter (task_set_timeLimit (queuedTimeLimit t s)) id (tasks s)).
  { subst s2. unfold insertByTimeLimit. rewrite Hlim. cbv zeta.
    destruct (truthy (queuedTimeLimit t s)); repeat split. }
  destruct H2 as (Hq2 & Ho2 & Hs2 & Hc2 & Ht2).
  split; [exact Hq2|]. split.
  { subst s2. unfold insertByTimeLimit. rewrite Hlim. cbv zeta.
    destruct (truthy (queuedTimeLimit t s)); reflexivity. }
  split.
  { unfold timeLimitOf. rewrite Ht2, list_lookup_alter_eq, Hid. reflexivity. }
  split.
  { intros x Hx. rewrite Htl. unfold timeLimitOf. rewrite Ht2.
    now rewrite list_lookup_alter_ne by auto. }
  repeat split; assumption.
Qed.

(** *** The order of the queue *)

Lemma precedes_sublist (a b : nat) (l : list nat) :
  precedes a b l <-> [a; b] `sublist_of` l.
Proof.
  split.
  - intros (k1 & k2 & k3 & ->).
    apply (sublist_inserts_l k1), (sublist_skip a), (sublist_inserts_l k2),
      (sublist_skip b), sublist_nil_l.
  - intros Hs. change [a; b] with ([a] ++ [b]) in Hs.
    apply sublist_app_l in Hs as (k4 & k5 & -> & Ha & Hb).
    apply sublist_cons_l in Ha as (p1 & p2 & -> & _).
    apply sublist_cons_l in Hb as (q1 & q2 & -> & _).
    exists p1, (p2 ++ q1), q2. now rewrite <- !app_assoc.
Qed.

Lemma precedes_insert (a b v : nat) (l1 l2 : list nat) :
  precedes a b (l1 ++ l2) -> precedes a b (l1 ++ v :: l2).
Proof.
  rewrite !precedes_sublist. intros H. etransitivity; [exact H|].
  apply sublist_app; [reflexivity|]. now apply sublist_cons.
Qed.

Lemma DLL_delete_app (x : nat) (l1 l2 : list nat) :
  DLL.delete x (l1 ++ l2)
  = if bool_decide (x ∈ l1) then DLL.delete x l1 ++ l2 else l1 ++ DLL.delete x l2.
Proof.
  induction l1 as [|y l1 IH]; cbn; [reflexivity|].
  destruct (decide (y = x)) as [->|Hne].
  - rewrite bool_decide_eq_true_2 by left. reflexivity.
  - rewrite IH. destruct (bool_decide (x ∈ l1)) eqn:Hin.
    + apply bool_decide_eq_true_1 in Hin.
      rewrite bool_decide_eq_true_2 by (now right). reflexivity.
    + apply bool_decide_eq_false_1 in Hin.
      rewrite bool_decide_eq_false_2; [reflexivity|].
      intros [Heq|?]%elem_of_cons; congruence.
Qed.

Lemma precedes_delete (a b x : nat) (l : list nat) :
  x <> a -> x <> b -> precedes a b l -> precedes a b (DLL.delete x l).
Proof.
  intros Ha Hb (k1 & k2 & k3 & ->).
  rewrite DLL_delete_app. destruct (bool_decide (x ∈ k1)); [now eexists _, _, _|].
  cbn. destruct (decide (a = x)); [congruence|].
  rewrite DLL_delete_app. destruct (bool_decide (x ∈ k2)); [now eexists _, _, _|].
  cbn. destruct (decide (b = x)); [congruence|]. now eexists _, _, _.
Qed.

(** ** The claims amended *)

(** C5, amended.  The queue keeps the tasks of one priority in the order
    of their admission: a newcomer is put behind every queued task whose
    priority is equal to its own or more urgent, and neither an insertion
    nor the removal of another task changes the order of two queued tasks.
    The loop selects a task [b] while a task [a] stands before it in the
    queue only when [a] does not fit the current capacity or when [b] is
    the head of [tasksByTimeLimit] with its time limit passed. *)
Theorem fifo_unless_unfit_or_aged :
  (forall env id t s a,
      is_Some (tasks s !! id) -> a ∈ queue s -> priorityOf s a <= priority t ->
      precedes a id (queue (enqueue env id t s))) /\
  (forall env id t s a b,
      is_Some (tasks s !! id) -> precedes a b (queue s) ->
      precedes a b (queue (enqueue env id t s))) /\
  (forall x a b l, x <> a -> x <> b -> precedes a b l -> precedes a b (DLL.delete x l)) /\
  (forall env s a b s',
      NoDup (queue s) -> precedes a b (queue s) ->
      pickTaskToExecute env s = Some (b, s') ->
      fits s a = false \/
      (DLL.peekFirst (tasksByTimeLimit s) = Some b /\ aged env s b = true)).
Proof.
  split; [|split; [|split]].
  - intros env id t s a Hid Ha Hprio.
    destruct (enqueue_spec env id t s Hid) as (-> & _).
    destruct (putAfter_split id (fun other => priorityOf s other <=? priority t) (queue s))
      as (l1 & l2 & -> & Hl & Hall).
    rewrite Hl in Ha. apply elem_of_app in Ha as [Ha|Ha].
    + apply list_elem_of_split in Ha as (k1 & k2 & ->).
      exists k1, k2, l2. now rewrite <- app_assoc.
    + rewrite Forall_forall in Hall. specialize (Hall a Ha). cbn in Hall.
      apply Z.leb_gt in Hall. lia.
  - intros env id t s a b Hid Hp.
    destruct (enqueue_spec env id t s Hid) as (-> & _).
    destruct (putAfter_split id (fun other => priorityOf s other <=? priority t) (queue s))
      as (l1 & l2 & -> & Hl & _).
    rewrite Hl in Hp. now apply precedes_insert.
  - intros x a b l. apply precedes_delete.
  - intros env s a b s' Hnd (k1 & k2 & k3 & Hq) Hp.
    unfold pickTaskToExecute in Hp.
    assert (Hfrom : match DLL.pickFirstMatching (fits s) (queue s) with
                    | (Some id0, q) => Some (id0, set_queue q s)
                    | (None, _) => None
                    end = Some (b, s') -> fits s a = false).
    { pose proof (pickFirstMatching_split (fits s) (queue s)) as Hs.
      destruct (DLL.pickFirstMatching (fits s) (queue s)) as [[r|] q]; [|discriminate].
      intros [= -> <-]. destruct Hs as (l1 & l2 & Hl & _ & Hall & _).
      rewrite Forall_forall in Hall. apply Hall.
      eapply precedes_unique_prefix; eauto. }
    destruct (DLL.peekFirst (tasksByTimeLimit s)) as [h|]; [|left; auto].
    destruct (aged env s h) eqn:Hag; [|left; auto].
    destruct (fits s h); [|discriminate]. injection Hp as -> _. right. auto.
Qed.

Lemma fifo_unless_unfit_or_aged_witness :
  precedes 1%nat 2%nat
    (queue (enqueue (at_ 2) 2%nat (newTask (at_ 2) (ofCapacity 10))
              (set_tasks (tasks oneQueued ++ [newTask (at_ 2) (ofCapacity 10)]) oneQueued))) /\
  (fits freed 1%nat = false \/
   (DLL.peekFirst (tasksByTimeLimit freed) = Some 0%nat /\ aged (at_ 60) freed 0%nat = true)).
Proof.
  destruct fifo_unless_unfit_or_aged as (H1 & _ & _ & H4). split.
  - apply H1.
    + vm_compute. eauto.
    + vm_compute. left.
    + vm_compute. discriminate.
  - apply (H4 (at_ 60) freed 1%nat 0%nat freed).
    + vm_compute. repeat constructor; intros H; inversion H; subst;
        match goal with H' : _ ∈ _ |- _ => inversion H' end.
    + exists [], [], []. reflexivity.
    + reflexivity.
Defined.

(** ** The re-admission of a retried task *)

Lemma setRetryTimer_spec env id timeout s :
  is_Some (tasks s !! id) ->
  let s' := setRetryTimer env id timeout s in
  timeLimitOf s' id = Some (now env + timeout) /\
  timers s' !! length (timers s) = Some (Some (mkTimer (RetryTimer id) (now env + timeout))) /\
  retryTimers s' = retryTimers s ++ [mkRetryTimerInfo id (length (timers s))].
Proof.
  intros [t Hid]. unfold setRetryTimer, setTimer, timeLimitOf, updTask. cbn.
  rewrite list_lookup_alter_eq, Hid. split; [reflexivity|]. split; [|reflexivity].
  rewrite lookup_app_r by lia. now rewrite Nat.sub_diag.
Qed.

(** ** Failures raised by the engine *)

Lemma releaseTaskResources_task id s t :
  tasks s !! id = Some t ->
  options (releaseTaskResources id s) = options s /\
  exists t', tasks (releaseTaskResources id s) !! id = Some t' /\
             params t' = params t /\ retryAttempt t' = retryAttempt t /\
             promise t' = promise t.
Proof.
  intros Hid. unfold releaseTaskResources, updTask, clearTimer. rewrite Hid.
  destruct (truthy (reservedConcurrent t)); cbn;
    destruct (truthy (reservedCapacity t) && _); cbn;
    destruct (executionTimerId t); cbn; (split; [reflexivity|]);
    rewrite !list_lookup_alter_eq, Hid; cbn; eauto.
Qed.

Lemma log_rejectEach ids e s : log (rejectEach ids e s) = log s.
Proof.
  unfold rejectEach. apply (foldl_invariant (fun s' => log s' = log s)); [|reflexivity].
  intros s' a Hs'. now rewrite log_rejectTask.
Qed.

Lemma log_rejectAll e s : log (rejectAll e s) = log s.
Proof.
  unfold rejectAll. cbn [log set_retryTimers].
  apply (foldl_invariant (fun s' => log s' = log s)); [|reflexivity].
  intros s' a Hs'. now rewrite log_rejectTask, log_clearTimer.
Qed.

Lemma queue_rejectAll e s : queue (rejectAll e s) = queue s.
Proof.
  unfold rejectAll. cbn [queue set_retryTimers].
  apply (foldl_invariant (fun s' => queue s' = queue s)); [|reflexivity].
  intros s' a Hs'. exact Hs'.
Qed.

Lemma queue_rejectEach ids e s : queue (rejectEach ids e s) = queue s.
Proof.
  unfold rejectEach. apply (foldl_invariant (fun s' => queue s' = queue s)); [|reflexivity].
  intros s' a Hs'. exact Hs'.
Qed.

(** [stop] with [stopWaitingTasks] (or [stopAll]) empties the queue, so
    the loop is not run, and rejects through [task.reject] only. *)
Lemma stop_waiting_log env p s :
  stopWaitingTasks p = true \/ stopAll p = true ->
  log (snd (stop env (Some p) s)) = log s.
Proof.
  intros Hp. unfold stop.
  set (p' := if stopAll p then mkStopParams false true true true else p).
  assert (Hw : stopWaitingTasks p' = true).
  { subst p'. destruct Hp as [Hp|Hp]; rewrite ?Hp; destruct (stopAll p); auto. }
  replace (if stopAll p then Some (mkStopParams false true true true) else Some p)
    with (Some p') by (subst p'; now destruct (stopAll p)).
  rewrite Hw. cbn [orb]. cbv zeta. unfold DLL.clear.
  destruct (rejectExecutingTasks p'), (stopTaskRetries p');
    cbn [queue set_stopped set_executingTasks set_tasksByTimeLimit set_tasksByTimeAdded
         set_queue DLL.clear];
    rewrite ?queue_rejectAll;
    cbn [queue set_stopped set_executingTasks set_tasksByTimeLimit set_tasksByTimeAdded
         set_queue DLL.clear];
    rewrite ?queue_rejectEach;
    cbn [queue set_stopped set_executingTasks set_tasksByTimeLimit set_tasksByTimeAdded
         set_queue DLL.clear];
    change (bool_decide (0 < DLL.length (@nil nat))) with false; cbn [snd];
    repeat (progress (cbn [log set_stopped set_executingTasks set_tasksByTimeLimit
                          set_tasksByTimeAdded set_queue];
                      rewrite ?log_rejectAll, ?log_rejectEach));
    reflexivity.
Qed.

(** [task.reject] settles a pending promise with the error and touches
    nothing but the promise. *)
Lemma rejectTask_pending id e s t :
  tasks s !! id = Some t -> promise t = Pending ->
  exists t', tasks (rejectTask id e s) !! id = Some t' /\ promise t' = Rejected e.
Proof.
  intros Hid Hp. unfold rejectTask, updTask. cbn.
  rewrite list_lookup_alter_eq, Hid. cbn. rewrite Hp. eauto.
Qed.

(** ** The invariant behind the limits is kept *)

Lemma Accounted_frame s s' : accounts s' = accounts s -> Accounted s -> Accounted s'.
Proof.
  unfold accounts. intros [= Hu Hc Ho Ht Hq Hl Hr] [H1 H2 H3 H4 H5 H6].
  constructor; rewrite ?Hu, ?Hc, ?Ho, ?Ht, ?Hq, ?Hl, ?Hr; assumption.
Qed.

Lemma queuedOK_alter id f store x :
  (forall t, 0 <= capacity t -> 0 <= capacity (f t)) ->
  queuedOK store x -> queuedOK (alter f id store) x.
Proof.
  intros Hf (t & Hx & Hc). destruct (decide (x = id)) as [->|Hne].
  - exists (f t). rewrite list_lookup_alter_eq, Hx. auto.
  - exists t. rewrite list_lookup_alter_ne by auto. auto.
Qed.

Lemma Accounted_updTask id f s : benign f -> Accounted s -> Accounted (updTask id f s).
Proof.
  intros Hf [H1 H2 H3 H4 H5 H6]. constructor; cbn [options usedCapacity usedConcurrent
    tasks queue tasksByTimeLimit releaseTimers updTask set_tasks]; auto.
  - apply Forall_alter; [assumption|]. intros t _. apply Hf.
  - eapply Forall_impl; [exact H4|]. intros x. apply queuedOK_alter. intros t. apply Hf.
  - eapply Forall_impl; [exact H5|]. intros x. apply queuedOK_alter. intros t. apply Hf.
Qed.

Lemma Accounted_set_usedCapacity v s :
  (forall m, maxCapacity (options s) = Some m -> v <= m) ->
  Accounted s -> Accounted (set_usedCapacity v s).
Proof.
  intros Hv [H1 H2 H3 H4 H5 H6]. constructor; cbn; auto.
  intros m Hm. split; [apply (H1 m Hm)|auto].
Qed.

Lemma Accounted_set_usedConcurrent v s :
  (forall c, maxConcurrent (options s) = Some c -> 0 < c -> v <= c) ->
  Accounted s -> Accounted (set_usedConcurrent v s).
Proof. intros Hv [H1 H2 H3 H4 H5 H6]. constructor; cbn; auto. Qed.

Lemma Accounted_set_queue q s :
  Forall (queuedOK (tasks s)) q -> Accounted s -> Accounted (set_queue q s).
Proof. intros Hq [H1 H2 H3 H4 H5 H6]. constructor; cbn; auto. Qed.

Lemma Accounted_set_tasksByTimeLimit q s :
  Forall (queuedOK (tasks s)) q -> Accounted s -> Accounted (set_tasksByTimeLimit q s).
Proof. intros Hq [H1 H2 H3 H4 H5 H6]. constructor; cbn; auto. Qed.

Lemma Forall_DLL_delete {P : nat -> Prop} x l : Forall P l -> Forall P (DLL.delete x l).
Proof.
  induction 1 as [|y l Hy Hl IH]; cbn; [constructor|].
  destruct (decide (y = x)); [assumption|]. now constructor.
Qed.

(** Assignments that are benign. *)
Lemma benign_promise p : benign (fun t => task_set_promise (p t) t).
Proof. intros t. split; auto. Qed.
Lemma benign_timeLimit v : benign (task_set_timeLimit v).
Proof. intros t. split; auto. Qed.
Lemma benign_executionTimerId v : benign (task_set_executionTimerId v).
Proof. intros t. split; auto. Qed.
Lemma benign_queueWaitingTimerId v : benign (task_set_queueWaitingTimerId v).
Proof. intros t. split; auto. Qed.
Lemma benign_retryAttempt v : benign (task_set_retryAttempt v).
Proof. intros t. split; auto. Qed.
Lemma benign_reservedCapacity v : 0 <= v -> benign (task_set_reservedCapacity (Some v)).
Proof.
  intros Hv t. split; [|auto]. intros [H1 H2]. split; cbn; [|exact H2].
  intros r [= <-]. exact Hv.
Qed.
Lemma benign_reservedConcurrent v : 0 <= v -> benign (task_set_reservedConcurrent (Some v)).
Proof.
  intros Hv t. split; [|auto]. intros [H1 H2]. split; cbn; [exact H1|].
  intros r [= <-]. exact Hv.
Qed.
Lemma benign_capacity v : 0 <= v -> benign (task_set_capacity v).
Proof. intros Hv t. split; auto. Qed.

Create HintDb accounted.
#[local] Hint Resolve benign_timeLimit benign_executionTimerId benign_queueWaitingTimerId
  benign_retryAttempt benign_reservedCapacity benign_reservedConcurrent benign_capacity
  Accounted_updTask : accounted.

Lemma Accounted_rejectTask id e s : Accounted s -> Accounted (rejectTask id e s).
Proof. apply Accounted_updTask, (benign_promise (fun t => settle (Rejected e) (promise t))). Qed.

Lemma Accounted_resolveTaskPromise id s : Accounted s -> Accounted (resolveTaskPromise id s).
Proof. apply Accounted_updTask, (benign_promise (fun t => settle Fulfilled (promise t))). Qed.

Lemma Accounted_clearTimer h s : Accounted s -> Accounted (clearTimer h s).
Proof. now apply Accounted_frame. Qed.

Lemma Accounted_emit e s : Accounted s -> Accounted (emit e s).
Proof. now apply Accounted_frame. Qed.

Lemma Accounted_lookup s id t : Accounted s -> tasks s !! id = Some t -> taskOK t.
Proof.
  intros [_ _ H _ _ _] Hid. rewrite Forall_forall in H. apply H.
  eapply list_elem_of_lookup_2; eauto.
Qed.

Lemma releaseTaskResources_Accounted id s : Accounted s -> Accounted (releaseTaskResources id s).
Proof.
  intros Hs. unfold releaseTaskResources. destruct (tasks s !! id) as [t|] eqn:Hid; [|assumption].
  destruct (Accounted_lookup s id t Hs Hid) as [Hrc Hrn].
  set (s1 := updTask id (task_set_timeLimit None) s).
  assert (H1 : Accounted s1) by (subst s1; auto with accounted).
  set (s2 := if truthy (reservedConcurrent t) then _ else s1).
  assert (H2 : Accounted s2 /\ options s2 = options s /\ usedCapacity s2 = usedCapacity s).
  { subst s2. destruct (truthy (reservedConcurrent t)) eqn:Htr; [|auto].
    split; [|split; reflexivity].
    apply Accounted_updTask; [apply benign_reservedConcurrent; lia|].
    apply Accounted_set_usedConcurrent; [|assumption].
    intros c Hc Hpos. pose proof (acc_concurrent s1 H1 c Hc Hpos) as Hle.
    destruct (reservedConcurrent t) as [r|]; [|discriminate].
    specialize (Hrn r eq_refl). cbn. cbn in Hle. lia. }
  destruct H2 as (H2 & Ho2 & Hu2).
  set (s3 := if truthy (reservedCapacity t) && _ then _ else s2).
  assert (H3 : Accounted s3).
  { subst s3. destruct (truthy (reservedCapacity t) && _) eqn:Htr; [|auto].
    apply Accounted_updTask; [apply benign_reservedCapacity; lia|].
    apply Accounted_set_usedCapacity; [|assumption].
    intros m Hm. destruct (acc_capacity s2 H2 m Hm) as [Hm0 Hle].
    destruct (reservedCapacity t) as [r|]; [|discriminate].
    specialize (Hrc r eq_refl). cbn. lia. }
  destruct (executionTimerId t); [|assumption].
  apply Accounted_updTask; [apply benign_executionTimerId|].
  now apply Accounted_clearTimer.
Qed.

#[local] Hint Resolve Accounted_rejectTask Accounted_resolveTaskPromise Accounted_clearTimer
  Accounted_emit releaseTaskResources_Accounted : accounted.

Lemma setRetryTimer_Accounted env id timeout s :
  Accounted s -> Accounted (setRetryTimer env id timeout s).
Proof.
  intros Hs. unfold setRetryTimer, setTimer.
  eapply Accounted_frame; [|apply (Accounted_updTask id (task_set_timeLimit (Some (now env + timeout))) s);
                            auto with accounted].
  reflexivity.
Qed.

Lemma useStrategy_Accounted env id strategy e attempt s :
  Accounted s -> Accounted (useStrategy env id strategy e attempt s).
Proof.
  intros Hs. unfold useStrategy. destruct strategy as [o|hook].
  - destruct (_ <? _); auto using setRetryTimer_Accounted with accounted.
  - eapply Accounted_frame; [|apply (Accounted_emit (StrategyUsed id attempt)); eassumption].
    reflexivity.
Qed.

Lemma onFailureSettled_Accounted env call r s :
  Accounted s -> Accounted (onFailureSettled env call r s).
Proof.
  intros Hs. unfold onFailureSettled.
  destruct (onFailureCalls s !! call) as [[c|]|]; try assumption.
  set (s1 := set_onFailureCalls _ s).
  assert (H1 : Accounted s1) by (eapply Accounted_frame; [|exact Hs]; reflexivity).
  destruct r; auto using setRetryTimer_Accounted with accounted.
Qed.

(** *** The release rules *)

Lemma map_fst_updStatus rule f (entries : list (ReleaseRule * ReleaseRuleStatus)) :
  map fst (map (fun e => if decide (fst e = rule) then (fst e, f (snd e)) else e) entries)
  = map fst entries.
Proof.
  induction entries as [|e entries IH]; cbn; [reflexivity|].
  rewrite IH. destruct (decide (fst e = rule)); reflexivity.
Qed.

Lemma accounts_updStatus rule f s : accounts (updStatus rule f s) = accounts s.
Proof.
  unfold accounts, updStatus. cbn. now rewrite map_fst_updStatus.
Qed.

Lemma accounts_clearOpt h s : accounts (clearOpt h s) = accounts s.
Proof. destruct h; reflexivity. Qed.

Lemma accounts_clearReleaseRuleTimer rule status s :
  accounts (clearReleaseRuleTimer rule status s) = accounts s.
Proof.
  unfold clearReleaseRuleTimer. now rewrite accounts_updStatus, !accounts_clearOpt.
Qed.

Lemma accounts_setRuleTimerWithDelay env rule delay s :
  accounts (setRuleTimerWithDelay env rule delay s) = accounts s.
Proof.
  unfold setRuleTimerWithDelay, setTimer. destruct (decide _); now rewrite accounts_updStatus.
Qed.

Lemma accounts_disableTimers s : accounts (disableTimers s) = accounts s.
Proof.
  unfold disableTimers. destruct (releaseRuleTimersEnabled s); [|reflexivity].
  match goal with |- accounts (foldl ?f ?s1 ?l) = _ =>
    apply (foldl_invariant (fun s' => accounts s' = accounts s)); [|reflexivity] end.
  intros s' a Hs'. now rewrite accounts_clearReleaseRuleTimer.
Qed.

Lemma accounts_armRuleTimers env s : accounts (armRuleTimers env s) = accounts s.
Proof.
  unfold armRuleTimers.
  apply (foldl_invariant (fun s' => accounts s' = accounts s)); [|reflexivity].
  intros s' a Hs'. now rewrite accounts_setRuleTimerWithDelay.
Qed.

Lemma disableTimers_Accounted s : Accounted s -> Accounted (disableTimers s).
Proof. apply Accounted_frame, accounts_disableTimers. Qed.

(** [applyRule] for an installed rule: a reset at any time, a reduce rule
    for a number of firings that is not negative. *)
Lemma applyRule_Accounted rule times s :
  rule ∈ map fst (releaseTimers s) ->
  (forall m, maxCapacity (options s) = Some m -> type rule = reduce -> 0 <= times) ->
  Accounted s -> Accounted (applyRule rule times s).
Proof.
  intros Hin Htimes Hs. unfold applyRule.
  assert (Hok : forall m, maxCapacity (options s) = Some m ->
                          ruleOK m (map fst (releaseTimers s)) rule).
  { intros m Hm. pose proof (acc_rules s Hs) as Hr. unfold rulesOK in Hr. rewrite Hm in Hr.
    rewrite Forall_forall in Hr. now apply Hr. }
  destruct (type rule) eqn:Hty.
  - apply Accounted_set_usedCapacity; [|now apply Accounted_emit].
    intros m Hm. specialize (Hok m Hm). unfold ruleOK in Hok. rewrite Hty in Hok. apply Hok.
  - apply Accounted_set_usedCapacity; [|now apply Accounted_emit].
    intros m Hm. specialize (Hok m Hm). unfold ruleOK in Hok. rewrite Hty in Hok.
    destruct (acc_capacity s Hs m Hm) as [Hm0 Hle].
    change (usedCapacity (emit (RuleApplied rule times) s)) with (usedCapacity s).
    specialize (Htimes m Hm eq_refl).
    assert (0 <= default 0 (value rule) * times) by (apply Z.mul_nonneg_nonneg; lia).
    lia.
Qed.

Lemma missedResets_keys now entries acc :
  map fst (fst (missedResets now entries acc)) = map fst entries.
Proof.
  revert acc. induction entries as [|[rule status] entries IH]; intros acc; [reflexivity|].
  cbn [missedResets]. destruct (type rule).
  - destruct (_ <=? _).
    + match goal with |- context [missedResets now entries ?a] =>
        specialize (IH a); destruct (missedResets now entries a) end.
      cbn in *. now rewrite IH.
    + specialize (IH acc). destruct (missedResets now entries acc). cbn in *. now rewrite IH.
  - specialize (IH acc). destruct (missedResets now entries acc). cbn in *. now rewrite IH.
Qed.

(** What the first loop returns: nothing, or the catch-up time of a reset
    rule of the table. *)

Lemma missedResets_result keys now entries acc :
  (forall e, e ∈ entries -> fst e ∈ keys) ->
  resetFound keys acc -> resetFound keys (snd (missedResets now entries acc)).
Proof.
  revert acc. induction entries as [|[rule status] entries IH]; intros acc Hsub Hacc;
    [exact Hacc|].
  assert (Hsub' : forall e, e ∈ entries -> fst e ∈ keys) by (intros e He; apply Hsub; now right).
  assert (Hrule : rule ∈ keys) by (apply (Hsub (rule, status)); left).
  cbn [missedResets]. destruct (type rule) eqn:Hty.
  - destruct (_ <=? _).
    + match goal with |- context [missedResets now entries ?a] =>
        specialize (IH a Hsub'); destruct (missedResets now entries a) as [e1 res] end.
      cbn [snd] in *. apply IH.
      destruct (negb (truthy (fst acc)) || _); [|exact Hacc].
      right. eexists _, rule. auto.
    + specialize (IH acc Hsub' Hacc). now destruct (missedResets now entries acc).
  - specialize (IH acc Hsub' Hacc). now destruct (missedResets now entries acc).
Qed.

Lemma applyRule_fields rule times s :
  releaseTimers (applyRule rule times s) = releaseTimers s /\
  options (applyRule rule times s) = options s.
Proof. unfold applyRule. destruct (type rule); split; reflexivity. Qed.

(** The firings counted for a reduce rule that is due, no reset being
    due, are not negative. *)
Lemma firings_nonneg now la i : 0 < i -> i <= now - la -> 0 <= (now - jsRem (now - la) i - la) / i.
Proof.
  intros Hi Hdue. apply Z.div_pos; [|assumption]. unfold jsRem.
  pose proof (Z.rem_bound_pos (now - la) i ltac:(lia) Hi). lia.
Qed.

(** The second loop, run when no reset was due or when it cannot
    reduce. *)
Lemma missedReduces_Accounted now t entries s :
  (forall e, e ∈ entries -> fst e ∈ map fst (releaseTimers s)) ->
  (forall m, maxCapacity (options s) = Some m ->
             t = None \/ usedCapacity s <= 0 \/ Forall (fun e => type (fst e) = reset) entries) ->
  Accounted s ->
  Accounted (snd (missedReduces now t entries s)) /\
  releaseTimers (snd (missedReduces now t entries s)) = releaseTimers s /\
  map fst (fst (missedReduces now t entries s)) = map fst entries.
Proof.
  revert s. induction entries as [|[rule status] entries IH]; intros s Hsub Hpre Hs; [auto|].
  assert (Hsub' : forall e, e ∈ entries -> fst e ∈ map fst (releaseTimers s))
    by (intros e He; apply Hsub; now right).
  assert (Hrule : rule ∈ map fst (releaseTimers s)) by (apply (Hsub (rule, status)); left).
  assert (Hpre' : forall m, maxCapacity (options s) = Some m ->
             t = None \/ usedCapacity s <= 0 \/ Forall (fun e => type (fst e) = reset) entries).
  { intros m Hm. destruct (Hpre m Hm) as [?|[?|Hall]]; auto.
    right. right. now apply Forall_cons in Hall as [_ ?]. }
  cbn [missedReduces]. destruct (type rule) eqn:Hty.
  - specialize (IH s Hsub' Hpre' Hs). destruct (missedReduces now t entries s) as [e1 s1].
    cbn [fst snd map] in *. destruct IH as (? & ? & ->). auto.
  - destruct (interval rule <=? now - lastApplied status) eqn:Hdue.
    + set (s1 := if canReduceCapacity s then _ else s).
      assert (H1 : Accounted s1 /\ releaseTimers s1 = releaseTimers s /\
                   options s1 = options s /\
                   (forall m, maxCapacity (options s) = Some m ->
                      t = None \/ usedCapacity s1 <= 0 \/
                      Forall (fun e => type (fst e) = reset) entries)).
      { subst s1. destruct (canReduceCapacity s) eqn:Hcan; [|auto].
        destruct (applyRule_fields rule
                    ((now - jsRem (now - lastApplied status) (interval rule)
                      - default (lastApplied status) t) / interval rule) s) as [Hrt Hopt].
        split; [|split; [exact Hrt|split; [exact Hopt|]]].
        - apply applyRule_Accounted; [assumption| |assumption].
          intros m Hm _. destruct (Hpre m Hm) as [->|[Hle|Hall]].
          + cbn. apply firings_nonneg; [|now apply Z.leb_le].
            pose proof (acc_rules s Hs) as Hr. unfold rulesOK in Hr. rewrite Hm in Hr.
            rewrite Forall_forall in Hr. specialize (Hr rule Hrule). unfold ruleOK in Hr.
            rewrite Hty in Hr. apply Hr.
          + unfold canReduceCapacity in Hcan. apply Z.ltb_lt in Hcan. lia.
          + apply Forall_cons in Hall as [Hr _]. cbn in Hr. congruence.
        - intros m Hm. destruct (Hpre m Hm) as [->|[Hle|Hall]]; [auto| |].
          + unfold canReduceCapacity in Hcan. apply Z.ltb_lt in Hcan. lia.
          + apply Forall_cons in Hall as [Hr _]. cbn in Hr. congruence. }
      destruct H1 as (Hs1 & Hrt1 & Ho1 & Hpre1).
      specialize (IH s1). rewrite Hrt1, Ho1 in IH.
      destruct (missedReduces now t entries s1) as [e1 s2]. cbn [fst snd map] in *.
      destruct IH as (? & -> & ->); auto.
    + specialize (IH s Hsub' Hpre' Hs). destruct (missedReduces now t entries s) as [e1 s1].
      cbn [fst snd map] in *. destruct IH as (? & ? & ->). auto.
Qed.

Lemma Accounted_set_releaseTimers entries s :
  map fst entries = map fst (releaseTimers s) ->
  Accounted s -> Accounted (set_releaseTimers entries s).
Proof. intros He. apply Accounted_frame. unfold accounts. cbn. now rewrite He. Qed.

Lemma applyMissedRules_Accounted now s : Accounted s -> Accounted (applyMissedRules now s).
Proof.
  intros Hs. unfold applyMissedRules.
  pose proof (missedResets_keys now (releaseTimers s) (None, None)) as Hkeys.
  pose proof (missedResets_result (map fst (releaseTimers s)) now (releaseTimers s) (None, None))
    as Hres.
  destruct (missedResets now (releaseTimers s) (None, None)) as [entries [t r]].
  cbn [fst snd] in *.
  specialize (Hres ltac:(intros e He; now apply list_elem_of_fmap_2)
                   ltac:(now left)).
  set (s1 := match r with Some rule => applyRule rule 1 s | None => s end).
  assert (H1 : Accounted s1 /\ releaseTimers s1 = releaseTimers s /\ options s1 = options s /\
               (forall m, maxCapacity (options s) = Some m ->
                  t = None \/ usedCapacity s1 <= 0 \/
                  Forall (fun e => type (fst e) = reset) entries)).
  { subst s1. destruct Hres as [[= -> ->]|(t' & r' & [= -> ->] & Hty & Hin)]; [auto 6|].
    destruct (applyRule_fields r' 1 s) as [Hrt Hopt].
    split; [|split; [exact Hrt|split; [exact Hopt|]]].
    - apply applyRule_Accounted; auto. intros m _ Hred. congruence.
    - intros m Hm. right.
      destruct (decide (Forall (fun e : ReleaseRule * ReleaseRuleStatus =>
                                  type (fst e) = reset) entries)) as [Hall|Hex]; [now right|].
      left. apply not_Forall_Exists in Hex; [|intros e; apply _].
      apply Exists_exists in Hex as ([r2 st2] & Hin2 & Hne).
      pose proof (acc_rules s Hs) as Hr. unfold rulesOK in Hr. rewrite Hm in Hr.
      rewrite Forall_forall in Hr. specialize (Hr r' Hin). unfold ruleOK in Hr.
      rewrite Hty in Hr. destruct Hr as [_ Hr].
      unfold applyRule. rewrite Hty. cbn. apply Hr.
      exists r2. split.
      + rewrite <- Hkeys. now apply (list_elem_of_fmap_2 fst entries (r2, st2)).
      + cbn in Hne. destruct (type r2); congruence. }
  destruct H1 as (Hs1 & Hrt1 & Ho1 & Hpre).
  destruct (missedReduces_Accounted now t entries s1) as (H2 & Hrt2 & Hk2); auto.
  { intros e He. rewrite Hrt1, <- Hkeys. now apply list_elem_of_fmap_2. }
  { intros m Hm. apply (Hpre m). now rewrite <- Ho1. }
  destruct (missedReduces now t entries s1) as [entries2 s2]. cbn [fst snd] in *.
  apply Accounted_set_releaseTimers; [|assumption]. now rewrite Hk2, Hrt2, Hrt1.
Qed.

Lemma enableTimers_Accounted env s : Accounted s -> Accounted (enableTimers env s).
Proof.
  intros Hs. unfold enableTimers. destruct (releaseRuleTimersEnabled s); [assumption|].
  eapply Accounted_frame; [apply accounts_armRuleTimers|].
  apply applyMissedRules_Accounted. eapply Accounted_frame; [|exact Hs]. reflexivity.
Qed.

#[local] Hint Resolve setRetryTimer_Accounted useStrategy_Accounted disableTimers_Accounted
  enableTimers_Accounted applyMissedRules_Accounted : accounted.

(** *** Dispatch *)

Lemma reserveResources_Accounted id s :
  Accounted s -> fits s id = true -> queuedOK (tasks s) id ->
  truthy (maxConcurrent (options s))
  && (default 0 (maxConcurrent (options s)) <=? usedConcurrent s) = false ->
  Accounted (reserveResources id s).
Proof.
  intros Hs Hfit (t & Hid & Hcap) Hgate. unfold reserveResources, fits in *. rewrite Hid in *.
  set (s1 := match maxCapacity (options s) with Some _ => _ | None => s end).
  assert (H1 : Accounted s1 /\ options s1 = options s /\ usedConcurrent s1 = usedConcurrent s
               /\ queue s1 = queue s /\ tasksByTimeLimit s1 = tasksByTimeLimit s).
  { subst s1. unfold canFitTask in Hfit.
    destruct (maxCapacity (options s)) as [m|] eqn:Hm; [|auto].
    split; [|repeat split; destruct (optCapacityStrategy (options s)); reflexivity].
    apply Accounted_set_usedCapacity.
    - apply Z.leb_le in Hfit.
      destruct (optCapacityStrategy (options s)); unfold updTask;
        cbn [options set_tasks usedCapacity];
        intros m' Hm'; assert (m' = m) by congruence; subst m'; exact Hfit.
    - destruct (optCapacityStrategy (options s)); auto with accounted. }
  destruct H1 as (H1 & Ho1 & Hc1 & Hq1 & Hl1). clearbody s1.
  set (s2 := match queueWaitingTimerId t with Some _ => _ | None => s1 end).
  assert (H2 : Accounted s2 /\ options s2 = options s /\ usedConcurrent s2 = usedConcurrent s
               /\ queue s2 = queue s /\ tasksByTimeLimit s2 = tasksByTimeLimit s).
  { subst s2. destruct (queueWaitingTimerId t); (split; [auto with accounted|auto]). }
  destruct H2 as (H2 & Ho2 & Hc2 & Hq2 & Hl2). clearbody s2. clear H1 Ho1 Hc1 Hq1 Hl1 s1.
  set (s3 := set_usedConcurrent _ _).
  assert (H3 : Accounted s3).
  { subst s3. apply Accounted_set_usedConcurrent; [|apply Accounted_updTask;
      [apply benign_reservedConcurrent; lia|assumption]].
    unfold updTask. cbn [options set_tasks usedConcurrent]. rewrite Ho2, Hc2.
    intros c Hc Hpos.
    rewrite Hc in Hgate. cbn in Hgate.
    destruct (c =? 0) eqn:E; [apply Z.eqb_eq in E; lia|]. cbn in Hgate.
    apply Z.leb_gt in Hgate. lia. }
  set (s4 := set_tasksByTimeAdded _ _).
  assert (H4 : Accounted s4 /\ tasksByTimeLimit s4 = tasksByTimeLimit s).
  { subst s4. split; [|exact Hl2].
    eapply Accounted_frame; [|apply (Accounted_set_queue (DLL.delete id (queue s3)) s3);
                              [|exact H3]].
    - reflexivity.
    - apply Forall_DLL_delete. apply (acc_queue s3 H3). }
  destruct H4 as [H4 Hl4]. destruct (truthy (timeLimit t)); [|assumption].
  apply Accounted_set_tasksByTimeLimit; [|assumption].
  apply Forall_DLL_delete. apply (acc_limit s4 H4).
Qed.

Lemma pickTaskToExecute_Accounted env s id s1 :
  pickTaskToExecute env s = Some (id, s1) -> Accounted s ->
  Accounted s1 /\ fits s1 id = true /\ queuedOK (tasks s1) id /\
  options s1 = options s /\ usedConcurrent s1 = usedConcurrent s.
Proof.
  intros Hp Hs. unfold pickTaskToExecute in Hp.
  assert (Hfrom : match DLL.pickFirstMatching (fits s) (queue s) with
                  | (Some id0, q) => Some (id0, set_queue q s)
                  | (None, _) => None
                  end = Some (id, s1) ->
                  Accounted s1 /\ fits s1 id = true /\ queuedOK (tasks s1) id /\
                  options s1 = options s /\ usedConcurrent s1 = usedConcurrent s).
  { pose proof (pickFirstMatching_split (fits s) (queue s)) as Hsplit.
    destruct (DLL.pickFirstMatching (fits s) (queue s)) as [[r|] q]; [|discriminate].
    intros [= -> <-]. destruct Hsplit as (l1 & l2 & Hl & -> & _ & Hfit).
    pose proof (acc_queue s Hs) as Hq. rewrite Hl in Hq.
    apply Forall_app in Hq as [Hq1 Hq2]. apply Forall_cons in Hq2 as [Hid Hq2].
    split; [|auto]. apply Accounted_set_queue; [|assumption]. now apply Forall_app. }
  destruct (DLL.peekFirst (tasksByTimeLimit s)) as [h|] eqn:Hh; [|auto].
  destruct (aged env s h); [|auto].
  destruct (fits s h) eqn:Hfit; [|discriminate]. injection Hp as <- <-.
  split; [assumption|]. split; [assumption|]. split; [|auto].
  pose proof (acc_limit s Hs) as Hl. unfold DLL.peekFirst in Hh.
  destruct (tasksByTimeLimit s); [discriminate|]. injection Hh as ->.
  now apply Forall_cons in Hl as [? _].
Qed.

Section AccountedLoop.
Variable next : State -> State.
Hypothesis next_Accounted : forall s, Accounted s -> Accounted (next s).

Lemma tryRejectTask_Accounted env id e s :
  Accounted s -> Accounted (tryRejectTask_ next env id e s).
Proof.
  intros Hs. unfold tryRejectTask_. apply next_Accounted.
  pose proof (releaseTaskResources_Accounted id s Hs) as H1.
  destruct (tasks (releaseTaskResources id s) !! id) as [t|]; [|assumption].
  destruct (nullish _ _) as [[| |o]|]; auto with accounted.
Qed.

Lemma resolveTask_Accounted id s : Accounted s -> Accounted (resolveTask_ next id s).
Proof. intros Hs. unfold resolveTask_. auto with accounted. Qed.

Lemma executeTask_Accounted env id s : Accounted s -> Accounted (executeTask_ next env id s).
Proof.
  intros Hs. unfold executeTask_. destruct (tasks s !! id) as [t|]; [|assumption].
  set (s1 := set_executingTasks (setAdd _ _) _).
  assert (H1 : Accounted s1) by (eapply Accounted_frame; [|exact Hs]; reflexivity).
  set (s2 := if truthy _ then _ else s1).
  assert (H2 : Accounted s2).
  { subst s2. destruct (truthy _); [|assumption]. cbn [setTimer].
    apply Accounted_updTask; [apply benign_executionTimerId|].
    eapply Accounted_frame; [|exact H1]. reflexivity. }
  destruct (throwsSync env id); [|auto with accounted].
  apply tryRejectTask_Accounted.
  eapply Accounted_frame; [|apply (Accounted_emit (CallbackInvoked id)); exact H2]. reflexivity.
Qed.

Lemma startNextBody_Accounted env s : Accounted s -> Accounted (startNextBody next env s).
Proof.
  intros Hs. unfold startNextBody.
  assert (Hmain : Accounted
    (if truthy (maxConcurrent (options s))
        && (default 0 (maxConcurrent (options s)) <=? usedConcurrent s)
     then s
     else match pickTaskToExecute env s with
          | None => s
          | Some (taskToExecute, s0) =>
              let s1 := reserveResources taskToExecute s0 in
              let s2 := executeTask_ next env taskToExecute s1 in
              if bool_decide (DLL.length (queue s2) = 0) then disableTimers s2 else next s2
          end)).
  { destruct (truthy _ && _) eqn:Hgate; [assumption|].
    destruct (pickTaskToExecute env s) as [[id s1]|] eqn:Hp; [|assumption].
    destruct (pickTaskToExecute_Accounted env s id s1 Hp Hs) as (H1 & Hfit & Hq & Ho & Hc).
    cbv zeta.
    assert (H2 : Accounted (executeTask_ next env id (reserveResources id s1))).
    { apply executeTask_Accounted, reserveResources_Accounted; auto. now rewrite Ho, Hc. }
    destruct (bool_decide _); auto with accounted. }
  destruct (stopped s) as [st|]; [|exact Hmain].
  destruct (bool_decide _); [|exact Hmain].
  unfold stoppedResolve. destruct (stoppedPromise st); [|assumption].
  eapply Accounted_frame; [|exact Hs]. reflexivity.
Qed.
End AccountedLoop.

Lemma startNextRounds_Accounted n env s : Accounted s -> Accounted (startNextRounds n env s).
Proof.
  revert s. induction n as [|n IH]; intros s Hs; [assumption|].
  cbn [startNextRounds]. now apply startNextBody_Accounted.
Qed.

Lemma startNextTaskIfPossible_Accounted env s :
  Accounted s -> Accounted (startNextTaskIfPossible env s).
Proof. apply startNextRounds_Accounted. Qed.

#[local] Hint Resolve startNextTaskIfPossible_Accounted : accounted.

Lemma tryRejectTask_top_Accounted env id e s : Accounted s -> Accounted (tryRejectTask env id e s).
Proof. apply tryRejectTask_Accounted. auto with accounted. Qed.

Lemma resolveTask_top_Accounted env id s : Accounted s -> Accounted (resolveTask env id s).
Proof. apply resolveTask_Accounted. auto with accounted. Qed.

(** *** Admission *)

Lemma Forall_putBefore {P : nat -> Prop} v c l :
  P v -> Forall P l -> Forall P (DLL.putBefore v c l).
Proof.
  intros Hv Hl. destruct (putBefore_split v c l) as (l1 & l2 & -> & -> & _).
  apply Forall_app in Hl as [H1 H2]. apply Forall_app. split; [assumption|now constructor].
Qed.

Lemma Forall_putAfter {P : nat -> Prop} v c l :
  P v -> Forall P l -> Forall P (DLL.putAfter v c l).
Proof.
  intros Hv Hl. destruct (putAfter_split v c l) as (l1 & l2 & -> & -> & _).
  apply Forall_app in Hl as [H1 H2]. apply Forall_app. split; [assumption|now constructor].
Qed.

Lemma removeTaskFromQueues_Accounted id s : Accounted s -> Accounted (removeTaskFromQueues id s).
Proof.
  intros Hs. unfold removeTaskFromQueues.
  apply Accounted_set_tasksByTimeLimit.
  - apply Forall_DLL_delete, (acc_limit s Hs).
  - eapply Accounted_frame;
      [|apply (Accounted_set_queue (DLL.delete id (queue s)) s); [|exact Hs]].
    + reflexivity.
    + apply Forall_DLL_delete, (acc_queue s Hs).
Qed.

#[local] Hint Resolve removeTaskFromQueues_Accounted : accounted.

Lemma queuedOK_rejectTask victim e s id :
  queuedOK (tasks s) id -> queuedOK (tasks (rejectTask victim e s)) id.
Proof. apply queuedOK_alter. auto. Qed.

Lemma admissionChecks_Accounted id t s :
  tasks s !! id = Some t -> Accounted s ->
  Accounted (stateOf (admissionChecks id t s)) /\
  (forall s1, admissionChecks id t s = Normal s1 -> queuedOK (tasks s1) id).
Proof.
  intros Hid Hs. unfold admissionChecks.
  set (exceeds := match maxCapacity (options s) with Some m => m <? capacity t | None => false end).
  assert (Hclamp : exceeds = true -> 0 <= default 0 (maxCapacity (options s))).
  { subst exceeds. destruct (maxCapacity (options s)) as [m|] eqn:Hm; [|discriminate].
    intros _. apply (acc_capacity s Hs m Hm). }
  assert (Hgo : let capacity' := if exceeds then default 0 (maxCapacity (options s))
                                 else capacity t in
                let s0 := if exceeds then updTask id (task_set_capacity capacity') s else s in
                Accounted s0 /\ (0 <= capacity' -> queuedOK (tasks s0) id)).
  { cbv zeta. destruct exceeds.
    - split; [apply Accounted_updTask; [apply benign_capacity|]; auto|].
      intros _. eexists. unfold updTask. cbn. rewrite list_lookup_alter_eq, Hid.
      split; [reflexivity|]. cbn. auto.
    - split; [assumption|]. intros Hc. now exists t. }
  cbv zeta in Hgo. destruct Hgo as [Hs0 Hq0].
  destruct exceeds eqn:Hex; destruct (optTaskExceedsMaxCapacityStrategy (options s));
    try (split; [assumption|discriminate]);
    cbv zeta;
    match goal with |- context [if ?c <? 0 then _ else _] =>
      destruct (c <? 0) eqn:Hneg; [split; [assumption|discriminate]|] end;
    (destruct (_ || _); [split; [assumption|discriminate]|]);
    (split; [assumption|]); intros s1 [= <-]; apply Hq0; now apply Z.ltb_ge.
Qed.

Lemma queueOverflow_Accounted id t s :
  Accounted s -> queuedOK (tasks s) id ->
  match queueOverflow id t s with
  | inl s1 => Accounted s1 /\ queuedOK (tasks s1) id
  | inr s1 => Accounted s1
  end.
Proof.
  intros Hs Hq. unfold queueOverflow. destruct (truthy _ && _); [|auto].
  destruct (optQueueSizeExceededStrategy (options s)).
  - auto with accounted.
  - destruct (DLL.shift (tasksByTimeAdded s)) as [[oldest|] rest]; [|auto].
    split; [|now apply queuedOK_rejectTask].
    apply Accounted_rejectTask, removeTaskFromQueues_Accounted.
    eapply Accounted_frame; [|exact Hs]. reflexivity.
  - destruct (DLL.peekLast (queue s)) as [least|]; [|auto with accounted].
    destruct (_ <? _); [|auto with accounted].
    split; [auto with accounted|now apply queuedOK_rejectTask].
  - auto.
Qed.

Lemma enqueue_Accounted env id t s :
  Accounted s -> queuedOK (tasks s) id -> Accounted (enqueue env id t s).
Proof.
  intros Hs Hq. unfold enqueue. cbv zeta. apply enableTimers_Accounted.
  assert (H1 : Accounted (insertIntoQueue id t s) /\
               tasks (insertIntoQueue id t s) = tasks s).
  { split; [|reflexivity]. unfold insertIntoQueue. cbv zeta.
    eapply Accounted_frame; [|apply (Accounted_set_queue
       (DLL.putAfter id (fun other => priorityOf s other <=? priority t) (queue s)) s);
       [|exact Hs]].
    - reflexivity.
    - apply Forall_putAfter; [assumption|apply (acc_queue s Hs)]. }
  destruct H1 as [H1 Ht1]. rewrite <- Ht1 in Hq.
  set (s1 := insertIntoQueue id t s) in *. clearbody s1.
  assert (H2 : Accounted (insertByTimeLimit id t s1)).
  { unfold insertByTimeLimit. cbv zeta.
    set (s2 := updTask id (task_set_timeLimit (queuedTimeLimit t s1)) s1).
    assert (Hs2 : Accounted s2) by (subst s2; auto with accounted).
    destruct (truthy _); [|assumption].
    apply Accounted_set_tasksByTimeLimit; [|assumption].
    apply Forall_putBefore; [|apply (acc_limit s2 Hs2)].
    subst s2. unfold updTask. cbn. apply queuedOK_alter; auto. }
  set (s2 := insertByTimeLimit id t s1) in *. clearbody s2.
  unfold armQueueWaitingTimer. destruct (truthy _ && _); [|assumption].
  cbn [setTimer]. apply Accounted_updTask; [apply benign_queueWaitingTimerId|].
  eapply Accounted_frame; [|exact H2]. reflexivity.
Qed.

Lemma scheduleTask_Accounted env id s :
  Accounted s -> Accounted (stateOf (scheduleTask env id s)).
Proof.
  intros Hs. unfold scheduleTask. destruct (tasks s !! id) as [t|] eqn:Hid; [|assumption].
  destruct (stopped s); [cbn; auto with accounted|].
  destruct (admissionChecks_Accounted id t s Hid Hs) as [Ha Hq].
  destruct (admissionChecks id t s) as [s1|e s1]; [|exact Ha].
  cbn [stateOf] in Ha. specialize (Hq s1 eq_refl).
  pose proof (queueOverflow_Accounted id t s1 Ha Hq) as Ho.
  destruct (queueOverflow id t s1) as [s2|s2]; [|exact Ho].
  destruct Ho as [Ho Hq2]. cbn [stateOf].
  now apply startNextTaskIfPossible_Accounted, enqueue_Accounted.
Qed.

Lemma schedule_Accounted env p s : Accounted s -> Accounted (stateOf (schedule env p s)).
Proof.
  intros Hs. unfold schedule. apply scheduleTask_Accounted.
  destruct Hs as [H1 H2 H3 H4 H5 H6]. constructor; cbn; auto.
  - apply Forall_app. split; [assumption|]. constructor; [|constructor].
    split; cbn; discriminate.
  - eapply Forall_impl; [exact H4|]. intros x (t & Hx & Hc). exists t.
    split; [|assumption]. now apply lookup_app_l_Some.
  - eapply Forall_impl; [exact H5|]. intros x (t & Hx & Hc). exists t.
    split; [|assumption]. now apply lookup_app_l_Some.
Qed.

(** *** Stop, the setters of the used capacity, reconfiguration *)

Lemma rejectEach_Accounted ids e s : Accounted s -> Accounted (rejectEach ids e s).
Proof. unfold rejectEach. apply (foldl_invariant Accounted). auto with accounted. Qed.

Lemma rejectAll_Accounted e s : Accounted s -> Accounted (rejectAll e s).
Proof.
  intros Hs. unfold rejectAll.
  match goal with |- Accounted (set_retryTimers [] ?x) =>
    apply (Accounted_frame x); [reflexivity|] end.
  apply (foldl_invariant Accounted); auto with accounted.
Qed.

Lemma Accounted_emptied s :
  Accounted s ->
  Accounted (set_tasksByTimeLimit [] (set_tasksByTimeAdded [] (set_queue [] s))).
Proof. intros [H1 H2 H3 H4 H5 H6]. constructor; cbn; auto. Qed.

Lemma stop_Accounted env p s : Accounted s -> Accounted (snd (stop env p s)).
Proof.
  intros Hs. unfold stop.
  set (p' := match p with Some p0 => _ | None => None end).
  set (s1 := match p' with Some p0 => _ | None => s end).
  assert (H1 : Accounted s1).
  { subst s1. destruct p' as [p0|]; [|assumption].
    destruct (_ || _); [|assumption]. cbv zeta. unfold DLL.clear.
    set (s2 := if stopWaitingTasks p0 then _ else s).
    assert (H2 : Accounted s2).
    { subst s2. destruct (stopWaitingTasks p0); [|assumption].
      apply Accounted_emptied. now apply rejectEach_Accounted. }
    set (s3 := if rejectExecutingTasks p0 then _ else s2).
    assert (H3 : Accounted s3).
    { subst s3. destruct (rejectExecutingTasks p0); [|assumption].
      eapply Accounted_frame; [|apply (rejectEach_Accounted (executingTasks s2)
                                         (CapacityLimiterError stopped_error) s2 H2)].
      reflexivity. }
    destruct (stopTaskRetries p0); [now apply rejectAll_Accounted|assumption]. }
  clearbody s1. cbv zeta. destruct (bool_decide _); cbn [snd].
  - apply startNextTaskIfPossible_Accounted. eapply Accounted_frame; [|exact H1]. reflexivity.
  - eapply Accounted_frame; [|exact H1]. reflexivity.
Qed.

Lemma setUsedCapacity_Accounted env v s :
  Accounted s -> Accounted (stateOf (setUsedCapacity env v s)).
Proof.
  intros Hs. unfold setUsedCapacity, checkUsedCapacity.
  destruct (maxCapacity (options s)) as [m|] eqn:Hm; [|assumption].
  destruct (v <? 0); [assumption|]. destruct (m <? v) eqn:Hle; [assumption|].
  cbn [stateOf]. apply startNextTaskIfPossible_Accounted, Accounted_set_usedCapacity; auto.
  intros m' Hm'. apply Z.ltb_ge in Hle. congruence.
Qed.

Lemma adjustUsedCapacity_Accounted env diff s :
  Accounted s -> Accounted (stateOf (adjustUsedCapacity env diff s)).
Proof.
  intros Hs. unfold adjustUsedCapacity.
  destruct (maxCapacity (options s)) as [m|] eqn:Hm; [|assumption].
  cbn [stateOf]. apply startNextTaskIfPossible_Accounted, Accounted_set_usedCapacity; auto.
  intros m' Hm'. assert (m' = m) by congruence. lia.
Qed.

Lemma getUsedCapacity_Accounted env s : Accounted s -> Accounted (snd (getUsedCapacity env s)).
Proof.
  intros Hs. unfold getUsedCapacity, areTimersEnabled.
  destruct (releaseRuleTimersEnabled s); cbn [snd]; auto with accounted.
Qed.


Lemma accounts_butRules s s' : accounts s' = accounts s -> accountsButRules s' = accountsButRules s.
Proof. unfold accounts, accountsButRules. now intros [= -> -> -> -> -> -> _]. Qed.

Lemma addRules_accounts env rules s : accountsButRules (addRules env rules s) = accountsButRules s.
Proof.
  revert s. induction rules as [|r rules IH]; intros s; [reflexivity|].
  cbn [addRules]. destruct (hasRule r (releaseTimers s)); [apply IH|].
  rewrite IH. cbv zeta.
  destruct (releaseRuleTimersEnabled _); [|reflexivity].
  now rewrite (accounts_butRules _ _ (accounts_setRuleTimerWithDelay _ _ _ _)).
Qed.

Lemma dropRules_accounts rules entries s :
  accountsButRules (dropRules rules entries s) = accountsButRules s.
Proof.
  revert s. induction entries as [|[r st] entries IH]; intros s; [reflexivity|].
  cbn [dropRules]. destruct (bool_decide _); [apply IH|].
  rewrite IH. cbv zeta.
  change (accountsButRules (set_releaseTimers ?l ?x)) with (accountsButRules x).
  now rewrite (accounts_butRules _ _ (accounts_clearReleaseRuleTimer _ _ _)).
Qed.

Lemma setRules_accounts env rules s : accountsButRules (setRules env rules s) = accountsButRules s.
Proof. unfold setRules. cbv zeta. now rewrite dropRules_accounts, addRules_accounts. Qed.

Lemma keys_updStatus rule f s : map fst (releaseTimers (updStatus rule f s)) = map fst (releaseTimers s).
Proof. unfold updStatus. cbn. apply map_fst_updStatus. Qed.

Lemma keys_clearReleaseRuleTimer rule status s :
  map fst (releaseTimers (clearReleaseRuleTimer rule status s)) = map fst (releaseTimers s).
Proof.
  pose proof (accounts_clearReleaseRuleTimer rule status s) as H. unfold accounts in H.
  now injection H.
Qed.

Lemma keys_setRuleTimerWithDelay env rule delay s :
  map fst (releaseTimers (setRuleTimerWithDelay env rule delay s)) = map fst (releaseTimers s).
Proof.
  pose proof (accounts_setRuleTimerWithDelay env rule delay s) as H. unfold accounts in H.
  now injection H.
Qed.

(** After [setRules] every rule of the table is a rule of the new list. *)
Lemma addRules_keys env rules s r :
  r ∈ map fst (releaseTimers (addRules env rules s)) ->
  r ∈ map fst (releaseTimers s) \/ r ∈ rules.
Proof.
  revert s. induction rules as [|r0 rules IH]; intros s Hr; [now left|].
  cbn [addRules] in Hr. destruct (hasRule r0 (releaseTimers s)).
  - destruct (IH s Hr); [now left|right; now right].
  - apply IH in Hr as [Hr|Hr]; [|right; now right].
    cbv zeta in Hr.
    assert (Hk : r ∈ map fst (releaseTimers s ++ [(r0, mkStatus None None (now env))])).
    { destruct (releaseRuleTimersEnabled _); [|exact Hr].
      now rewrite keys_setRuleTimerWithDelay in Hr. }
    rewrite map_app in Hk. apply elem_of_app in Hk as [Hk|Hk]; [now left|].
    right. cbn in Hk. apply list_elem_of_singleton in Hk. subst r. left.
Qed.

Lemma dropRules_keys rules entries s r :
  r ∈ map fst (releaseTimers (dropRules rules entries s)) ->
  r ∈ map fst (releaseTimers s) /\ (r ∈ map fst entries -> r ∈ rules).
Proof.
  revert s. induction entries as [|[r0 st] entries IH]; intros s Hr.
  - split; [exact Hr|]. cbn. intros H. inversion H.
  - cbn [dropRules] in Hr. destruct (bool_decide (r0 ∈ rules)) eqn:Hin.
    + apply IH in Hr as [Hr1 Hr2]. split; [assumption|].
      cbn. intros [->|H]%elem_of_cons; [now apply bool_decide_eq_true_1 in Hin|auto].
    + apply IH in Hr as [Hr1 Hr2]. cbv zeta in Hr1. cbn [releaseTimers set_releaseTimers] in Hr1.
      apply list_elem_of_fmap in Hr1 as ([r1 st1] & -> & Hr1).
      apply list_elem_of_filter in Hr1 as [Hne Hr1]. cbn in Hne.
      split.
      * rewrite <- (keys_clearReleaseRuleTimer r0 st s).
        now apply (list_elem_of_fmap_2 fst _ (r1, st1)).
      * cbn. intros [->|H]%elem_of_cons; [congruence|auto].
Qed.

Lemma setRules_keys env rules s r :
  r ∈ map fst (releaseTimers (setRules env rules s)) -> r ∈ rules.
Proof.
  unfold setRules. cbv zeta. intros Hr. apply dropRules_keys in Hr as [Hr1 Hr2].
  destruct (addRules_keys env rules s r Hr1) as [H|H]; auto.
Qed.

Lemma rulesOK_subset m rules keys :
  (forall r, r ∈ keys -> r ∈ rules) -> rulesOK m rules -> rulesOK m keys.
Proof.
  intros Hsub. destruct m as [m|]; [|auto]. cbn. rewrite !Forall_forall.
  intros Hok r Hr. specialize (Hok r (Hsub r Hr)). unfold ruleOK in *.
  destruct (type r); [|assumption]. destruct Hok as [H1 H2]. split; [assumption|].
  intros (r' & Hr' & Hty). apply H2. exists r'. auto.
Qed.

Lemma Accounted_reconfigured s s' rules :
  usedCapacity s' = usedCapacity s -> usedConcurrent s' = usedConcurrent s ->
  tasks s' = tasks s -> queue s' = queue s -> tasksByTimeLimit s' = tasksByTimeLimit s ->
  (forall m, maxCapacity (options s') = Some m -> 0 <= m /\ usedCapacity s <= m) ->
  (forall c, maxConcurrent (options s') = Some c -> 0 < c -> usedConcurrent s <= c) ->
  (forall r, r ∈ map fst (releaseTimers s') -> r ∈ rules) ->
  rulesOK (maxCapacity (options s')) rules ->
  Accounted s -> Accounted s'.
Proof.
  intros Hu Hc Ht Hq Hl Hcap Hcon Hk Hr [H1 H2 H3 H4 H5 H6].
  constructor; rewrite ?Hu, ?Hc, ?Ht, ?Hq, ?Hl; auto.
  eapply rulesOK_subset; eauto.
Qed.

Lemma setOptions_Accounted env o s :
  optionsOK o -> keepsLimits s o ->
  Accounted s -> Accounted (stateOf (setOptions env o s)).
Proof.
  intros Hok [Hk1 Hk2] Hs. unfold setOptions.
  cbn [firstError].
  destruct (checkMaxCapacity (maxCapacity o)) eqn:Hc1; [assumption|].
  destruct (checkCapacityStrategy _ _); [assumption|].
  destruct (checkReleaseRules _ _); [assumption|]. cbn [stateOf].
  match goal with |- Accounted (setRules env ?rules ?s0) =>
    pose proof (setRules_accounts env rules s0) as Hacc;
    pose proof (setRules_keys env rules s0) as Hkeys;
    set (s' := setRules env rules s0) in * end.
  unfold accountsButRules in Hacc. cbn in Hacc. injection Hacc as Hu Hc Ho Ht Hq Hl.
  apply (Accounted_reconfigured s s' (default [] (releaseRules o))); auto;
    rewrite Ho.
  - intros m Hm. split; [|auto]. unfold checkMaxCapacity in Hc1. rewrite Hm in Hc1.
    destruct (m <? 0) eqn:E; [discriminate|]. now apply Z.ltb_ge.
  - assumption.
  - exact Hok.
Qed.

Lemma constructor_Accounted env o s :
  optionsOK o -> constructor env o = Normal s -> Accounted s.
Proof.
  intros Hok. unfold constructor.
  cbn [firstError].
  destruct (checkMaxCapacity (maxCapacity o)) eqn:Hc1; [discriminate|].
  destruct (checkUsedCapacity _ _) eqn:Hc2; [discriminate|].
  destruct (checkCapacityStrategy _ _); [discriminate|].
  destruct (checkReleaseRules _ _); [discriminate|]. intros [= <-].
  match goal with |- Accounted (setRules env ?rules ?s0) =>
    pose proof (setRules_accounts env rules s0) as Hacc;
    pose proof (setRules_keys env rules s0) as Hkeys;
    set (s' := setRules env rules s0) in * end.
  unfold accountsButRules in Hacc. cbn in Hacc. injection Hacc as Hu Hc Ho Ht Hq Hl.
  constructor; rewrite ?Hu, ?Hc, ?Ho, ?Ht, ?Hq, ?Hl; auto.
  - intros m Hm. unfold checkMaxCapacity, checkUsedCapacity in *. rewrite Hm in *.
    destruct (m <? 0) eqn:E; [discriminate|]. apply Z.ltb_ge in E. split; [assumption|].
    destruct (initiallyUsedCapacity o) as [u|]; cbn; [|assumption].
    destruct (u <? 0); [discriminate|]. destruct (m <? u) eqn:E2; [discriminate|].
    now apply Z.ltb_ge.
  - intros c _ Hpos. lia.
  - eapply rulesOK_subset; [exact Hkeys|exact Hok].
Qed.

(** *** The events *)


Lemma whenUnfinished_Accounted run k s :
  (forall id s, Accounted s -> Accounted (k id s)) ->
  Accounted s -> Accounted (whenUnfinished run k s).
Proof.
  intros Hk Hs. unfold whenUnfinished. destruct (runs s !! run) as [r|]; [|assumption].
  destruct (finished r); [assumption|]. apply Hk.
  eapply Accounted_frame; [|exact Hs]. reflexivity.
Qed.

Lemma applyRuleByInterval_Accounted env rule s :
  rule ∈ map fst (releaseTimers s) ->
  Accounted s -> Accounted (applyRuleByInterval env rule s).
Proof.
  intros Hin Hs. unfold applyRuleByInterval. cbv zeta.
  apply startNextTaskIfPossible_Accounted, applyRule_Accounted.
  - now rewrite keys_updStatus.
  - intros; lia.
  - eapply Accounted_frame; [apply accounts_updStatus|assumption].
Qed.

Lemma timerFired_Accounted env h s :
  ruleTimersInstalled s -> Accounted s -> Accounted (stateOf (timerFired env h s)).
Proof.
  intros Hinst Hs. unfold timerFired.
  destruct (timers s !! h) as [[t|]|] eqn:Ht; try assumption.
  destruct (callback t) as [id|run|id|rule|rule] eqn:Hcb; cbn [stateOf].
  - auto with accounted.
  - apply whenUnfinished_Accounted; [|auto with accounted].
    intros id s0. apply tryRejectTask_top_Accounted.
  - apply scheduleTask_Accounted. eapply Accounted_frame; [|exact Hs]. reflexivity.
  - cbn [setTimer]. apply applyRuleByInterval_Accounted.
    + rewrite keys_updStatus. cbn. apply (Hinst h t rule Ht). now rewrite Hcb.
    + eapply Accounted_frame; [apply accounts_updStatus|].
      eapply Accounted_frame; [|exact Hs]. reflexivity.
  - apply applyRuleByInterval_Accounted; [|assumption].
    apply (Hinst h t rule Ht). now rewrite Hcb.
Qed.

Lemma step_Accounted env ev s :
  ruleTimersInstalled s ->
  match ev with SetOptions o => optionsOK o /\ keepsLimits s o | _ => True end ->
  Accounted s -> Accounted (stateOf (step env ev s)).
Proof.
  intros Hinst Hadm Hs. destruct ev; cbn [step stateOf].
  - now apply schedule_Accounted.
  - apply whenUnfinished_Accounted; [|assumption]. intros id s0. apply resolveTask_top_Accounted.
  - apply whenUnfinished_Accounted; [|assumption]. intros id s0. apply tryRejectTask_top_Accounted.
  - now apply timerFired_Accounted.
  - now apply onFailureSettled_Accounted.
  - now apply getUsedCapacity_Accounted.
  - now apply setUsedCapacity_Accounted.
  - now apply adjustUsedCapacity_Accounted.
  - destruct Hadm. now apply setOptions_Accounted.
  - now apply stop_Accounted.
Qed.

(** ** The timers of the release rules *)

Lemma assoc_unique {K V} (l : list (K * V)) k v v' :
  NoDup (map fst l) -> (k, v) ∈ l -> (k, v') ∈ l -> v = v'.
Proof.
  induction l as [|[k0 v0] l IH]; cbn [map fst]; intros Hnd H1 H2.
  - inversion H1.
  - apply NoDup_cons in Hnd as [Hk Hnd].
    apply elem_of_cons in H1 as [H1|H1]; apply elem_of_cons in H2 as [H2|H2].
    + congruence.
    + injection H1 as -> ->. exfalso. apply Hk. apply (list_elem_of_fmap_2 fst _ _ H2).
    + injection H2 as -> ->. exfalso. apply Hk. apply (list_elem_of_fmap_2 fst _ _ H1).
    + now apply IH.
Qed.

Lemma elem_of_updHandles r g l k p' :
  (k, p') ∈ updHandles r g l <->
  exists p, (k, p) ∈ l /\ p' = if decide (k = r) then g p else p.
Proof.
  split.
  - intros H. apply list_elem_of_fmap in H as ([k0 p0] & Heq & Hin). cbn [fst snd] in Heq.
    destruct (decide (k0 = r)) as [->|Hne].
    + injection Heq as -> ->. exists p0. split; [assumption|]. now rewrite decide_True.
    + injection Heq as -> ->. exists p0. split; [assumption|]. now rewrite decide_False.
  - intros (p & Hin & ->). apply list_elem_of_fmap. exists (k, p). split; [|assumption].
    cbn [fst snd]. now destruct (decide (k = r)).
Qed.

Lemma keys_updHandles r g l : map fst (updHandles r g l) = map fst l.
Proof.
  rewrite map_map. apply map_ext. intros [k p]. cbn [fst snd].
  now destruct (decide (k = r)).
Qed.

Lemma keys_handlesOf s : map fst (handlesOf s) = map fst (releaseTimers s).
Proof. unfold handlesOf. rewrite map_map. reflexivity. Qed.

Lemma handlesOf_elem s e : e ∈ releaseTimers s -> heldBy e ∈ handlesOf s.
Proof. intros H. unfold handlesOf. apply (list_elem_of_fmap_2 heldBy _ _ H). Qed.

Lemma handlesOf_key s r p : (r, p) ∈ handlesOf s -> r ∈ map fst (releaseTimers s).
Proof.
  intros H. rewrite <- keys_handlesOf. apply (list_elem_of_fmap_2 fst _ _ H).
Qed.

Lemma handlesOf_updStatus r f g s :
  (forall st, (timerId (f st), intervalId (f st)) = g (timerId st, intervalId st)) ->
  handlesOf (updStatus r f s) = updHandles r g (handlesOf s).
Proof.
  intros Hf. unfold handlesOf, updStatus. cbn [releaseTimers set_releaseTimers].
  rewrite !map_map. apply map_ext. intros [k st]. cbn [fst snd].
  destruct (decide (k = r)); cbn [fst snd]; [now rewrite Hf|reflexivity].
Qed.

Lemma updHandles_id r l : updHandles r (fun p => p) l = l.
Proof.
  rewrite <- (map_id l) at 2. apply map_ext. intros [k p]. cbn [fst snd].
  now destruct (decide (k = r)).
Qed.

Lemma handlesOf_updStatus_same r f s :
  (forall st, timerId (f st) = timerId st /\ intervalId (f st) = intervalId st) ->
  handlesOf (updStatus r f s) = handlesOf s.
Proof.
  intros Hf. rewrite (handlesOf_updStatus r f (fun p => p)); [apply updHandles_id|].
  intros st. now destruct (Hf st) as [-> ->].
Qed.

(** *** Steps that arm no timer of a rule *)

Lemma armsNoRule_refl s : armsNoRule s s.
Proof. repeat split; auto. Qed.

Lemma armsNoRule_trans s1 s2 s3 : armsNoRule s1 s2 -> armsNoRule s2 s3 -> armsNoRule s1 s3.
Proof.
  intros (H1 & H2 & H3) (K1 & K2 & K3). repeat split; [congruence..|].
  intros h t Ht Hr. apply H3; [|assumption]. now apply K3.
Qed.

Lemma armsNoRule_same s0 s s' :
  releaseTimers s' = releaseTimers s ->
  releaseRuleTimersEnabled s' = releaseRuleTimersEnabled s ->
  timers s' = timers s ->
  armsNoRule s0 s -> armsNoRule s0 s'.
Proof.
  intros H1 H2 H3 H. eapply armsNoRule_trans; [exact H|].
  unfold armsNoRule, handlesOf. rewrite H1, H2, H3. repeat split; auto.
Qed.

Lemma RuleTimersOK_armsNoRule s s' : RuleTimersOK s -> armsNoRule s s' -> RuleTimersOK s'.
Proof.
  intros [[HK Hheld Hsingle] Hasleep] (Hh & He & Ht). split; [split|].
  - now rewrite Hh.
  - intros h t r Harmed Hr. rewrite Hh. apply (Hheld h t r); [|assumption].
    apply Ht; [assumption|]. rewrite Hr. eauto.
  - intros r p. rewrite Hh. apply Hsingle.
  - unfold asleep. rewrite Hh, He. exact Hasleep.
Qed.

Lemma RuleTimersOK_installed s : RuleTimersOK s -> ruleTimersInstalled s.
Proof.
  intros [[_ Hheld _] _] h t r Ht Hr. destruct (Hheld h t r Ht Hr) as (p & Hp & _).
  now apply handlesOf_key in Hp.
Qed.

Ltac anr_same := intros; eapply armsNoRule_same; [reflexivity..|assumption].

Lemma anr_set_usedCapacity s0 v s : armsNoRule s0 s -> armsNoRule s0 (set_usedCapacity v s).
Proof. anr_same. Qed.

Lemma anr_set_usedConcurrent s0 v s : armsNoRule s0 s -> armsNoRule s0 (set_usedConcurrent v s).
Proof. anr_same. Qed.

Lemma anr_set_queue s0 v s : armsNoRule s0 s -> armsNoRule s0 (set_queue v s).
Proof. anr_same. Qed.

Lemma anr_set_tasksByTimeAdded s0 v s : armsNoRule s0 s -> armsNoRule s0 (set_tasksByTimeAdded v s).
Proof. anr_same. Qed.

Lemma anr_set_tasksByTimeLimit s0 v s : armsNoRule s0 s -> armsNoRule s0 (set_tasksByTimeLimit v s).
Proof. anr_same. Qed.

Lemma anr_set_options s0 v s : armsNoRule s0 s -> armsNoRule s0 (set_options v s).
Proof. anr_same. Qed.

Lemma anr_set_originalOptions s0 v s : armsNoRule s0 s -> armsNoRule s0 (set_originalOptions v s).
Proof. anr_same. Qed.

Lemma anr_set_retryTimers s0 v s : armsNoRule s0 s -> armsNoRule s0 (set_retryTimers v s).
Proof. anr_same. Qed.

Lemma anr_set_executingTasks s0 v s : armsNoRule s0 s -> armsNoRule s0 (set_executingTasks v s).
Proof. anr_same. Qed.

Lemma anr_set_stopped s0 v s : armsNoRule s0 s -> armsNoRule s0 (set_stopped v s).
Proof. anr_same. Qed.

Lemma anr_set_tasks s0 v s : armsNoRule s0 s -> armsNoRule s0 (set_tasks v s).
Proof. anr_same. Qed.

Lemma anr_set_runs s0 v s : armsNoRule s0 s -> armsNoRule s0 (set_runs v s).
Proof. anr_same. Qed.

Lemma anr_set_onFailureCalls s0 v s : armsNoRule s0 s -> armsNoRule s0 (set_onFailureCalls v s).
Proof. anr_same. Qed.

Lemma anr_set_stopPromises s0 v s : armsNoRule s0 s -> armsNoRule s0 (set_stopPromises v s).
Proof. anr_same. Qed.

Lemma anr_set_log s0 v s : armsNoRule s0 s -> armsNoRule s0 (set_log v s).
Proof. anr_same. Qed.

Lemma anr_updTask s0 id f s : armsNoRule s0 s -> armsNoRule s0 (updTask id f s).
Proof. anr_same. Qed.

Lemma anr_emit s0 e s : armsNoRule s0 s -> armsNoRule s0 (emit e s).
Proof. anr_same. Qed.

Lemma anr_rejectTask s0 id e s : armsNoRule s0 s -> armsNoRule s0 (rejectTask id e s).
Proof. anr_same. Qed.

Lemma anr_resolveTaskPromise s0 id s :
  armsNoRule s0 s -> armsNoRule s0 (resolveTaskPromise id s).
Proof. anr_same. Qed.

Lemma armed_clearTimer x s h t :
  timers (clearTimer x s) !! h = Some (Some t) -> timers s !! h = Some (Some t) /\ h <> x.
Proof.
  unfold clearTimer. cbn [timers set_timers]. intros H.
  apply list_lookup_insert_Some in H as [(_ & [=] & _)|[Hne H]]. split; congruence.
Qed.

Lemma anr_clearTimer s0 x s : armsNoRule s0 s -> armsNoRule s0 (clearTimer x s).
Proof.
  intros H. eapply armsNoRule_trans; [exact H|]. repeat split.
  intros h t Ht _. now apply armed_clearTimer in Ht.
Qed.

Lemma armed_setTimer cb due s h t :
  timers (snd (setTimer cb due s)) !! h = Some (Some t) ->
  timers s !! h = Some (Some t) \/ (h = length (timers s) /\ t = mkTimer cb due).
Proof.
  unfold setTimer. cbn [snd timers set_timers]. intros H.
  apply lookup_app_Some in H as [H|[Hlen H]]; [now left|right].
  destruct (h - length (timers s))%nat as [|n] eqn:Hn; cbn in H; [|discriminate].
  injection H as <-. split; [lia|reflexivity].
Qed.

Lemma anr_setTimer s0 cb due s :
  ruleOf cb = None -> armsNoRule s0 s -> armsNoRule s0 (snd (setTimer cb due s)).
Proof.
  intros Hcb H. eapply armsNoRule_trans; [exact H|]. repeat split.
  intros h t Ht [r Hr]. apply armed_setTimer in Ht as [Ht|[_ ->]]; [assumption|].
  cbn [callback] in Hr. congruence.
Qed.

Create HintDb quiet.
#[local] Hint Resolve armsNoRule_refl anr_set_usedCapacity anr_set_usedConcurrent anr_set_queue anr_set_tasksByTimeAdded anr_set_tasksByTimeLimit anr_set_options anr_set_originalOptions anr_set_retryTimers anr_set_executingTasks anr_set_stopped anr_set_tasks anr_set_runs anr_set_onFailureCalls anr_set_stopPromises anr_set_log
  anr_updTask anr_emit anr_rejectTask anr_resolveTaskPromise anr_clearTimer : quiet.

Lemma anr_clearOpt s0 o s : armsNoRule s0 s -> armsNoRule s0 (clearOpt o s).
Proof. destruct o; cbn [clearOpt]; auto with quiet. Qed.

Lemma anr_releaseTaskResources s0 id s :
  armsNoRule s0 s -> armsNoRule s0 (releaseTaskResources id s).
Proof.
  intros H. unfold releaseTaskResources. destruct (tasks s !! id) as [task|]; [|assumption].
  destruct (executionTimerId task); destruct (truthy (reservedConcurrent task));
    (destruct (truthy (reservedCapacity task) && _); auto 10 with quiet).
Qed.

Lemma anr_reserveResources s0 id s :
  armsNoRule s0 s -> armsNoRule s0 (reserveResources id s).
Proof.
  intros H. unfold reserveResources. destruct (tasks s !! id) as [task|]; [|assumption].
  destruct (truthy (timeLimit task)); destruct (queueWaitingTimerId task);
    destruct (maxCapacity (options s)); try destruct (optCapacityStrategy (options s));
    auto 15 with quiet.
Qed.

Lemma anr_removeTaskFromQueues s0 id s :
  armsNoRule s0 s -> armsNoRule s0 (removeTaskFromQueues id s).
Proof. intros H. unfold removeTaskFromQueues. auto with quiet. Qed.

Lemma anr_finishRun s0 r s : armsNoRule s0 s -> armsNoRule s0 (finishRun r s).
Proof. intros H. unfold finishRun. auto with quiet. Qed.

Lemma anr_stoppedResolve s0 st s : armsNoRule s0 s -> armsNoRule s0 (stoppedResolve st s).
Proof. intros H. unfold stoppedResolve. destruct (stoppedPromise st); auto with quiet. Qed.

Lemma anr_setRetryTimer s0 env id timeout s :
  armsNoRule s0 s -> armsNoRule s0 (setRetryTimer env id timeout s).
Proof.
  intros H. unfold setRetryTimer.
  match goal with |- context [setTimer ?cb ?due ?s1] =>
    pose proof (anr_setTimer s0 cb due s1 eq_refl) as Hs;
    destruct (setTimer cb due s1) as [h s2] end.
  cbn [snd] in Hs. auto with quiet.
Qed.

#[local] Hint Resolve anr_clearOpt anr_releaseTaskResources anr_reserveResources
  anr_removeTaskFromQueues anr_finishRun anr_stoppedResolve anr_setRetryTimer : quiet.

Lemma anr_useStrategy s0 env id strategy e attempt s :
  armsNoRule s0 s -> armsNoRule s0 (useStrategy env id strategy e attempt s).
Proof.
  intros H. unfold useStrategy. destruct strategy as [o|n]; [|auto with quiet].
  destruct (_ <? attempt); auto with quiet.
Qed.

Lemma anr_foldl {A} (f : State -> A -> State) s0 l :
  (forall s a, armsNoRule s0 s -> armsNoRule s0 (f s a)) ->
  forall s, armsNoRule s0 s -> armsNoRule s0 (foldl f s l).
Proof. intros Hf. induction l as [|a l IH]; cbn [foldl]; auto. Qed.

Lemma anr_rejectEach s0 ids e s : armsNoRule s0 s -> armsNoRule s0 (rejectEach ids e s).
Proof. unfold rejectEach. apply anr_foldl. auto with quiet. Qed.

Lemma anr_rejectAll s0 e s : armsNoRule s0 s -> armsNoRule s0 (rejectAll e s).
Proof.
  intros H. unfold rejectAll. apply anr_set_retryTimers. apply anr_foldl; [|assumption].
  auto with quiet.
Qed.

Lemma anr_onFailureSettled s0 env call r s :
  armsNoRule s0 s -> armsNoRule s0 (onFailureSettled env call r s).
Proof.
  intros H. unfold onFailureSettled.
  destruct (onFailureCalls s !! call) as [[c|]|]; [|assumption..].
  destruct r; auto with quiet.
Qed.

Lemma anr_applyRule s0 rule times s : armsNoRule s0 s -> armsNoRule s0 (applyRule rule times s).
Proof. intros H. unfold applyRule. destruct (type rule); auto with quiet. Qed.

#[local] Hint Resolve anr_useStrategy anr_rejectEach anr_rejectAll anr_onFailureSettled
  anr_applyRule : quiet.

Lemma anr_admissionChecks s0 id task s :
  armsNoRule s0 s -> armsNoRule s0 (stateOf (admissionChecks id task s)).
Proof.
  intros H. unfold admissionChecks.
  destruct (match maxCapacity (options s) with Some m => m <? capacity task | None => false end);
    destruct (optTaskExceedsMaxCapacityStrategy (options s));
    repeat match goal with |- context [if ?b then _ else _] => destruct b end;
    cbn [stateOf]; auto with quiet.
Qed.

Lemma anr_queueOverflow s0 id task s :
  armsNoRule s0 s ->
  match queueOverflow id task s with inl s' | inr s' => armsNoRule s0 s' end.
Proof.
  intros H. unfold queueOverflow.
  destruct (truthy (maxQueueSize (options s)) && _); [|assumption].
  destruct (optQueueSizeExceededStrategy (options s)).
  - auto with quiet.
  - destruct (DLL.shift (tasksByTimeAdded s)) as [[oldest|] rest]; auto with quiet.
  - destruct (DLL.peekLast (queue s)) as [least|]; [|auto with quiet].
    destruct (priority task <? priorityOf s least); auto with quiet.
  - assumption.
Qed.

Lemma anr_insertIntoQueue s0 id task s :
  armsNoRule s0 s -> armsNoRule s0 (insertIntoQueue id task s).
Proof. intros H. unfold insertIntoQueue. auto with quiet. Qed.

Lemma anr_insertByTimeLimit s0 id task s :
  armsNoRule s0 s -> armsNoRule s0 (insertByTimeLimit id task s).
Proof.
  intros H. unfold insertByTimeLimit. destruct (truthy (queuedTimeLimit task s)); auto with quiet.
Qed.

Lemma anr_armQueueWaitingTimer s0 env id task s :
  armsNoRule s0 s -> armsNoRule s0 (armQueueWaitingTimer env id task s).
Proof.
  intros H. unfold armQueueWaitingTimer.
  destruct (truthy _ && _); [|assumption].
  match goal with |- context [setTimer ?cb ?due ?s1] =>
    pose proof (anr_setTimer s0 cb due s1 eq_refl H) as Hs;
    destruct (setTimer cb due s1) as [h s2] end.
  cbn [snd] in Hs. auto with quiet.
Qed.

Lemma anr_pickTaskToExecute s0 env s id s' :
  pickTaskToExecute env s = Some (id, s') -> armsNoRule s0 s -> armsNoRule s0 s'.
Proof.
  unfold pickTaskToExecute. intros Hp H.
  destruct (DLL.pickFirstMatching (fits s) (queue s)) as [[x|] q].
  - destruct (DLL.peekFirst (tasksByTimeLimit s)) as [imp|].
    + destruct (aged env s imp).
      * destruct (fits s imp); [|discriminate]. now injection Hp as <- <-.
      * injection Hp as <- <-. auto with quiet.
    + injection Hp as <- <-. auto with quiet.
  - destruct (DLL.peekFirst (tasksByTimeLimit s)) as [imp|]; [|discriminate].
    destruct (aged env s imp); [|discriminate].
    destruct (fits s imp); [|discriminate]. now injection Hp as <- <-.
Qed.

#[local] Hint Resolve anr_admissionChecks anr_insertIntoQueue anr_insertByTimeLimit
  anr_armQueueWaitingTimer : quiet.

(** The catch-up of the rules moves [lastApplied] alone. *)
Lemma anr_updStatus_lastApplied s0 rule f s :
  (forall st, timerId (f st) = timerId st /\ intervalId (f st) = intervalId st) ->
  armsNoRule s0 s -> armsNoRule s0 (updStatus rule f s).
Proof.
  intros Hf H. eapply armsNoRule_trans; [exact H|]. split; [|split].
  - now apply handlesOf_updStatus_same.
  - reflexivity.
  - auto.
Qed.

Lemma missedResets_handles now entries acc :
  map heldBy (fst (missedResets now entries acc)) = map heldBy entries.
Proof.
  revert acc. induction entries as [|[rule status] rest IH]; intros acc; [reflexivity|].
  cbn [missedResets]. destruct (type rule).
  - destruct (interval rule <=? now - lastApplied status).
    + match goal with |- context [missedResets now rest ?a] =>
        specialize (IH a); destruct (missedResets now rest a) as [rest' r] end.
      cbn [fst map snd] in *. now rewrite IH.
    + specialize (IH acc); destruct (missedResets now rest acc) as [rest' r].
      cbn [fst map snd] in *. now rewrite IH.
  - specialize (IH acc); destruct (missedResets now rest acc) as [rest' r].
    cbn [fst map snd] in *. now rewrite IH.
Qed.

Lemma missedReduces_handles now t entries s :
  map heldBy (fst (missedReduces now t entries s)) = map heldBy entries.
Proof.
  revert s. induction entries as [|[rule status] rest IH]; intros s; [reflexivity|].
  cbn [missedReduces]. destruct (type rule).
  - specialize (IH s); destruct (missedReduces now t rest s) as [rest' r].
    cbn [fst map snd] in *. now rewrite IH.
  - destruct (interval rule <=? now - lastApplied status).
    + match goal with |- context [missedReduces now t rest ?a] =>
        specialize (IH a); destruct (missedReduces now t rest a) as [rest' r] end.
      cbn [fst map snd] in *. now rewrite IH.
    + specialize (IH s); destruct (missedReduces now t rest s) as [rest' r].
      cbn [fst map snd] in *. now rewrite IH.
Qed.

Lemma anr_missedReduces s0 now t entries s :
  armsNoRule s0 s -> armsNoRule s0 (snd (missedReduces now t entries s)).
Proof.
  revert s. induction entries as [|[rule status] rest IH]; intros s H; [assumption|].
  cbn [missedReduces]. destruct (type rule).
  - specialize (IH s H); destruct (missedReduces now t rest s) as [rest' r]. exact IH.
  - destruct (interval rule <=? now - lastApplied status).
    + match goal with |- context [missedReduces now t rest ?a] =>
        assert (Ha : armsNoRule s0 a) by (destruct (canReduceCapacity s); auto with quiet);
        specialize (IH a Ha); destruct (missedReduces now t rest a) as [rest' r] end.
      exact IH.
    + specialize (IH s H); destruct (missedReduces now t rest s) as [rest' r]. exact IH.
Qed.

Lemma anr_applyMissedRules s0 now s :
  armsNoRule s0 s -> armsNoRule s0 (applyMissedRules now s).
Proof.
  intros H. unfold applyMissedRules.
  pose proof (missedResets_handles now (releaseTimers s) (None, None)) as H1.
  destruct (missedResets now (releaseTimers s) (None, None)) as [entries [t r]].
  cbn [fst] in H1.
  match goal with |- context [missedReduces now t entries ?a] =>
    assert (Ha : armsNoRule s0 a) by (destruct r; auto with quiet);
    pose proof (missedReduces_handles now t entries a) as H2;
    pose proof (anr_missedReduces s0 now t entries a Ha) as H3;
    destruct (missedReduces now t entries a) as [entries' s2] end.
  cbn [fst snd] in H2, H3. destruct H3 as (K1 & K2 & K3).
  split; [|split].
  - unfold handlesOf in *. cbn [releaseTimers set_releaseTimers].
    destruct H as (K0 & _). unfold handlesOf in K0.
    rewrite H2, H1. destruct Ha as (Ka & _). 
    assert (Hs : map heldBy (releaseTimers s) = map heldBy (releaseTimers s0)) by exact K0.
    exact Hs.
  - exact K2.
  - exact K3.
Qed.

#[local] Hint Resolve anr_applyMissedRules : quiet.

(** *** The release-rule manager keeps its timers *)

Lemma armed_clearOpt o s h t :
  timers (clearOpt o s) !! h = Some (Some t) -> timers s !! h = Some (Some t) /\ o <> Some h.
Proof.
  destruct o as [x|]; cbn [clearOpt]; intros H; [|now split].
  apply armed_clearTimer in H as [H Hne]. split; congruence.
Qed.

Lemma clearReleaseRuleTimer_Core rule status s :
  RuleTimersCore s -> heldBy (rule, status) ∈ handlesOf s ->
  RuleTimersCore (clearReleaseRuleTimer rule status s) /\
  handlesOf (clearReleaseRuleTimer rule status s) = updHandles rule (fun _ => unheld) (handlesOf s) /\
  releaseRuleTimersEnabled (clearReleaseRuleTimer rule status s) = releaseRuleTimersEnabled s.
Proof.
  intros [HK Hheld Hsingle] Hin. cbn [fst snd] in Hin.
  assert (Hh : handlesOf (clearReleaseRuleTimer rule status s)
               = updHandles rule (fun _ => unheld) (handlesOf s)).
  { unfold clearReleaseRuleTimer.
    rewrite (handlesOf_updStatus _ _ (fun _ => unheld)) by reflexivity.
    f_equal. destruct (timerId status), (intervalId status); reflexivity. }
  split; [|split; [exact Hh|]].
  - split.
    + rewrite Hh, (keys_updHandles rule (fun _ => unheld)). exact HK.
    + intros h t r Harmed Hr.
      assert (Ht : timers s !! h = Some (Some t) /\ timerId status <> Some h
                   /\ intervalId status <> Some h).
      { unfold clearReleaseRuleTimer, updStatus in Harmed. cbn [timers set_releaseTimers] in Harmed.
        apply armed_clearOpt in Harmed as [Harmed H2].
        apply armed_clearOpt in Harmed as [Harmed H1]. auto. }
      destruct Ht as (Ht & H1 & H2).
      destruct (Hheld h t r Ht Hr) as (p & Hp & Hhold).
      destruct (decide (r = rule)) as [->|Hne].
      * exfalso. rewrite (assoc_unique _ _ _ _ HK Hp Hin) in Hhold.
        destruct Hhold as [Hx|Hx]; cbn [fst snd] in Hx; congruence.
      * exists p. split; [|assumption]. rewrite Hh. apply (elem_of_updHandles _ (fun _ => unheld)).
        exists p. split; [assumption|]. now rewrite decide_False.
    + intros r p. rewrite Hh. intros Hp. apply (elem_of_updHandles _ (fun _ => unheld)) in Hp as (p0 & Hp0 & ->).
      destruct (decide (r = rule)); [now left|]. now apply (Hsingle r).
  - unfold clearReleaseRuleTimer, updStatus. cbn [releaseRuleTimersEnabled set_releaseTimers].
    destruct (timerId status), (intervalId status); reflexivity.
Qed.

Lemma disable_fold l :
  forall s, RuleTimersCore s -> NoDup (map fst l) ->
    (forall e, e ∈ l -> heldBy e ∈ handlesOf s) ->
    let s' := foldl (fun s e => clearReleaseRuleTimer (fst e) (snd e) s) s l in
    RuleTimersCore s' /\
    releaseRuleTimersEnabled s' = releaseRuleTimersEnabled s /\
    forall r p, (r, p) ∈ handlesOf s' ->
                p = unheld \/ ((r ∉ map fst l) /\ (r, p) ∈ handlesOf s).
Proof.
  induction l as [|[rule status] l IH]; intros s Hcore Hnd Hin; cbn [foldl fst snd].
  - split; [assumption|]. split; [reflexivity|]. intros r p Hp. right. split; [|assumption].
    cbn. apply not_elem_of_nil.
  - cbn [map fst] in Hnd. apply NoDup_cons in Hnd as [Hk Hnd].
    destruct (clearReleaseRuleTimer_Core rule status s Hcore) as (Hc1 & Hh1 & He1).
    { apply (Hin (rule, status)). left. }
    destruct (IH (clearReleaseRuleTimer rule status s) Hc1 Hnd) as (Hc2 & He2 & Hres).
    { intros e He. rewrite Hh1. apply (elem_of_updHandles _ (fun _ => unheld)). exists (snd (heldBy e)).
      split; [apply (Hin e); now right|].
      cbn [fst snd]. rewrite decide_False; [reflexivity|].
      intros <-. apply Hk. apply (list_elem_of_fmap_2 fst _ _ He). }
    split; [exact Hc2|]. split; [congruence|].
    intros r p Hp. destruct (Hres r p Hp) as [->|[Hnot Hp1]]; [now left|].
    rewrite Hh1 in Hp1. apply (elem_of_updHandles _ (fun _ => unheld)) in Hp1 as (p0 & Hp0 & ->).
    destruct (decide (r = rule)) as [->|Hne]; [now left|]. right. split; [|assumption].
    cbn [map fst]. intros Hx. apply elem_of_cons in Hx as [Hx|Hx]; [congruence|]. now apply Hnot.
Qed.

Lemma RuleTimersCore_same s s' :
  releaseTimers s' = releaseTimers s -> timers s' = timers s ->
  RuleTimersCore s -> RuleTimersCore s'.
Proof.
  intros H1 H2 [HK Hheld Hsingle]. split; unfold handlesOf in *; rewrite ?H1, ?H2; assumption.
Qed.

Lemma disableTimers_RuleTimersOK s : RuleTimersOK s -> RuleTimersOK (disableTimers s).
Proof.
  intros [Hcore Hasleep]. unfold disableTimers.
  destruct (releaseRuleTimersEnabled s) eqn:Hen; [|now split].
  set (s0 := set_releaseRuleTimersEnabled false s).
  assert (Hc0 : RuleTimersCore s0) by (revert Hcore; now apply RuleTimersCore_same).
  destruct (disable_fold (releaseTimers s0) s0 Hc0) as (Hc & He & Hres).
  - rewrite <- keys_handlesOf. apply Hc0.
  - intros e. apply handlesOf_elem.
  - split; [exact Hc|]. intros _ r p Hp.
    destruct (Hres r p Hp) as [->|[Hnot Hp0]]; [reflexivity|].
    exfalso. apply Hnot. now apply handlesOf_key in Hp0.
Qed.

Lemma setRuleTimerWithDelay_Core env rule delay s :
  RuleTimersCore s -> (rule, unheld) ∈ handlesOf s ->
  RuleTimersCore (setRuleTimerWithDelay env rule delay s) /\
  releaseRuleTimersEnabled (setRuleTimerWithDelay env rule delay s)
  = releaseRuleTimersEnabled s /\
  forall r p, r <> rule -> (r, p) ∈ handlesOf s ->
              (r, p) ∈ handlesOf (setRuleTimerWithDelay env rule delay s).
Proof.
  intros [HK Hheld Hsingle] Hin.
  set (h := length (timers s)).
  assert (Hshape : exists cb due g,
            ruleOf cb = Some rule /\
            (g unheld = (Some h, None) \/ g unheld = (None, Some h)) /\
            timers (setRuleTimerWithDelay env rule delay s)
            = timers s ++ [Some (mkTimer cb due)] /\
            handlesOf (setRuleTimerWithDelay env rule delay s) = updHandles rule g (handlesOf s) /\
            releaseRuleTimersEnabled (setRuleTimerWithDelay env rule delay s)
            = releaseRuleTimersEnabled s).
  { unfold setRuleTimerWithDelay. destruct (decide (delay = interval rule)).
    - exists (RuleInterval rule), (now env + interval rule), (fun p => (fst p, Some h)).
      split; [reflexivity|]. split; [now right|]. split; [reflexivity|]. split; [|reflexivity].
      unfold setTimer. now rewrite (handlesOf_updStatus _ _ (fun p => (fst p, Some h))).
    - exists (RuleTimeout rule), (now env + delay), (fun p => (Some h, snd p)).
      split; [reflexivity|]. split; [now left|]. split; [reflexivity|]. split; [|reflexivity].
      unfold setTimer. now rewrite (handlesOf_updStatus _ _ (fun p => (Some h, snd p))). }
  destruct Hshape as (cb & due & g & Hcb & Hg & Ht & Hh & He).
  assert (Hnew : (rule, g unheld) ∈ handlesOf (setRuleTimerWithDelay env rule delay s)).
  { rewrite Hh. apply elem_of_updHandles. exists unheld. split; [assumption|]. now rewrite decide_True. }
  assert (Hkeep : forall r p, r <> rule -> (r, p) ∈ handlesOf s ->
                              (r, p) ∈ handlesOf (setRuleTimerWithDelay env rule delay s)).
  { intros r p Hne Hp. rewrite Hh. apply elem_of_updHandles. exists p. split; [assumption|].
    now rewrite decide_False. }
  split; [|split; assumption].
  split.
  - rewrite Hh, keys_updHandles. exact HK.
  - intros h' t r Harmed Hr. rewrite Ht in Harmed.
    apply lookup_app_Some in Harmed as [Harmed|[Hlen Harmed]].
    + destruct (Hheld h' t r Harmed Hr) as (p & Hp & Hhold).
      destruct (decide (r = rule)) as [->|Hne].
      * exfalso. rewrite (assoc_unique _ _ _ _ HK Hp Hin) in Hhold.
        destruct Hhold as [Hx|Hx]; discriminate Hx.
      * exists p. split; [now apply Hkeep|assumption].
    + destruct (h' - length (timers s))%nat as [|k] eqn:Hk; cbn in Harmed; [|discriminate].
      injection Harmed as Heq. subst t. cbn [callback] in Hr.
      assert (r = rule) as -> by congruence.
      exists (g unheld). split; [assumption|].
      assert (h' = h) as -> by (unfold h; lia).
      destruct Hg as [-> | ->]; [now left|now right].
  - intros r p Hp. rewrite Hh in Hp. apply elem_of_updHandles in Hp as (p0 & Hp0 & ->).
    destruct (decide (r = rule)) as [->|Hne]; [|now apply (Hsingle r)].
    rewrite (assoc_unique _ _ _ _ HK Hp0 Hin). destruct Hg as [-> | ->]; [now right|now left].
Qed.

Lemma arm_fold env l :
  forall s, RuleTimersCore s -> NoDup (map fst l) ->
    (forall e, e ∈ l -> (fst e, unheld) ∈ handlesOf s) ->
    let s' := foldl (fun s e =>
                       setRuleTimerWithDelay env (fst e)
                         (interval (fst e) - (now env - lastApplied (snd e))) s) s l in
    RuleTimersCore s' /\ releaseRuleTimersEnabled s' = releaseRuleTimersEnabled s.
Proof.
  induction l as [|[rule status] l IH]; intros s Hcore Hnd Hin; cbn [foldl fst snd].
  - now split.
  - cbn [map fst] in Hnd. apply NoDup_cons in Hnd as [Hk Hnd].
    match goal with |- context [setRuleTimerWithDelay env rule ?d s] =>
      destruct (setRuleTimerWithDelay_Core env rule d s Hcore) as (Hc1 & He1 & Hkeep);
      [apply (Hin (rule, status)); left|];
      destruct (IH (setRuleTimerWithDelay env rule d s) Hc1 Hnd) as (Hc2 & He2) end.
    + intros e He. apply Hkeep; [|apply Hin; now right].
      intros Heq. apply Hk. rewrite <- Heq. apply (list_elem_of_fmap_2 fst _ _ He).
    + split; [exact Hc2|congruence].
Qed.

Lemma enableTimers_RuleTimersOK env s : RuleTimersOK s -> RuleTimersOK (enableTimers env s).
Proof.
  intros Hok. unfold enableTimers.
  destruct (releaseRuleTimersEnabled s) eqn:Hen; [assumption|].
  destruct Hok as [Hcore Hasleep]. specialize (Hasleep Hen).
  set (s0 := set_releaseRuleTimersEnabled true s).
  assert (Hc0 : RuleTimersCore s0) by (revert Hcore; now apply RuleTimersCore_same).
  pose proof (anr_applyMissedRules s0 (now env) s0 (armsNoRule_refl s0)) as Hq.
  set (s1 := applyMissedRules (now env) s0) in *.
  assert (Hok1 : RuleTimersOK s1).
  { apply (RuleTimersOK_armsNoRule s0); [|assumption]. split; [assumption|]. intros [=]. }
  destruct Hq as (Hh & He & _).
  unfold armRuleTimers.
  destruct (arm_fold env (releaseTimers s1) s1 (proj1 Hok1)) as (Hc & He2).
  - rewrite <- keys_handlesOf. apply Hok1.
  - intros e He'. apply handlesOf_elem in He'. rewrite Hh in He'. cbn [fst snd] in He'.
    rewrite Hh. change (handlesOf s0) with (handlesOf s) in *.
    now rewrite <- (Hasleep _ _ He').
  - split; [exact Hc|]. intros Hx. rewrite He2, He in Hx. discriminate Hx.
Qed.

Lemma hasRule_false rule s :
  hasRule rule (releaseTimers s) = false -> rule ∉ map fst (handlesOf s).
Proof.
  unfold hasRule. intros H. apply bool_decide_eq_false in H. now rewrite keys_handlesOf.
Qed.

Lemma addRules_RuleTimersOK env rules :
  forall s, RuleTimersOK s -> RuleTimersOK (addRules env rules s).
Proof.
  induction rules as [|rule rest IH]; intros s Hok; cbn [addRules]; [assumption|].
  destruct (hasRule rule (releaseTimers s)) eqn:Hhas; [now apply IH|].
  apply hasRule_false in Hhas. apply IH.
  set (s1 := set_releaseTimers (releaseTimers s ++ [(rule, mkStatus None None (now env))]) s).
  assert (Hh1 : handlesOf s1 = handlesOf s ++ [(rule, unheld)]).
  { unfold handlesOf, s1. cbn [releaseTimers set_releaseTimers]. now rewrite map_app. }
  destruct Hok as [[HK Hheld Hsingle] Hasleep].
  assert (Hc1 : RuleTimersCore s1).
  { split.
    - rewrite Hh1, map_app. cbn [map fst]. apply NoDup_app. split; [assumption|].
      split; [|apply NoDup_singleton].
      intros x Hx Hx'. apply list_elem_of_singleton in Hx'. congruence.
    - intros h t r Harmed Hr. destruct (Hheld h t r Harmed Hr) as (p & Hp & Hhold).
      exists p. split; [|assumption]. rewrite Hh1. apply elem_of_app. now left.
    - intros r p. rewrite Hh1. intros Hp. apply elem_of_app in Hp as [Hp|Hp].
      + now apply (Hsingle r).
      + apply list_elem_of_singleton in Hp. injection Hp as -> ->. now left. }
  change (releaseRuleTimersEnabled s1) with (releaseRuleTimersEnabled s).
  destruct (releaseRuleTimersEnabled s) eqn:Hen.
  - destruct (setRuleTimerWithDelay_Core env rule (interval rule) s1 Hc1) as (Hc & He & _).
    + rewrite Hh1. apply elem_of_app. right. now apply list_elem_of_singleton.
    + split; [exact Hc|]. intros Hx. rewrite He in Hx.
      change (releaseRuleTimersEnabled s1) with (releaseRuleTimersEnabled s) in Hx. congruence.
  - split; [exact Hc1|]. intros _ r p. rewrite Hh1. intros Hp.
    apply elem_of_app in Hp as [Hp|Hp]; [now apply (Hasleep Hen r)|].
    apply list_elem_of_singleton in Hp. now injection Hp as -> ->.
Qed.

Lemma dropRules_RuleTimersOK rules entries :
  forall s, RuleTimersOK s -> NoDup (map fst entries) ->
    (forall e, e ∈ entries -> heldBy e ∈ handlesOf s) ->
    RuleTimersOK (dropRules rules entries s).
Proof.
  induction entries as [|[rule status] rest IH]; intros s Hok Hnd Hin; cbn [dropRules];
    [assumption|].
  cbn [map fst] in Hnd. apply NoDup_cons in Hnd as [Hk Hnd].
  destruct (bool_decide (rule ∈ rules)).
  { apply IH; [assumption..|]. intros e He. apply Hin. now right. }
  destruct Hok as [Hcore Hasleep].
  destruct (clearReleaseRuleTimer_Core rule status s Hcore) as (Hc1 & Hh1 & He1).
  { apply (Hin (rule, status)). left. }
  set (s1 := clearReleaseRuleTimer rule status s) in *.
  set (s2 := set_releaseTimers (filter (fun e => fst e <> rule) (releaseTimers s1)) s1).
  assert (Hh2 : forall r p, (r, p) ∈ handlesOf s2 <-> r <> rule /\ (r, p) ∈ handlesOf s).
  { intros r p. unfold handlesOf at 1, s2. cbn [releaseTimers set_releaseTimers]. split.
    - intros H. apply list_elem_of_fmap in H as ([r0 st0] & Heq & H0).
      apply list_elem_of_filter in H0 as [Hne H0]. cbn [fst snd] in Heq, Hne.
      injection Heq as -> ->. split; [assumption|].
      apply handlesOf_elem in H0. rewrite Hh1 in H0.
      apply (elem_of_updHandles _ (fun _ => unheld)) in H0 as (p0 & Hp0 & Hp).
      rewrite decide_False in Hp by assumption. cbn [fst snd] in Hp. now rewrite Hp.
    - intros [Hne H].
      assert (H1 : (r, p) ∈ handlesOf s1).
      { rewrite Hh1. apply (elem_of_updHandles _ (fun _ => unheld)). exists p. split; [assumption|].
        now rewrite decide_False. }
      apply list_elem_of_fmap in H1 as ([r0 st0] & Heq & H0). cbn [fst snd] in Heq.
      apply list_elem_of_fmap. exists (r0, st0). split; [assumption|].
      apply list_elem_of_filter. split; [|assumption]. cbn [fst]. congruence. }
  assert (Hsub : forall r p, (r, p) ∈ handlesOf s2 -> (r, p) ∈ handlesOf s1).
  { intros r p H. apply Hh2 in H as [Hne H]. rewrite Hh1.
    apply (elem_of_updHandles _ (fun _ => unheld)). exists p. split; [assumption|].
    now rewrite decide_False. }
  apply IH; [|assumption|].
  - destruct Hc1 as [HK1 Hheld1 Hsingle1]. split; [split|].
    + unfold handlesOf, s2. cbn [releaseTimers set_releaseTimers]. rewrite map_map.
      cbn [fst]. change (NoDup (map fst (filter (fun e => fst e <> rule) (releaseTimers s1)))).
      rewrite keys_handlesOf in HK1. revert HK1. generalize (releaseTimers s1).
      intros l. induction l as [|e l IHl]; cbn [map]; intros Hl; [constructor|].
      apply NoDup_cons in Hl as [He Hl]. rewrite filter_cons.
      destruct (decide (fst e <> rule)); [|now apply IHl].
      cbn [map]. apply NoDup_cons. split; [|now apply IHl].
      intros Hx. apply He. apply list_elem_of_fmap in Hx as (e' & -> & He').
      apply list_elem_of_filter in He' as [_ He']. apply (list_elem_of_fmap_2 fst _ _ He').
    + intros h t r Harmed Hr. change (timers s2) with (timers s1) in Harmed.
      destruct (Hheld1 h t r Harmed Hr) as (p & Hp & Hhold). exists p. split; [|assumption].
      apply Hh2. rewrite Hh1 in Hp.
      apply (elem_of_updHandles _ (fun _ => unheld)) in Hp as (p0 & Hp0 & Hp).
      destruct (decide (r = rule)) as [->|Hne].
      * exfalso. subst p. destruct Hhold as [Hx|Hx]; discriminate Hx.
      * subst p. now split.
    + intros r p Hp. apply (Hsingle1 r). now apply Hsub.
    + intros Hen r p Hp. apply Hh2 in Hp as [_ Hp]. apply (Hasleep (eq_trans (eq_sym He1) Hen) r p Hp).
  - intros e He. apply Hh2. split; [|apply Hin; now right].
    cbn [fst]. intros Heq. apply Hk. rewrite <- Heq. apply (list_elem_of_fmap_2 fst _ _ He).
Qed.

Lemma setRules_RuleTimersOK env rules s : RuleTimersOK s -> RuleTimersOK (setRules env rules s).
Proof.
  intros Hok. unfold setRules. pose proof (addRules_RuleTimersOK env rules s Hok) as H1.
  apply dropRules_RuleTimersOK; [assumption| |].
  - rewrite <- keys_handlesOf. apply H1.
  - intros e. apply handlesOf_elem.
Qed.

(** *** The limiter keeps the timers of the rules *)

Ltac quiet_step := eapply RuleTimersOK_armsNoRule; [eassumption|]; solve [auto 10 with quiet].

Section RuleTimersOfLoop.
Variable next : State -> State.
Hypothesis next_RuleTimersOK : forall s, RuleTimersOK s -> RuleTimersOK (next s).

Lemma tryRejectTask_RuleTimersOK env id e s :
  RuleTimersOK s -> RuleTimersOK (tryRejectTask_ next env id e s).
Proof.
  intros Hok. unfold tryRejectTask_. apply next_RuleTimersOK.
  set (s1 := releaseTaskResources id s).
  assert (H1 : armsNoRule s s1) by (unfold s1; auto with quiet).
  eapply RuleTimersOK_armsNoRule; [exact Hok|].
  destruct (tasks s1 !! id) as [task|]; [|assumption].
  destruct (nullish _ _) as [[| |o]|]; auto with quiet.
Qed.

Lemma resolveTask_RuleTimersOK id s :
  RuleTimersOK s -> RuleTimersOK (resolveTask_ next id s).
Proof. intros Hok. unfold resolveTask_. apply next_RuleTimersOK. quiet_step. Qed.

Lemma executeTask_RuleTimersOK env id s :
  RuleTimersOK s -> RuleTimersOK (executeTask_ next env id s).
Proof.
  intros Hok. unfold executeTask_. destruct (tasks s !! id) as [task|]; [|assumption].
  match goal with |- context [emit (CallbackInvoked id) ?x] => set (s1 := x) end.
  assert (H1 : armsNoRule s s1).
  { unfold s1. destruct (truthy _); [|auto with quiet].
    match goal with |- context [setTimer ?cb ?due ?s0] =>
      pose proof (anr_setTimer s cb due s0 eq_refl) as Hs;
      destruct (setTimer cb due s0) as [h s2] end.
    cbn [snd] in Hs. auto with quiet. }
  destruct (throwsSync env id).
  - apply tryRejectTask_RuleTimersOK. quiet_step.
  - quiet_step.
Qed.

Lemma startNextBody_RuleTimersOK env s :
  RuleTimersOK s -> RuleTimersOK (startNextBody next env s).
Proof.
  intros Hok. unfold startNextBody.
  assert (Hrest : RuleTimersOK
    (if truthy (maxConcurrent (options s))
        && (default 0 (maxConcurrent (options s)) <=? usedConcurrent s)
     then s
     else match pickTaskToExecute env s with
          | None => s
          | Some (taskToExecute, s1) =>
              if bool_decide (DLL.length (queue (executeTask_ next env taskToExecute
                                                   (reserveResources taskToExecute s1))) = 0)
              then disableTimers (executeTask_ next env taskToExecute
                                    (reserveResources taskToExecute s1))
              else next (executeTask_ next env taskToExecute
                           (reserveResources taskToExecute s1))
          end)).
  { destruct (truthy _ && _); [assumption|].
    destruct (pickTaskToExecute env s) as [[id s1]|] eqn:Hpick; [|assumption].
    assert (H1 : RuleTimersOK (executeTask_ next env id (reserveResources id s1))).
    { apply executeTask_RuleTimersOK. eapply RuleTimersOK_armsNoRule; [exact Hok|].
      apply anr_reserveResources. eapply anr_pickTaskToExecute; [exact Hpick|].
      apply armsNoRule_refl. }
    destruct (bool_decide _); [now apply disableTimers_RuleTimersOK|].
    now apply next_RuleTimersOK. }
  destruct (stopped s) as [st|]; [|exact Hrest].
  destruct (bool_decide (DLL.length (queue s) = 0)); [|exact Hrest].
  clear Hrest. quiet_step.
Qed.
End RuleTimersOfLoop.

Lemma startNextRounds_RuleTimersOK rounds env :
  forall s, RuleTimersOK s -> RuleTimersOK (startNextRounds rounds env s).
Proof.
  induction rounds as [|rounds IH]; intros s Hok; cbn [startNextRounds]; [assumption|].
  now apply startNextBody_RuleTimersOK.
Qed.

Lemma startNextTaskIfPossible_RuleTimersOK env s :
  RuleTimersOK s -> RuleTimersOK (startNextTaskIfPossible env s).
Proof. apply startNextRounds_RuleTimersOK. Qed.

Lemma tryRejectTask_top_RuleTimersOK env id e s :
  RuleTimersOK s -> RuleTimersOK (tryRejectTask env id e s).
Proof.
  apply tryRejectTask_RuleTimersOK. intros s'. apply startNextTaskIfPossible_RuleTimersOK.
Qed.

Lemma resolveTask_top_RuleTimersOK env id s :
  RuleTimersOK s -> RuleTimersOK (resolveTask env id s).
Proof.
  apply resolveTask_RuleTimersOK. intros s'. apply startNextTaskIfPossible_RuleTimersOK.
Qed.

Lemma scheduleTask_RuleTimersOK env id s :
  RuleTimersOK s -> RuleTimersOK (stateOf (scheduleTask env id s)).
Proof.
  intros Hok. unfold scheduleTask. destruct (tasks s !! id) as [task|]; [|assumption].
  destruct (stopped s); [cbn [stateOf]; quiet_step|].
  pose proof (anr_admissionChecks s id task s (armsNoRule_refl s)) as H1.
  destruct (admissionChecks id task s) as [s1|e s1]; cbn [stateOf] in *; [|quiet_step].
  pose proof (anr_queueOverflow s id task s1 H1) as H2.
  destruct (queueOverflow id task s1) as [s2|s2]; cbn [stateOf]; [|quiet_step].
  apply startNextTaskIfPossible_RuleTimersOK. unfold enqueue.
  apply enableTimers_RuleTimersOK. quiet_step.
Qed.

Lemma schedule_RuleTimersOK env p s :
  RuleTimersOK s -> RuleTimersOK (stateOf (schedule env p s)).
Proof. intros Hok. unfold schedule. apply scheduleTask_RuleTimersOK. quiet_step. Qed.

Lemma stop_RuleTimersOK env params s :
  RuleTimersOK s -> RuleTimersOK (snd (stop env params s)).
Proof.
  intros Hok. unfold stop.
  match goal with |- context [set_stopped (Some (mkStopped None)) ?x] => set (s1 := x) end.
  assert (H1 : armsNoRule s s1).
  { unfold s1.
    destruct (match params with
              | Some p => if stopAll p then Some (mkStopParams false true true true) else Some p
              | None => None end) as [p|]; [|auto with quiet].
    destruct (stopWaitingTasks p || rejectExecutingTasks p || stopWaitingTasks p);
      [|auto with quiet].
    destruct (stopWaitingTasks p), (rejectExecutingTasks p), (stopTaskRetries p);
      auto 10 with quiet. }
  destruct (bool_decide _); cbn [snd]; [|quiet_step].
  apply startNextTaskIfPossible_RuleTimersOK. quiet_step.
Qed.

Lemma setUsedCapacity_RuleTimersOK env v s :
  RuleTimersOK s -> RuleTimersOK (stateOf (setUsedCapacity env v s)).
Proof.
  intros Hok. unfold setUsedCapacity. destruct (checkUsedCapacity _ _); cbn [stateOf];
    [assumption|].
  apply startNextTaskIfPossible_RuleTimersOK. quiet_step.
Qed.

Lemma adjustUsedCapacity_RuleTimersOK env diff s :
  RuleTimersOK s -> RuleTimersOK (stateOf (adjustUsedCapacity env diff s)).
Proof.
  intros Hok. unfold adjustUsedCapacity. destruct (maxCapacity (options s)); cbn [stateOf];
    [|assumption].
  apply startNextTaskIfPossible_RuleTimersOK. quiet_step.
Qed.

Lemma getUsedCapacity_RuleTimersOK env s :
  RuleTimersOK s -> RuleTimersOK (snd (getUsedCapacity env s)).
Proof.
  intros Hok. unfold getUsedCapacity. cbn [snd]. destruct (areTimersEnabled s); [assumption|].
  quiet_step.
Qed.

Lemma setOptions_RuleTimersOK env o s :
  RuleTimersOK s -> RuleTimersOK (stateOf (setOptions env o s)).
Proof.
  intros Hok. unfold setOptions. destruct (firstError _); cbn [stateOf]; [assumption|].
  apply setRules_RuleTimersOK. quiet_step.
Qed.

Lemma constructor_RuleTimersOK env o : RuleTimersOK (stateOf (constructor env o)).
Proof.
  assert (H0 : RuleTimersOK (initialState o)).
  { split; [split|].
    - cbn. constructor.
    - intros h t r H. cbn in H. discriminate H.
    - intros r p H. cbn in H. inversion H.
    - intros _ r p H. cbn in H. inversion H. }
  unfold constructor. destruct (firstError _); cbn [stateOf]; [assumption|].
  apply setRules_RuleTimersOK. quiet_step.
Qed.

Lemma whenUnfinished_RuleTimersOK r k s :
  (forall id s', RuleTimersOK s' -> RuleTimersOK (k id s')) ->
  RuleTimersOK s -> RuleTimersOK (whenUnfinished r k s).
Proof.
  intros Hk Hok. unfold whenUnfinished. destruct (runs s !! r) as [x|]; [|assumption].
  destruct (finished x); [assumption|]. apply Hk. quiet_step.
Qed.

Lemma applyRuleByInterval_RuleTimersOK env rule s :
  RuleTimersOK s -> RuleTimersOK (applyRuleByInterval env rule s).
Proof.
  intros Hok. unfold applyRuleByInterval. apply startNextTaskIfPossible_RuleTimersOK.
  eapply RuleTimersOK_armsNoRule; [exact Hok|]. apply anr_applyRule.
  apply anr_updStatus_lastApplied; [now intros st|apply armsNoRule_refl].
Qed.

(** The timeout of a rule fires: its status trades the timer for the
    interval. *)
Lemma ruleTimeout_RuleTimersOK env handle t rule s :
  timers s !! handle = Some (Some t) -> callback t = RuleTimeout rule ->
  RuleTimersOK s ->
  RuleTimersOK
    (updStatus rule
       (fun st => mkStatus None (Some (length (timers (clearTimer handle s)))) (lastApplied st))
       (snd (setTimer (RuleInterval rule) (now env + interval rule) (clearTimer handle s)))).
Proof.
  intros Harmed Hcb [[HK Hheld Hsingle] Hasleep].
  destruct (Hheld handle t rule Harmed) as (p & Hp & Hhold); [now rewrite Hcb|].
  set (h := length (timers (clearTimer handle s))).
  set (s3 := updStatus _ _ _).
  assert (Hh : handlesOf s3 = updHandles rule (fun _ => (None, Some h)) (handlesOf s)).
  { unfold s3. now rewrite (handlesOf_updStatus _ _ (fun _ => (None, Some h))). }
  assert (Hlen : h = length (timers s)).
  { unfold h, clearTimer. cbn [timers set_timers]. apply length_insert. }
  assert (Hnew : (rule, (None, Some h)) ∈ handlesOf s3).
  { rewrite Hh. apply (elem_of_updHandles _ (fun _ => (None, Some h))). exists p.
    split; [assumption|]. now rewrite decide_True. }
  split; [split|].
  - rewrite Hh, (keys_updHandles rule (fun _ => (None, Some h))). exact HK.
  - intros h' t' r Harmed' Hr.
    change (timers s3) with
      (<[handle := None]> (timers s) ++ [Some (mkTimer (RuleInterval rule)
                                                       (now env + interval rule))]) in Harmed'.
    apply lookup_app_Some in Harmed' as [Harmed'|[Hge Harmed']].
    + apply list_lookup_insert_Some in Harmed' as [(_ & [=] & _)|[Hne Harmed']].
      destruct (Hheld h' t' r Harmed' Hr) as (p' & Hp' & Hhold').
      destruct (decide (r = rule)) as [->|Hr'].
      * exfalso. rewrite (assoc_unique _ _ _ _ HK Hp' Hp) in Hhold'.
        destruct (Hsingle rule p Hp) as [Hx|Hx], Hhold as [Hy|Hy], Hhold' as [Hz|Hz]; congruence.
      * exists p'. split; [|assumption]. rewrite Hh.
        apply (elem_of_updHandles _ (fun _ => (None, Some h))). exists p'. split; [assumption|].
        now rewrite decide_False.
    + rewrite length_insert in Hge, Harmed'.
      destruct (h' - length (timers s))%nat as [|k] eqn:Hk; cbn in Harmed'; [|discriminate].
      injection Harmed' as Heq. subst t'. cbn [callback ruleOf] in Hr.
      assert (r = rule) as -> by congruence.
      exists (None, Some h). split; [assumption|]. right. cbn [snd]. f_equal. lia.
  - intros r p' Hp'. rewrite Hh in Hp'.
    apply (elem_of_updHandles _ (fun _ => (None, Some h))) in Hp' as (p0 & Hp0 & ->).
    destruct (decide (r = rule)); [now left|]. now apply (Hsingle r).
  - intros Hen. exfalso. change (releaseRuleTimersEnabled s3) with (releaseRuleTimersEnabled s) in Hen.
    rewrite (Hasleep Hen rule p Hp) in Hhold. destruct Hhold as [Hx|Hx]; discriminate Hx.
Qed.

Lemma timerFired_RuleTimersOK env handle s :
  RuleTimersOK s -> RuleTimersOK (stateOf (timerFired env handle s)).
Proof.
  intros Hok. unfold timerFired.
  destruct (timers s !! handle) as [[t|]|] eqn:Harmed; [|assumption..].
  destruct (callback t) as [id|r|id|rule|rule] eqn:Hcb; cbn [stateOf].
  - quiet_step.
  - apply whenUnfinished_RuleTimersOK; [|quiet_step].
    intros id s'. apply tryRejectTask_top_RuleTimersOK.
  - apply scheduleTask_RuleTimersOK. quiet_step.
  - unfold setTimer at 1. cbv beta iota. cbn [stateOf].
    apply applyRuleByInterval_RuleTimersOK.
    now apply (ruleTimeout_RuleTimersOK env handle t rule s).
  - now apply applyRuleByInterval_RuleTimersOK.
Qed.

Lemma step_RuleTimersOK env ev s : RuleTimersOK s -> RuleTimersOK (stateOf (step env ev s)).
Proof.
  intros Hok. destruct ev; cbn [step stateOf].
  - now apply schedule_RuleTimersOK.
  - apply whenUnfinished_RuleTimersOK; [|assumption].
    intros id s'. apply resolveTask_top_RuleTimersOK.
  - apply whenUnfinished_RuleTimersOK; [|assumption].
    intros id s'. apply tryRejectTask_top_RuleTimersOK.
  - now apply timerFired_RuleTimersOK.
  - quiet_step.
  - now apply getUsedCapacity_RuleTimersOK.
  - now apply setUsedCapacity_RuleTimersOK.
  - now apply adjustUsedCapacity_RuleTimersOK.
  - now apply setOptions_RuleTimersOK.
  - now apply stop_RuleTimersOK.
Qed.

(** *** The limits along a run *)

Lemma Accounted_withinPositiveLimits s : Accounted s -> withinPositiveLimits s.
Proof.
  intros [Hcap Hconc _ _ _ _]. split; [|exact Hconc]. intros m Hm. now apply Hcap.
Qed.

Lemma run_invariant events :
  forall s, admissible events s -> Accounted s -> RuleTimersOK s ->
            Accounted (run events s) /\ RuleTimersOK (run events s).
Proof.
  induction events as [|[env ev] rest IH]; intros s Hadm Hacc Hok; cbn [run]; [now split|].
  cbn [admissible] in Hadm. destruct Hadm as [Hev Hadm].
  apply IH; [assumption| |now apply step_RuleTimersOK].
  apply step_Accounted; [now apply RuleTimersOK_installed|exact Hev|assumption].
Qed.


(** ** The rounds of the loop are enough *)

Lemma elem_of_DLL_delete (x y : nat) l : y ∈ DLL.delete x l -> y ∈ l.
Proof.
  induction l as [|z l IH]; cbn; [auto|].
  destruct (decide (z = x)); intros H; [now right|].
  apply elem_of_cons in H as [->|H]; [left|right; auto].
Qed.

Lemma elem_of_DLL_delete_ne (x y : nat) l : y <> x -> y ∈ l -> y ∈ DLL.delete x l.
Proof.
  intros Hne. induction l as [|z l IH]; cbn; [auto|]. intros H.
  destruct (decide (z = x)) as [->|Hz].
  - apply elem_of_cons in H as [->|H]; [congruence|assumption].
  - apply elem_of_cons in H as [->|H]; [left|right; auto].
Qed.

Lemma NoDup_DLL_delete (x : nat) l : NoDup l -> NoDup (DLL.delete x l) /\ x ∉ DLL.delete x l.
Proof.
  induction 1 as [|z l Hz Hl IH]; cbn.
  - split; [constructor|apply not_elem_of_nil].
  - destruct IH as [IH1 IH2]. destruct (decide (z = x)) as [->|Hne]; [now split|].
    split.
    + constructor; [|assumption]. intros H. apply Hz. now apply elem_of_DLL_delete in H.
    + intros H. apply elem_of_cons in H as [->|H]; [congruence|now apply IH2].
Qed.

Lemma length_DLL_delete (x : nat) l : (length (DLL.delete x l) <= length l)%nat.
Proof.
  induction l as [|z l IH]; cbn; [lia|]. destruct (decide (z = x)); cbn; lia.
Qed.

Lemma length_DLL_delete_elem (x : nat) l : x ∈ l -> (length (DLL.delete x l) < length l)%nat.
Proof.
  induction l as [|z l IH]; cbn; intros H; [inversion H|].
  destruct (decide (z = x)) as [->|Hne]; cbn; [lia|].
  apply elem_of_cons in H as [->|H]; [congruence|]. specialize (IH H). lia.
Qed.

Lemma DLL_delete_absent (x : nat) l : x ∉ l -> DLL.delete x l = l.
Proof.
  induction l as [|z l IH]; cbn; intros H; [reflexivity|].
  destruct (decide (z = x)) as [->|Hne]; [exfalso; apply H; left|].
  f_equal. apply IH. intros Hx. apply H. now right.
Qed.

(** [indexed] looks at the two indices and at the time limits. *)
Lemma indexed_frame s s' :
  tasksByTimeLimit s' = tasksByTimeLimit s -> queue s' = queue s ->
  (forall id, id ∈ tasksByTimeLimit s -> timeLimitOf s' id = timeLimitOf s id) ->
  indexed s -> indexed s'.
Proof.
  intros Hl Hq Ht [Hnd Hin]. unfold indexed. rewrite Hl, Hq. split; [assumption|].
  intros id Hid. rewrite (Ht id Hid). now apply Hin.
Qed.

Lemma indexed_updTask id f s :
  (id ∉ tasksByTimeLimit s \/ forall t, timeLimit (f t) = timeLimit t) ->
  indexed s -> indexed (updTask id f s).
Proof.
  intros Hf. apply indexed_frame; [reflexivity..|]. intros x Hx. destruct Hf as [Hf|Hf].
  - apply timeLimitOf_updTask_ne. congruence.
  - now apply timeLimitOf_updTask_keeps.
Qed.


Lemma keepsIndex_refl s : keepsIndex s s.
Proof. repeat split. Qed.

Lemma keepsIndex_trans s1 s2 s3 : keepsIndex s1 s2 -> keepsIndex s2 s3 -> keepsIndex s1 s3.
Proof.
  intros (H1 & H2 & H3) (K1 & K2 & K3). split; [congruence|]. split; [congruence|].
  intros id Hid. rewrite K3, H3; [reflexivity|assumption|]. now rewrite H1.
Qed.

Lemma indexed_keepsIndex s s' : indexed s -> keepsIndex s s' -> indexed s'.
Proof. intros Hs (H1 & H2 & H3). revert Hs. now apply indexed_frame. Qed.

Lemma ki_same s0 s s' :
  tasksByTimeLimit s' = tasksByTimeLimit s -> queue s' = queue s -> tasks s' = tasks s ->
  keepsIndex s0 s -> keepsIndex s0 s'.
Proof.
  intros H1 H2 H3 H. eapply keepsIndex_trans; [exact H|]. split; [assumption|].
  split; [assumption|]. intros id _. unfold timeLimitOf. now rewrite H3.
Qed.

Ltac ki_same := intros; eapply ki_same; [reflexivity..|assumption].

Lemma ki_set_usedCapacity s0 v s : keepsIndex s0 s -> keepsIndex s0 (set_usedCapacity v s).
Proof. ki_same. Qed.

Lemma ki_set_usedConcurrent s0 v s : keepsIndex s0 s -> keepsIndex s0 (set_usedConcurrent v s).
Proof. ki_same. Qed.

Lemma ki_set_tasksByTimeAdded s0 v s : keepsIndex s0 s -> keepsIndex s0 (set_tasksByTimeAdded v s).
Proof. ki_same. Qed.

Lemma ki_set_options s0 v s : keepsIndex s0 s -> keepsIndex s0 (set_options v s).
Proof. ki_same. Qed.

Lemma ki_set_originalOptions s0 v s : keepsIndex s0 s -> keepsIndex s0 (set_originalOptions v s).
Proof. ki_same. Qed.

Lemma ki_set_releaseTimers s0 v s : keepsIndex s0 s -> keepsIndex s0 (set_releaseTimers v s).
Proof. ki_same. Qed.

Lemma ki_set_releaseRuleTimersEnabled s0 v s : keepsIndex s0 s -> keepsIndex s0 (set_releaseRuleTimersEnabled v s).
Proof. ki_same. Qed.

Lemma ki_set_retryTimers s0 v s : keepsIndex s0 s -> keepsIndex s0 (set_retryTimers v s).
Proof. ki_same. Qed.

Lemma ki_set_executingTasks s0 v s : keepsIndex s0 s -> keepsIndex s0 (set_executingTasks v s).
Proof. ki_same. Qed.

Lemma ki_set_stopped s0 v s : keepsIndex s0 s -> keepsIndex s0 (set_stopped v s).
Proof. ki_same. Qed.

Lemma ki_set_runs s0 v s : keepsIndex s0 s -> keepsIndex s0 (set_runs v s).
Proof. ki_same. Qed.

Lemma ki_set_timers s0 v s : keepsIndex s0 s -> keepsIndex s0 (set_timers v s).
Proof. ki_same. Qed.

Lemma ki_set_onFailureCalls s0 v s : keepsIndex s0 s -> keepsIndex s0 (set_onFailureCalls v s).
Proof. ki_same. Qed.

Lemma ki_set_stopPromises s0 v s : keepsIndex s0 s -> keepsIndex s0 (set_stopPromises v s).
Proof. ki_same. Qed.

Lemma ki_set_log s0 v s : keepsIndex s0 s -> keepsIndex s0 (set_log v s).
Proof. ki_same. Qed.

Lemma ki_emit s0 e s : keepsIndex s0 s -> keepsIndex s0 (emit e s).
Proof. ki_same. Qed.

Lemma ki_clearTimer s0 h s : keepsIndex s0 s -> keepsIndex s0 (clearTimer h s).
Proof. ki_same. Qed.

Lemma ki_setTimer s0 cb due s : keepsIndex s0 s -> keepsIndex s0 (snd (setTimer cb due s)).
Proof. ki_same. Qed.

Lemma ki_updTask_keeps s0 id f s :
  (forall t, timeLimit (f t) = timeLimit t) ->
  keepsIndex s0 s -> keepsIndex s0 (updTask id f s).
Proof.
  intros Hf H. eapply keepsIndex_trans; [exact H|]. repeat split.
  intros x _. now apply timeLimitOf_updTask_keeps.
Qed.

Lemma ki_updTask_absent s0 id f s :
  id ∉ tasksByTimeLimit s0 -> keepsIndex s0 s -> keepsIndex s0 (updTask id f s).
Proof.
  intros Hid H. eapply keepsIndex_trans; [exact H|]. repeat split.
  intros x Hx. apply timeLimitOf_updTask_ne. destruct H as (H1 & _). rewrite H1 in Hx. congruence.
Qed.

Lemma ki_rejectTask s0 id e s : keepsIndex s0 s -> keepsIndex s0 (rejectTask id e s).
Proof. intros H. unfold rejectTask. now apply ki_updTask_keeps. Qed.

Lemma ki_resolveTaskPromise s0 id s : keepsIndex s0 s -> keepsIndex s0 (resolveTaskPromise id s).
Proof. intros H. unfold resolveTaskPromise. now apply ki_updTask_keeps. Qed.

Create HintDb kept.
#[local] Hint Resolve keepsIndex_refl ki_set_usedCapacity ki_set_usedConcurrent ki_set_tasksByTimeAdded ki_set_options ki_set_originalOptions ki_set_releaseTimers ki_set_releaseRuleTimersEnabled ki_set_retryTimers ki_set_executingTasks ki_set_stopped ki_set_runs ki_set_timers ki_set_onFailureCalls ki_set_stopPromises ki_set_log
  ki_emit ki_clearTimer ki_rejectTask ki_resolveTaskPromise : kept.
#[local] Hint Extern 1 (keepsIndex _ (updTask _ _ _)) =>
  (apply ki_updTask_keeps; [intros; reflexivity|]) : kept.
#[local] Hint Extern 2 (keepsIndex _ (updTask _ _ _)) =>
  (apply ki_updTask_absent; [assumption|]) : kept.

Lemma ki_releaseTaskResources s0 id s :
  id ∉ tasksByTimeLimit s0 -> keepsIndex s0 s -> keepsIndex s0 (releaseTaskResources id s).
Proof.
  intros Hid H. unfold releaseTaskResources. destruct (tasks s !! id) as [task|]; [|assumption].
  destruct (executionTimerId task); destruct (truthy (reservedConcurrent task));
    (destruct (truthy (reservedCapacity task) && _); auto 10 with kept).
Qed.

Lemma ki_setRetryTimer s0 env id timeout s :
  id ∉ tasksByTimeLimit s0 -> keepsIndex s0 s -> keepsIndex s0 (setRetryTimer env id timeout s).
Proof.
  intros Hid H. unfold setRetryTimer.
  match goal with |- context [setTimer ?cb ?due ?s1] =>
    pose proof (ki_setTimer s0 cb due s1) as Hs;
    destruct (setTimer cb due s1) as [h s2] end.
  cbn [snd] in Hs. auto with kept.
Qed.

Lemma ki_useStrategy s0 env id strategy e attempt s :
  id ∉ tasksByTimeLimit s0 -> keepsIndex s0 s ->
  keepsIndex s0 (useStrategy env id strategy e attempt s).
Proof.
  intros Hid H. unfold useStrategy. destruct strategy as [o|n]; [|auto with kept].
  destruct (_ <? attempt); [auto with kept|]. apply ki_setRetryTimer; auto with kept.
Qed.

Lemma ki_finishRun s0 r s : keepsIndex s0 s -> keepsIndex s0 (finishRun r s).
Proof. intros H. unfold finishRun. auto with kept. Qed.

Lemma ki_stoppedResolve s0 st s : keepsIndex s0 s -> keepsIndex s0 (stoppedResolve st s).
Proof. intros H. unfold stoppedResolve. destruct (stoppedPromise st); auto with kept. Qed.

Lemma ki_disableTimers s0 s : keepsIndex s0 s -> keepsIndex s0 (disableTimers s).
Proof.
  intros H. destruct (besideRules_fields s _ (besideRules_disableTimers s))
    as (H1 & H2 & H3 & _).
  revert H. now apply ki_same.
Qed.

#[local] Hint Resolve ki_finishRun ki_stoppedResolve ki_disableTimers : kept.

Lemma reserveResources_indices id s task :
  tasks s !! id = Some task ->
  queue (reserveResources id s) = DLL.delete id (queue s) /\
  tasksByTimeLimit (reserveResources id s)
  = (if truthy (timeLimit task) then DLL.delete id (tasksByTimeLimit s)
     else tasksByTimeLimit s) /\
  forall x, timeLimitOf (reserveResources id s) x = timeLimitOf s x.
Proof.
  intros Hid. unfold reserveResources, timeLimitOf, updTask, clearTimer. rewrite Hid.
  destruct (maxCapacity (options s)); [destruct (optCapacityStrategy (options s))|];
    cbn; destruct (queueWaitingTimerId task); cbn; destruct (truthy (timeLimit task)); cbn;
    (split; [reflexivity|]; split; [reflexivity|]; intros x;
     destruct (decide (x = id)) as [->|Hne];
     [rewrite ?list_lookup_alter_eq, ?Hid; cbn; rewrite ?Hid; reflexivity
     |rewrite ?list_lookup_alter_ne by congruence; reflexivity]).
Qed.

(** A dispatch takes the task out of the two indices. *)
Lemma dispatch_indexed env s id s1 :
  indexed s -> pickTaskToExecute env s = Some (id, s1) ->
  indexed (reserveResources id s1) /\
  (id ∉ tasksByTimeLimit (reserveResources id s1)) /\
  (length (queue (reserveResources id s1)) < length (queue s))%nat.
Proof.
  intros [Hnd Hin] Hpick.
  destruct (pickTaskToExecute_fits env s id s1 Hpick) as (Hfit & Htasks & _).
  unfold fits in Hfit. destruct (tasks s !! id) as [task|] eqn:Hid; [|discriminate].
  assert (Hs1 : tasksByTimeLimit s1 = tasksByTimeLimit s /\
                (forall x, x <> id -> x ∈ queue s -> x ∈ queue s1) /\
                (length (DLL.delete id (queue s1)) < length (queue s))%nat /\
                (id ∈ tasksByTimeLimit s -> truthy (timeLimit task) = true)).
  { assert (Htr : id ∈ tasksByTimeLimit s -> truthy (timeLimit task) = true).
    { intros H. destruct (Hin id H) as [_ Ht]. unfold timeLimitOf in Ht. now rewrite Hid in Ht. }
    assert (Hq : forall r q, DLL.pickFirstMatching (fits s) (queue s) = (Some r, q) ->
                   (forall x, x <> r -> x ∈ queue s -> x ∈ q) /\
                   (length (DLL.delete r q) < length (queue s))%nat).
    { intros r q Hp. pose proof (pickFirstMatching_split (fits s) (queue s)) as Hsp.
      rewrite Hp in Hsp. destruct Hsp as (l1 & l2 & -> & -> & _ & _). split.
      - intros x Hne Hx. apply elem_of_app in Hx as [Hx|Hx]; apply elem_of_app; [now left|].
        apply elem_of_cons in Hx as [->|Hx]; [congruence|now right].
      - pose proof (length_DLL_delete r (l1 ++ l2)) as Hl. rewrite !length_app in *. cbn. lia. }
    assert (Hhead : s1 = s -> id ∈ tasksByTimeLimit s ->
              (forall x, x <> id -> x ∈ queue s -> x ∈ queue s1) /\
              (length (DLL.delete id (queue s1)) < length (queue s))%nat).
    { intros -> Hm. split; [auto|]. apply length_DLL_delete_elem. now apply Hin. }
    unfold pickTaskToExecute in Hpick.
    destruct (DLL.pickFirstMatching (fits s) (queue s)) as [[r|] q] eqn:Hp.
    - destruct (Hq r q eq_refl) as [Hq1 Hq2].
      destruct (DLL.peekFirst (tasksByTimeLimit s)) as [imp|] eqn:Hpeek.
      + destruct (aged env s imp).
        * destruct (fits s imp); [|discriminate]. injection Hpick as -> <-.
          assert (Hm : id ∈ tasksByTimeLimit s).
          { unfold DLL.peekFirst in Hpeek. destruct (tasksByTimeLimit s); [discriminate|].
            injection Hpeek as ->. left. }
          destruct (Hhead eq_refl Hm). auto.
        * injection Hpick as <- <-. auto.
      + injection Hpick as <- <-. auto.
    - destruct (DLL.peekFirst (tasksByTimeLimit s)) as [imp|] eqn:Hpeek; [|discriminate].
      destruct (aged env s imp); [|discriminate].
      destruct (fits s imp); [|discriminate]. injection Hpick as -> <-.
      assert (Hm : id ∈ tasksByTimeLimit s).
      { unfold DLL.peekFirst in Hpeek. destruct (tasksByTimeLimit s); [discriminate|].
        injection Hpeek as ->. left. }
      destruct (Hhead eq_refl Hm). auto. }
  destruct Hs1 as (Hl1 & Hq1 & Hlen & Htr).
  assert (Hid1 : tasks s1 !! id = Some task) by now rewrite Htasks.
  destruct (reserveResources_indices id s1 task Hid1) as (Hq2 & Hl2 & Ht2).
  assert (Hl3 : tasksByTimeLimit (reserveResources id s1) = DLL.delete id (tasksByTimeLimit s)).
  { rewrite Hl2, Hl1. destruct (truthy (timeLimit task)) eqn:Htt; [reflexivity|].
    symmetry. apply DLL_delete_absent. intros Hm. specialize (Htr Hm). discriminate. }
  destruct (NoDup_DLL_delete id _ Hnd) as [Hnd' Hout].
  split; [split|split].
  - now rewrite Hl3.
  - intros x Hx. rewrite Hl3 in Hx.
    assert (Hne : x <> id) by (intros ->; contradiction).
    apply elem_of_DLL_delete in Hx. destruct (Hin x Hx) as [Hxq Hxt]. split.
    + rewrite Hq2. apply elem_of_DLL_delete_ne; auto.
    + rewrite Ht2. unfold timeLimitOf in *. now rewrite Htasks.
  - now rewrite Hl3.
  - now rewrite Hq2.
Qed.

(** What a loop does to the indices: [indexed] is kept and the queue
    does not grow. *)
Section IndicesOfLoop.
Variable next : State -> State.
Hypothesis next_indexed :
  forall s, indexed s -> indexed (next s) /\ (length (queue (next s)) <= length (queue s))%nat.

Lemma tryRejectTask_before_next env id e s :
  id ∉ tasksByTimeLimit s ->
  exists s', tryRejectTask_ next env id e s = next s' /\ keepsIndex s s'.
Proof.
  intros Hid. unfold tryRejectTask_. eexists. split; [reflexivity|].
  set (s1 := releaseTaskResources id s).
  assert (H1 : keepsIndex s s1) by (apply ki_releaseTaskResources; auto with kept).
  destruct (tasks s1 !! id) as [task|]; [|assumption].
  destruct (nullish _ _) as [[| |o]|]; auto with kept;
    apply ki_useStrategy; auto with kept.
Qed.

Lemma executeTask_before_next env id s :
  id ∉ tasksByTimeLimit s ->
  keepsIndex s (executeTask_ next env id s) \/
  exists s', executeTask_ next env id s = next s' /\ keepsIndex s s'.
Proof.
  intros Hid. unfold executeTask_. destruct (tasks s !! id) as [task|]; [|left; auto with kept].
  match goal with |- context [emit (CallbackInvoked id) ?x] => set (s1 := x) end.
  assert (H1 : keepsIndex s s1).
  { unfold s1. destruct (truthy _); [|auto with kept].
    match goal with |- context [setTimer ?cb ?due ?s0] =>
      pose proof (ki_setTimer s cb due s0) as Hs;
      destruct (setTimer cb due s0) as [h s2] end.
    cbn [snd] in Hs. auto with kept. }
  destruct (throwsSync env id); [right|left; auto with kept].
  match goal with |- context [tryRejectTask_ next env id ?e ?x] =>
    assert (H2 : keepsIndex s x) by auto with kept;
    destruct (tryRejectTask_before_next env id e x) as (s' & Heq & Hk) end.
  { destruct H2 as (H2 & _). now rewrite H2. }
  exists s'. split; [exact Heq|]. eapply keepsIndex_trans; eassumption.
Qed.

Lemma keepsIndex_length s s' :
  keepsIndex s s' -> (length (queue s') <= length (queue s))%nat.
Proof. intros (_ & -> & _). lia. Qed.

Lemma executeTask_indexed env id s :
  indexed s -> id ∉ tasksByTimeLimit s ->
  indexed (executeTask_ next env id s) /\
  (length (queue (executeTask_ next env id s)) <= length (queue s))%nat.
Proof.
  intros Hs Hid. destruct (executeTask_before_next env id s Hid) as [Hk|(s' & -> & Hk)].
  - split; [now apply (indexed_keepsIndex s)|now apply keepsIndex_length].
  - destruct (next_indexed s' (indexed_keepsIndex s s' Hs Hk)) as [H1 H2].
    split; [assumption|]. apply keepsIndex_length in Hk. lia.
Qed.

Lemma startNextBody_indexed env s :
  indexed s ->
  indexed (startNextBody next env s) /\
  (length (queue (startNextBody next env s)) <= length (queue s))%nat.
Proof.
  intros Hs. unfold startNextBody.
  assert (Hrest :
    let s' := if truthy (maxConcurrent (options s))
                 && (default 0 (maxConcurrent (options s)) <=? usedConcurrent s)
              then s
              else match pickTaskToExecute env s with
                   | None => s
                   | Some (taskToExecute, s1) =>
                       if bool_decide (DLL.length (queue (executeTask_ next env taskToExecute
                                                   (reserveResources taskToExecute s1))) = 0)
                       then disableTimers (executeTask_ next env taskToExecute
                                             (reserveResources taskToExecute s1))
                       else next (executeTask_ next env taskToExecute
                                    (reserveResources taskToExecute s1))
                   end in
    indexed s' /\ (length (queue s') <= length (queue s))%nat).
  { cbv zeta. destruct (truthy _ && _); [split; [assumption|lia]|].
    destruct (pickTaskToExecute env s) as [[id s1]|] eqn:Hpick; [|split; [assumption|lia]].
    destruct (dispatch_indexed env s id s1 Hs Hpick) as (H1 & H2 & H3).
    destruct (executeTask_indexed env id _ H1 H2) as [H4 H5].
    destruct (bool_decide _).
    - pose proof (ki_disableTimers _ _ (keepsIndex_refl
                    (executeTask_ next env id (reserveResources id s1)))) as Hk.
      split; [now apply (indexed_keepsIndex _ _ H4)|]. apply keepsIndex_length in Hk. lia.
    - destruct (next_indexed _ H4) as [H6 H7]. split; [assumption|lia]. }
  cbv zeta in Hrest.
  destruct (stopped s) as [st|]; [|exact Hrest].
  destruct (bool_decide (DLL.length (queue s) = 0)); [|exact Hrest].
  clear Hrest.
  pose proof (ki_stoppedResolve s st s (keepsIndex_refl s)) as Hk.
  split; [now apply (indexed_keepsIndex s)|now apply keepsIndex_length].
Qed.
End IndicesOfLoop.

Lemma startNextRounds_indexed rounds env :
  forall s, indexed s ->
    indexed (startNextRounds rounds env s) /\
    (length (queue (startNextRounds rounds env s)) <= length (queue s))%nat.
Proof.
  induction rounds as [|rounds IH]; intros s Hs; cbn [startNextRounds]; [split; [assumption|lia]|].
  now apply startNextBody_indexed.
Qed.

(** Two loops that agree on the shorter queues make the same round. *)
Section RoundsAgree.
Variables next1 next2 : State -> State.
Hypothesis next1_indexed :
  forall s, indexed s -> indexed (next1 s) /\ (length (queue (next1 s)) <= length (queue s))%nat.

Lemma tryRejectTask_agree env id e s n :
  (forall s', indexed s' -> (length (queue s') <= n)%nat -> next1 s' = next2 s') ->
  indexed s -> id ∉ tasksByTimeLimit s -> (length (queue s) <= n)%nat ->
  tryRejectTask_ next1 env id e s = tryRejectTask_ next2 env id e s.
Proof.
  intros Hagree Hs Hid Hn.
  destruct (tryRejectTask_before_next next1 env id e s Hid) as (s1 & H1 & Hk1).
  unfold tryRejectTask_ in *. apply Hagree.
  - match goal with |- indexed ?x => assert (Hx : keepsIndex s x) end.
    { set (s0 := releaseTaskResources id s).
      assert (H0 : keepsIndex s s0) by (apply ki_releaseTaskResources; auto with kept).
      destruct (tasks s0 !! id) as [task|]; [|assumption].
      destruct (nullish _ _) as [[| |o]|]; auto with kept;
        apply ki_useStrategy; auto with kept. }
    now apply (indexed_keepsIndex s).
  - match goal with |- (length (queue ?x) <= n)%nat => assert (Hx : keepsIndex s x) end.
    { set (s0 := releaseTaskResources id s).
      assert (H0 : keepsIndex s s0) by (apply ki_releaseTaskResources; auto with kept).
      destruct (tasks s0 !! id) as [task|]; [|assumption].
      destruct (nullish _ _) as [[| |o]|]; auto with kept;
        apply ki_useStrategy; auto with kept. }
    apply keepsIndex_length in Hx. lia.
Qed.

Lemma executeTask_agree env id s n :
  (forall s', indexed s' -> (length (queue s') <= n)%nat -> next1 s' = next2 s') ->
  indexed s -> id ∉ tasksByTimeLimit s -> (length (queue s) <= n)%nat ->
  executeTask_ next1 env id s = executeTask_ next2 env id s.
Proof.
  intros Hagree Hs Hid Hn. unfold executeTask_.
  destruct (tasks s !! id) as [task|]; [|reflexivity].
  match goal with |- context [emit (CallbackInvoked id) ?x] => set (s1 := x) end.
  assert (H1 : keepsIndex s s1).
  { unfold s1. destruct (truthy _); [|auto with kept].
    match goal with |- context [setTimer ?cb ?due ?s0] =>
      pose proof (ki_setTimer s cb due s0) as Hs';
      destruct (setTimer cb due s0) as [h s2] end.
    cbn [snd] in Hs'. auto with kept. }
  destruct (throwsSync env id); [|reflexivity].
  match goal with |- tryRejectTask_ next1 env id ?e ?x = _ =>
    assert (H2 : keepsIndex s x) by auto with kept end.
  apply (tryRejectTask_agree env id _ _ n Hagree).
  - now apply (indexed_keepsIndex s).
  - destruct H2 as (H2 & _). now rewrite H2.
  - apply keepsIndex_length in H2. lia.
Qed.

Lemma startNextBody_agree env s :
  (forall s', indexed s' -> (length (queue s') < length (queue s))%nat -> next1 s' = next2 s') ->
  indexed s -> startNextBody next1 env s = startNextBody next2 env s.
Proof.
  intros Hagree Hs. unfold startNextBody.
  assert (Hrest :
    (if truthy (maxConcurrent (options s))
        && (default 0 (maxConcurrent (options s)) <=? usedConcurrent s)
     then s
     else match pickTaskToExecute env s with
          | None => s
          | Some (taskToExecute, s1) =>
              if bool_decide (DLL.length (queue (executeTask_ next1 env taskToExecute
                                                   (reserveResources taskToExecute s1))) = 0)
              then disableTimers (executeTask_ next1 env taskToExecute
                                    (reserveResources taskToExecute s1))
              else next1 (executeTask_ next1 env taskToExecute
                            (reserveResources taskToExecute s1))
          end)
    = (if truthy (maxConcurrent (options s))
        && (default 0 (maxConcurrent (options s)) <=? usedConcurrent s)
     then s
     else match pickTaskToExecute env s with
          | None => s
          | Some (taskToExecute, s1) =>
              if bool_decide (DLL.length (queue (executeTask_ next2 env taskToExecute
                                                   (reserveResources taskToExecute s1))) = 0)
              then disableTimers (executeTask_ next2 env taskToExecute
                                    (reserveResources taskToExecute s1))
              else next2 (executeTask_ next2 env taskToExecute
                            (reserveResources taskToExecute s1))
          end)).
  { destruct (truthy _ && _); [reflexivity|].
    destruct (pickTaskToExecute env s) as [[id s1]|] eqn:Hpick; [|reflexivity].
    destruct (dispatch_indexed env s id s1 Hs Hpick) as (H1 & H2 & H3).
    destruct (executeTask_indexed next1 next1_indexed env id _ H1 H2) as [H4 H5].
    rewrite <- (executeTask_agree env id (reserveResources id s1)
                  (length (queue (reserveResources id s1)))); [|
      intros s' Hs' Hl; apply Hagree; [assumption|lia] |assumption..|lia].
    destruct (bool_decide _); [reflexivity|]. apply Hagree; [assumption|lia]. }
  destruct (stopped s) as [st|]; [|exact Hrest].
  destruct (bool_decide (DLL.length (queue s) = 0)); [reflexivity|exact Hrest].
Qed.
End RoundsAgree.

(** More rounds than the queue is long change nothing. *)
Lemma startNextRounds_enough env k1 :
  forall k2 s, indexed s -> (length (queue s) < k1)%nat -> (length (queue s) < k2)%nat ->
    startNextRounds k1 env s = startNextRounds k2 env s.
Proof.
  induction k1 as [|k1 IH]; intros k2 s Hs H1 H2; [lia|].
  destruct k2 as [|k2]; [lia|]. cbn [startNextRounds].
  apply startNextBody_agree; [apply startNextRounds_indexed| |assumption].
  intros s' Hs' Hl. apply IH; [assumption|lia..].
Qed.

(** [startNextTaskIfPossible] is the loop of the source: a round that
    calls the loop itself. *)
Lemma startNextTaskIfPossible_unfold env s :
  indexed s ->
  startNextTaskIfPossible env s = startNextBody (startNextTaskIfPossible env) env s.
Proof.
  intros Hs. unfold startNextTaskIfPossible at 1. cbn [startNextRounds].
  apply startNextBody_agree; [apply startNextRounds_indexed| |assumption].
  intros s' Hs' Hl. unfold startNextTaskIfPossible. apply startNextRounds_enough; [assumption|lia..].
Qed.

(** ** Every task is in one place *)

Lemma occurrences_nil id : occurrences id [] = 0%nat.
Proof. reflexivity. Qed.

Lemma occurrences_cons id x l : occurrences id (x :: l) = (oneFor (Some x) id + occurrences id l)%nat.
Proof.
  unfold occurrences, oneFor. cbn [count_occ].
  destruct (Nat.eq_dec x id), (decide (x = id)); try contradiction; lia.
Qed.

Lemma occurrences_app id l1 l2 : occurrences id (l1 ++ l2) = (occurrences id l1 + occurrences id l2)%nat.
Proof. apply count_occ_app. Qed.

Lemma occurrences_elem id l : id ∈ l <-> (0 < occurrences id l)%nat.
Proof. rewrite list_elem_of_In. apply count_occ_In. Qed.

Lemma occurrences_absent id l : id ∉ l <-> occurrences id l = 0%nat.
Proof. rewrite occurrences_elem. lia. Qed.

Lemma occurrences_NoDup l : (forall id, occurrences id l <= 1)%nat -> NoDup l.
Proof.
  induction l as [|x l IH]; intros H; [constructor|]. constructor.
  - specialize (H x). rewrite occurrences_cons in H. cbn [oneFor] in H. rewrite decide_True in H by reflexivity.
    apply occurrences_absent. lia.
  - apply IH. intros id. specialize (H id). rewrite occurrences_cons in H. lia.
Qed.

Lemma occurrences_omap_cons {A} (f : A -> option TaskId) id x l :
  occurrences id (omap f (x :: l)) = (oneFor (f x) id + occurrences id (omap f l))%nat.
Proof.
  change (omap f (x :: l)) with (match f x with Some y => y :: omap f l | None => omap f l end).
  destruct (f x); [now rewrite occurrences_cons|reflexivity].
Qed.

Lemma occurrences_omap_snoc {A} (f : A -> option TaskId) id x l :
  occurrences id (omap f (l ++ [x])) = (occurrences id (omap f l) + oneFor (f x) id)%nat.
Proof. rewrite omap_app, occurrences_app, occurrences_omap_cons. change (omap f []) with (@nil TaskId). rewrite occurrences_nil. lia. Qed.

Lemma occurrences_omap_alter {A} (f : A -> option TaskId) (g : A -> A) id l :
  forall i,
    match l !! i with
    | Some old =>
        (occurrences id (omap f (alter g i l)) + oneFor (f old) id
         = occurrences id (omap f l) + oneFor (f (g old)) id)%nat
    | None => alter g i l = l
    end.
Proof.
  induction l as [|x l IH]; intros [|i]; cbn [lookup list_lookup]; try reflexivity.
  - change (alter g 0%nat (x :: l)) with (g x :: l). rewrite !occurrences_omap_cons. lia.
  - change (alter g (S i) (x :: l)) with (x :: alter g i l). specialize (IH i).
    change ((x :: l) !! S i) with (l !! i). destruct (l !! i).
    + rewrite !occurrences_omap_cons. lia.
    + now rewrite IH.
Qed.

Lemma occurrences_omap_insert {A} (f : A -> option TaskId) (v : A) id l i :
  match l !! i with
  | Some old =>
      (occurrences id (omap f (<[i := v]> l)) + oneFor (f old) id = occurrences id (omap f l) + oneFor (f v) id)%nat
  | None => <[i := v]> l = l
  end.
Proof. rewrite list_insert_alter. apply (occurrences_omap_alter f (fun _ => v)). Qed.

Lemma occurrences_DLL_delete id x l :
  (occurrences id (DLL.delete x l) + (if bool_decide (x ∈ l) then oneFor (Some x) id else 0)
   = occurrences id l)%nat.
Proof.
  induction l as [|y l IH]; cbn [DLL.delete].
  - rewrite bool_decide_eq_false_2 by apply not_elem_of_nil. reflexivity.
  - destruct (decide (y = x)) as [->|Hne].
    + rewrite bool_decide_eq_true_2 by left. rewrite occurrences_cons. lia.
    + rewrite !occurrences_cons. destruct (bool_decide (x ∈ l)) eqn:Hin.
      * rewrite bool_decide_eq_true_2; [lia|]. right. now apply bool_decide_eq_true in Hin.
      * rewrite bool_decide_eq_false_2; [lia|]. apply bool_decide_eq_false in Hin.
        intros H. apply elem_of_cons in H as [->|H]; [congruence|contradiction].
Qed.

Lemma occurrences_DLL_delete_le id x l : (occurrences id (DLL.delete x l) <= occurrences id l)%nat.
Proof. pose proof (occurrences_DLL_delete id x l). lia. Qed.

Lemma occurrences_putAfter id x c l : occurrences id (DLL.putAfter x c l) = (oneFor (Some x) id + occurrences id l)%nat.
Proof.
  destruct (putAfter_split x c l) as (l1 & l2 & -> & -> & _).
  rewrite !occurrences_app, occurrences_cons. lia.
Qed.

Lemma occurrences_putBefore id x c l : occurrences id (DLL.putBefore x c l) = (oneFor (Some x) id + occurrences id l)%nat.
Proof.
  destruct (putBefore_split x c l) as (l1 & l2 & -> & -> & _).
  rewrite !occurrences_app, occurrences_cons. lia.
Qed.

Lemma occurrences_pickFirstMatching id c l x q :
  DLL.pickFirstMatching c l = (Some x, q) -> occurrences id l = (oneFor (Some x) id + occurrences id q)%nat.
Proof.
  intros Hp. pose proof (pickFirstMatching_split c l) as H. rewrite Hp in H.
  destruct H as (l1 & l2 & -> & -> & _). rewrite !occurrences_app, occurrences_cons. lia.
Qed.

Lemma occurrences_filter_le id (P : TaskId -> Prop) `{forall x, Decision (P x)} l :
  (occurrences id (filter P l) <= occurrences id l)%nat.
Proof.
  induction l as [|y l IH]; [reflexivity|]. rewrite filter_cons.
  destruct (decide (P y)); rewrite ?occurrences_cons; lia.
Qed.

Lemma placesOf_same s s' :
  queue s' = queue s -> runs s' = runs s -> timers s' = timers s ->
  onFailureCalls s' = onFailureCalls s -> forall id, placesOf s' id = placesOf s id.
Proof. intros H1 H2 H3 H4 id. unfold placesOf. now rewrite H1, H2, H3, H4. Qed.

Lemma fillsNoPlace_refl s : fillsNoPlace s s.
Proof. split; [intros id|]; lia. Qed.

Lemma fillsNoPlace_trans s1 s2 s3 : fillsNoPlace s1 s2 -> fillsNoPlace s2 s3 -> fillsNoPlace s1 s3.
Proof.
  intros [H1 H2] [K1 K2]. split; [|lia]. intros id. specialize (H1 id). specialize (K1 id). lia.
Qed.

Lemma onePlace_spends s s' : onePlace s -> fillsNoPlace s s' -> onePlace s'.
Proof.
  intros Hs [H1 H2] id. destruct (Hs id) as [Ha Hb]. specialize (H1 id). split; [lia|].
  intros Hlen. assert (placesOf s id = 0%nat) by (apply Hb; lia). lia.
Qed.

Lemma fnp_same s0 s s' :
  queue s' = queue s -> runs s' = runs s -> timers s' = timers s ->
  onFailureCalls s' = onFailureCalls s -> length (tasks s') = length (tasks s) ->
  fillsNoPlace s0 s -> fillsNoPlace s0 s'.
Proof.
  intros H1 H2 H3 H4 H5 [K1 K2]. split; [|lia]. intros id.
  rewrite (placesOf_same s s' H1 H2 H3 H4). apply K1.
Qed.

Ltac fnp_same :=
  intros; match goal with H : fillsNoPlace ?s0 ?s |- _ => apply (fnp_same s0 s); [reflexivity..|exact H] end.

Lemma fnp_set_usedCapacity s0 v s : fillsNoPlace s0 s -> fillsNoPlace s0 (set_usedCapacity v s).
Proof. fnp_same. Qed.

Lemma fnp_set_usedConcurrent s0 v s : fillsNoPlace s0 s -> fillsNoPlace s0 (set_usedConcurrent v s).
Proof. fnp_same. Qed.

Lemma fnp_set_tasksByTimeAdded s0 v s : fillsNoPlace s0 s -> fillsNoPlace s0 (set_tasksByTimeAdded v s).
Proof. fnp_same. Qed.

Lemma fnp_set_tasksByTimeLimit s0 v s : fillsNoPlace s0 s -> fillsNoPlace s0 (set_tasksByTimeLimit v s).
Proof. fnp_same. Qed.

Lemma fnp_set_options s0 v s : fillsNoPlace s0 s -> fillsNoPlace s0 (set_options v s).
Proof. fnp_same. Qed.

Lemma fnp_set_originalOptions s0 v s : fillsNoPlace s0 s -> fillsNoPlace s0 (set_originalOptions v s).
Proof. fnp_same. Qed.

Lemma fnp_set_releaseTimers s0 v s : fillsNoPlace s0 s -> fillsNoPlace s0 (set_releaseTimers v s).
Proof. fnp_same. Qed.

Lemma fnp_set_releaseRuleTimersEnabled s0 v s : fillsNoPlace s0 s -> fillsNoPlace s0 (set_releaseRuleTimersEnabled v s).
Proof. fnp_same. Qed.

Lemma fnp_set_retryTimers s0 v s : fillsNoPlace s0 s -> fillsNoPlace s0 (set_retryTimers v s).
Proof. fnp_same. Qed.

Lemma fnp_set_executingTasks s0 v s : fillsNoPlace s0 s -> fillsNoPlace s0 (set_executingTasks v s).
Proof. fnp_same. Qed.

Lemma fnp_set_stopped s0 v s : fillsNoPlace s0 s -> fillsNoPlace s0 (set_stopped v s).
Proof. fnp_same. Qed.

Lemma fnp_set_stopPromises s0 v s : fillsNoPlace s0 s -> fillsNoPlace s0 (set_stopPromises v s).
Proof. fnp_same. Qed.

Lemma fnp_set_log s0 v s : fillsNoPlace s0 s -> fillsNoPlace s0 (set_log v s).
Proof. fnp_same. Qed.

Lemma fnp_emit s0 e s : fillsNoPlace s0 s -> fillsNoPlace s0 (emit e s).
Proof. fnp_same. Qed.

Lemma fnp_updTask s0 id f s : fillsNoPlace s0 s -> fillsNoPlace s0 (updTask id f s).
Proof. intros H. apply (fnp_same s0 s); [reflexivity..| |exact H]. apply length_alter. Qed.

Lemma fnp_rejectTask s0 id e s : fillsNoPlace s0 s -> fillsNoPlace s0 (rejectTask id e s).
Proof. apply fnp_updTask. Qed.

Lemma fnp_resolveTaskPromise s0 id s : fillsNoPlace s0 s -> fillsNoPlace s0 (resolveTaskPromise id s).
Proof. apply fnp_updTask. Qed.

Lemma placesOf_clearTimer h s id :
  (placesOf (clearTimer h s) id + oneFor (from_option retryToken None (timers s !! h)) id
   = placesOf s id)%nat.
Proof.
  unfold placesOf, clearTimer. cbn [queue runs timers onFailureCalls set_timers].
  pose proof (occurrences_omap_insert retryToken None id (timers s) h) as H.
  destruct (timers s !! h) as [old|]; cbn [from_option].
  - cbn [retryToken oneFor] in H. lia.
  - rewrite H. cbn [oneFor]. lia.
Qed.

Lemma fnp_clearTimer s0 h s : fillsNoPlace s0 s -> fillsNoPlace s0 (clearTimer h s).
Proof.
  intros H. eapply fillsNoPlace_trans; [exact H|]. split; [|reflexivity].
  intros id. pose proof (placesOf_clearTimer h s id). lia.
Qed.

Lemma placesOf_setTimer cb due s id :
  placesOf (snd (setTimer cb due s)) id
  = (placesOf s id + oneFor (retryToken (Some (mkTimer cb due))) id)%nat.
Proof.
  unfold placesOf, setTimer. cbn [snd queue runs timers onFailureCalls set_timers].
  rewrite occurrences_omap_snoc. lia.
Qed.

Lemma fnp_setTimer s0 cb due s :
  retryToken (Some (mkTimer cb due)) = None ->
  fillsNoPlace s0 s -> fillsNoPlace s0 (snd (setTimer cb due s)).
Proof.
  intros Hcb H. eapply fillsNoPlace_trans; [exact H|]. split; [|reflexivity].
  intros id. rewrite placesOf_setTimer, Hcb. cbn [oneFor]. lia.
Qed.

Lemma placesOf_finishRun r s id :
  (placesOf (finishRun r s) id + oneFor (from_option runToken None (runs s !! r)) id = placesOf s id)%nat.
Proof.
  unfold placesOf, finishRun. cbn [queue runs timers onFailureCalls set_runs].
  pose proof (occurrences_omap_alter runToken (fun r => mkExecution (ex_task r) true) id (runs s) r) as H.
  destruct (runs s !! r) as [old|]; cbn [from_option].
  - change (runToken (mkExecution (ex_task old) true)) with (@None TaskId) in H.
    cbn [oneFor] in H. lia.
  - rewrite H. cbn [oneFor]. lia.
Qed.

Lemma fnp_finishRun s0 r s : fillsNoPlace s0 s -> fillsNoPlace s0 (finishRun r s).
Proof.
  intros H. eapply fillsNoPlace_trans; [exact H|]. split; [|reflexivity].
  intros id. pose proof (placesOf_finishRun r s id). lia.
Qed.

Lemma placesOf_set_queue q s id :
  (placesOf (set_queue q s) id + occurrences id (queue s) = placesOf s id + occurrences id q)%nat.
Proof. unfold placesOf. cbn [queue runs timers onFailureCalls set_queue]. lia. Qed.

Lemma fnp_set_queue s0 q s :
  (forall id, occurrences id q <= occurrences id (queue s))%nat -> fillsNoPlace s0 s -> fillsNoPlace s0 (set_queue q s).
Proof.
  intros Hq H. eapply fillsNoPlace_trans; [exact H|]. split; [|reflexivity].
  intros id. pose proof (placesOf_set_queue q s id). specialize (Hq id). lia.
Qed.

Lemma fnp_set_queue_delete s0 x s :
  fillsNoPlace s0 s -> fillsNoPlace s0 (set_queue (DLL.delete x (queue s)) s).
Proof. apply fnp_set_queue. intros id. apply occurrences_DLL_delete_le. Qed.

Lemma fnp_set_queue_clear s0 s : fillsNoPlace s0 s -> fillsNoPlace s0 (set_queue (DLL.clear (queue s)) s).
Proof. apply fnp_set_queue. intros id. unfold DLL.clear. rewrite occurrences_nil. lia. Qed.

Lemma fnp_updStatus s0 rule f s : fillsNoPlace s0 s -> fillsNoPlace s0 (updStatus rule f s).
Proof. fnp_same. Qed.

Create HintDb places.
#[local] Hint Resolve fillsNoPlace_refl fnp_set_usedCapacity fnp_set_usedConcurrent fnp_set_tasksByTimeAdded fnp_set_tasksByTimeLimit fnp_set_options fnp_set_originalOptions fnp_set_releaseTimers fnp_set_releaseRuleTimersEnabled fnp_set_retryTimers fnp_set_executingTasks fnp_set_stopped fnp_set_stopPromises fnp_set_log
  fnp_emit fnp_updTask fnp_rejectTask fnp_resolveTaskPromise fnp_clearTimer fnp_finishRun
  fnp_set_queue_delete fnp_set_queue_clear fnp_updStatus : places.

Lemma fnp_clearOpt s0 o s : fillsNoPlace s0 s -> fillsNoPlace s0 (clearOpt o s).
Proof. destruct o; cbn [clearOpt]; auto with places. Qed.

Lemma fnp_releaseTaskResources s0 id s :
  fillsNoPlace s0 s -> fillsNoPlace s0 (releaseTaskResources id s).
Proof.
  intros H. unfold releaseTaskResources. destruct (tasks s !! id) as [task|]; [|assumption].
  destruct (executionTimerId task); destruct (truthy (reservedConcurrent task));
    (destruct (truthy (reservedCapacity task) && _); auto 10 with places).
Qed.

Lemma fnp_reserveResources s0 id s :
  fillsNoPlace s0 s -> fillsNoPlace s0 (reserveResources id s).
Proof.
  intros H. unfold reserveResources. destruct (tasks s !! id) as [task|]; [|assumption].
  destruct (truthy (timeLimit task)); destruct (queueWaitingTimerId task);
    destruct (maxCapacity (options s)); try destruct (optCapacityStrategy (options s));
    auto 15 with places.
Qed.

Lemma fnp_removeTaskFromQueues s0 id s :
  fillsNoPlace s0 s -> fillsNoPlace s0 (removeTaskFromQueues id s).
Proof. intros H. unfold removeTaskFromQueues. auto with places. Qed.

Lemma fnp_stoppedResolve s0 st s : fillsNoPlace s0 s -> fillsNoPlace s0 (stoppedResolve st s).
Proof. intros H. unfold stoppedResolve. destruct (stoppedPromise st); auto with places. Qed.

#[local] Hint Resolve fnp_clearOpt fnp_releaseTaskResources fnp_reserveResources
  fnp_removeTaskFromQueues fnp_stoppedResolve : places.

Lemma fnp_foldl {A} (f : State -> A -> State) s0 l :
  (forall s a, fillsNoPlace s0 s -> fillsNoPlace s0 (f s a)) ->
  forall s, fillsNoPlace s0 s -> fillsNoPlace s0 (foldl f s l).
Proof. intros Hf. induction l as [|a l IH]; cbn [foldl]; auto. Qed.

Lemma fnp_rejectEach s0 ids e s : fillsNoPlace s0 s -> fillsNoPlace s0 (rejectEach ids e s).
Proof. unfold rejectEach. apply fnp_foldl. auto with places. Qed.

Lemma fnp_rejectAll s0 e s : fillsNoPlace s0 s -> fillsNoPlace s0 (rejectAll e s).
Proof.
  intros H. unfold rejectAll. apply fnp_set_retryTimers. apply fnp_foldl; [|assumption].
  auto with places.
Qed.

Lemma fnp_applyRule s0 rule times s : fillsNoPlace s0 s -> fillsNoPlace s0 (applyRule rule times s).
Proof. intros H. unfold applyRule. destruct (type rule); auto with places. Qed.

#[local] Hint Resolve fnp_rejectEach fnp_rejectAll fnp_applyRule : places.

Lemma fnp_admissionChecks s0 id task s :
  fillsNoPlace s0 s -> fillsNoPlace s0 (stateOf (admissionChecks id task s)).
Proof.
  intros H. unfold admissionChecks.
  destruct (match maxCapacity (options s) with Some m => m <? capacity task | None => false end);
    destruct (optTaskExceedsMaxCapacityStrategy (options s));
    repeat match goal with |- context [if ?b then _ else _] => destruct b end;
    cbn [stateOf]; auto with places.
Qed.

Lemma fnp_queueOverflow s0 id task s :
  fillsNoPlace s0 s ->
  match queueOverflow id task s with inl s' | inr s' => fillsNoPlace s0 s' end.
Proof.
  intros H. unfold queueOverflow.
  destruct (truthy (maxQueueSize (options s)) && _); [|assumption].
  destruct (optQueueSizeExceededStrategy (options s)).
  - auto with places.
  - destruct (DLL.shift (tasksByTimeAdded s)) as [[oldest|] rest]; auto with places.
  - destruct (DLL.peekLast (queue s)) as [least|]; [|auto with places].
    destruct (priority task <? priorityOf s least); auto with places.
  - assumption.
Qed.

Lemma fnp_insertByTimeLimit s0 id task s :
  fillsNoPlace s0 s -> fillsNoPlace s0 (insertByTimeLimit id task s).
Proof.
  intros H. unfold insertByTimeLimit. destruct (truthy (queuedTimeLimit task s)); auto with places.
Qed.

Lemma fnp_armQueueWaitingTimer s0 env id task s :
  fillsNoPlace s0 s -> fillsNoPlace s0 (armQueueWaitingTimer env id task s).
Proof.
  intros H. unfold armQueueWaitingTimer.
  destruct (truthy _ && _); [|assumption].
  match goal with |- context [setTimer ?cb ?due ?s1] =>
    pose proof (fnp_setTimer s0 cb due s1 eq_refl H) as Hs;
    destruct (setTimer cb due s1) as [h s2] end.
  cbn [snd] in Hs. auto with places.
Qed.

#[local] Hint Resolve fnp_admissionChecks fnp_insertByTimeLimit fnp_armQueueWaitingTimer : places.

Lemma fnp_missedReduces s0 now t entries s :
  fillsNoPlace s0 s -> fillsNoPlace s0 (snd (missedReduces now t entries s)).
Proof.
  revert s. induction entries as [|[rule status] rest IH]; intros s H; [assumption|].
  cbn [missedReduces]. destruct (type rule).
  - specialize (IH s H); destruct (missedReduces now t rest s) as [rest' r]. exact IH.
  - destruct (interval rule <=? now - lastApplied status).
    + match goal with |- context [missedReduces now t rest ?a] =>
        assert (Ha : fillsNoPlace s0 a) by (destruct (canReduceCapacity s); auto with places);
        specialize (IH a Ha); destruct (missedReduces now t rest a) as [rest' r] end.
      exact IH.
    + specialize (IH s H); destruct (missedReduces now t rest s) as [rest' r]. exact IH.
Qed.

Lemma fnp_applyMissedRules s0 now s : fillsNoPlace s0 s -> fillsNoPlace s0 (applyMissedRules now s).
Proof.
  intros H. unfold applyMissedRules.
  destruct (missedResets now (releaseTimers s) (None, None)) as [entries [t r]].
  match goal with |- context [missedReduces now t entries ?a] =>
    assert (Ha : fillsNoPlace s0 a) by (destruct r; auto with places);
    pose proof (fnp_missedReduces s0 now t entries a Ha) as H3;
    destruct (missedReduces now t entries a) as [entries' s2] end.
  cbn [snd] in H3. auto with places.
Qed.

Lemma fnp_clearReleaseRuleTimer s0 rule status s :
  fillsNoPlace s0 s -> fillsNoPlace s0 (clearReleaseRuleTimer rule status s).
Proof. intros H. unfold clearReleaseRuleTimer. auto with places. Qed.

Lemma fnp_setRuleTimerWithDelay s0 env rule delay s :
  fillsNoPlace s0 s -> fillsNoPlace s0 (setRuleTimerWithDelay env rule delay s).
Proof.
  intros H. unfold setRuleTimerWithDelay. destruct (decide (delay = interval rule)).
  - pose proof (fnp_setTimer s0 (RuleInterval rule) (now env + interval rule) s eq_refl H) as Hs.
    destruct (setTimer _ _ s) as [h s2]. cbn [snd] in Hs. auto with places.
  - pose proof (fnp_setTimer s0 (RuleTimeout rule) (now env + delay) s eq_refl H) as Hs.
    destruct (setTimer _ _ s) as [h s2]. cbn [snd] in Hs. auto with places.
Qed.

#[local] Hint Resolve fnp_applyMissedRules fnp_clearReleaseRuleTimer fnp_setRuleTimerWithDelay
  : places.

Lemma fnp_disableTimers s0 s : fillsNoPlace s0 s -> fillsNoPlace s0 (disableTimers s).
Proof.
  intros H. unfold disableTimers. destruct (releaseRuleTimersEnabled s); [|assumption].
  apply fnp_foldl; auto with places.
Qed.

Lemma fnp_enableTimers s0 env s : fillsNoPlace s0 s -> fillsNoPlace s0 (enableTimers env s).
Proof.
  intros H. unfold enableTimers. destruct (releaseRuleTimersEnabled s); [assumption|].
  unfold armRuleTimers. apply fnp_foldl; auto with places.
Qed.

Lemma fnp_addRules s0 env rules : forall s, fillsNoPlace s0 s -> fillsNoPlace s0 (addRules env rules s).
Proof.
  induction rules as [|rule rest IH]; intros s H; cbn [addRules]; [assumption|].
  destruct (hasRule rule (releaseTimers s)); [auto|]. apply IH.
  destruct (releaseRuleTimersEnabled _); auto with places.
Qed.

Lemma fnp_dropRules s0 rules entries :
  forall s, fillsNoPlace s0 s -> fillsNoPlace s0 (dropRules rules entries s).
Proof.
  induction entries as [|[rule status] rest IH]; intros s H; cbn [dropRules]; [assumption|].
  destruct (bool_decide (rule ∈ rules)); [auto|]. apply IH. auto with places.
Qed.

Lemma fnp_setRules s0 env rules s : fillsNoPlace s0 s -> fillsNoPlace s0 (setRules env rules s).
Proof. intros H. unfold setRules. apply fnp_dropRules. now apply fnp_addRules. Qed.

#[local] Hint Resolve fnp_disableTimers fnp_enableTimers fnp_setRules : places.


Lemma oneFor_same id : oneFor (Some id) id = 1%nat.
Proof. cbn [oneFor]. now rewrite decide_True. Qed.

Lemma oneFor_le o id : (oneFor o id <= 1)%nat.
Proof. destruct o as [x|]; cbn [oneFor]; [destruct (decide (x = id))|]; lia. Qed.

Lemma oneFor_other id x : x <> id -> oneFor (Some id) x = 0%nat.
Proof. intros H. cbn [oneFor]. rewrite decide_False; [reflexivity|congruence]. Qed.

Lemma onePlace_bump id s s' :
  unplaced id s -> (forall x, placesOf s' x <= placesOf s x + oneFor (Some id) x)%nat ->
  (length (tasks s) <= length (tasks s'))%nat -> onePlace s'.
Proof.
  intros (Hs & H0 & Hid) Hle Hlen x. destruct (Hs x) as [Ha Hb]. specialize (Hle x).
  destruct (decide (x = id)) as [->|Hne].
  - rewrite oneFor_same in Hle. split; lia.
  - rewrite oneFor_other in Hle by assumption. split; [lia|]. intros Hx.
    assert (placesOf s x = 0%nat) by (apply Hb; lia). lia.
Qed.

Lemma unplaced_consume id s s' :
  onePlace s -> (forall x, placesOf s' x + oneFor (Some id) x <= placesOf s x)%nat ->
  (length (tasks s) <= length (tasks s'))%nat -> unplaced id s'.
Proof.
  intros Hs Hle Hlen.
  assert (Hid : (placesOf s' id = 0 /\ 1 <= placesOf s id)%nat).
  { specialize (Hle id). rewrite oneFor_same in Hle. destruct (Hs id). lia. }
  split; [|split; [apply Hid|]].
  - intros x. destruct (Hs x) as [Ha Hb]. specialize (Hle x). split; [lia|].
    intros Hx. assert (placesOf s x = 0%nat) by (apply Hb; lia). lia.
  - destruct (Hs id) as [_ Hb]. destruct (decide (id < length (tasks s))%nat); [lia|].
    assert (placesOf s id = 0%nat) by (apply Hb; lia). lia.
Qed.

Lemma unplaced_spends id s s' : unplaced id s -> fillsNoPlace s s' -> unplaced id s'.
Proof.
  intros (Hs & H0 & Hid) Hsp. split; [now apply (onePlace_spends s)|].
  destruct Hsp as [H1 H2]. specialize (H1 id). split; lia.
Qed.

Lemma unplaced_onePlace id s : unplaced id s -> onePlace s.
Proof. now intros [H _]. Qed.

Lemma onePlace_absent s id : onePlace s -> (0 < placesOf s id - occurrences id (queue s))%nat -> id ∉ queue s.
Proof.
  intros Hs H. apply occurrences_absent. destruct (Hs id) as [Ha _]. lia.
Qed.

Lemma placesOf_setRetryTimer env id timeout s x :
  placesOf (setRetryTimer env id timeout s) x = (placesOf s x + oneFor (Some id) x)%nat /\
  length (tasks (setRetryTimer env id timeout s)) = length (tasks s).
Proof.
  unfold setRetryTimer.
  match goal with |- context [setTimer ?cb ?due ?s1] =>
    pose proof (placesOf_setTimer cb due s1 x) as Hs;
    assert (Hl : length (tasks (snd (setTimer cb due s1))) = length (tasks s))
      by (cbn; apply length_alter);
    destruct (setTimer cb due s1) as [h s2] end.
  cbn [snd] in Hs, Hl. split; [|exact Hl].
  rewrite (placesOf_same s2 (set_retryTimers _ s2)) by reflexivity. rewrite Hs.
  rewrite (placesOf_same s (updTask id _ s)) by reflexivity. reflexivity.
Qed.

Lemma placesOf_useStrategy env id strategy e attempt s x :
  (placesOf (useStrategy env id strategy e attempt s) x <= placesOf s x + oneFor (Some id) x)%nat /\
  length (tasks (useStrategy env id strategy e attempt s)) = length (tasks s).
Proof.
  unfold useStrategy. destruct strategy as [o|n].
  - destruct (_ <? attempt).
    + split; [|cbn; apply length_alter].
      rewrite (placesOf_same s (rejectTask id e (emit _ s))) by reflexivity. lia.
    + destruct (placesOf_setRetryTimer env id (calculateRetryTimeout (mathRandom env id) attempt o)
                  (emit (StrategyUsed id attempt) s) x) as [H1 H2].
      rewrite H1, H2. split; [|reflexivity].
      rewrite (placesOf_same s (emit _ s)) by reflexivity. lia.
  - split; [|reflexivity]. unfold placesOf. cbn [queue runs timers onFailureCalls set_onFailureCalls].
    change (onFailureCalls (emit (StrategyUsed id attempt) s)) with (onFailureCalls s).
    change (queue (emit (StrategyUsed id attempt) s)) with (queue s).
    change (runs (emit (StrategyUsed id attempt) s)) with (runs s).
    change (timers (emit (StrategyUsed id attempt) s)) with (timers s).
    rewrite occurrences_omap_snoc. cbn [hookToken option_map of_task]. lia.
Qed.

Lemma placesOf_reserveResources id s x :
  (placesOf (reserveResources id s) x
   + (if bool_decide (id ∈ queue s) then oneFor (Some id) x else 0) <= placesOf s x
   \/ tasks s !! id = None)%nat.
Proof.
  unfold reserveResources. destruct (tasks s !! id) as [task|]; [left|now right].
  match goal with |- context [set_queue (DLL.delete id (queue ?a)) ?a] => set (s4 := a) end.
  assert (H4 : fillsNoPlace s s4 /\ queue s4 = queue s).
  { unfold s4. destruct (queueWaitingTimerId task);
      destruct (maxCapacity (options s)); try destruct (optCapacityStrategy (options s));
      (split; [auto 15 with places|reflexivity]). }
  destruct H4 as [[H4 _] Hq].
  match goal with |- (placesOf ?a x + _ <= _)%nat =>
    rewrite (placesOf_same (set_queue (DLL.delete id (queue s4)) s4) a)
      by (destruct (truthy (timeLimit task)); reflexivity) end.
  pose proof (placesOf_set_queue (DLL.delete id (queue s4)) s4 x) as H5.
  pose proof (occurrences_DLL_delete x id (queue s4)) as H6. rewrite Hq in *.
  specialize (H4 x). destruct (bool_decide (id ∈ queue s)); lia.
Qed.

Lemma length_tasks_spends s s' : fillsNoPlace s s' -> (length (tasks s) <= length (tasks s'))%nat.
Proof. now intros [_ H]. Qed.

(** What the loop does to the places of the tasks. *)
Section LivesOfLoop.
Variable next : State -> State.
Hypothesis next_indexed :
  forall s, indexed s -> indexed (next s) /\ (length (queue (next s)) <= length (queue s))%nat.
Hypothesis next_onePlace : forall s, indexed s -> onePlace s -> onePlace (next s).

Lemma tryRejectTask_onePlace env id e s :
  indexed s -> id ∉ tasksByTimeLimit s -> unplaced id s ->
  onePlace (tryRejectTask_ next env id e s).
Proof.
  intros Hs Hid Hroom. unfold tryRejectTask_.
  set (s1 := releaseTaskResources id s).
  assert (H1 : keepsIndex s s1) by (apply ki_releaseTaskResources; auto with kept).
  assert (K1 : fillsNoPlace s s1) by (apply fnp_releaseTaskResources; auto with places).
  assert (Hroom1 : unplaced id s1) by now apply (unplaced_spends id s).
  match goal with |- onePlace (next ?x) =>
    assert (Hx : keepsIndex s x /\ onePlace x) end.
  { destruct (tasks s1 !! id) as [task|]; [|split; [assumption|now apply (unplaced_onePlace id)]].
    destruct (nullish _ _) as [[| |o]|].
    - split; [auto with kept|]. apply (onePlace_spends s1); [now apply (unplaced_onePlace id)|].
      auto with places.
    - split; [apply ki_useStrategy; auto with kept|].
      match goal with |- onePlace (useStrategy env id ?st e ?a ?y) =>
        apply (onePlace_bump id y);
          [apply (unplaced_spends id s1); auto with places
          |intros x; apply (placesOf_useStrategy env id st e a y x)
          |rewrite (proj2 (placesOf_useStrategy env id st e a y id)); lia] end.
    - split; [apply ki_useStrategy; auto with kept|].
      match goal with |- onePlace (useStrategy env id ?st e ?a ?y) =>
        apply (onePlace_bump id y);
          [apply (unplaced_spends id s1); auto with places
          |intros x; apply (placesOf_useStrategy env id st e a y x)
          |rewrite (proj2 (placesOf_useStrategy env id st e a y id)); lia] end.
    - split; [auto with kept|]. apply (onePlace_spends s1); [now apply (unplaced_onePlace id)|].
      auto with places. }
  destruct Hx as [Hk Hl]. apply next_onePlace; [|assumption]. now apply (indexed_keepsIndex s).
Qed.

Lemma executeTask_onePlace env id s :
  indexed s -> id ∉ tasksByTimeLimit s -> unplaced id s ->
  onePlace (executeTask_ next env id s).
Proof.
  intros Hs Hid Hroom. unfold executeTask_.
  destruct (tasks s !! id) as [task|]; [|now apply (unplaced_onePlace id)].
  set (s0 := set_executingTasks (setAdd id (executingTasks (set_runs _ s))) (set_runs _ s)).
  match goal with |- context [emit (CallbackInvoked id) ?x] => set (s1 := x) end.
  assert (Hk0 : keepsIndex s s0) by (unfold s0; auto with kept).
  assert (H1 : keepsIndex s s1 /\ fillsNoPlace s0 s1 /\ runs s1 = runs s ++ [mkExecution id false]).
  { unfold s1. destruct (truthy _).
    - match goal with |- context [setTimer ?cb ?due ?a] =>
        pose proof (ki_setTimer s cb due a) as Hs';
        pose proof (fnp_setTimer s0 cb due a eq_refl) as Hs'';
        assert (Hr : runs (snd (setTimer cb due a)) = runs s ++ [mkExecution id false])
          by reflexivity;
        destruct (setTimer cb due a) as [h s2] end.
      cbn [snd] in Hs', Hs'', Hr. split; [auto with kept|]. split; [auto with places|exact Hr].
    - split; [auto with kept|]. split; [auto with places|reflexivity]. }
  destruct H1 as (Hk1 & Hsp1 & Hruns).
  assert (Htok0 : forall x, placesOf s0 x = (placesOf s x + oneFor (Some id) x)%nat).
  { intros x. unfold placesOf, s0. cbn [queue runs timers onFailureCalls set_runs set_executingTasks].
    rewrite occurrences_omap_snoc. cbn [runToken finished ex_task]. lia. }
  assert (Hlen0 : length (tasks s0) = length (tasks s)) by reflexivity.
  assert (Htok1 : forall x, (placesOf (emit (CallbackInvoked id) s1) x
                             <= placesOf s x + oneFor (Some id) x)%nat).
  { intros x. rewrite (placesOf_same s1 (emit _ s1)) by reflexivity.
    destruct Hsp1 as [Hsp1 _]. specialize (Hsp1 x). rewrite Htok0 in Hsp1. exact Hsp1. }
  assert (Hlen1 : (length (tasks s) <= length (tasks s1))%nat).
  { destruct Hsp1 as [_ Hsp1]. lia. }
  destruct (throwsSync env id) as [e|].
  - match goal with |- onePlace (tryRejectTask_ next env id e ?y) =>
      assert (Hk2 : keepsIndex s y) by auto with kept end.
    apply tryRejectTask_onePlace.
    + now apply (indexed_keepsIndex s).
    + destruct Hk2 as (Hk2 & _). now rewrite Hk2.
    + clear Hk2. set (r := length (runs s)).
      match goal with |- unplaced id (finishRun r ?y) => set (s2 := y) end.
      pose proof (placesOf_finishRun r s2) as Hf.
      assert (Hlook : runs s2 !! r = Some (mkExecution id false)).
      { change (runs s2) with (runs s1). rewrite Hruns. unfold r.
        rewrite lookup_app_r by lia. now rewrite Nat.sub_diag. }
      rewrite Hlook in Hf. cbn [from_option runToken finished ex_task] in Hf.
      destruct Hroom as (Hl & H0 & Hv).
      assert (Heq : forall x, (placesOf (finishRun r s2) x <= placesOf s x)%nat).
      { intros x. specialize (Hf x). specialize (Htok1 x).
        rewrite (placesOf_same s1 (emit _ s1)) in Htok1 by reflexivity.
        rewrite (placesOf_same s1 s2) in Hf by reflexivity.
        assert (Hge : (oneFor (Some id) x <= placesOf s1 x)%nat).
        { unfold placesOf. rewrite Hruns, occurrences_omap_snoc. cbn [runToken finished ex_task]. lia. }
        lia. }
      split; [|split].
      * apply (onePlace_spends s); [assumption|]. split; [exact Heq|].
        change (length (tasks (finishRun r s2))) with (length (tasks s1)). lia.
      * specialize (Heq id). lia.
      * change (length (tasks (finishRun r s2))) with (length (tasks s1)). lia.
  - apply (onePlace_bump id s); [assumption|exact Htok1|].
    change (length (tasks (emit (CallbackInvoked id) s1))) with (length (tasks s1)). lia.
Qed.

Lemma dispatch_room env s id s1 :
  indexed s -> onePlace s -> pickTaskToExecute env s = Some (id, s1) ->
  unplaced id (reserveResources id s1).
Proof.
  intros [Hnd Hin] Hlife Hpick.
  destruct (pickTaskToExecute_fits env s id s1 Hpick) as (Hfit & Htasks & _).
  unfold fits in Hfit. destruct (tasks s !! id) as [task|] eqn:Hid; [|discriminate].
  assert (Hs1 : forall x, (placesOf (reserveResources id s1) x + oneFor (Some id) x <= placesOf s x)%nat).
  { assert (Hhead : s1 = s -> id ∈ tasksByTimeLimit s ->
              forall x, (placesOf (reserveResources id s1) x + oneFor (Some id) x <= placesOf s x)%nat).
    { intros -> Hm x. destruct (placesOf_reserveResources id s x) as [H|H]; [|congruence].
      rewrite bool_decide_eq_true_2 in H by now apply Hin. exact H. }
    assert (Hq : forall q, DLL.pickFirstMatching (fits s) (queue s) = (Some id, q) ->
              s1 = set_queue q s ->
              forall x, (placesOf (reserveResources id s1) x + oneFor (Some id) x <= placesOf s x)%nat).
    { intros q Hp -> x. pose proof (occurrences_pickFirstMatching x _ _ _ _ Hp) as Ho.
      pose proof (placesOf_set_queue q s x) as Hset.
      destruct (placesOf_reserveResources id (set_queue q s) x) as [H|H].
      - destruct (bool_decide _); lia.
      - cbn [tasks set_queue] in H. congruence. }
    unfold pickTaskToExecute in Hpick.
    destruct (DLL.pickFirstMatching (fits s) (queue s)) as [[r|] q] eqn:Hp.
    - destruct (DLL.peekFirst (tasksByTimeLimit s)) as [imp|] eqn:Hpeek.
      + destruct (aged env s imp).
        * destruct (fits s imp); [|discriminate]. injection Hpick as -> <-.
          apply Hhead; [reflexivity|].
          unfold DLL.peekFirst in Hpeek. destruct (tasksByTimeLimit s); [discriminate|].
          injection Hpeek as ->. left.
        * injection Hpick as -> <-. now apply (Hq q).
      + injection Hpick as -> <-. now apply (Hq q).
    - destruct (DLL.peekFirst (tasksByTimeLimit s)) as [imp|] eqn:Hpeek; [|discriminate].
      destruct (aged env s imp); [|discriminate].
      destruct (fits s imp); [|discriminate]. injection Hpick as -> <-.
      apply Hhead; [reflexivity|].
      unfold DLL.peekFirst in Hpeek. destruct (tasksByTimeLimit s); [discriminate|].
      injection Hpeek as ->. left. }
  apply (unplaced_consume id s); [assumption|exact Hs1|].
  pose proof (fnp_reserveResources s1 id s1 (fillsNoPlace_refl s1)) as [_ Hl].
  rewrite Htasks in Hl. exact Hl.
Qed.

Lemma startNextBody_onePlace env s :
  indexed s -> onePlace s -> onePlace (startNextBody next env s).
Proof.
  intros Hs Hlife. unfold startNextBody.
  assert (Hrest : onePlace
    (if truthy (maxConcurrent (options s))
        && (default 0 (maxConcurrent (options s)) <=? usedConcurrent s)
     then s
     else match pickTaskToExecute env s with
          | None => s
          | Some (taskToExecute, s1) =>
              if bool_decide (DLL.length (queue (executeTask_ next env taskToExecute
                                                   (reserveResources taskToExecute s1))) = 0)
              then disableTimers (executeTask_ next env taskToExecute
                                    (reserveResources taskToExecute s1))
              else next (executeTask_ next env taskToExecute
                           (reserveResources taskToExecute s1))
          end)).
  { destruct (truthy _ && _); [assumption|].
    destruct (pickTaskToExecute env s) as [[id s1]|] eqn:Hpick; [|assumption].
    destruct (dispatch_indexed env s id s1 Hs Hpick) as (H1 & H2 & H3).
    pose proof (dispatch_room env s id s1 Hs Hlife Hpick) as Hroom.
    destruct (executeTask_indexed next next_indexed env id _ H1 H2) as [H4 H5].
    pose proof (executeTask_onePlace env id _ H1 H2 Hroom) as H6.
    destruct (bool_decide _).
    - apply (onePlace_spends _ _ H6). auto with places.
    - now apply next_onePlace. }
  destruct (stopped s) as [st|]; [|exact Hrest].
  destruct (bool_decide (DLL.length (queue s) = 0)); [|exact Hrest].
  clear Hrest. apply (onePlace_spends s); [assumption|]. auto with places.
Qed.
End LivesOfLoop.

Lemma startNextRounds_onePlace rounds env :
  forall s, indexed s -> onePlace s -> onePlace (startNextRounds rounds env s).
Proof.
  induction rounds as [|rounds IH]; intros s Hs Hl; cbn [startNextRounds]; [assumption|].
  apply startNextBody_onePlace; [apply startNextRounds_indexed|exact IH|assumption..].
Qed.

(** *** The indices outside the loop *)

Lemma ki_besideRules s0 s s' : besideRules s' = besideRules s -> keepsIndex s0 s -> keepsIndex s0 s'.
Proof.
  intros H. destruct (besideRules_fields s s' H) as (H1 & H2 & H3 & _). now apply ki_same.
Qed.

Lemma ki_accountsButRules s0 s s' :
  accountsButRules s' = accountsButRules s -> keepsIndex s0 s -> keepsIndex s0 s'.
Proof. unfold accountsButRules. intros [= _ _ _ H3 H1 H2]. now apply ki_same. Qed.

Lemma ki_applyRule s0 rule times s : keepsIndex s0 s -> keepsIndex s0 (applyRule rule times s).
Proof. apply ki_besideRules, besideRules_applyRule. Qed.

Lemma ki_applyMissedRules s0 now s : keepsIndex s0 s -> keepsIndex s0 (applyMissedRules now s).
Proof. apply ki_besideRules, besideRules_applyMissedRules. Qed.

Lemma ki_enableTimers s0 env s : keepsIndex s0 s -> keepsIndex s0 (enableTimers env s).
Proof. apply ki_besideRules, besideRules_enableTimers. Qed.

Lemma ki_updStatus s0 rule f s : keepsIndex s0 s -> keepsIndex s0 (updStatus rule f s).
Proof. apply ki_besideRules, besideRules_updStatus. Qed.

Lemma ki_setRules s0 env rules s : keepsIndex s0 s -> keepsIndex s0 (setRules env rules s).
Proof. apply ki_accountsButRules, setRules_accounts. Qed.

Lemma ki_foldl {A} (f : State -> A -> State) s0 l :
  (forall s a, keepsIndex s0 s -> keepsIndex s0 (f s a)) ->
  forall s, keepsIndex s0 s -> keepsIndex s0 (foldl f s l).
Proof. intros Hf. induction l as [|a l IH]; cbn [foldl]; auto. Qed.

Lemma ki_rejectEach s0 ids e s : keepsIndex s0 s -> keepsIndex s0 (rejectEach ids e s).
Proof. unfold rejectEach. apply ki_foldl. auto with kept. Qed.

Lemma ki_rejectAll s0 e s : keepsIndex s0 s -> keepsIndex s0 (rejectAll e s).
Proof.
  intros H. unfold rejectAll. apply ki_set_retryTimers. apply ki_foldl; [|assumption].
  auto with kept.
Qed.

Lemma ki_admissionChecks s0 id task s :
  keepsIndex s0 s -> keepsIndex s0 (stateOf (admissionChecks id task s)).
Proof.
  intros H. unfold admissionChecks.
  destruct (match maxCapacity (options s) with Some m => m <? capacity task | None => false end);
    destruct (optTaskExceedsMaxCapacityStrategy (options s));
    repeat match goal with |- context [if ?b then _ else _] => destruct b end;
    cbn [stateOf]; auto with kept.
Qed.

Lemma ki_armQueueWaitingTimer s0 env id task s :
  keepsIndex s0 s -> keepsIndex s0 (armQueueWaitingTimer env id task s).
Proof.
  intros H. unfold armQueueWaitingTimer.
  destruct (truthy _ && _); [|assumption].
  match goal with |- context [setTimer ?cb ?due ?s1] =>
    pose proof (ki_setTimer s0 cb due s1 H) as Hs;
    destruct (setTimer cb due s1) as [h s2] end.
  cbn [snd] in Hs. auto with kept.
Qed.

#[local] Hint Resolve ki_applyRule ki_applyMissedRules ki_enableTimers ki_updStatus ki_setRules
  ki_rejectEach ki_rejectAll ki_admissionChecks ki_armQueueWaitingTimer : kept.

Lemma indexed_removeTaskFromQueues id s : indexed s -> indexed (removeTaskFromQueues id s).
Proof.
  intros [Hnd Hin]. unfold removeTaskFromQueues, indexed.
  cbn [tasksByTimeLimit queue set_queue set_tasksByTimeAdded set_tasksByTimeLimit].
  destruct (NoDup_DLL_delete id _ Hnd) as [Hnd' Hout]. split; [assumption|].
  intros x Hx. assert (Hne : x <> id) by (intros ->; contradiction).
  apply elem_of_DLL_delete in Hx. destruct (Hin x Hx) as [Hq Ht]. split.
  - now apply elem_of_DLL_delete_ne.
  - exact Ht.
Qed.

Lemma indexed_emptied s : tasksByTimeLimit s = [] -> indexed s.
Proof. intros H. unfold indexed. rewrite H. split; [constructor|]. intros x Hx. inversion Hx. Qed.

Lemma indexed_queueOverflow id task s :
  indexed s -> match queueOverflow id task s with inl s' | inr s' => indexed s' end.
Proof.
  intros Hs. unfold queueOverflow.
  destruct (truthy (maxQueueSize (options s)) && _); [|assumption].
  assert (Hrej : forall x e s1, indexed s1 -> indexed (rejectTask x e s1)).
  { intros x e s1 H1. apply (indexed_keepsIndex s1); auto with kept. }
  destruct (optQueueSizeExceededStrategy (options s)).
  - now apply Hrej.
  - destruct (DLL.shift (tasksByTimeAdded s)) as [[oldest|] rest]; [|assumption].
    apply Hrej. apply indexed_removeTaskFromQueues.
    apply (indexed_keepsIndex s); auto with kept.
  - destruct (DLL.peekLast (queue s)) as [least|]; [|now apply Hrej].
    destruct (priority task <? priorityOf s least); [|now apply Hrej].
    apply Hrej. now apply indexed_removeTaskFromQueues.
  - assumption.
Qed.

Lemma elem_of_putAfter (x y : nat) c l : y ∈ DLL.putAfter x c l <-> y = x \/ y ∈ l.
Proof.
  destruct (putAfter_split x c l) as (l1 & l2 & -> & -> & _).
  rewrite !elem_of_app, elem_of_cons. tauto.
Qed.

Lemma elem_of_putBefore (x y : nat) c l : y ∈ DLL.putBefore x c l <-> y = x \/ y ∈ l.
Proof.
  destruct (putBefore_split x c l) as (l1 & l2 & -> & -> & _).
  rewrite !elem_of_app, elem_of_cons. tauto.
Qed.

Lemma NoDup_putBefore (x : nat) c l : x ∉ l -> NoDup l -> NoDup (DLL.putBefore x c l).
Proof.
  destruct (putBefore_split x c l) as (l1 & l2 & -> & -> & _). intros Hx Hnd.
  apply NoDup_app in Hnd as (H1 & H2 & H3). apply NoDup_app. split; [assumption|]. split.
  - intros y Hy Hy'. apply elem_of_cons in Hy' as [->|Hy'].
    + apply Hx. apply elem_of_app. now left.
    + now apply (H2 y).
  - constructor; [|assumption]. intros Hx'. apply Hx. apply elem_of_app. now right.
Qed.

Lemma indexed_enqueue env id task t s :
  tasks s !! id = Some t -> id ∉ queue s -> indexed s -> indexed (enqueue env id task s).
Proof.
  intros Hid Hout [Hnd Hin]. unfold enqueue.
  assert (Hout' : id ∉ tasksByTimeLimit s) by (intros H; now apply Hin in H).
  set (s1 := insertIntoQueue id task s).
  set (s2 := insertByTimeLimit id task s1).
  assert (H2 : indexed s2).
  { unfold s2, insertByTimeLimit.
    set (limit := queuedTimeLimit task s1).
    set (s1' := updTask id (task_set_timeLimit limit) s1).
    assert (Ht : forall x, x <> id -> timeLimitOf s1' x = timeLimitOf s x).
    { intros x Hne. unfold s1'. now rewrite timeLimitOf_updTask_ne. }
    assert (Hq : forall x, x ∈ queue s1' <-> x = id \/ x ∈ queue s).
    { intros x. unfold s1', s1, insertIntoQueue. cbn [queue set_queue set_tasksByTimeAdded].
      apply elem_of_putAfter. }
    destruct (truthy limit) eqn:Hl.
    - split.
      + cbn [tasksByTimeLimit set_tasksByTimeLimit]. now apply NoDup_putBefore.
      + intros x Hx. cbn [tasksByTimeLimit set_tasksByTimeLimit] in Hx.
        apply elem_of_putBefore in Hx.
        change (x ∈ queue s1' /\ truthy (timeLimitOf s1' x) = true).
        destruct (decide (x = id)) as [->|Hne].
        * split; [apply Hq; now left|]. unfold s1'. rewrite timeLimitOf_updTask_eq.
          change (tasks s1) with (tasks s). now rewrite Hid.
        * destruct Hx as [Hx|Hx]; [contradiction|]. destruct (Hin x Hx) as [Hxq Hxt].
          split; [apply Hq; now right|]. now rewrite Ht.
    - split; [exact Hnd|]. intros x Hx. change (x ∈ tasksByTimeLimit s) in Hx.
      assert (Hne : x <> id) by (intros ->; contradiction).
      destruct (Hin x Hx) as [Hxq Hxt]. split; [apply Hq; now right|]. now rewrite Ht. }
  apply (indexed_keepsIndex s2); [assumption|]. auto with kept.
Qed.

Lemma placesOf_enqueue env id task s x :
  (placesOf (enqueue env id task s) x <= placesOf s x + oneFor (Some id) x)%nat /\
  (length (tasks s) <= length (tasks (enqueue env id task s)))%nat.
Proof.
  unfold enqueue. set (s1 := insertIntoQueue id task s).
  assert (H1 : placesOf s1 x = (placesOf s x + oneFor (Some id) x)%nat).
  { unfold placesOf, s1, insertIntoQueue.
    cbn [queue runs timers onFailureCalls set_queue set_tasksByTimeAdded].
    rewrite occurrences_putAfter. lia. }
  match goal with |- (placesOf ?y x <= _)%nat /\ _ =>
    assert (Hsp : fillsNoPlace s1 y) by auto 10 with places end.
  destruct Hsp as [Hsp Hlen]. specialize (Hsp x). change (tasks s1) with (tasks s) in Hlen.
  split; [lia|exact Hlen].
Qed.

(** *** Every event keeps the tasks in place *)

Lemma placed_keeps s s' : placed s -> keepsIndex s s' -> fillsNoPlace s s' -> placed s'.
Proof.
  intros [Hi Hl] Hk Hsp. split; [now apply (indexed_keepsIndex s)|now apply (onePlace_spends s)].
Qed.

Lemma startNextTaskIfPossible_indexed env s :
  indexed s ->
  indexed (startNextTaskIfPossible env s) /\
  (length (queue (startNextTaskIfPossible env s)) <= length (queue s))%nat.
Proof. apply startNextRounds_indexed. Qed.

Lemma startNextTaskIfPossible_onePlace env s :
  indexed s -> onePlace s -> onePlace (startNextTaskIfPossible env s).
Proof. apply startNextRounds_onePlace. Qed.

Lemma startNextTaskIfPossible_placed env s : placed s -> placed (startNextTaskIfPossible env s).
Proof.
  intros [Hi Hl]. split.
  - now apply startNextTaskIfPossible_indexed.
  - now apply startNextTaskIfPossible_onePlace.
Qed.

Lemma unplaced_absent id s :
  indexed s -> unplaced id s -> (id ∉ queue s) /\ (id ∉ tasksByTimeLimit s).
Proof.
  intros [_ Hin] (_ & H0 & _).
  assert (Hq : id ∉ queue s) by (apply occurrences_absent; unfold placesOf in H0; lia).
  split; [assumption|]. intros H. now apply Hin in H.
Qed.

Lemma tryRejectTask_top_placed env id e s :
  indexed s -> id ∉ tasksByTimeLimit s -> unplaced id s -> placed (tryRejectTask env id e s).
Proof.
  intros Hi Hid Hroom. unfold tryRejectTask. split.
  - destruct (tryRejectTask_before_next (startNextTaskIfPossible env) env id e s Hid)
      as (s' & -> & Hk).
    apply startNextTaskIfPossible_indexed. now apply (indexed_keepsIndex s).
  - apply tryRejectTask_onePlace; try assumption.
    apply startNextTaskIfPossible_onePlace.
Qed.

Lemma resolveTask_top_placed env id s :
  indexed s -> id ∉ tasksByTimeLimit s -> unplaced id s -> placed (resolveTask env id s).
Proof.
  intros Hi Hid Hroom. unfold resolveTask, resolveTask_. apply startNextTaskIfPossible_placed.
  split.
  - apply (indexed_keepsIndex s); [assumption|].
    apply ki_resolveTaskPromise, ki_releaseTaskResources; auto with kept.
  - apply (onePlace_spends s); [now apply (unplaced_onePlace id)|]. auto with places.
Qed.

Lemma scheduleTask_placed env id s :
  indexed s -> unplaced id s -> placed (stateOf (scheduleTask env id s)).
Proof.
  intros Hi Hroom. pose proof (unplaced_onePlace id s Hroom) as Hl. unfold scheduleTask.
  destruct (tasks s !! id) as [task|] eqn:Hid; [|now split].
  destruct (stopped s).
  { cbn [stateOf]. apply (placed_keeps s); [now split|auto with kept|auto with places]. }
  pose proof (ki_admissionChecks s id task s (keepsIndex_refl s)) as Hk1.
  pose proof (fnp_admissionChecks s id task s (fillsNoPlace_refl s)) as Hs1.
  destruct (admissionChecks id task s) as [s1|e s1]; cbn [stateOf] in *;
    [|now apply (placed_keeps s)].
  assert (Hi1 : indexed s1) by now apply (indexed_keepsIndex s).
  pose proof (indexed_queueOverflow id task s1 Hi1) as Hi2.
  pose proof (fnp_queueOverflow s1 id task s1 (fillsNoPlace_refl s1)) as Hs2.
  destruct (queueOverflow id task s1) as [s2|s2]; cbn [stateOf].
  - apply startNextTaskIfPossible_placed.
    assert (Hroom2 : unplaced id s2).
    { apply (unplaced_spends id s); [assumption|]. eapply fillsNoPlace_trans; eassumption. }
    destruct (unplaced_absent id s2 Hi2 Hroom2) as [Hq _].
    assert (Hid2 : exists t, tasks s2 !! id = Some t).
    { destruct Hroom2 as (_ & _ & Hlt). destruct (lookup_lt_is_Some_2 _ _ Hlt) as [t Ht]. eauto. }
    destruct Hid2 as [t Hid2]. split.
    + now apply (indexed_enqueue env id task t).
    + apply (onePlace_bump id s2); [assumption| |].
      * intros x. apply (placesOf_enqueue env id task s2 x).
      * apply (placesOf_enqueue env id task s2 id).
  - split; [assumption|]. apply (onePlace_spends s); [assumption|].
    eapply fillsNoPlace_trans; eassumption.
Qed.

Lemma schedule_placed env p s : placed s -> placed (stateOf (schedule env p s)).
Proof.
  intros [[Hnd Hin] Hl]. unfold schedule. apply scheduleTask_placed.
  - split; [exact Hnd|]. intros x Hx. destruct (Hin x Hx) as [Hq Ht]. split; [exact Hq|].
    unfold timeLimitOf in *. cbn [tasks set_tasks].
    destruct (tasks s !! x) as [t|] eqn:Hlook; [|discriminate].
    now rewrite (lookup_app_l_Some _ _ _ _ Hlook).
  - split; [|split].
    + intros x. destruct (Hl x) as [Ha Hb].
      rewrite (placesOf_same s (set_tasks _ s)) by reflexivity. split; [assumption|].
      cbn [tasks set_tasks]. rewrite length_app. cbn [length]. intros Hx. apply Hb. lia.
    + rewrite (placesOf_same s (set_tasks _ s)) by reflexivity. apply Hl. lia.
    + cbn [tasks set_tasks]. rewrite length_app. cbn [length]. lia.
Qed.

Lemma whenUnfinished_placed r k s :
  (forall id s', indexed s' -> id ∉ tasksByTimeLimit s' -> unplaced id s' -> placed (k id s')) ->
  placed s -> placed (whenUnfinished r k s).
Proof.
  intros Hk [Hi Hl]. unfold whenUnfinished.
  destruct (runs s !! r) as [x|] eqn:Hr; [|now split].
  destruct (finished x) eqn:Hf; [now split|].
  set (s1 := finishRun r _).
  assert (Hk1 : keepsIndex s s1) by (unfold s1; auto with kept).
  assert (Hroom : unplaced (ex_task x) s1).
  { apply (unplaced_consume _ s); [assumption| |reflexivity].
    intros y. pose proof (placesOf_finishRun r (set_executingTasks
                (setDelete (ex_task x) (executingTasks s)) s) y) as H.
    change (runs (set_executingTasks _ s)) with (runs s) in H. rewrite Hr in H.
    cbn [from_option] in H. unfold runToken in H. rewrite Hf in H.
    rewrite (placesOf_same s (set_executingTasks _ s)) in H by reflexivity. fold s1 in H. lia. }
  assert (Hi1 : indexed s1) by now apply (indexed_keepsIndex s).
  apply Hk; [assumption| |assumption]. now apply unplaced_absent.
Qed.

Lemma onFailureSettled_placed env call r s :
  placed s -> placed (onFailureSettled env call r s).
Proof.
  intros [Hi Hl]. unfold onFailureSettled.
  destruct (onFailureCalls s !! call) as [[c|]|] eqn:Hc; [|now split..].
  set (s1 := set_onFailureCalls _ s).
  assert (Hk1 : keepsIndex s s1) by (unfold s1; auto with kept).
  assert (Hi1 : indexed s1) by now apply (indexed_keepsIndex s).
  assert (Hroom : unplaced (of_task c) s1).
  { apply (unplaced_consume _ s); [assumption| |reflexivity].
    intros y. unfold placesOf, s1. cbn [queue runs timers onFailureCalls set_onFailureCalls].
    pose proof (occurrences_omap_insert hookToken None y (onFailureCalls s) call) as H.
    rewrite Hc in H. cbn [hookToken option_map oneFor] in H. cbn [oneFor]. lia. }
  destruct (unplaced_absent _ _ Hi1 Hroom) as [_ Hout].
  assert (Hrej : forall e, placed (rejectTask (of_task c) e s1)).
  { intros e. apply (placed_keeps s1); [|auto with kept|auto with places].
    split; [assumption|now apply (unplaced_onePlace (of_task c))]. }
  destruct r as [timeout|e|e]; [|apply Hrej..]. split.
  - apply (indexed_keepsIndex s1); [assumption|]. apply ki_setRetryTimer; auto with kept.
  - apply (onePlace_bump (of_task c) s1); [assumption| |].
    + intros x. rewrite (proj1 (placesOf_setRetryTimer env (of_task c) timeout s1 x)). lia.
    + rewrite (proj2 (placesOf_setRetryTimer env (of_task c) timeout s1 0%nat)). lia.
Qed.

Lemma applyRuleByInterval_placed env rule s : placed s -> placed (applyRuleByInterval env rule s).
Proof.
  intros H. unfold applyRuleByInterval. apply startNextTaskIfPossible_placed.
  apply (placed_keeps s); [assumption|auto with kept|auto with places].
Qed.

Lemma timerFired_placed env handle s : placed s -> placed (stateOf (timerFired env handle s)).
Proof.
  intros Hp. unfold timerFired.
  destruct (timers s !! handle) as [[t|]|] eqn:Harmed; [|assumption..].
  destruct (callback t) as [id|r|id|rule|rule] eqn:Hcb; cbn [stateOf].
  - destruct Hp as [Hi Hl]. split.
    + apply (indexed_keepsIndex (removeTaskFromQueues id (clearTimer handle s)));
        [|auto with kept].
      apply indexed_removeTaskFromQueues. apply (indexed_keepsIndex s); auto with kept.
    + apply (onePlace_spends s); auto with places.
  - apply whenUnfinished_placed.
    + intros id s'. apply tryRejectTask_top_placed.
    + apply (placed_keeps s); [assumption|auto with kept|auto with places].
  - destruct Hp as [Hi Hl].
    assert (Hroom : unplaced id (clearTimer handle s)).
    { apply (unplaced_consume _ s); [assumption| |reflexivity].
      intros y. pose proof (placesOf_clearTimer handle s y) as H. rewrite Harmed in H.
      cbn [from_option retryToken] in H. rewrite Hcb in H. lia. }
    apply scheduleTask_placed.
    + apply (indexed_keepsIndex s); auto with kept.
    + apply (unplaced_spends id (clearTimer handle s)); auto with places.
  - unfold setTimer at 1. cbv beta iota. cbn [stateOf].
    apply applyRuleByInterval_placed. apply (placed_keeps s); [assumption| |].
    + apply ki_updStatus. apply ki_set_timers. auto with kept.
    + apply fnp_updStatus.
      apply (fnp_setTimer s (RuleInterval rule) (now env + interval rule) (clearTimer handle s)
               eq_refl). auto with places.
  - now apply applyRuleByInterval_placed.
Qed.

Lemma stop_placed env params s : placed s -> placed (snd (stop env params s)).
Proof.
  intros [Hi Hl]. unfold stop.
  match goal with |- context [set_stopped (Some (mkStopped None)) ?x] => set (s1 := x) end.
  assert (H1 : placed s1).
  { unfold s1.
    destruct (match params with
              | Some p => if stopAll p then Some (mkStopParams false true true true) else Some p
              | None => None end) as [p|]; [|now split].
    destruct (stopWaitingTasks p || rejectExecutingTasks p || stopWaitingTasks p);
      [|now split].
    match goal with |- placed (if stopTaskRetries p then rejectAll ?e ?a else ?a) =>
      assert (Ha : placed a) end.
    { match goal with |- placed (if rejectExecutingTasks p then _ else ?b) =>
        assert (Hb : placed b) end.
      { destruct (stopWaitingTasks p); [|now split]. split.
        - now apply indexed_emptied.
        - apply (onePlace_spends s); [assumption|]. auto 10 with places. }
      destruct (rejectExecutingTasks p); [|assumption].
      apply (placed_keeps _ _ Hb); [auto with kept|auto with places]. }
    destruct (stopTaskRetries p); [|assumption].
    apply (placed_keeps _ _ Ha); [auto with kept|auto with places]. }
  destruct (bool_decide _); cbn [snd].
  - apply startNextTaskIfPossible_placed.
    apply (placed_keeps _ _ H1); [auto with kept|auto with places].
  - apply (placed_keeps _ _ H1); [auto with kept|auto with places].
Qed.

Lemma setUsedCapacity_placed env v s : placed s -> placed (stateOf (setUsedCapacity env v s)).
Proof.
  intros H. unfold setUsedCapacity. destruct (checkUsedCapacity _ _); cbn [stateOf];
    [assumption|].
  apply startNextTaskIfPossible_placed.
  apply (placed_keeps s); [assumption|auto with kept|auto with places].
Qed.

Lemma adjustUsedCapacity_placed env diff s :
  placed s -> placed (stateOf (adjustUsedCapacity env diff s)).
Proof.
  intros H. unfold adjustUsedCapacity. destruct (maxCapacity (options s)); cbn [stateOf];
    [|assumption].
  apply startNextTaskIfPossible_placed.
  apply (placed_keeps s); [assumption|auto with kept|auto with places].
Qed.

Lemma getUsedCapacity_placed env s : placed s -> placed (snd (getUsedCapacity env s)).
Proof.
  intros H. unfold getUsedCapacity. cbn [snd]. destruct (areTimersEnabled s); [assumption|].
  apply (placed_keeps s); [assumption|auto with kept|auto with places].
Qed.

Lemma setOptions_placed env o s : placed s -> placed (stateOf (setOptions env o s)).
Proof.
  intros H. unfold setOptions. destruct (firstError _); cbn [stateOf]; [assumption|].
  apply (placed_keeps s); [assumption|auto with kept|auto with places].
Qed.

Lemma constructor_placed env o : placed (stateOf (constructor env o)).
Proof.
  assert (H0 : placed (initialState o)).
  { split; [now apply indexed_emptied|]. intros id. split; [cbn; lia|reflexivity]. }
  unfold constructor. destruct (firstError _); cbn [stateOf]; [assumption|].
  apply (placed_keeps _ _ H0); [auto with kept|auto with places].
Qed.

Lemma step_placed env ev s : placed s -> placed (stateOf (step env ev s)).
Proof.
  intros Hp. destruct ev; cbn [step stateOf].
  - now apply schedule_placed.
  - apply whenUnfinished_placed; [|assumption]. intros id s'. apply resolveTask_top_placed.
  - apply whenUnfinished_placed; [|assumption]. intros id s'. apply tryRejectTask_top_placed.
  - now apply timerFired_placed.
  - now apply onFailureSettled_placed.
  - now apply getUsedCapacity_placed.
  - now apply setUsedCapacity_placed.
  - now apply adjustUsedCapacity_placed.
  - now apply setOptions_placed.
  - now apply stop_placed.
Qed.

Lemma run_placed events : forall s, placed s -> placed (run events s).
Proof.
  induction events as [|[env ev] rest IH]; intros s Hp; cbn [run]; [assumption|].
  apply IH. now apply step_placed.
Qed.

(** X14.  In every state a run from the constructor reaches,
    [startNextTaskIfPossible] comes to an end within one round more than
    the queue is long: with that many rounds the loop is the recursion
    of the source, a round that calls the loop. *)
Lemma startNextTaskIfPossible_recursion env0 o events env :
  let s := run events (stateOf (constructor env0 o)) in
  startNextTaskIfPossible env s = startNextBody (startNextTaskIfPossible env) env s.
Proof.
  intros s. apply startNextTaskIfPossible_unfold.
  apply (run_placed events), constructor_placed.
Qed.

(** ** The limits along the admissible runs *)

(** C3, amended.  From a limiter constructed with release rules that are
    [rulesOK], along every run whose reconfigurations install such rules
    and leave the limits at or above what is in use, the used capacity is
    at most [maxCapacity] when it is defined, and the used concurrency is
    at most [maxConcurrent] when it is defined and positive. *)
Theorem limits_hold_along_admissible_runs env0 o s0 events :
  constructor env0 o = Normal s0 -> optionsOK o -> admissible events s0 ->
  withinPositiveLimits (run events s0).
Proof.
  intros Hc Ho Hadm. apply Accounted_withinPositiveLimits.
  apply run_invariant; [exact Hadm| |].
  - now apply (constructor_Accounted env0 o).
  - pose proof (constructor_RuleTimersOK env0 o) as H. now rewrite Hc in H.
Qed.

Lemma limits_hold_along_admissible_runs_witness :
  log (run raised (started (rulesOptions [reduceRule])))
  = [RuleApplied reduceRule 1; RuleApplied reduceRule 1; RuleApplied reduceRule 1;
     CallbackInvoked 0%nat] /\
  withinPositiveLimits (run raised (started (rulesOptions [reduceRule]))).
Proof.
  split; [reflexivity|].
  apply (limits_hold_along_admissible_runs (at_ 0) (rulesOptions [reduceRule])).
  - reflexivity.
  - repeat constructor. vm_compute. discriminate.
  - cbn [admissible raised]. repeat split.
    + constructor.
    + intros m [= <-]. vm_compute. discriminate.
    + intros c [=].
Defined.

(** * Further properties of the code *)

(** ** The doubly linked list *)

Lemma ascending_app {A : Type} (key : A -> Z) (l1 l2 : list A) :
  ascending key (l1 ++ l2) <->
  ascending key l1 /\ ascending key l2 /\
  Forall (fun a => Forall (fun b => key a <= key b) l2) l1.
Proof.
  induction l1 as [|a l1 IH]; cbn [app ascending].
  - split; [intros H; repeat split; [assumption|constructor]|tauto].
  - rewrite IH, Forall_app, Forall_cons. tauto.
Qed.

Lemma putBefore_stops {A : Type} (v : A) (c : A -> bool) (l : list A) :
  exists l1 l2, DLL.putBefore v c l = l1 ++ v :: l2 /\ l = l1 ++ l2 /\
                Forall (fun x => c x = false) l1 /\
                match l2 with [] => True | x :: _ => c x = true end.
Proof.
  induction l as [|x l (l1 & l2 & H1 & H2 & H3 & H4)]; cbn.
  - exists [], []. repeat split. constructor.
  - destruct (c x) eqn:Hx.
    + exists [], (x :: l). repeat split; [constructor|assumption].
    + exists (x :: l1), l2. rewrite H1, H2. repeat split; [|assumption]. now constructor.
Qed.

Lemma putAfter_stops {A : Type} (v : A) (c : A -> bool) (l : list A) :
  exists l1 l2, DLL.putAfter v c l = l1 ++ v :: l2 /\ l = l1 ++ l2 /\
                Forall (fun x => c x = false) l2 /\
                match last l1 with None => True | Some x => c x = true end.
Proof.
  unfold DLL.putAfter.
  destruct (putBefore_stops v c (rev l)) as (k1 & k2 & H1 & H2 & H3 & H4).
  exists (rev k2), (rev k1). rewrite H1. split; [|split; [|split]].
  - rewrite rev_app_distr. cbn. now rewrite <- app_assoc.
  - rewrite <- (rev_involutive l), H2. apply rev_app_distr.
  - apply Forall_forall. intros x Hx. rewrite Forall_forall in H3. apply H3.
    apply list_elem_of_In. apply list_elem_of_In in Hx. now apply in_rev.
  - destruct k2 as [|x k2]; [exact I|]. cbn [rev]. now rewrite last_snoc.
Qed.

Lemma ascending_bounded_by_last {A : Type} (key : A -> Z) (l : list A) x :
  ascending key l -> last l = Some x -> Forall (fun a => key a <= key x) l.
Proof.
  intros Hl Hx. destruct l as [|a l _] using rev_ind; [discriminate|].
  rewrite last_snoc in Hx. injection Hx as ->.
  apply ascending_app in Hl as (_ & _ & H). apply Forall_app. split.
  - apply (Forall_impl _ _ _ H). intros b Hb. now apply Forall_inv in Hb.
  - repeat constructor. lia.
Qed.

(** X1.  [putAfter] as the queue uses it, with the condition
    "priority at most mine", on a list in the order of the priorities:
    the newcomer goes behind every value whose priority is at most its
    own and ahead of those of a greater one, and the order is kept. *)
Theorem putAfter_keeps_the_order {A : Type} (key : A -> Z) (v : A) (l : list A) :
  ascending key l ->
  exists l1 l2,
    DLL.putAfter v (fun other => key other <=? key v) l = l1 ++ v :: l2 /\
    l = l1 ++ l2 /\
    Forall (fun x => key x <= key v) l1 /\
    Forall (fun x => key v < key x) l2 /\
    ascending key (DLL.putAfter v (fun other => key other <=? key v) l).
Proof.
  intros Hl.
  destruct (putAfter_stops v (fun other => key other <=? key v) l)
    as (l1 & l2 & H1 & H2 & H3 & H4).
  exists l1, l2. rewrite H1. subst l.
  apply ascending_app in Hl as (Ha1 & Ha2 & Ha12).
  assert (Hl2 : Forall (fun x => key v < key x) l2).
  { apply (Forall_impl _ _ _ H3). intros x Hx. apply Z.leb_gt in Hx. exact Hx. }
  assert (Hl1 : Forall (fun x => key x <= key v) l1).
  { destruct (last l1) as [x|] eqn:Hlast.
    - apply Z.leb_le in H4. pose proof (ascending_bounded_by_last key l1 x Ha1 Hlast) as Hb.
      apply (Forall_impl _ _ _ Hb). intros a Ha. lia.
    - apply last_None in Hlast. subst l1. constructor. }
  repeat split; try assumption.
  apply ascending_app. split; [assumption|]. split.
  - cbn [ascending]. split; [|assumption].
    apply (Forall_impl _ _ _ Hl2). intros x Hx. lia.
  - rewrite Forall_forall in Hl1, Ha12 |- *. intros a Ha. constructor; [now apply Hl1|].
    now apply Ha12.
Qed.

Lemma putAfter_keeps_the_order_witness :
  let l := [(1, 10%nat); (5, 11%nat); (9, 12%nat)] in
  ascending fst l /\
  exists l1 l2,
    DLL.putAfter (5, 30%nat) (fun other => fst other <=? 5) l = l1 ++ (5, 30%nat) :: l2 /\
    l = l1 ++ l2 /\
    Forall (fun x => fst x <= 5) l1 /\
    Forall (fun x => 5 < fst x) l2 /\
    ascending fst (DLL.putAfter (5, 30%nat) (fun other => fst other <=? 5) l).
Proof.
  assert (H : ascending (A := Z * nat) fst [(1, 10%nat); (5, 11%nat); (9, 12%nat)]).
  { cbn [ascending]. repeat first [split | apply Forall_nil | apply Forall_cons]; cbn; lia. }
  split; [exact H|].
  apply (putAfter_keeps_the_order (A := Z * nat) fst (5, 30%nat) _ H).
Defined.

(** X2.  [putBefore] as [tasksByTimeLimit] uses it, with the condition
    "my limit is less than yours", on a list in the order of the limits:
    the newcomer goes behind every value whose limit is at most its own,
    ahead of the later ones, and the order is kept. *)
Theorem putBefore_keeps_the_order {A : Type} (key : A -> Z) (v : A) (l : list A) :
  ascending key l ->
  exists l1 l2,
    DLL.putBefore v (fun other => key v <? key other) l = l1 ++ v :: l2 /\
    l = l1 ++ l2 /\
    Forall (fun x => key x <= key v) l1 /\
    Forall (fun x => key v < key x) l2 /\
    ascending key (DLL.putBefore v (fun other => key v <? key other) l).
Proof.
  intros Hl.
  destruct (putBefore_stops v (fun other => key v <? key other) l)
    as (l1 & l2 & H1 & H2 & H3 & H4).
  exists l1, l2. rewrite H1. subst l.
  apply ascending_app in Hl as (Ha1 & Ha2 & Ha12).
  assert (Hl1 : Forall (fun x => key x <= key v) l1).
  { apply (Forall_impl _ _ _ H3). intros x Hx. apply Z.ltb_ge in Hx. exact Hx. }
  assert (Hl2 : Forall (fun x => key v < key x) l2).
  { destruct l2 as [|x l2]; [constructor|]. apply Z.ltb_lt in H4.
    cbn [ascending] in Ha2. destruct Ha2 as [Hx _]. constructor; [assumption|].
    apply (Forall_impl _ _ _ Hx). intros b Hb. lia. }
  repeat split; try assumption.
  apply ascending_app. split; [assumption|]. split.
  - cbn [ascending]. split; [|assumption].
    apply (Forall_impl _ _ _ Hl2). intros x Hx. lia.
  - rewrite Forall_forall in Hl1, Ha12 |- *. intros a Ha. constructor; [now apply Hl1|].
    now apply Ha12.
Qed.

Lemma putBefore_keeps_the_order_witness :
  let l := [(1, 10%nat); (5, 11%nat); (9, 12%nat)] in
  ascending fst l /\
  exists l1 l2,
    DLL.putBefore (5, 30%nat) (fun other => 5 <? fst other) l = l1 ++ (5, 30%nat) :: l2 /\
    l = l1 ++ l2 /\
    Forall (fun x => fst x <= 5) l1 /\
    Forall (fun x => 5 < fst x) l2 /\
    ascending fst (DLL.putBefore (5, 30%nat) (fun other => 5 <? fst other) l).
Proof.
  assert (H : ascending (A := Z * nat) fst [(1, 10%nat); (5, 11%nat); (9, 12%nat)]).
  { cbn [ascending]. repeat first [split | apply Forall_nil | apply Forall_cons]; cbn; lia. }
  split; [exact H|].
  apply (putBefore_keeps_the_order (A := Z * nat) fst (5, 30%nat) _ H).
Defined.

(** X3.  [pickFirstMatching] takes the first value that matches out of
    the list, [pickLastMatching] the last one, and both leave the list
    alone and return nothing when no value matches. *)
Theorem pickMatching_takes_one_end {A : Type} (c : A -> bool) (l : list A) :
  match DLL.pickFirstMatching c l with
  | (Some b, q) => exists l1 l2, l = l1 ++ b :: l2 /\ q = l1 ++ l2 /\
                                 Forall (fun x => c x = false) l1 /\ c b = true
  | (None, q) => q = l /\ Forall (fun x => c x = false) l
  end /\
  match DLL.pickLastMatching c l with
  | (Some b, q) => exists l1 l2, l = l1 ++ b :: l2 /\ q = l1 ++ l2 /\
                                 Forall (fun x => c x = false) l2 /\ c b = true
  | (None, q) => q = l /\ Forall (fun x => c x = false) l
  end.
Proof.
  split; [apply pickFirstMatching_split|].
  unfold DLL.pickLastMatching.
  pose proof (pickFirstMatching_split c (rev l)) as H.
  destruct (DLL.pickFirstMatching c (rev l)) as [[b|] q].
  - destruct H as (k1 & k2 & H1 & H2 & H3 & H4).
    exists (rev k2), (rev k1). split; [|split; [|split]].
    + rewrite <- (rev_involutive l), H1, rev_app_distr. cbn. now rewrite <- app_assoc.
    + rewrite H2. apply rev_app_distr.
    + apply Forall_forall. intros x Hx. rewrite Forall_forall in H3. apply H3.
      apply list_elem_of_In. apply list_elem_of_In in Hx. now apply in_rev.
    + exact H4.
  - destruct H as [H1 H2]. split.
    + rewrite H1. apply rev_involutive.
    + apply Forall_forall. intros x Hx. rewrite Forall_forall in H2. apply H2.
      apply list_elem_of_In. apply list_elem_of_In in Hx. now rewrite <- in_rev.
Qed.

(** X4.  A value that is not in the list and is put into it, by [push],
    [putAfter] or [putBefore] under any condition, is taken out again by
    [delete], which gives the list back; and [delete] of a value that is
    not in the list does nothing. *)
Theorem delete_undoes_insertion (v : nat) (c : nat -> bool) (l : list nat) :
  v ∉ l ->
  DLL.delete v (DLL.push v l) = l /\
  DLL.delete v (DLL.putAfter v c l) = l /\
  DLL.delete v (DLL.putBefore v c l) = l /\
  DLL.delete v l = l.
Proof.
  intros Hv.
  assert (Hmid : forall l1 l2, l = l1 ++ l2 -> DLL.delete v (l1 ++ v :: l2) = l).
  { intros l1 l2 ->. rewrite DLL_delete_app. rewrite bool_decide_eq_false_2.
    - cbn [DLL.delete]. now rewrite decide_True.
    - intros H. apply Hv. apply elem_of_app. now left. }
  repeat split.
  - unfold DLL.push. apply Hmid. now rewrite app_nil_r.
  - destruct (putAfter_split v c l) as (l1 & l2 & -> & H & _). now apply Hmid.
  - destruct (putBefore_split v c l) as (l1 & l2 & -> & H & _). now apply Hmid.
  - clear Hmid. induction l as [|x l IH]; [reflexivity|]. cbn [DLL.delete].
    destruct (decide (x = v)) as [->|Hne]; [exfalso; apply Hv; left|].
    f_equal. apply IH. intros H. apply Hv. now right.
Qed.

Lemma delete_undoes_insertion_witness :
  (7%nat ∉ [1%nat; 2%nat]) /\
  DLL.delete 7%nat (DLL.push 7%nat [1%nat; 2%nat]) = [1%nat; 2%nat] /\
  DLL.delete 7%nat (DLL.putAfter 7%nat (fun x => (x <=? 1)%nat) [1%nat; 2%nat])
  = [1%nat; 2%nat] /\
  DLL.delete 7%nat (DLL.putBefore 7%nat (fun x => (x <=? 1)%nat) [1%nat; 2%nat])
  = [1%nat; 2%nat] /\
  DLL.delete 7%nat [1%nat; 2%nat] = [1%nat; 2%nat].
Proof.
  assert (H : 7%nat ∉ [1%nat; 2%nat]).
  { intros H. repeat (apply elem_of_cons in H as [H|H]; [discriminate H|]). inversion H. }
  split; [exact H|].
  apply (delete_undoes_insertion 7%nat (fun x => (x <=? 1)%nat) [1%nat; 2%nat] H).
Defined.

(** X5.  The two ends of the list: [pop] gives back what [push] put and
    leaves the list as it was, [shift] takes the values in the order
    they were pushed, and both return nothing on the empty list only. *)
Theorem push_pop_shift {A : Type} (v w : A) (l : list A) :
  DLL.pop (DLL.push v l) = (Some v, l) /\
  DLL.shift (DLL.push w (v :: l)) = (Some v, DLL.push w l) /\
  (fst (DLL.pop l) = None <-> l = []) /\
  (fst (DLL.shift l) = None <-> l = []) /\
  DLL.length (DLL.push v l) = DLL.length l + 1.
Proof.
  split; [|split; [|split; [|split]]].
  - unfold DLL.pop, DLL.push. rewrite last_snoc. now rewrite removelast_last.
  - reflexivity.
  - unfold DLL.pop. destruct (last l) eqn:Hl; cbn [fst].
    + split; [discriminate|]. intros ->. discriminate.
    + split; [|reflexivity]. intros _. now apply last_None.
  - destruct l; cbn; split; congruence.
  - unfold DLL.length, DLL.push. rewrite length_app. cbn. lia.
Qed.

(** ** The retry timeouts *)



(** ** The options *)

(** X7.  What the constructor accepts: a [maxCapacity] that is not
    negative, an [initiallyUsedCapacity] only with a [maxCapacity] and
    between 0 and it, a [capacityStrategy] and release rules only with a
    [maxCapacity].  It throws [invalid-call] for an
    [initiallyUsedCapacity] without [maxCapacity] (when [maxCapacity] is
    not at fault itself) and [invalid-argument] otherwise; the limiter it
    returns is idle, with the used capacity asked for and the options as
    given. *)
Theorem constructor_validates (env : Env) (o : CapacityLimiterOptions) :
  match constructor env o with
  | Normal s =>
      (forall m, maxCapacity o = Some m -> 0 <= m) /\
      (forall u, initiallyUsedCapacity o = Some u ->
                 exists m, maxCapacity o = Some m /\ 0 <= u <= m) /\
      (maxCapacity o = None ->
       (capacityStrategy o = None \/ capacityStrategy o = Some capacity_undefined) /\
       default [] (releaseRules o) = []) /\
      usedCapacity s = default 0 (initiallyUsedCapacity o) /\
      usedConcurrent s = 0 /\ queue s = [] /\ tasks s = [] /\
      getOptions s = o /\ options s = o
  | Throw e _ =>
      (e = CapacityLimiterError invalid_call /\
       maxCapacity o = None /\ is_Some (initiallyUsedCapacity o)) \/
      (e = CapacityLimiterError invalid_argument /\
       ((exists m, maxCapacity o = Some m /\
                   (m < 0 \/ exists u, initiallyUsedCapacity o = Some u /\ (u < 0 \/ m < u))) \/
        (maxCapacity o = None /\ initiallyUsedCapacity o = None /\
         ((capacityStrategy o = Some reserve \/ capacityStrategy o = Some claim) \/
          exists r rs, releaseRules o = Some (r :: rs)))))
  end.
Proof.
  assert (Hadd : forall rules s1, originalOptions (addRules env rules s1) = originalOptions s1).
  { induction rules as [|r rules IH]; intros s1; [reflexivity|]. cbn [addRules].
    destruct (hasRule r (releaseTimers s1)); [apply IH|]. rewrite IH. cbv zeta.
    destruct (releaseRuleTimersEnabled _); [|reflexivity].
    unfold setRuleTimerWithDelay. destruct (decide _); reflexivity. }
  assert (Hdrop : forall rules entries s1,
            originalOptions (dropRules rules entries s1) = originalOptions s1).
  { intros rules entries. induction entries as [|[r st] entries IH]; intros s1;
      [reflexivity|]. cbn [dropRules].
    destruct (bool_decide (r ∈ rules)); [apply IH|]. rewrite IH.
    unfold clearReleaseRuleTimer. destruct (timerId st), (intervalId st); reflexivity. }
  assert (Hok : forall rules s0,
    let s := setRules env rules s0 in
    usedCapacity s = usedCapacity s0 /\ usedConcurrent s = usedConcurrent s0 /\
    queue s = queue s0 /\ tasks s = tasks s0 /\
    getOptions s = originalOptions s0 /\ options s = options s0).
  { intros rules s0 s.
    pose proof (setRules_accounts env rules s0) as Hacc.
    unfold accountsButRules in Hacc. fold s in Hacc.
    injection Hacc as -> -> -> -> -> _.
    repeat split. unfold getOptions, s, setRules. now rewrite Hdrop, Hadd. }
  unfold constructor. cbn [firstError].
  unfold checkMaxCapacity, checkUsedCapacity, checkCapacityStrategy, checkReleaseRules.
  destruct (maxCapacity o) as [m|] eqn:Hm.
  - destruct (m <? 0) eqn:Hneg.
    { apply Z.ltb_lt in Hneg. right. split; [reflexivity|]. left. exists m. auto. }
    apply Z.ltb_ge in Hneg.
    destruct (initiallyUsedCapacity o) as [u|] eqn:Hu.
    + destruct (u <? 0) eqn:Hu0.
      { apply Z.ltb_lt in Hu0. right. split; [reflexivity|]. left. exists m.
        split; [reflexivity|]. right. exists u. auto. }
      destruct (m <? u) eqn:Hmu.
      { apply Z.ltb_lt in Hmu. right. split; [reflexivity|]. left. exists m.
        split; [reflexivity|]. right. exists u. auto. }
      apply Z.ltb_ge in Hu0, Hmu.
      destruct (capacityStrategy o) as [[| |]|], (releaseRules o) as [[|r rs]|]; cbn [firstError];
        (split; [intros ? [= <-]; lia|];
         split; [intros ? [= <-]; exists m; split; [reflexivity|lia]|];
         split; [discriminate|]; apply Hok).
    + destruct (capacityStrategy o) as [[| |]|], (releaseRules o) as [[|r rs]|]; cbn [firstError];
        (split; [intros ? [= <-]; lia|];
         split; [discriminate|];
         split; [discriminate|]; apply Hok).
  - destruct (initiallyUsedCapacity o) as [u|] eqn:Hu.
    { left. repeat split. eauto. }
    destruct (capacityStrategy o) as [[| |]|] eqn:Hcs;
      [right; split; [reflexivity|]; right; repeat split; left; auto..| |];
      (destruct (releaseRules o) as [[|r rs]|] eqn:Hrr; cbn [firstError];
       [split; [discriminate|]; split; [discriminate|]; split; [auto|]; apply Hok
       |right; split; [reflexivity|]; right; repeat split; right; eauto
       |split; [discriminate|]; split; [discriminate|]; split; [auto|]; apply Hok]).
Qed.

(** ** The resources of a task *)

Lemma alter_fixed {A : Type} (f : A -> A) (i : nat) (l : list A) :
  (forall x, l !! i = Some x -> f x = x) -> alter f i l = l.
Proof.
  revert i. induction l as [|a l IH]; intros [|i] H; try reflexivity.
  - change (alter f 0%nat (a :: l)) with (f a :: l). now rewrite (H a eq_refl).
  - change (alter f (S i) (a :: l)) with (a :: alter f i l). f_equal. apply IH. exact H.
Qed.

(** X8.  [releaseTaskResources] a second time does nothing: the first
    call has given the capacity and the slot back, set the reservations
    to 0 and cleared the execution timer. *)
Theorem releaseTaskResources_twice (id : TaskId) (s : State) :
  releaseTaskResources id (releaseTaskResources id s) = releaseTaskResources id s.
Proof.
  set (s1 := releaseTaskResources id s).
  assert (H1 : match tasks s1 !! id with
               | Some t1 => timeLimit t1 = None /\ truthy (reservedConcurrent t1) = false /\
                            (truthy (reservedCapacity t1)
                             && bool_decide (is_Some (maxCapacity (options s1))) = false) /\
                            executionTimerId t1 = None
               | None => True
               end).
  { unfold s1, releaseTaskResources, updTask, clearTimer.
    destruct (tasks s !! id) as [t|] eqn:Hid; [|now rewrite Hid].
    destruct (executionTimerId t) eqn:He0; destruct (truthy (reservedConcurrent t)) eqn:Hc;
      destruct (truthy (reservedCapacity t)) eqn:Hk;
      destruct (bool_decide (is_Some (maxCapacity (options s)))) eqn:Hm;
      cbn; rewrite ?Hm; cbn; repeat rewrite list_lookup_alter_eq; rewrite Hid; cbn;
      rewrite ?Hc, ?Hk, ?Hm; cbn; repeat split; try reflexivity;
      try assumption; try (rewrite Hm; apply andb_false_r). }
  unfold releaseTaskResources at 1. destruct (tasks s1 !! id) as [t1|] eqn:Hid1; [|reflexivity].
  destruct H1 as (Ht & Hc & Hk & He). rewrite Hc.
  assert (Hupd : updTask id (task_set_timeLimit None) s1 = s1).
  { unfold updTask. rewrite alter_fixed.
    - now destruct s1.
    - intros x Hx. rewrite Hid1 in Hx. injection Hx as <-. destruct t1. cbn in Ht. now subst. }
  rewrite Hupd. rewrite Hk. now rewrite He.
Qed.

(** ** The table of the release rules *)

Lemma updStatus_other rule f s r st :
  r <> rule -> ((r, st) ∈ releaseTimers (updStatus rule f s) <-> (r, st) ∈ releaseTimers s).
Proof.
  intros Hne. unfold updStatus. cbn [releaseTimers set_releaseTimers]. split.
  - intros H. apply list_elem_of_fmap in H as ([r0 st0] & Heq & Hin). cbn [fst snd] in Heq.
    destruct (decide (r0 = rule)) as [->|Hr0]; injection Heq as -> ->; [congruence|assumption].
  - intros H. apply list_elem_of_fmap. exists (r, st). split; [|assumption].
    cbn [fst snd]. now rewrite decide_False.
Qed.

Lemma updStatus_keys rule f s :
  map fst (releaseTimers (updStatus rule f s)) = map fst (releaseTimers s).
Proof.
  unfold updStatus. cbn [releaseTimers set_releaseTimers]. rewrite map_map. apply map_ext.
  intros [r st]. cbn [fst snd]. now destruct (decide (r = rule)).
Qed.

Lemma updStatus_lastApplied rule f s r st :
  (forall x, lastApplied (f x) = lastApplied x) ->
  (r, st) ∈ releaseTimers (updStatus rule f s) ->
  exists st0, (r, st0) ∈ releaseTimers s /\ lastApplied st = lastApplied st0.
Proof.
  intros Hf H. unfold updStatus in H. cbn [releaseTimers set_releaseTimers] in H.
  apply list_elem_of_fmap in H as ([r0 st0] & Heq & Hin). cbn [fst snd] in Heq.
  destruct (decide (r0 = rule)); injection Heq as -> ->; exists st0; split;
    try assumption; [apply Hf|reflexivity].
Qed.

Lemma setRuleTimerWithDelay_table env rule delay s :
  map fst (releaseTimers (setRuleTimerWithDelay env rule delay s)) = map fst (releaseTimers s) /\
  (forall r st, r <> rule ->
     ((r, st) ∈ releaseTimers (setRuleTimerWithDelay env rule delay s)
      <-> (r, st) ∈ releaseTimers s)) /\
  (forall r st, (r, st) ∈ releaseTimers (setRuleTimerWithDelay env rule delay s) ->
     exists st0, (r, st0) ∈ releaseTimers s /\ lastApplied st = lastApplied st0).
Proof.
  unfold setRuleTimerWithDelay. destruct (decide (delay = interval rule)); unfold setTimer;
    cbv beta iota zeta;
    (split; [rewrite updStatus_keys; reflexivity|]; split;
     [intros r st Hne; rewrite (updStatus_other rule _ _ r st Hne); reflexivity
     |intros r st H; apply updStatus_lastApplied in H; [exact H|reflexivity]]).
Qed.

Lemma clearReleaseRuleTimer_table rule status s :
  map fst (releaseTimers (clearReleaseRuleTimer rule status s)) = map fst (releaseTimers s) /\
  (forall r st, r <> rule ->
     ((r, st) ∈ releaseTimers (clearReleaseRuleTimer rule status s)
      <-> (r, st) ∈ releaseTimers s)).
Proof.
  unfold clearReleaseRuleTimer. split.
  - rewrite updStatus_keys. destruct (timerId status), (intervalId status); reflexivity.
  - intros r st Hne. rewrite (updStatus_other rule _ _ r st Hne).
    destruct (timerId status), (intervalId status); reflexivity.
Qed.

Lemma addRules_table env rules :
  forall s,
    let s' := addRules env rules s in
    (forall r st, (r, st) ∈ releaseTimers s -> (r, st) ∈ releaseTimers s') /\
    (forall r st, (r, st) ∈ releaseTimers s' ->
       (r, st) ∈ releaseTimers s \/
       ((r ∉ map fst (releaseTimers s)) /\ r ∈ rules /\ lastApplied st = now env)) /\
    (forall r, r ∈ rules -> r ∈ map fst (releaseTimers s')) /\
    (NoDup (map fst (releaseTimers s)) -> NoDup (map fst (releaseTimers s'))).
Proof.
  induction rules as [|rule rest IH]; intros s; cbn [addRules].
  - split; [auto|]. split; [auto|]. split; [|auto]. intros r H. inversion H.
  - destruct (hasRule rule (releaseTimers s)) eqn:Hhas.
    + destruct (IH s) as (I1 & I2 & I3 & I4). repeat split; auto.
      * intros r st H. destruct (I2 r st H) as [H'|(Ha & Hb & Hc)]; [now left|right].
        repeat split; auto. now right.
      * intros r Hr. apply elem_of_cons in Hr as [->|Hr]; [|now apply I3].
        apply bool_decide_eq_true in Hhas.
        apply list_elem_of_fmap in Hhas as ([r0 st0] & -> & Hin).
        apply (list_elem_of_fmap_2 fst _ _ (I1 _ _ Hin)).
    + apply bool_decide_eq_false in Hhas.
      set (s1 := set_releaseTimers (releaseTimers s ++ [(rule, mkStatus None None (now env))]) s).
      set (s2 := if releaseRuleTimersEnabled s1
                 then setRuleTimerWithDelay env rule (interval rule) s1 else s1).
      assert (Hk2 : map fst (releaseTimers s2) = map fst (releaseTimers s) ++ [rule]).
      { unfold s2. destruct (releaseRuleTimersEnabled s1).
        - rewrite (proj1 (setRuleTimerWithDelay_table env rule (interval rule) s1)).
          unfold s1. cbn [releaseTimers set_releaseTimers]. now rewrite map_app.
        - unfold s1. cbn [releaseTimers set_releaseTimers]. now rewrite map_app. }
      assert (Hold : forall r st, (r, st) ∈ releaseTimers s -> (r, st) ∈ releaseTimers s2).
      { intros r st H.
        assert (Hne : r <> rule).
        { intros ->. apply Hhas. apply (list_elem_of_fmap_2 fst _ _ H). }
        assert (H1 : (r, st) ∈ releaseTimers s1).
        { unfold s1. cbn [releaseTimers set_releaseTimers]. apply elem_of_app. now left. }
        unfold s2. destruct (releaseRuleTimersEnabled s1); [|assumption].
        now apply (proj1 (proj2 (setRuleTimerWithDelay_table env rule (interval rule) s1))). }
      assert (Hnew : forall r st, (r, st) ∈ releaseTimers s2 ->
                (r, st) ∈ releaseTimers s \/ (r = rule /\ lastApplied st = now env)).
      { intros r st H.
        assert (H1 : forall st1, (r, st1) ∈ releaseTimers s1 ->
                  (r, st1) ∈ releaseTimers s \/ (r = rule /\ lastApplied st1 = now env)).
        { intros st1 H1. unfold s1 in H1. cbn [releaseTimers set_releaseTimers] in H1.
          apply elem_of_app in H1 as [H1|H1]; [now left|].
          apply list_elem_of_singleton in H1. injection H1 as -> ->. now right. }
        unfold s2 in H. destruct (releaseRuleTimersEnabled s1); [|now apply H1].
        destruct (decide (r = rule)) as [->|Hne].
        - right. split; [reflexivity|].
          apply (proj2 (proj2 (setRuleTimerWithDelay_table env rule (interval rule) s1))) in H
            as (st0 & H0 & ->).
          destruct (H1 st0 H0) as [H0'|[_ H0']]; [|exact H0'].
          exfalso. apply Hhas. apply (list_elem_of_fmap_2 fst _ _ H0').
        - apply (proj1 (proj2 (setRuleTimerWithDelay_table env rule (interval rule) s1))) in H;
            [|assumption].
          now apply H1. }
      destruct (IH s2) as (I1 & I2 & I3 & I4). fold s1 s2. repeat split.
      * intros r st H. apply I1. now apply Hold.
      * intros r st H. destruct (I2 r st H) as [H'|(Ha & Hb & Hc)].
        -- destruct (Hnew r st H') as [H''|[-> H'']]; [now left|right].
           repeat split; [assumption|left|assumption].
        -- right. repeat split; [|now right|assumption].
           intros Hr. apply Ha. rewrite Hk2. apply elem_of_app. now left.
      * intros r Hr. apply elem_of_cons in Hr as [->|Hr]; [|now apply I3].
        assert (Hin : rule ∈ map fst (releaseTimers s2)).
        { rewrite Hk2. apply elem_of_app. right. left. }
        apply list_elem_of_fmap in Hin as ([r0 st0] & -> & Hin).
        apply (list_elem_of_fmap_2 fst _ _ (I1 _ _ Hin)).
      * intros Hnd. apply I4. rewrite Hk2. apply NoDup_app. split; [assumption|].
        split; [|apply NoDup_singleton].
        intros x Hx Hx'. apply list_elem_of_singleton in Hx'. congruence.
Qed.

Lemma NoDup_keys_filter (rule : ReleaseRule) (l : list (ReleaseRule * ReleaseRuleStatus)) :
  NoDup (map fst l) -> NoDup (map fst (filter (fun e => fst e <> rule) l)).
Proof.
  induction l as [|e l IH]; cbn [map]; intros Hl; [constructor|].
  apply NoDup_cons in Hl as [He Hl]. rewrite filter_cons.
  destruct (decide (fst e <> rule)); [|now apply IH].
  cbn [map]. apply NoDup_cons. split; [|now apply IH].
  intros Hx. apply He. apply list_elem_of_fmap in Hx as (e' & -> & He').
  apply list_elem_of_filter in He' as [_ He']. apply (list_elem_of_fmap_2 fst _ _ He').
Qed.

Lemma dropRules_table rules entries :
  forall s,
    let s' := dropRules rules entries s in
    (forall r st, (r, st) ∈ releaseTimers s' ->
       (r, st) ∈ releaseTimers s /\ (r ∈ map fst entries -> r ∈ rules)) /\
    (forall r st, (r, st) ∈ releaseTimers s -> r ∈ rules -> (r, st) ∈ releaseTimers s') /\
    (NoDup (map fst (releaseTimers s)) -> NoDup (map fst (releaseTimers s'))).
Proof.
  induction entries as [|[rule status] rest IH]; intros s; cbn [dropRules].
  - split; [|split; auto]. intros r st H. split; [assumption|]. intros Hr. inversion Hr.
  - destruct (bool_decide (rule ∈ rules)) eqn:Hin.
    + apply bool_decide_eq_true in Hin. destruct (IH s) as (I1 & I2 & I3).
      split; [|split; assumption].
      intros r st H. destruct (I1 r st H) as [Ha Hb]. split; [assumption|].
      intros Hr. cbn [map fst] in Hr. apply elem_of_cons in Hr as [->|Hr]; auto.
    + apply bool_decide_eq_false in Hin.
      set (s1 := clearReleaseRuleTimer rule status s).
      set (s2 := set_releaseTimers (filter (fun e => fst e <> rule) (releaseTimers s1)) s1).
      destruct (clearReleaseRuleTimer_table rule status s) as [Hk1 Ho1]. fold s1 in Hk1, Ho1.
      assert (H2 : forall r st, (r, st) ∈ releaseTimers s2 <->
                                r <> rule /\ (r, st) ∈ releaseTimers s).
      { intros r st. unfold s2. cbn [releaseTimers set_releaseTimers].
        rewrite list_elem_of_filter. cbn [fst]. split.
        - intros [Hne H]. split; [assumption|]. now apply Ho1.
        - intros [Hne H]. split; [assumption|]. now apply Ho1. }
      destruct (IH s2) as (I1 & I2 & I3). fold s1 s2. split; [|split].
      * intros r st H. destruct (I1 r st H) as [Hs2 Hrest]. apply H2 in Hs2 as [Hne Hs].
        split; [assumption|]. intros Hr.
        cbn [map fst] in Hr. apply elem_of_cons in Hr as [->|Hr]; [congruence|auto].
      * intros r st H Hr. apply I2; [|assumption]. apply H2. split; [|assumption].
        intros ->. contradiction.
      * intros Hnd. apply I3. unfold s2. cbn [releaseTimers set_releaseTimers].
        apply NoDup_keys_filter. now rewrite Hk1.
Qed.

(** X9.  [setRules] leaves in the table the rules it is given and no
    other, each once; a rule that was in the table keeps its status, a
    rule that was not starts with [lastApplied] at the present time. *)
Theorem setRules_installs_the_rules (env : Env) (rules : list ReleaseRule) (s : State) :
  NoDup (map fst (releaseTimers s)) ->
  let s' := setRules env rules s in
  NoDup (map fst (releaseTimers s')) /\
  (forall r, r ∈ map fst (releaseTimers s') <-> r ∈ rules) /\
  (forall r st, (r, st) ∈ releaseTimers s -> r ∈ rules -> (r, st) ∈ releaseTimers s') /\
  (forall r st, (r, st) ∈ releaseTimers s' ->
     (r, st) ∈ releaseTimers s \/
     ((r ∉ map fst (releaseTimers s)) /\ lastApplied st = now env)).
Proof.
  intros Hnd s'. unfold s', setRules. cbv zeta.
  destruct (addRules_table env rules s) as (A1 & A2 & A3 & A4).
  destruct (dropRules_table rules (releaseTimers (addRules env rules s)) (addRules env rules s))
    as (D1 & D2 & D3).
  split; [|split; [|split]].
  - apply D3, A4, Hnd.
  - intros r. split.
    + intros Hr. apply list_elem_of_fmap in Hr as ([r0 st0] & -> & Hin).
      destruct (D1 _ _ Hin) as [H1 H2]. apply H2. apply (list_elem_of_fmap_2 fst _ _ H1).
    + intros Hr. pose proof (A3 r Hr) as Hin.
      apply list_elem_of_fmap in Hin as ([r0 st0] & -> & Hin).
      apply (list_elem_of_fmap_2 fst _ _ (D2 _ _ Hin Hr)).
  - intros r st H Hr. apply D2; [|assumption]. now apply A1.
  - intros r st H. destruct (D1 _ _ H) as [H1 _].
    destruct (A2 _ _ H1) as [H2|(H2 & _ & H3)]; [now left|right; now split].
Qed.

Lemma setRules_installs_the_rules_witness :
  let s := started (rulesOptions [resetRule]) in
  let s' := setRules (at_ 7) [reduceRule] s in
  NoDup (map fst (releaseTimers s)) /\
  NoDup (map fst (releaseTimers s')) /\
  (forall r, r ∈ map fst (releaseTimers s') <-> r ∈ [reduceRule]).
Proof.
  assert (H : NoDup (map fst (releaseTimers (started (rulesOptions [resetRule]))))).
  { vm_compute. repeat constructor. intros H. inversion H. }
  split; [exact H|].
  destruct (setRules_installs_the_rules (at_ 7) [reduceRule] _ H) as (H1 & H2 & _).
  split; [exact H1|exact H2].
Defined.

(** ** The catch-up of the release rules *)

Lemma caught_up now la i :
  0 < i -> la <= now ->
  let la' := if i <=? now - la then now - jsRem (now - la) i else la in
  la <= la' <= now /\ now - la' < i /\ exists k, 0 <= k /\ la' = la + k * i.
Proof.
  intros Hi Hla. cbv zeta. destruct (i <=? now - la) eqn:Hdue.
  - unfold jsRem. pose proof (Z.rem_bound_pos (now - la) i ltac:(lia) Hi) as Hr.
    pose proof (Z.quot_rem' (now - la) i) as Hq.
    assert (Hk : 0 <= Z.quot (now - la) i) by (apply Z.quot_pos; lia).
    split; [|split].
    + nia.
    + lia.
    + exists (Z.quot (now - la) i). split; [assumption|]. lia.
  - apply Z.leb_gt in Hdue. split; [lia|]. split; [lia|]. exists 0. lia.
Qed.

Lemma missedResets_statuses now entries :
  forall acc,
    Forall2 (fun e e' =>
               fst e' = fst e /\ timerId (snd e') = timerId (snd e) /\
               intervalId (snd e') = intervalId (snd e) /\
               lastApplied (snd e')
               = match type (fst e) with
                 | reset => if interval (fst e) <=? now - lastApplied (snd e)
                            then now - jsRem (now - lastApplied (snd e)) (interval (fst e))
                            else lastApplied (snd e)
                 | reduce => lastApplied (snd e)
                 end)
            entries (fst (missedResets now entries acc)).
Proof.
  induction entries as [|[rule status] rest IH]; intros acc; cbn [missedResets];
    [constructor|].
  destruct (type rule) eqn:Hty.
  - destruct (interval rule <=? now - lastApplied status) eqn:Hdue.
    + match goal with |- context [missedResets now rest ?a] =>
        specialize (IH a); destruct (missedResets now rest a) as [rest' r] end.
      cbn [fst] in *. constructor; [|exact IH]. cbn [fst snd timerId intervalId lastApplied].
      rewrite Hty, Hdue. auto.
    + specialize (IH acc). destruct (missedResets now rest acc) as [rest' r].
      cbn [fst] in *. constructor; [|exact IH]. cbn [fst snd]. rewrite Hty, Hdue. auto.
  - specialize (IH acc). destruct (missedResets now rest acc) as [rest' r].
    cbn [fst] in *. constructor; [|exact IH]. cbn [fst snd]. rewrite Hty. auto.
Qed.

Lemma missedReduces_statuses now t entries :
  forall s,
    Forall2 (fun e e' =>
               fst e' = fst e /\ timerId (snd e') = timerId (snd e) /\
               intervalId (snd e') = intervalId (snd e) /\
               lastApplied (snd e')
               = match type (fst e) with
                 | reduce => if interval (fst e) <=? now - lastApplied (snd e)
                             then now - jsRem (now - lastApplied (snd e)) (interval (fst e))
                             else lastApplied (snd e)
                 | reset => lastApplied (snd e)
                 end)
            entries (fst (missedReduces now t entries s)).
Proof.
  induction entries as [|[rule status] rest IH]; intros s; cbn [missedReduces];
    [constructor|].
  destruct (type rule) eqn:Hty.
  - specialize (IH s). destruct (missedReduces now t rest s) as [rest' r].
    cbn [fst] in *. constructor; [|exact IH]. cbn [fst snd]. rewrite Hty. auto.
  - destruct (interval rule <=? now - lastApplied status) eqn:Hdue.
    + match goal with |- context [missedReduces now t rest ?a] =>
        specialize (IH a); destruct (missedReduces now t rest a) as [rest' r] end.
      cbn [fst] in *. constructor; [|exact IH]. cbn [fst snd timerId intervalId lastApplied].
      rewrite Hty, Hdue. auto.
    + specialize (IH s). destruct (missedReduces now t rest s) as [rest' r].
      cbn [fst] in *. constructor; [|exact IH]. cbn [fst snd]. rewrite Hty, Hdue. auto.
Qed.

(** X10.  The catch-up keeps the table rule by rule and the timers the
    statuses hold; it moves [lastApplied] of a rule that is due, and of
    no other, to [now - (now - lastApplied) % interval], for every rule
    whose interval is not 0.  So a rule with a positive interval that
    was last applied in the past is moved by whole intervals, not beyond
    [now], and is left less than one interval behind. *)
Theorem applyMissedRules_catches_up (now : Z) (s : State) :
  Forall2 (fun e e' =>
             fst e' = fst e /\ timerId (snd e') = timerId (snd e) /\
             intervalId (snd e') = intervalId (snd e) /\
             (interval (fst e) <> 0 ->
              lastApplied (snd e')
              = (if interval (fst e) <=? now - lastApplied (snd e)
                 then now - jsRem (now - lastApplied (snd e)) (interval (fst e))
                 else lastApplied (snd e))) /\
             (0 < interval (fst e) -> lastApplied (snd e) <= now ->
              lastApplied (snd e) <= lastApplied (snd e') <= now /\
              now - lastApplied (snd e') < interval (fst e) /\
              exists k, 0 <= k /\
                        lastApplied (snd e') = lastApplied (snd e) + k * interval (fst e)))
          (releaseTimers s) (releaseTimers (applyMissedRules now s)).
Proof.
  unfold applyMissedRules.
  pose proof (missedResets_statuses now (releaseTimers s) (None, None)) as H1.
  destruct (missedResets now (releaseTimers s) (None, None)) as [entries [t r]].
  cbn [fst] in H1.
  match goal with |- context [missedReduces now t entries ?a] =>
    pose proof (missedReduces_statuses now t entries a) as H2;
    destruct (missedReduces now t entries a) as [entries' s2] end.
  cbn [fst] in H2. cbn [releaseTimers set_releaseTimers].
  revert entries entries' H1 H2.
  induction (releaseTimers s) as [|e l IH]; intros entries entries' H1 H2.
  - inversion H1; subst. inversion H2; subst. constructor.
  - inversion H1 as [|? e1 ? l1 He1 Hl1]; subst. inversion H2 as [|? e2 ? l2 He2 Hl2]; subst.
    constructor; [|now apply (IH l1)].
    destruct He1 as (K1 & K2 & K3 & K4), He2 as (L1 & L2 & L3 & L4).
    rewrite L1, K1 in *. rewrite L2, K2, L3, K3.
    assert (Hla : lastApplied (snd e2)
                  = (if interval (fst e) <=? now - lastApplied (snd e)
                     then now - jsRem (now - lastApplied (snd e)) (interval (fst e))
                     else lastApplied (snd e))).
    { rewrite L4. destruct (type (fst e)).
      - rewrite K4. reflexivity.
      - rewrite K4. reflexivity. }
    split; [reflexivity|]. split; [reflexivity|]. split; [reflexivity|].
    split; [intros _; exact Hla|]. intros Hi Hpast.
    rewrite Hla. now apply caught_up.
Qed.

(** ** The fail-recovery manager *)

Lemma rejectAll_fold e l :
  forall s,
    let s' := foldl (fun s info => rejectTask (rt_task info) e (clearTimer (rt_timer info) s))
                    s l in
    (forall h t, timers s' !! h = Some (Some t) ->
                 timers s !! h = Some (Some t) /\ h ∉ map rt_timer l) /\
    (forall id t, tasks s !! id = Some t ->
       tasks s' !! id
       = Some (if bool_decide (id ∈ map rt_task l)
               then task_set_promise (settle (Rejected e) (promise t)) t else t)) /\
    length (tasks s') = length (tasks s) /\
    (queue s', usedCapacity s', usedConcurrent s', log s', runs s', onFailureCalls s')
    = (queue s, usedCapacity s, usedConcurrent s, log s, runs s, onFailureCalls s).
Proof.
  induction l as [|info l IH]; intros s; cbn [foldl map].
  - split; [|split; [|split]]; try reflexivity.
    + intros h t H. split; [assumption|apply not_elem_of_nil].
    + intros id t H. now rewrite bool_decide_eq_false_2 by apply not_elem_of_nil.
  - set (s1 := rejectTask (rt_task info) e (clearTimer (rt_timer info) s)).
    destruct (IH s1) as (I1 & I2 & I3 & I4). split; [|split; [|split]].
    + intros h t H. destruct (I1 h t H) as [H1 H2].
      change (timers s1) with (timers (clearTimer (rt_timer info) s)) in H1.
      unfold clearTimer in H1. cbn [timers set_timers] in H1.
      apply list_lookup_insert_Some in H1 as [(_ & [=] & _)|[Hne H1]].
      split; [assumption|]. intros Hx. apply elem_of_cons in Hx as [->|Hx]; contradiction.
    + intros id t Hid.
      assert (H1 : tasks s1 !! id
                   = Some (if decide (id = rt_task info)
                           then task_set_promise (settle (Rejected e) (promise t)) t else t)).
      { unfold s1, rejectTask, updTask, clearTimer. cbn [tasks set_tasks set_timers].
        destruct (decide (id = rt_task info)) as [->|Hne].
        - now rewrite list_lookup_alter_eq, Hid.
        - now rewrite list_lookup_alter_ne by congruence. }
      rewrite (I2 id _ H1).
      destruct (decide (id = rt_task info)) as [->|Hne].
      * rewrite (bool_decide_eq_true_2 (_ ∈ _ :: _)) by left.
        destruct (bool_decide _); [|reflexivity]. cbn [promise task_set_promise].
        destruct t as [? ? ? ? ? ? ? ? ? ? p]. cbn. now destruct p.
      * destruct (bool_decide (id ∈ map rt_task l)) eqn:Hin.
        -- rewrite bool_decide_eq_true_2; [reflexivity|]. right.
           now apply bool_decide_eq_true in Hin.
        -- rewrite bool_decide_eq_false_2; [reflexivity|]. apply bool_decide_eq_false in Hin.
           intros Hx. apply elem_of_cons in Hx as [->|Hx]; contradiction.
    + rewrite I3. unfold s1, rejectTask, updTask, clearTimer. cbn [tasks set_tasks set_timers].
      apply length_alter.
    + rewrite I4. reflexivity.
Qed.

(** X11.  [rejectAll] empties the list of the tasks asleep before a
    retry, leaves none of their timers armed, rejects each of them with
    the error when its promise is pending, and touches no other task,
    nor the queue, nor the used capacity. *)
Theorem rejectAll_wakes_nobody (e : error) (s : State) :
  let s' := rejectAll e s in
  retryTimers s' = [] /\ getAwaitingTasks s' = [] /\
  (forall info t, info ∈ retryTimers s -> timers s' !! rt_timer info <> Some (Some t)) /\
  (forall id t, tasks s !! id = Some t ->
     tasks s' !! id
     = Some (if bool_decide (id ∈ getAwaitingTasks s)
             then task_set_promise (settle (Rejected e) (promise t)) t else t)) /\
  length (tasks s') = length (tasks s) /\
  (queue s', usedCapacity s', usedConcurrent s', log s')
  = (queue s, usedCapacity s, usedConcurrent s, log s).
Proof.
  cbv zeta. unfold rejectAll, getAwaitingTasks. cbn [retryTimers set_retryTimers map].
  destruct (rejectAll_fold e (retryTimers s) s) as (H1 & H2 & H3 & H4).
  split; [reflexivity|]. split; [reflexivity|]. split; [|split; [|split]].
  - intros info t Hin H. cbn [timers set_retryTimers] in H.
    destruct (H1 _ _ H) as [_ Hout]. apply Hout. apply (list_elem_of_fmap_2 rt_timer _ _ Hin).
  - intros id t Hid. cbn [tasks set_retryTimers]. now apply H2.
  - exact H3.
  - cbn [queue usedCapacity usedConcurrent log set_retryTimers].
    now injection H4 as -> -> -> -> _ _.
Qed.

(** ** What every run keeps *)

Lemma run_RuleTimersOK events : forall s, RuleTimersOK s -> RuleTimersOK (run events s).
Proof.
  induction events as [|[env ev] rest IH]; intros s Hs; cbn [run]; [assumption|].
  apply IH. now apply step_RuleTimersOK.
Qed.

(** X12.  In every state a run from the constructor reaches: the table
    of the release rules holds no rule twice; a timer of a rule is armed
    only while the timers are enabled, for a rule of the table, and it is
    the timer the status of the rule holds; no rule has two timers armed
    at once. *)
Theorem rule_timers_along_runs (env0 : Env) (o : CapacityLimiterOptions)
    (events : list (Env * Event)) :
  let s := run events (stateOf (constructor env0 o)) in
  NoDup (map fst (releaseTimers s)) /\
  (forall h t r, timers s !! h = Some (Some t) -> ruleOf (callback t) = Some r ->
     releaseRuleTimersEnabled s = true /\
     exists st, (r, st) ∈ releaseTimers s /\ (timerId st = Some h \/ intervalId st = Some h)) /\
  (forall h1 h2 t1 t2 r,
     timers s !! h1 = Some (Some t1) -> ruleOf (callback t1) = Some r ->
     timers s !! h2 = Some (Some t2) -> ruleOf (callback t2) = Some r -> h1 = h2) /\
  (forall r st, (r, st) ∈ releaseTimers s -> timerId st = None \/ intervalId st = None).
Proof.
  intros s.
  assert (Hok : RuleTimersOK s) by apply (run_RuleTimersOK events), constructor_RuleTimersOK.
  destruct Hok as [[HK Hheld Hsingle] Hasleep].
  assert (Hentry : forall r p, (r, p) ∈ handlesOf s ->
            exists st, (r, st) ∈ releaseTimers s /\ p = (timerId st, intervalId st)).
  { intros r p H. unfold handlesOf in H.
    apply list_elem_of_fmap in H as ([r0 st] & Heq & Hin). cbn [fst snd] in Heq.
    injection Heq as -> ->. eauto. }
  split; [|split; [|split]].
  - unfold handlesOf in HK. rewrite map_map in HK. exact HK.
  - intros h t r Harmed Hr. destruct (Hheld h t r Harmed Hr) as (p & Hp & Hhold). split.
    + destruct (releaseRuleTimersEnabled s) eqn:Hen; [reflexivity|].
      rewrite (Hasleep Hen r p Hp) in Hhold. destruct Hhold as [Hx|Hx]; discriminate Hx.
    + destruct (Hentry r p Hp) as (st & Hst & ->). exists st. split; [assumption|exact Hhold].
  - intros h1 h2 t1 t2 r H1 Hr1 H2 Hr2.
    destruct (Hheld h1 t1 r H1 Hr1) as (p1 & Hp1 & Hh1).
    destruct (Hheld h2 t2 r H2 Hr2) as (p2 & Hp2 & Hh2).
    assert (p2 = p1) as ->.
    { clear -HK Hp1 Hp2. revert HK Hp1 Hp2. generalize (handlesOf s). intros l.
      induction l as [|[k v] l IH]; cbn [map fst]; intros Hnd Ha Hb; [inversion Ha|].
      apply NoDup_cons in Hnd as [Hk Hnd].
      apply elem_of_cons in Ha as [Ha|Ha]; apply elem_of_cons in Hb as [Hb|Hb].
      - congruence.
      - injection Ha as -> ->. exfalso. apply Hk. apply (list_elem_of_fmap_2 fst _ _ Hb).
      - injection Hb as -> ->. exfalso. apply Hk. apply (list_elem_of_fmap_2 fst _ _ Ha).
      - now apply IH. }
    destruct (Hsingle r p1 Hp1) as [Hx|Hx], Hh1 as [Hy|Hy], Hh2 as [Hz|Hz]; congruence.
  - intros r st Hin. apply (Hsingle r (timerId st, intervalId st)).
    unfold handlesOf. apply list_elem_of_fmap. exists (r, st). split; [reflexivity|assumption].
Qed.

Lemma occurrences_omap_lookup {A : Type} (f : A -> option TaskId) (l : list A) i x id :
  l !! i = Some x -> f x = Some id -> (1 <= occurrences id (omap f l))%nat.
Proof.
  revert i. induction l as [|a l IH]; intros [|i] Hi Hf; try discriminate.
  - injection Hi as ->. rewrite occurrences_omap_cons, Hf, oneFor_same. lia.
  - rewrite occurrences_omap_cons. specialize (IH i Hi Hf). lia.
Qed.

Lemma occurrences_omap_lookup2 {A : Type} (f : A -> option TaskId) (l : list A) i j x y id :
  i <> j -> l !! i = Some x -> l !! j = Some y -> f x = Some id -> f y = Some id ->
  (2 <= occurrences id (omap f l))%nat.
Proof.
  revert i j. induction l as [|a l IH]; intros [|i] [|j] Hne Hi Hj Hx Hy;
    try discriminate; try congruence.
  - injection Hi as ->. rewrite occurrences_omap_cons, Hx, oneFor_same.
    pose proof (occurrences_omap_lookup f l j y id Hj Hy). lia.
  - injection Hj as ->. rewrite occurrences_omap_cons, Hy, oneFor_same.
    pose proof (occurrences_omap_lookup f l i x id Hi Hx). lia.
  - rewrite occurrences_omap_cons. assert (Hne' : i <> j) by congruence.
    specialize (IH i j Hne' Hi Hj Hx Hy). lia.
Qed.

(** X13.  In every state a run from the constructor reaches, a task is
    in one place at most: the queue holds no task twice, a queued task
    is a task of the store, has no run that has not finished, no retry
    timer armed and no call of the [onFailure] hook in flight, and no
    task has two runs that have not finished.  [tasksByTimeLimit] holds
    queued tasks only, each once and with a time limit. *)
Theorem tasks_are_in_one_place (env0 : Env) (o : CapacityLimiterOptions)
    (events : list (Env * Event)) :
  let s := run events (stateOf (constructor env0 o)) in
  NoDup (queue s) /\ NoDup (tasksByTimeLimit s) /\
  (forall id, id ∈ tasksByTimeLimit s -> id ∈ queue s /\ truthy (timeLimitOf s id) = true) /\
  (forall id, id ∈ queue s ->
     (id < length (tasks s))%nat /\
     (forall r x, runs s !! r = Some x -> finished x = false -> ex_task x <> id) /\
     (forall h t, timers s !! h = Some (Some t) -> callback t <> RetryTimer id) /\
     (forall c x, onFailureCalls s !! c = Some (Some x) -> of_task x <> id)) /\
  (forall r1 r2 x1 x2,
     runs s !! r1 = Some x1 -> runs s !! r2 = Some x2 ->
     finished x1 = false -> finished x2 = false -> ex_task x1 = ex_task x2 -> r1 = r2).
Proof.
  intros s.
  assert (Hp : placed s) by apply (run_placed events), constructor_placed.
  destruct Hp as [[Hnd Hin] Hone].
  split; [|split; [assumption|split; [assumption|split]]].
  - apply occurrences_NoDup. intros id. destruct (Hone id) as [H _]. unfold placesOf in H. lia.
  - intros id Hid. apply occurrences_elem in Hid. destruct (Hone id) as [H1 H2].
    unfold placesOf in H1, H2. split; [|split; [|split]].
    + destruct (decide (id < length (tasks s))%nat); [assumption|].
      assert (Hz : (length (tasks s) <= id)%nat) by lia. specialize (H2 Hz). lia.
    + intros r x Hr Hf Heq.
      assert (Hx : runToken x = Some id) by (unfold runToken; now rewrite Hf, Heq).
      pose proof (occurrences_omap_lookup runToken (runs s) r x id Hr Hx). lia.
    + intros h t Ht Hcb.
      assert (Hx : retryToken (Some t) = Some id) by (cbn [retryToken]; now rewrite Hcb).
      pose proof (occurrences_omap_lookup retryToken (timers s) h (Some t) id Ht Hx). lia.
    + intros c x Hc Heq.
      assert (Hx : hookToken (Some x) = Some id) by (cbn; now rewrite Heq).
      pose proof (occurrences_omap_lookup hookToken (onFailureCalls s) c (Some x) id Hc Hx). lia.
  - intros r1 r2 x1 x2 H1 H2 Hf1 Hf2 Heq. destruct (decide (r1 = r2)) as [|Hne]; [assumption|].
    exfalso.
    assert (Hx1 : runToken x1 = Some (ex_task x1)) by (unfold runToken; now rewrite Hf1).
    assert (Hx2 : runToken x2 = Some (ex_task x1)) by (unfold runToken; now rewrite Hf2, Heq).
    pose proof (occurrences_omap_lookup2 runToken (runs s) r1 r2 x1 x2 _ Hne H1 H2 Hx1 Hx2).
    destruct (Hone (ex_task x1)) as [Hle _]. unfold placesOf in Hle. lia.
Qed.

(** ** What every step keeps *)

Lemma sameTask_refl t : sameTask t t.
Proof. repeat split. Qed.

Lemma sameTask_trans t1 t2 t3 : sameTask t1 t2 -> sameTask t2 t3 -> sameTask t1 t3.
Proof.
  intros (H1 & H2 & H3 & H4) (K1 & K2 & K3 & K4). repeat split; try congruence.
  intros Hp. rewrite K4; [auto|]. rewrite H4; auto.
Qed.

Lemma evolves_refl s : evolves s s.
Proof.
  split; [|split]; [intros id t H; exists t; split; [assumption|apply sameTask_refl]| |auto].
  intros r x H. exists x. auto.
Qed.

Lemma evolves_trans s1 s2 s3 : evolves s1 s2 -> evolves s2 s3 -> evolves s1 s3.
Proof.
  intros (H1 & H2 & H3) (K1 & K2 & K3). split; [|split]; [| |auto].
  - intros id t Ht. destruct (H1 id t Ht) as (t2 & Ht2 & Hs2).
    destruct (K1 id t2 Ht2) as (t3 & Ht3 & Hs3). exists t3. split; [assumption|].
    now apply (sameTask_trans t t2 t3).
  - intros r x Hx. destruct (H2 r x Hx) as (x2 & Hx2 & He2 & Hf2).
    destruct (K2 r x2 Hx2) as (x3 & Hx3 & He3 & Hf3). exists x3. split; [assumption|].
    split; [congruence|auto].
Qed.

Lemma thins_refl s : thins s s.
Proof. split; [apply evolves_refl|reflexivity]. Qed.

Lemma thins_trans s1 s2 s3 : thins s1 s2 -> thins s2 s3 -> thins s1 s3.
Proof.
  intros [H1 H2] [K1 K2]. split; [now apply (evolves_trans s1 s2 s3)|now transitivity (queue s2)].
Qed.

Lemma thins_evolves s0 s s' : evolves s0 s -> thins s s' -> evolves s0 s'.
Proof. intros H [K _]. now apply (evolves_trans s0 s s'). Qed.

Lemma th_same s0 s s' :
  tasks s' = tasks s -> runs s' = runs s -> stopped s' = stopped s -> queue s' = queue s ->
  thins s0 s -> thins s0 s'.
Proof.
  intros H1 H2 H3 H4 [(K1 & K2 & K3) K4]. unfold thins, evolves. now rewrite H1, H2, H3, H4.
Qed.

Ltac th_same :=
  intros; match goal with H : thins ?s0 ?s |- _ => apply (th_same s0 s); [reflexivity..|exact H] end.

Lemma th_set_usedCapacity s0 v s : thins s0 s -> thins s0 (set_usedCapacity v s).
Proof. th_same. Qed.
Lemma th_set_usedConcurrent s0 v s : thins s0 s -> thins s0 (set_usedConcurrent v s).
Proof. th_same. Qed.
Lemma th_set_tasksByTimeAdded s0 v s : thins s0 s -> thins s0 (set_tasksByTimeAdded v s).
Proof. th_same. Qed.
Lemma th_set_tasksByTimeLimit s0 v s : thins s0 s -> thins s0 (set_tasksByTimeLimit v s).
Proof. th_same. Qed.
Lemma th_set_options s0 v s : thins s0 s -> thins s0 (set_options v s).
Proof. th_same. Qed.
Lemma th_set_originalOptions s0 v s : thins s0 s -> thins s0 (set_originalOptions v s).
Proof. th_same. Qed.
Lemma th_set_releaseTimers s0 v s : thins s0 s -> thins s0 (set_releaseTimers v s).
Proof. th_same. Qed.
Lemma th_set_releaseRuleTimersEnabled s0 v s :
  thins s0 s -> thins s0 (set_releaseRuleTimersEnabled v s).
Proof. th_same. Qed.
Lemma th_set_retryTimers s0 v s : thins s0 s -> thins s0 (set_retryTimers v s).
Proof. th_same. Qed.
Lemma th_set_executingTasks s0 v s : thins s0 s -> thins s0 (set_executingTasks v s).
Proof. th_same. Qed.
Lemma th_set_stopPromises s0 v s : thins s0 s -> thins s0 (set_stopPromises v s).
Proof. th_same. Qed.
Lemma th_set_log s0 v s : thins s0 s -> thins s0 (set_log v s).
Proof. th_same. Qed.
Lemma th_set_timers s0 v s : thins s0 s -> thins s0 (set_timers v s).
Proof. th_same. Qed.
Lemma th_set_onFailureCalls s0 v s : thins s0 s -> thins s0 (set_onFailureCalls v s).
Proof. th_same. Qed.
Lemma th_emit s0 e s : thins s0 s -> thins s0 (emit e s).
Proof. th_same. Qed.
Lemma th_clearTimer s0 h s : thins s0 s -> thins s0 (clearTimer h s).
Proof. th_same. Qed.
Lemma th_setTimer s0 cb due s : thins s0 s -> thins s0 (snd (setTimer cb due s)).
Proof. th_same. Qed.
Lemma th_updStatus s0 rule f s : thins s0 s -> thins s0 (updStatus rule f s).
Proof. th_same. Qed.

Lemma th_besideRules s0 s s' : besideRules s' = besideRules s -> thins s0 s -> thins s0 s'.
Proof.
  unfold besideRules. intros [= _ H4 _ _ _ _ _ _ H3 H1 H2 _ _]. now apply th_same.
Qed.

Lemma th_set_stopped s0 st s : thins s0 s -> thins s0 (set_stopped (Some st) s).
Proof.
  intros [(K1 & K2 & K3) K4]. split; [split; [|split]|]; try assumption.
  intros _. now exists st.
Qed.

Lemma th_set_queue s0 q s : sublist q (queue s) -> thins s0 s -> thins s0 (set_queue q s).
Proof. intros Hq [K1 K4]. split; [exact K1|]. now transitivity (queue s). Qed.

Lemma sublist_DLL_delete (x : nat) l : sublist (DLL.delete x l) l.
Proof.
  induction l as [|a l IH]; cbn; [constructor|].
  destruct (decide (a = x)); [now apply sublist_cons|now apply sublist_skip].
Qed.

Lemma sublist_pickFirstMatching (c : nat -> bool) l : sublist (snd (DLL.pickFirstMatching c l)) l.
Proof.
  induction l as [|a l IH]; cbn; [constructor|].
  destruct (c a); cbn; [now apply sublist_cons|].
  destruct (DLL.pickFirstMatching c l) as [r rest]. cbn in *. now apply sublist_skip.
Qed.

Lemma th_set_queue_delete s0 x s : thins s0 s -> thins s0 (set_queue (DLL.delete x (queue s)) s).
Proof. apply th_set_queue, sublist_DLL_delete. Qed.

Lemma th_set_queue_clear s0 s : thins s0 s -> thins s0 (set_queue (DLL.clear (queue s)) s).
Proof. apply th_set_queue, sublist_nil_l. Qed.

Lemma th_updTask s0 id f s : steady f -> thins s0 s -> thins s0 (updTask id f s).
Proof.
  intros Hf [(K1 & K2 & K3) K4]. split; [split; [|split]|]; try assumption.
  intros i t Ht. destruct (K1 i t Ht) as (t1 & Ht1 & Hs1).
  unfold updTask. cbn [tasks set_tasks]. destruct (decide (i = id)) as [->|Hne].
  - exists (f t1). rewrite list_lookup_alter_eq, Ht1. split; [reflexivity|].
    apply (sameTask_trans t t1 (f t1)); [assumption|apply Hf].
  - exists t1. rewrite list_lookup_alter_ne by congruence. now split.
Qed.

Lemma steady_capacity v : steady (task_set_capacity v).
Proof. intros t. repeat split. Qed.
Lemma steady_reservedCapacity v : steady (task_set_reservedCapacity v).
Proof. intros t. repeat split. Qed.
Lemma steady_reservedConcurrent v : steady (task_set_reservedConcurrent v).
Proof. intros t. repeat split. Qed.
Lemma steady_timeLimit v : steady (task_set_timeLimit v).
Proof. intros t. repeat split. Qed.
Lemma steady_executionTimerId v : steady (task_set_executionTimerId v).
Proof. intros t. repeat split. Qed.
Lemma steady_queueWaitingTimerId v : steady (task_set_queueWaitingTimerId v).
Proof. intros t. repeat split. Qed.
Lemma steady_retryAttempt v : steady (task_set_retryAttempt v).
Proof. intros t. repeat split. Qed.
Lemma steady_settle o : steady (fun t => task_set_promise (settle o (promise t)) t).
Proof. intros t. repeat split. cbn. destruct (promise t); [congruence|reflexivity..]. Qed.

Create HintDb thin.
#[local] Hint Resolve thins_refl th_set_usedCapacity th_set_usedConcurrent th_set_tasksByTimeAdded
  th_set_tasksByTimeLimit th_set_options th_set_originalOptions th_set_releaseTimers
  th_set_releaseRuleTimersEnabled th_set_retryTimers th_set_executingTasks th_set_stopPromises
  th_set_log th_set_timers th_set_onFailureCalls th_emit th_clearTimer th_updStatus
  th_set_stopped th_set_queue_delete th_set_queue_clear th_updTask
  steady_capacity steady_reservedCapacity steady_reservedConcurrent steady_timeLimit
  steady_executionTimerId steady_queueWaitingTimerId steady_retryAttempt steady_settle : thin.

Lemma th_rejectTask s0 id e s : thins s0 s -> thins s0 (rejectTask id e s).
Proof. intros H. unfold rejectTask. auto with thin. Qed.

Lemma th_resolveTaskPromise s0 id s : thins s0 s -> thins s0 (resolveTaskPromise id s).
Proof. intros H. unfold resolveTaskPromise. auto with thin. Qed.

Lemma th_finishRun s0 r s : thins s0 s -> thins s0 (finishRun r s).
Proof.
  intros [(K1 & K2 & K3) K4]. split; [split; [|split]|]; try assumption.
  intros i x Hx. destruct (K2 i x Hx) as (x1 & Hx1 & He1 & Hf1).
  unfold finishRun. cbn [runs set_runs]. destruct (decide (i = r)) as [->|Hne].
  - exists (mkExecution (ex_task x1) true). rewrite list_lookup_alter_eq, Hx1. now repeat split.
  - exists x1. rewrite list_lookup_alter_ne by congruence. now repeat split.
Qed.

Lemma th_newRun s0 x s : thins s0 s -> thins s0 (set_runs (runs s ++ [x]) s).
Proof.
  intros [(K1 & K2 & K3) K4]. split; [split; [|split]|]; try assumption.
  intros i y Hy. destruct (K2 i y Hy) as (x1 & Hx1 & He1 & Hf1). exists x1.
  cbn [runs set_runs]. split; [|now split]. apply lookup_app_l_Some, Hx1.
Qed.

Lemma th_newTask s0 t s : thins s0 s -> thins s0 (set_tasks (tasks s ++ [t]) s).
Proof.
  intros [(K1 & K2 & K3) K4]. split; [split; [|split]|]; try assumption.
  intros i y Hy. destruct (K1 i y Hy) as (t1 & Ht1 & Hs1). exists t1.
  cbn [tasks set_tasks]. split; [|assumption]. apply lookup_app_l_Some, Ht1.
Qed.

#[local] Hint Resolve th_rejectTask th_resolveTaskPromise th_finishRun th_newRun th_newTask : thin.

Lemma th_clearOpt s0 o s : thins s0 s -> thins s0 (clearOpt o s).
Proof. destruct o; cbn [clearOpt]; auto with thin. Qed.

Lemma th_releaseTaskResources s0 id s : thins s0 s -> thins s0 (releaseTaskResources id s).
Proof.
  intros H. unfold releaseTaskResources. destruct (tasks s !! id) as [task|]; [|assumption].
  destruct (executionTimerId task); destruct (truthy (reservedConcurrent task));
    (destruct (truthy (reservedCapacity task) && _); auto 10 with thin).
Qed.

Lemma th_reserveResources s0 id s : thins s0 s -> thins s0 (reserveResources id s).
Proof.
  intros H. unfold reserveResources. destruct (tasks s !! id) as [task|]; [|assumption].
  destruct (truthy (timeLimit task)); destruct (queueWaitingTimerId task);
    destruct (maxCapacity (options s)); try destruct (optCapacityStrategy (options s));
    auto 15 with thin.
Qed.

Lemma th_removeTaskFromQueues s0 id s : thins s0 s -> thins s0 (removeTaskFromQueues id s).
Proof. intros H. unfold removeTaskFromQueues. auto with thin. Qed.

Lemma th_stoppedResolve s0 st s : thins s0 s -> thins s0 (stoppedResolve st s).
Proof. intros H. unfold stoppedResolve. destruct (stoppedPromise st); auto with thin. Qed.

#[local] Hint Resolve th_clearOpt th_releaseTaskResources th_reserveResources
  th_removeTaskFromQueues th_stoppedResolve : thin.

Lemma th_foldl {A} (f : State -> A -> State) s0 l :
  (forall s a, thins s0 s -> thins s0 (f s a)) ->
  forall s, thins s0 s -> thins s0 (foldl f s l).
Proof. intros Hf. induction l as [|a l IH]; cbn [foldl]; auto. Qed.

Lemma th_rejectEach s0 ids e s : thins s0 s -> thins s0 (rejectEach ids e s).
Proof. unfold rejectEach. apply th_foldl. auto with thin. Qed.

Lemma th_rejectAll s0 e s : thins s0 s -> thins s0 (rejectAll e s).
Proof.
  intros H. unfold rejectAll. apply th_set_retryTimers. apply th_foldl; [|assumption].
  auto with thin.
Qed.

Lemma th_applyRule s0 rule times s : thins s0 s -> thins s0 (applyRule rule times s).
Proof. apply th_besideRules, besideRules_applyRule. Qed.

Lemma th_applyMissedRules s0 now s : thins s0 s -> thins s0 (applyMissedRules now s).
Proof. apply th_besideRules, besideRules_applyMissedRules. Qed.

Lemma th_enableTimers s0 env s : thins s0 s -> thins s0 (enableTimers env s).
Proof. apply th_besideRules, besideRules_enableTimers. Qed.

Lemma th_disableTimers s0 s : thins s0 s -> thins s0 (disableTimers s).
Proof. apply th_besideRules, besideRules_disableTimers. Qed.

Lemma th_clearReleaseRuleTimer s0 rule status s :
  thins s0 s -> thins s0 (clearReleaseRuleTimer rule status s).
Proof. apply th_besideRules, besideRules_clearReleaseRuleTimer. Qed.

Lemma th_setRuleTimerWithDelay s0 env rule delay s :
  thins s0 s -> thins s0 (setRuleTimerWithDelay env rule delay s).
Proof. apply th_besideRules, besideRules_setRuleTimerWithDelay. Qed.

#[local] Hint Resolve th_rejectEach th_rejectAll th_applyRule th_applyMissedRules th_enableTimers
  th_disableTimers th_clearReleaseRuleTimer th_setRuleTimerWithDelay : thin.

Lemma th_addRules s0 env rules : forall s, thins s0 s -> thins s0 (addRules env rules s).
Proof.
  induction rules as [|rule rest IH]; intros s H; cbn [addRules]; [assumption|].
  destruct (hasRule rule (releaseTimers s)); [auto|]. apply IH.
  destruct (releaseRuleTimersEnabled _); auto with thin.
Qed.

Lemma th_dropRules s0 rules entries : forall s, thins s0 s -> thins s0 (dropRules rules entries s).
Proof.
  induction entries as [|[rule status] rest IH]; intros s H; cbn [dropRules]; [assumption|].
  destruct (bool_decide (rule ∈ rules)); [auto|]. apply IH. auto with thin.
Qed.

Lemma th_setRules s0 env rules s : thins s0 s -> thins s0 (setRules env rules s).
Proof. intros H. unfold setRules. apply th_dropRules. now apply th_addRules. Qed.

Lemma th_admissionChecks s0 id task s :
  thins s0 s -> thins s0 (stateOf (admissionChecks id task s)).
Proof.
  intros H. unfold admissionChecks.
  destruct (match maxCapacity (options s) with Some m => m <? capacity task | None => false end);
    destruct (optTaskExceedsMaxCapacityStrategy (options s));
    repeat match goal with |- context [if ?b then _ else _] => destruct b end;
    cbn [stateOf]; auto with thin.
Qed.

Lemma th_queueOverflow s0 id task s :
  thins s0 s -> match queueOverflow id task s with inl s' | inr s' => thins s0 s' end.
Proof.
  intros H. unfold queueOverflow.
  destruct (truthy (maxQueueSize (options s)) && _); [|assumption].
  destruct (optQueueSizeExceededStrategy (options s)).
  - auto with thin.
  - destruct (DLL.shift (tasksByTimeAdded s)) as [[oldest|] rest]; auto with thin.
  - destruct (DLL.peekLast (queue s)) as [least|]; [|auto with thin].
    destruct (priority task <? priorityOf s least); auto with thin.
  - assumption.
Qed.

Lemma th_insertByTimeLimit s0 id task s : thins s0 s -> thins s0 (insertByTimeLimit id task s).
Proof.
  intros H. unfold insertByTimeLimit. destruct (truthy (queuedTimeLimit task s)); auto with thin.
Qed.

Lemma th_armQueueWaitingTimer s0 env id task s :
  thins s0 s -> thins s0 (armQueueWaitingTimer env id task s).
Proof.
  intros H. unfold armQueueWaitingTimer.
  destruct (truthy _ && _); [|assumption].
  match goal with |- context [setTimer ?cb ?due ?s1] =>
    pose proof (th_setTimer s0 cb due s1 H) as Hs;
    destruct (setTimer cb due s1) as [h s2] end.
  cbn [snd] in Hs. auto with thin.
Qed.

Lemma th_setRetryTimer s0 env id timeout s : thins s0 s -> thins s0 (setRetryTimer env id timeout s).
Proof.
  intros H. unfold setRetryTimer.
  match goal with |- context [setTimer ?cb ?due ?s1] =>
    assert (H1 : thins s0 s1) by auto with thin;
    pose proof (th_setTimer s0 cb due s1 H1) as Hs;
    destruct (setTimer cb due s1) as [h s2] end.
  cbn [snd] in Hs. auto with thin.
Qed.

#[local] Hint Resolve th_setRules th_admissionChecks th_insertByTimeLimit th_armQueueWaitingTimer
  th_setRetryTimer : thin.

Lemma th_useStrategy s0 env id strategy e attempt s :
  thins s0 s -> thins s0 (useStrategy env id strategy e attempt s).
Proof.
  intros H. unfold useStrategy. destruct strategy as [o|f].
  - destruct (_ <? _); auto with thin.
  - auto with thin.
Qed.

Lemma th_onFailureSettled s0 env call r s :
  thins s0 s -> thins s0 (onFailureSettled env call r s).
Proof.
  intros H. unfold onFailureSettled. destruct (onFailureCalls s !! call) as [[c|]|]; try assumption.
  destruct r; auto with thin.
Qed.

#[local] Hint Resolve th_useStrategy th_onFailureSettled : thin.

Section ThinsOfLoop.
Variable next : State -> State.
Hypothesis next_thins : forall s0 s, thins s0 s -> thins s0 (next s).

Lemma tryRejectTask_thins s0 env id e s : thins s0 s -> thins s0 (tryRejectTask_ next env id e s).
Proof.
  intros H. unfold tryRejectTask_. apply next_thins.
  assert (H1 : thins s0 (releaseTaskResources id s)) by auto with thin.
  destruct (tasks (releaseTaskResources id s) !! id) as [task|]; [|assumption].
  destruct (nullish _ _) as [[| |o]|]; auto 10 with thin.
Qed.

Lemma resolveTask_thins s0 id s : thins s0 s -> thins s0 (resolveTask_ next id s).
Proof. intros H. unfold resolveTask_. auto with thin. Qed.

Lemma executeTask_thins s0 env id s : thins s0 s -> thins s0 (executeTask_ next env id s).
Proof.
  intros H. unfold executeTask_. destruct (tasks s !! id) as [task|]; [|assumption].
  match goal with |- context [if truthy ?t then _ else ?s1] =>
    assert (H1 : thins s0 s1) by auto with thin;
    assert (H2 : thins s0 (if truthy t
                           then let '(h, s2) := setTimer (ExecutionTimer (length (runs s)))
                                                         (now env + default 0 t) s1 in
                                updTask id (task_set_executionTimerId (Some h)) s2
                           else s1)) end.
  { destruct (truthy _); [|assumption].
    match goal with |- context [setTimer ?cb ?due ?s1] =>
      pose proof (th_setTimer s0 cb due s1 H1) as Hs; destruct (setTimer cb due s1) as [h s2] end.
    cbn [snd] in Hs. auto with thin. }
  destruct (throwsSync env id); [|auto with thin].
  apply tryRejectTask_thins. auto 10 with thin.
Qed.

Lemma pickTaskToExecute_thins s0 env s id s1 :
  pickTaskToExecute env s = Some (id, s1) -> thins s0 s -> thins s0 s1.
Proof.
  intros Hp H. unfold pickTaskToExecute in Hp.
  assert (Hq : match DLL.pickFirstMatching (fits s) (queue s) with
               | (Some id, q) => Some (id, set_queue q s)
               | (None, _) => None
               end = Some (id, s1) -> thins s0 s1).
  { pose proof (sublist_pickFirstMatching (fits s) (queue s)) as Hsub.
    destruct (DLL.pickFirstMatching (fits s) (queue s)) as [[x|] q]; [|discriminate].
    intros [= <- <-]. now apply th_set_queue. }
  destruct (DLL.peekFirst (tasksByTimeLimit s)) as [important|]; [|auto].
  destruct (aged env s important); [|auto].
  destruct (fits s important); [|discriminate]. now injection Hp as <- <-.
Qed.

Lemma startNextBody_thins s0 env s : thins s0 s -> thins s0 (startNextBody next env s).
Proof.
  intros H. unfold startNextBody.
  assert (Hgo : thins s0
            (if truthy (maxConcurrent (options s))
                && (default 0 (maxConcurrent (options s)) <=? usedConcurrent s)
             then s
             else match pickTaskToExecute env s with
                  | None => s
                  | Some (taskToExecute, s1) =>
                      let s2 := reserveResources taskToExecute s1 in
                      let s3 := executeTask_ next env taskToExecute s2 in
                      if bool_decide (DLL.length (queue s3) = 0) then disableTimers s3
                      else next s3
                  end)).
  { destruct (truthy _ && _); [assumption|].
    destruct (pickTaskToExecute env s) as [[id s1]|] eqn:Hp; [|assumption].
    pose proof (pickTaskToExecute_thins s0 env s id s1 Hp H) as H1. cbv zeta.
    assert (H3 : thins s0 (executeTask_ next env id (reserveResources id s1)))
      by (apply executeTask_thins; auto with thin).
    destruct (bool_decide _); auto with thin. }
  destruct (stopped s) as [st|]; [|exact Hgo].
  destruct (bool_decide (DLL.length (queue s) = 0)); [auto with thin|exact Hgo].
Qed.
End ThinsOfLoop.

Lemma startNextRounds_thins rounds env : forall s0 s, thins s0 s -> thins s0 (startNextRounds rounds env s).
Proof.
  induction rounds as [|rounds IH]; intros s0 s H; cbn [startNextRounds]; [assumption|].
  now apply startNextBody_thins.
Qed.

Lemma th_startNextTaskIfPossible s0 env s : thins s0 s -> thins s0 (startNextTaskIfPossible env s).
Proof. apply startNextRounds_thins. Qed.

Lemma th_tryRejectTask s0 env id e s : thins s0 s -> thins s0 (tryRejectTask env id e s).
Proof. apply tryRejectTask_thins. intros ? ?. apply th_startNextTaskIfPossible. Qed.

Lemma th_resolveTask s0 env id s : thins s0 s -> thins s0 (resolveTask env id s).
Proof. apply resolveTask_thins. intros ? ?. apply th_startNextTaskIfPossible. Qed.

#[local] Hint Resolve th_startNextTaskIfPossible th_tryRejectTask th_resolveTask : thin.

Lemma th_whenUnfinished s0 r k s :
  (forall id s, thins s0 s -> thins s0 (k id s)) -> thins s0 s -> thins s0 (whenUnfinished r k s).
Proof.
  intros Hk H. unfold whenUnfinished. destruct (runs s !! r) as [x|]; [|assumption].
  destruct (finished x); [assumption|]. apply Hk. auto with thin.
Qed.

Lemma th_applyRuleByInterval s0 env rule s : thins s0 s -> thins s0 (applyRuleByInterval env rule s).
Proof. intros H. unfold applyRuleByInterval. auto with thin. Qed.

Lemma th_getUsedCapacity s0 env s : thins s0 s -> thins s0 (snd (getUsedCapacity env s)).
Proof.
  intros H. unfold getUsedCapacity. cbn [snd]. destruct (areTimersEnabled s); auto with thin.
Qed.

Lemma th_setUsedCapacity s0 env v s : thins s0 s -> thins s0 (stateOf (setUsedCapacity env v s)).
Proof.
  intros H. unfold setUsedCapacity. destruct (checkUsedCapacity _ _); cbn [stateOf]; auto with thin.
Qed.

Lemma th_adjustUsedCapacity s0 env d s : thins s0 s -> thins s0 (stateOf (adjustUsedCapacity env d s)).
Proof.
  intros H. unfold adjustUsedCapacity. destruct (maxCapacity (options s)); cbn [stateOf]; auto with thin.
Qed.

Lemma th_setOptions s0 env o s : thins s0 s -> thins s0 (stateOf (setOptions env o s)).
Proof.
  intros H. unfold setOptions. destruct (firstError _); cbn [stateOf]; auto with thin.
Qed.

Lemma th_stop s0 env params s : thins s0 s -> thins s0 (snd (stop env params s)).
Proof.
  intros H. unfold stop.
  match goal with |- context [set_stopped (Some (mkStopped None)) ?a] =>
    assert (H1 : thins s0 a); [|generalize dependent a; intros s1 H1] end.
  { destruct (match params with Some p => _ | None => None end) as [p|]; [|assumption].
    destruct (stopWaitingTasks p || rejectExecutingTasks p || stopWaitingTasks p); [|assumption].
    destruct (stopWaitingTasks p); destruct (rejectExecutingTasks p); destruct (stopTaskRetries p);
      auto 12 with thin. }
  destruct (bool_decide _); cbn [snd]; auto 10 with thin.
Qed.

#[local] Hint Resolve th_whenUnfinished th_applyRuleByInterval th_getUsedCapacity
  th_setUsedCapacity th_adjustUsedCapacity th_setOptions th_stop : thin.

(** *** All the steps *)

Lemma evolves_same s0 s s' :
  tasks s' = tasks s -> runs s' = runs s -> stopped s' = stopped s ->
  evolves s0 s -> evolves s0 s'.
Proof. intros H1 H2 H3 (K1 & K2 & K3). unfold evolves. now rewrite H1, H2, H3. Qed.

Lemma ev_enqueue s0 env id task s : evolves s0 s -> evolves s0 (enqueue env id task s).
Proof.
  intros H. unfold enqueue.
  apply (thins_evolves s0 (insertIntoQueue id task s)); [|auto 6 with thin].
  now apply (evolves_same s0 s).
Qed.

Lemma ev_scheduleTask s0 env id s : evolves s0 s -> evolves s0 (stateOf (scheduleTask env id s)).
Proof.
  intros H. unfold scheduleTask. destruct (tasks s !! id) as [task|]; [|assumption].
  destruct (stopped s); [apply (thins_evolves s0 s); [assumption|]; cbn [stateOf]; auto with thin|].
  pose proof (th_admissionChecks s id task s (thins_refl s)) as H1.
  destruct (admissionChecks id task s) as [s1|e s1]; cbn [stateOf] in *;
    [|now apply (thins_evolves s0 s)].
  pose proof (th_queueOverflow s1 id task s1 (thins_refl s1)) as H2.
  destruct (queueOverflow id task s1) as [s2|s2]; cbn [stateOf].
  - apply (thins_evolves s0 (enqueue env id task s2)); [|auto with thin].
    apply ev_enqueue. apply (thins_evolves s0 s1); [|assumption]. now apply (thins_evolves s0 s).
  - apply (thins_evolves s0 s1); [|assumption]. now apply (thins_evolves s0 s).
Qed.

Lemma ev_schedule s0 env p s : evolves s0 s -> evolves s0 (stateOf (schedule env p s)).
Proof.
  intros H. unfold schedule. apply ev_scheduleTask.
  apply (thins_evolves s0 s); [assumption|auto with thin].
Qed.

Lemma th_timerFired s0 env h s :
  ~ admits s (TimerFired h) -> thins s0 s -> thins s0 (stateOf (timerFired env h s)).
Proof.
  intros Hn H. unfold timerFired. cbn [admits] in Hn.
  destruct (timers s !! h) as [[t|]|]; try assumption.
  destruct (callback t) as [id|r|id|rule|rule]; cbn [stateOf].
  - auto with thin.
  - apply th_whenUnfinished; auto with thin.
  - now destruct Hn.
  - match goal with |- context [setTimer ?cb ?due ?s1] =>
      assert (H1 : thins s0 s1) by auto with thin;
      pose proof (th_setTimer s0 cb due s1 H1) as Hs; destruct (setTimer cb due s1) as [h1 s2] end.
    cbn [snd stateOf] in *. auto with thin.
  - auto with thin.
Qed.

Lemma th_step s0 env ev s :
  ~ admits s ev -> thins s0 s -> thins s0 (stateOf (step env ev s)).
Proof.
  intros Hn H.
  destruct ev as [p|r|r e|h|call r| |v|d|o|p]; cbn [step stateOf];
    [now destruct Hn|apply th_whenUnfinished|apply th_whenUnfinished|now apply th_timerFired|..];
    auto with thin.
Qed.

Lemma ev_step s0 env ev s : evolves s0 s -> evolves s0 (stateOf (step env ev s)).
Proof.
  intros H. destruct ev;
    try (apply (thins_evolves s0 s); [assumption|]; apply th_step; [solve [intros []]|apply thins_refl]).
  - now apply ev_schedule.
  - cbn [step]. unfold timerFired.
    destruct (timers s !! handle) as [[t|]|] eqn:Ht;
      try (destruct (callback t) as [id|r|id|rule|rule] eqn:Hcb);
      try (apply (thins_evolves s0 s); [assumption|];
           pose proof (th_timerFired s env handle s) as Hth; unfold timerFired in Hth;
           rewrite Ht in Hth; try rewrite Hcb in Hth; apply Hth; [|apply thins_refl];
           cbn [admits]; rewrite Ht; try rewrite Hcb; tauto).
    apply ev_scheduleTask. apply (thins_evolves s0 s); [assumption|auto with thin].
Qed.

Lemma ev_run events : forall s0 s, evolves s0 s -> evolves s0 (run events s).
Proof.
  induction events as [|[env ev] rest IH]; intros s0 s H; cbn [run]; [assumption|].
  apply IH. now apply ev_step.
Qed.

(** *** The order of the queue *)

Lemma ascending_sublist {A : Type} (key : A -> Z) (l' l : list A) :
  sublist l' l -> ascending key l -> ascending key l'.
Proof.
  induction 1 as [|x l1 l2 Hsub IH|x l1 l2 Hsub IH]; cbn [ascending]; [tauto| |].
  - intros [H1 H2]. split; [|auto]. rewrite Forall_forall in *. intros b Hb.
    apply H1. now apply (elem_of_sublist l1 l2).
  - intros [_ H2]. auto.
Qed.

Lemma ascending_ext {A : Type} (key key' : A -> Z) (l : list A) :
  Forall (fun x => key' x = key x) l -> ascending key l -> ascending key' l.
Proof.
  induction l as [|a l IH]; cbn [ascending]; [tauto|].
  intros Hall [H1 H2]. apply Forall_cons in Hall as [Ha Hl]. split; [|auto].
  rewrite Forall_forall in *. intros b Hb. rewrite Ha, (Hl b Hb). auto.
Qed.

Lemma putAfter_ascending {A : Type} (key : A -> Z) (v : A) (c : A -> bool) (l : list A) :
  (forall x, c x = (key x <=? key v)) ->
  ascending key l -> ascending key (DLL.putAfter v c l).
Proof.
  intros Hc Hl. destruct (putAfter_stops v c l) as (l1 & l2 & -> & -> & H2 & H1).
  apply ascending_app in Hl as (Ha1 & Ha2 & H12).
  assert (Hle : Forall (fun x => key x <= key v) l1).
  { destruct (last l1) as [x|] eqn:Hlast.
    - rewrite Hc in H1. apply Z.leb_le in H1.
      apply (Forall_impl _ _ _ (ascending_bounded_by_last key l1 x Ha1 Hlast)). intros a Ha. lia.
    - apply last_None in Hlast. subst l1. constructor. }
  assert (Hgt : Forall (fun x => key v <= key x) l2).
  { apply (Forall_impl _ _ _ H2). intros x Hx. rewrite Hc in Hx. apply Z.leb_gt in Hx. lia. }
  apply ascending_app. split; [assumption|]. split; [cbn [ascending]; now split|].
  rewrite Forall_forall in *. intros a Ha. constructor; [now apply Hle|]. now apply H12.
Qed.

Lemma priorityOf_evolves s s' id t :
  evolves s s' -> tasks s !! id = Some t ->
  exists t', tasks s' !! id = Some t' /\ priority t' = priority t /\ priorityOf s' id = priorityOf s id.
Proof.
  intros (H1 & _) Ht. destruct (H1 id t Ht) as (t' & Ht' & Hp & _). exists t'.
  unfold priorityOf. now rewrite Ht, Ht'.
Qed.

Lemma byPriority_thins s s' : byPriority s -> thins s s' -> byPriority s'.
Proof.
  intros [Hq Ha] [He Hsub].
  assert (Hin : forall id, id ∈ queue s' -> id ∈ queue s)
    by (intros id Hid; now apply (elem_of_sublist (queue s') (queue s))).
  split.
  - intros id Hid. destruct (Hq id (Hin id Hid)) as (t & Ht & Hp).
    destruct (priorityOf_evolves s s' id t He Ht) as (t' & Ht' & Hp' & _).
    exists t'. split; [assumption|]. now rewrite Hp'.
  - apply (ascending_ext (priorityOf s)); [|now apply (ascending_sublist _ _ (queue s))].
    apply Forall_forall. intros id Hid. destruct (Hq id (Hin id Hid)) as (t & Ht & _).
    now destruct (priorityOf_evolves s s' id t He Ht) as (t' & _ & _ & ->).
Qed.

Lemma byPriority_insertIntoQueue id task t s :
  tasks s !! id = Some t -> priority t = priority task -> 0 <= priority task <= maxPriority ->
  byPriority s -> byPriority (insertIntoQueue id task s).
Proof.
  intros Ht Hp Hr [Hq Ha]. unfold insertIntoQueue. split.
  - intros x Hx. cbn [queue tasks set_queue set_tasksByTimeAdded] in *.
    apply elem_of_putAfter in Hx as [->|Hx]; [|auto].
    exists t. split; [assumption|]. now rewrite Hp.
  - change (ascending (priorityOf s)
              (DLL.putAfter id (fun other => priorityOf s other <=? priority task) (queue s))).
    apply putAfter_ascending; [|assumption].
    intros x. cbv beta. replace (priorityOf s id) with (priority task); [reflexivity|].
    unfold priorityOf. now rewrite Ht.
Qed.

Lemma admissionChecks_priority id task s s1 :
  admissionChecks id task s = Normal s1 -> 0 <= priority task <= maxPriority.
Proof.
  unfold admissionChecks.
  destruct (match maxCapacity (options s) with Some m => m <? capacity task | None => false end);
    destruct (optTaskExceedsMaxCapacityStrategy (options s)); try discriminate;
    (destruct (_ <? 0); [discriminate|]);
    (destruct (priority task <? 0) eqn:H1; [discriminate|]);
    (destruct (maxPriority <? priority task) eqn:H2; [discriminate|]);
    intros _; apply Z.ltb_ge in H1; apply Z.ltb_ge in H2; lia.
Qed.

Lemma scheduleTask_byPriority env id s :
  byPriority s -> byPriority (stateOf (scheduleTask env id s)).
Proof.
  intros H. unfold scheduleTask. destruct (tasks s !! id) as [task|] eqn:Ht; [|assumption].
  destruct (stopped s);
    [apply (byPriority_thins s); [assumption|]; cbn [stateOf]; auto with thin|].
  pose proof (th_admissionChecks s id task s (thins_refl s)) as H1.
  pose proof (admissionChecks_priority id task s) as Hr.
  destruct (admissionChecks id task s) as [s1|e s1]; cbn [stateOf] in *;
    [|now apply (byPriority_thins s)].
  specialize (Hr s1 eq_refl).
  pose proof (th_queueOverflow s1 id task s1 (thins_refl s1)) as H2.
  destruct (queueOverflow id task s1) as [s2|s2]; cbn [stateOf].
  - assert (H12 : thins s s2) by now apply (thins_trans s s1 s2).
    destruct (priorityOf_evolves s s2 id task (proj1 H12) Ht) as (t2 & Ht2 & Hp2 & _).
    apply (byPriority_thins (insertIntoQueue id task s2)).
    + apply (byPriority_insertIntoQueue id task t2); try assumption.
      now apply (byPriority_thins s).
    + unfold enqueue. auto 6 with thin.
  - apply (byPriority_thins s); [assumption|]. now apply (thins_trans s s1 s2).
Qed.

Lemma step_byPriority env ev s : byPriority s -> byPriority (stateOf (step env ev s)).
Proof.
  intros H. destruct ev;
    try (apply (byPriority_thins s); [assumption|]; apply th_step; [solve [intros []]|apply thins_refl]).
  - cbn [step]. unfold schedule. apply scheduleTask_byPriority.
    apply (byPriority_thins s); [assumption|auto with thin].
  - cbn [step]. unfold timerFired.
    destruct (timers s !! handle) as [[t|]|] eqn:Ht;
      try (destruct (callback t) as [id|r|id|rule|rule] eqn:Hcb);
      try (apply (byPriority_thins s); [assumption|];
           pose proof (th_timerFired s env handle s) as Hth; unfold timerFired in Hth;
           rewrite Ht in Hth; try rewrite Hcb in Hth; apply Hth; [|apply thins_refl];
           cbn [admits]; rewrite Ht; try rewrite Hcb; tauto).
    apply scheduleTask_byPriority. apply (byPriority_thins s); [assumption|auto with thin].
Qed.

Lemma run_byPriority events : forall s, byPriority s -> byPriority (run events s).
Proof.
  induction events as [|[env ev] rest IH]; intros s H; cbn [run]; [assumption|].
  apply IH. now apply step_byPriority.
Qed.

Lemma constructor_byPriority env o : byPriority (stateOf (constructor env o)).
Proof.
  assert (H0 : byPriority (initialState o)) by (split; [intros id Hid; inversion Hid|exact I]).
  unfold constructor. destruct (firstError _); cbn [stateOf]; [assumption|].
  apply (byPriority_thins (initialState o)); [assumption|auto with thin].
Qed.

(** X15.  In every state a run from the constructor reaches, the queue
    is in the order of the priorities, the most urgent first, and every
    queued task is a task of the store with a priority from 0 to
    [maxPriority]. *)
Theorem queue_in_order_of_priority (env0 : Env) (o : CapacityLimiterOptions)
    (events : list (Env * Event)) :
  let s := run events (stateOf (constructor env0 o)) in
  ascending (priorityOf s) (queue s) /\
  (forall id, id ∈ queue s ->
     exists t, tasks s !! id = Some t /\ 0 <= priority t <= maxPriority).
Proof.
  cbv zeta. destruct (run_byPriority events _ (constructor_byPriority env0 o)) as [H1 H2].
  now split.
Qed.

(** X16.  In a state whose queue is in the order of the priorities (as it
    is in every state a run reaches), when no time limit has passed and
    the loop gets past its two early returns: the loop calls nothing when
    no queued task fits, and else calls first a queued task that fits and
    is at least as urgent as every other queued task that fits. *)
Theorem most_urgent_fitting_first (env : Env) (s : State) :
  ascending (priorityOf s) (queue s) ->
  (forall h, DLL.peekFirst (tasksByTimeLimit s) = Some h -> aged env s h = false) ->
  passesGates s ->
  ((forall id, id ∈ queue s -> fits s id = false) /\
   log (startNextTaskIfPossible env s) = log s) \/
  (exists id rest,
     id ∈ queue s /\ fits s id = true /\
     (forall other, other ∈ queue s -> fits s other = true ->
                    priorityOf s id <= priorityOf s other) /\
     log (startNextTaskIfPossible env s) = log s ++ CallbackInvoked id :: rest).
Proof.
  intros Hasc Hage Hg.
  assert (Hp : pickTaskToExecute env s
               = match DLL.pickFirstMatching (fits s) (queue s) with
                 | (Some id, q) => Some (id, set_queue q s)
                 | (None, _) => None
                 end).
  { unfold pickTaskToExecute. destruct (DLL.peekFirst (tasksByTimeLimit s)) as [h|]; [|reflexivity].
    now rewrite (Hage h eq_refl). }
  pose proof (pickFirstMatching_split (fits s) (queue s)) as Hs.
  destruct (DLL.pickFirstMatching (fits s) (queue s)) as [[b|] q].
  - right. destruct Hs as (l1 & l2 & Hl & _ & Hunfit & Hb).
    destruct (startNextBody_dispatch (startNextRounds (length (queue s)) env) env s b
                (set_queue q s)) as [rest Hrest]; [|assumption..|].
    { intros s0. apply startNextRounds_log. }
    exists b, rest. rewrite Hl. split; [apply elem_of_app; right; left|].
    split; [assumption|]. split; [|exact Hrest].
    intros other Hin Hfit. rewrite Hl in Hasc.
    apply ascending_app in Hasc as (_ & [Hb2 _] & _).
    apply elem_of_app in Hin as [Hin|Hin].
    + rewrite Forall_forall in Hunfit. rewrite (Hunfit other Hin) in Hfit. discriminate.
    + apply elem_of_cons in Hin as [->|Hin]; [lia|].
      rewrite Forall_forall in Hb2. now apply Hb2.
  - left. destruct Hs as [_ Hunfit]. split; [now apply Forall_forall|].
    destruct (startNextBody_idle (startNextRounds (length (queue s)) env) env s Hp) as [H|[st H]];
      unfold startNextTaskIfPossible; cbn [startNextRounds]; rewrite H; [reflexivity|].
    unfold stoppedResolve. now destruct (stoppedPromise st).
Qed.

Lemma most_urgent_fitting_first_witness :
  queue roomMade = [2%nat; 1%nat] /\
  exists rest,
    fits roomMade 2%nat = true /\ fits roomMade 1%nat = true /\
    priorityOf roomMade 2%nat <= priorityOf roomMade 1%nat /\
    log (startNextTaskIfPossible (at_ 4) roomMade)
    = log roomMade ++ CallbackInvoked 2%nat :: rest.
Proof.
  split; [reflexivity|].
  destruct (most_urgent_fitting_first (at_ 4) roomMade)
    as [[Hnone _]|(id & rest & Hin & Hfit & Hmin & Hlog)].
  - change (queue roomMade) with [2%nat; 1%nat]. cbn [ascending].
    repeat first [split | apply Forall_nil | apply Forall_cons]. vm_compute. discriminate.
  - intros h Hh. vm_compute in Hh. discriminate.
  - split; [|reflexivity]. intros [[st Hst] _]. vm_compute in Hst. discriminate.
  - specialize (Hnone 2%nat). exfalso.
    assert (H : fits roomMade 2%nat = false) by (apply Hnone; vm_compute; left).
    vm_compute in H. discriminate.
  - exists rest. split; [reflexivity|]. split; [reflexivity|]. split; [vm_compute; discriminate|].
    assert (Hid : id = 2%nat).
    { change (queue roomMade) with [2%nat; 1%nat] in Hin.
      apply elem_of_cons in Hin as [->|Hin]; [reflexivity|].
      apply elem_of_cons in Hin as [->|Hin]; [|inversion Hin]. exfalso.
      assert (H : priorityOf roomMade 1%nat <= priorityOf roomMade 2%nat)
        by (apply Hmin; [vm_compute; left|reflexivity]).
      vm_compute in H. now apply H. }
    now rewrite <- Hid.
Defined.

(** *** A stopped limiter *)

Lemma stop_stopped env params s : is_Some (stopped (snd (stop env params s))).
Proof.
  unfold stop.
  match goal with |- context [set_stopped (Some (mkStopped None)) ?a] =>
    generalize a; intros s1 end.
  destruct (bool_decide _); cbn [snd]; [|now eexists].
  match goal with |- is_Some (stopped (startNextTaskIfPossible env ?a)) =>
    destruct (th_startNextTaskIfPossible a env a (thins_refl a)) as [(_ & _ & H) _] end.
  apply H. now eexists.
Qed.

Lemma scheduleTask_stopped env id s :
  is_Some (stopped s) -> thins s (stateOf (scheduleTask env id s)).
Proof.
  intros [st Hst]. unfold scheduleTask. destruct (tasks s !! id); [|apply thins_refl].
  rewrite Hst. cbn [stateOf]. auto with thin.
Qed.

Lemma step_stopped s0 env ev s :
  is_Some (stopped s) -> thins s0 s -> thins s0 (stateOf (step env ev s)).
Proof.
  intros Hst H. apply (thins_trans s0 s); [assumption|].
  destruct ev as [p|r|r e|h|call r| |v|d|o|p];
    try (apply th_step; [solve [intros []]|apply thins_refl]).
  - cbn [step]. unfold schedule.
    apply (thins_trans s (set_tasks (tasks s ++ [newTask env p]) s)); [auto with thin|].
    now apply scheduleTask_stopped.
  - cbn [step]. unfold timerFired.
    destruct (timers s !! h) as [[t|]|] eqn:Ht;
      try (destruct (callback t) as [id|r|id|rule|rule] eqn:Hcb);
      try (pose proof (th_timerFired s env h s) as Hth; unfold timerFired in Hth;
           rewrite Ht in Hth; try rewrite Hcb in Hth; apply Hth; [|apply thins_refl];
           cbn [admits]; rewrite Ht; try rewrite Hcb; tauto).
    match goal with |- thins s (stateOf (scheduleTask env id ?a)) =>
      apply (thins_trans s a); [auto with thin|now apply scheduleTask_stopped] end.
Qed.

Lemma run_stopped events :
  forall s0 s, is_Some (stopped s) -> thins s0 s -> thins s0 (run events s).
Proof.
  induction events as [|[env ev] rest IH]; intros s0 s Hst H; cbn [run]; [assumption|].
  pose proof (step_stopped s env ev s Hst (thins_refl s)) as [(_ & _ & H1) _].
  apply IH; [auto|]. now apply step_stopped.
Qed.

(** X17.  A limiter that was stopped stays stopped whatever happens
    next: no task enters its queue any more, the tasks left in it keep
    their order, and [schedule] returns a promise that is rejected with
    [stopped], with nothing else changed. *)
Theorem stopped_for_good (env : Env) (params : option StopParams) (s : State)
    (events : list (Env * Event)) :
  let s1 := snd (stop env params s) in
  let s2 := run events s1 in
  is_Some (stopped s2) /\
  queue s2 `sublist_of` queue s1 /\
  (forall env' p,
     schedule env' p s2
     = Normal (rejectTask (length (tasks s2)) (CapacityLimiterError stopped_error)
                 (set_tasks (tasks s2 ++ [newTask env' p]) s2))).
Proof.
  cbv zeta. pose proof (stop_stopped env params s) as Hst.
  destruct (run_stopped events _ _ Hst (thins_refl _)) as [(_ & _ & H1) H2].
  specialize (H1 Hst). split; [assumption|]. split; [assumption|].
  intros env' p. unfold schedule, scheduleTask. cbn [tasks set_tasks stopped].
  rewrite lookup_app_r by lia. rewrite Nat.sub_diag. cbn [lookup list_lookup].
  destruct H1 as [st ->]. reflexivity.
Qed.

(** *** The completion of a run *)

Lemma whenUnfinished_finished r k s :
  (forall s0 id s, thins s0 s -> thins s0 (k id s)) ->
  (r < length (runs s))%nat ->
  exists x, runs (whenUnfinished r k s) !! r = Some x /\ finished x = true.
Proof.
  intros Hk Hr. unfold whenUnfinished.
  destruct (lookup_lt_is_Some_2 (runs s) r Hr) as [x Hx]. rewrite Hx.
  destruct (finished x) eqn:Hf; [eauto|].
  match goal with |- context [k (ex_task x) ?a] =>
    assert (Ha : runs a !! r = Some (mkExecution (ex_task x) true))
      by (cbn [finishRun runs set_runs set_executingTasks];
          now rewrite list_lookup_alter_eq, Hx);
    destruct (Hk a (ex_task x) a (thins_refl a)) as [(_ & H2 & _) _];
    destruct (H2 r _ Ha) as (x' & Hx' & _ & Hf') end.
  exists x'. split; [assumption|]. now apply Hf'.
Qed.

Lemma step_completes env ev r s :
  (r < length (runs s))%nat -> completes s ev r ->
  exists x, runs (stateOf (step env ev s)) !! r = Some x /\ finished x = true.
Proof.
  intros Hr Hc. destruct ev as [p|r'|r' e|h|call r'| |v|d|o|p]; cbn [completes] in Hc;
    try contradiction.
  - subst r'. cbn [step stateOf]. apply whenUnfinished_finished; auto with thin.
  - subst r'. cbn [step stateOf]. apply whenUnfinished_finished; auto with thin.
  - destruct Hc as (t & Ht & Hcb). cbn [step]. unfold timerFired. rewrite Ht, Hcb. cbn [stateOf].
    apply whenUnfinished_finished; auto with thin.
Qed.

(** X18.  The completion of a run is handled once: after the callable of
    a run has settled or its execution timer has fired, and whatever
    happens next, a settlement of that run, resolved or rejected, changes
    nothing, and its execution timer does no more than clear itself. *)
Theorem completion_is_handled_once (env : Env) (first : Event) (r : nat) (s : State)
    (events : list (Env * Event)) :
  (r < length (runs s))%nat ->
  completes s first r ->
  let s2 := run events (stateOf (step env first s)) in
  forall env',
    step env' (CallbackResolved r) s2 = Normal s2 /\
    (forall e, step env' (CallbackRejected r e) s2 = Normal s2) /\
    (forall h t, timers s2 !! h = Some (Some t) -> callback t = ExecutionTimer r ->
       step env' (TimerFired h) s2 = Normal (clearTimer h s2)).
Proof.
  intros Hr Hc s2 env'.
  destruct (step_completes env first r s Hr Hc) as (x & Hx & Hf).
  destruct (ev_run events _ _ (evolves_refl (stateOf (step env first s)))) as (_ & H2 & _).
  destruct (H2 r x Hx) as (x2 & Hx2 & _ & Hf2). specialize (Hf2 Hf). fold s2 in Hx2.
  assert (Hw : forall k s', runs s' = runs s2 -> whenUnfinished r k s' = s').
  { intros k s' Hs'. unfold whenUnfinished. now rewrite Hs', Hx2, Hf2. }
  split; [|split].
  - cbn [step]. now rewrite Hw.
  - intros e. cbn [step]. now rewrite Hw.
  - intros h t Ht Hcb. cbn [step]. unfold timerFired. rewrite Ht, Hcb. now rewrite Hw.
Qed.

Lemma completion_is_handled_once_witness :
  let s2 := run [ (at_ 20, Schedule (ofCapacity 1)) ]
                (stateOf (step (at_ 10) (CallbackResolved 0%nat) oneQueued)) in
  (0 < length (runs oneQueued))%nat /\
  step (at_ 30) (CallbackResolved 0%nat) s2 = Normal s2 /\
  step (at_ 30) (CallbackRejected 0%nat (TaskFailure 1)) s2 = Normal s2.
Proof.
  cbv zeta.
  destruct (completion_is_handled_once (at_ 10) (CallbackResolved 0%nat) 0%nat oneQueued
              [ (at_ 20, Schedule (ofCapacity 1)) ]) with (env' := at_ 30) as (H1 & H2 & _).
  - vm_compute. lia.
  - reflexivity.
  - split; [vm_compute; lia|]. split; [exact H1|apply H2].
Defined.

(** ** Reconfiguration and admission *)

Lemma besideRules_addRules env rules : forall s, besideRules (addRules env rules s) = besideRules s.
Proof.
  induction rules as [|rule rest IH]; intros s; cbn [addRules]; [reflexivity|].
  destruct (hasRule rule (releaseTimers s)); [apply IH|]. rewrite IH.
  destruct (releaseRuleTimersEnabled _); [|reflexivity].
  now rewrite besideRules_setRuleTimerWithDelay.
Qed.

Lemma besideRules_dropRules rules entries :
  forall s, besideRules (dropRules rules entries s) = besideRules s.
Proof.
  induction entries as [|[rule status] rest IH]; intros s; cbn [dropRules]; [reflexivity|].
  destruct (bool_decide (rule ∈ rules)); [apply IH|]. rewrite IH.
  change (besideRules (set_releaseTimers ?l ?x)) with (besideRules x).
  apply besideRules_clearReleaseRuleTimer.
Qed.

Lemma besideRules_setRules env rules s : besideRules (setRules env rules s) = besideRules s.
Proof. unfold setRules. now rewrite besideRules_dropRules, besideRules_addRules. Qed.

Lemma log_addRules env rules : forall s, log (addRules env rules s) = log s.
Proof.
  induction rules as [|rule rest IH]; intros s; cbn [addRules]; [reflexivity|].
  destruct (hasRule rule (releaseTimers s)); [apply IH|]. rewrite IH.
  destruct (releaseRuleTimersEnabled _); [|reflexivity].
  now rewrite log_setRuleTimerWithDelay.
Qed.

Lemma log_dropRules rules entries : forall s, log (dropRules rules entries s) = log s.
Proof.
  induction entries as [|[rule status] rest IH]; intros s; cbn [dropRules]; [reflexivity|].
  destruct (bool_decide (rule ∈ rules)); [apply IH|]. rewrite IH.
  change (log (set_releaseTimers ?l ?x)) with (log x). apply log_clearReleaseRuleTimer.
Qed.

Lemma log_setRules env rules s : log (setRules env rules s) = log s.
Proof. unfold setRules. now rewrite log_dropRules, log_addRules. Qed.

(** X19.  [setOptions] checks [maxCapacity], [capacityStrategy] and the
    release rules as the constructor does and throws [invalid-argument]
    with nothing changed; it does not look at the capacity in use: the
    options are replaced even when [usedCapacity] is above the new
    [maxCapacity], the used capacity, the queue and the tasks stay as
    they are, and no task is started. *)
Theorem setOptions_validates (env : Env) (o : CapacityLimiterOptions) (s : State) :
  match setOptions env o s with
  | Normal s' =>
      (forall m, maxCapacity o = Some m -> 0 <= m) /\
      (maxCapacity o = None ->
       (capacityStrategy o = None \/ capacityStrategy o = Some capacity_undefined) /\
       default [] (releaseRules o) = []) /\
      getOptions s' = o /\ options s' = o /\
      usedCapacity s' = usedCapacity s /\ usedConcurrent s' = usedConcurrent s /\
      queue s' = queue s /\ tasks s' = tasks s /\ runs s' = runs s /\
      stopped s' = stopped s /\ log s' = log s
  | Throw e s' =>
      e = CapacityLimiterError invalid_argument /\ s' = s /\
      ((exists m, maxCapacity o = Some m /\ m < 0) \/
       (maxCapacity o = None /\
        ((capacityStrategy o = Some reserve \/ capacityStrategy o = Some claim) \/
         exists r rs, releaseRules o = Some (r :: rs))))
  end.
Proof.
  unfold setOptions.
  destruct (maxCapacity o) as [m|] eqn:Hm; cbn [firstError checkMaxCapacity].
  - destruct (m <? 0) eqn:Hneg.
    + apply Z.ltb_lt in Hneg. split; [reflexivity|]. split; [reflexivity|]. left. eauto.
    + apply Z.ltb_ge in Hneg.
      assert (Hcs : checkCapacityStrategy (capacityStrategy o) (Some m) = None)
        by now destruct (capacityStrategy o) as [[| |]|].
      assert (Hrr : checkReleaseRules (releaseRules o) (Some m) = None)
        by now destruct (releaseRules o) as [[|]|].
      rewrite Hcs, Hrr. cbn [firstError].
      match goal with |- context [setRules env ?r ?a] =>
        pose proof (besideRules_setRules env r a) as Hb;
        pose proof (setRules_accounts env r a) as Ha;
        pose proof (log_setRules env r a) as Hl end.
      unfold besideRules in Hb. unfold accountsButRules in Ha.
      injection Hb as Hb1 Hb2 _ _ Hb5 Hb6 _ _ Hb9 Hb10 Hb11 _ _.
      injection Ha as Ha1 _ _ _ _ _.
      split; [intros ? [= <-]; assumption|]. split; [discriminate|].
      unfold getOptions. repeat split; assumption.
  - destruct (capacityStrategy o) as [[| |]|] eqn:Hcs; cbn [firstError checkCapacityStrategy];
      [split; [reflexivity|]; split; [reflexivity|]; right; split; [reflexivity|]; left; auto..
      | |];
      (destruct (releaseRules o) as [[|r rs]|] eqn:Hrr; cbn [firstError checkReleaseRules];
        [|split; [reflexivity|]; split; [reflexivity|]; right; split; [reflexivity|]; right; eauto|];
        match goal with |- context [setRules env ?r ?a] =>
          pose proof (besideRules_setRules env r a) as Hb;
          pose proof (setRules_accounts env r a) as Ha;
          pose proof (log_setRules env r a) as Hl end;
        unfold besideRules in Hb; unfold accountsButRules in Ha;
        injection Hb as Hb1 Hb2 _ _ Hb5 Hb6 _ _ Hb9 Hb10 Hb11 _ _;
        injection Ha as Ha1 _ _ _ _ _;
        (split; [discriminate|]); (split; [intros _; split; [auto|reflexivity]|]);
        unfold getOptions; repeat split; assumption).
Qed.

Lemma admissionChecks_spec id task s :
  let exceeds := match maxCapacity (options s) with
                 | Some m => m <? capacity task
                 | None => false
                 end in
  let capacity' := if exceeds then default 0 (maxCapacity (options s)) else capacity task in
  match admissionChecks id task s with
  | Throw e s' =>
      (queue s', usedCapacity s', usedConcurrent s', log s')
      = (queue s, usedCapacity s, usedConcurrent s, log s) /\
      ((e = CapacityLimiterError max_capacity_exceeded /\ exceeds = true /\
        optTaskExceedsMaxCapacityStrategy (options s) = exceeds_throw_error) \/
       (e = CapacityLimiterError invalid_argument /\
        (capacity' < 0 \/ priority task < 0 \/ maxPriority < priority task)))
  | Normal s' =>
      (exceeds = true -> optTaskExceedsMaxCapacityStrategy (options s) <> exceeds_throw_error) /\
      0 <= capacity' /\ 0 <= priority task <= maxPriority
  end.
Proof.
  cbv zeta. unfold admissionChecks.
  destruct (match maxCapacity (options s) with Some m => m <? capacity task | None => false end);
    destruct (optTaskExceedsMaxCapacityStrategy (options s)) eqn:Hst;
    try (split; [reflexivity|left; auto]);
    (destruct (_ <? 0) eqn:H0;
     [apply Z.ltb_lt in H0; split; [reflexivity|right; auto]|apply Z.ltb_ge in H0]);
    (destruct (priority task <? 0) eqn:H1;
     [apply Z.ltb_lt in H1; split; [reflexivity|right; auto]|apply Z.ltb_ge in H1]);
    (destruct (maxPriority <? priority task) eqn:H2;
     [apply Z.ltb_lt in H2; split; [reflexivity|right; auto]|apply Z.ltb_ge in H2]);
    cbn [orb]; repeat split; auto; try discriminate; lia.
Qed.

(** X20.  What [schedule] throws on a limiter that is not stopped:
    [max-capacity-exceeded] for a capacity above [maxCapacity] under the
    strategy [throw-error], [invalid-argument] for a negative capacity
    (after the cut to [maxCapacity] of every other strategy,
    [wait-for-full-capacity] or the key given as [undefined]) and for a
    priority outside 0 to [maxPriority]; a throw leaves the queue, the
    used capacity and the calls made as they were.  In every other case
    it returns, the task is a task of the store with the priority asked
    for, the time of the call and its parameters. *)
Theorem schedule_validates (env : Env) (p : TaskParams) (s : State) :
  stopped s = None ->
  let c := default defaultCapacity (p_capacity p) in
  let pr := default defaultPriority (p_priority p) in
  let exceeds := match maxCapacity (options s) with Some m => m <? c | None => false end in
  let c' := if exceeds then default 0 (maxCapacity (options s)) else c in
  match schedule env p s with
  | Throw e s' =>
      (queue s', usedCapacity s', usedConcurrent s', log s')
      = (queue s, usedCapacity s, usedConcurrent s, log s) /\
      ((e = CapacityLimiterError max_capacity_exceeded /\ exceeds = true /\
        optTaskExceedsMaxCapacityStrategy (options s) = exceeds_throw_error) \/
       (e = CapacityLimiterError invalid_argument /\ (c' < 0 \/ pr < 0 \/ maxPriority < pr)))
  | Normal s' =>
      (exceeds = true -> optTaskExceedsMaxCapacityStrategy (options s) <> exceeds_throw_error) /\
      0 <= c' /\ 0 <= pr <= maxPriority /\
      exists t, tasks s' !! length (tasks s) = Some t /\
                priority t = pr /\ timeAdded t = now env /\ params t = p
  end.
Proof.
  intros Hst. cbv zeta.
  set (s0 := set_tasks (tasks s ++ [newTask env p]) s).
  assert (Hid : tasks s0 !! length (tasks s) = Some (newTask env p)).
  { unfold s0. cbn [tasks set_tasks]. rewrite lookup_app_r by lia. now rewrite Nat.sub_diag. }
  destruct (ev_scheduleTask s0 env (length (tasks s)) s0 (evolves_refl s0)) as (Hev & _ & _).
  destruct (Hev _ _ Hid) as (t & Ht & Hsame). destruct Hsame as (Hp & Ha & Hpar & _).
  pose proof (admissionChecks_spec (length (tasks s)) (newTask env p) s0) as Hspec.
  cbv zeta in Hspec. change (options s0) with (options s) in Hspec.
  change (capacity (newTask env p)) with (default defaultCapacity (p_capacity p)) in Hspec.
  change (priority (newTask env p)) with (default defaultPriority (p_priority p)) in Hspec.
  unfold schedule. fold s0. unfold scheduleTask in *. rewrite Hid in *.
  change (stopped s0) with (stopped s) in *. rewrite Hst in *.
  destruct (admissionChecks (length (tasks s)) (newTask env p) s0) as [s1|e s1].
  - destruct Hspec as (H1 & H2 & H3).
    destruct (queueOverflow (length (tasks s)) (newTask env p) s1) as [s2|s2];
      cbn [stateOf] in Ht; (split; [assumption|]); (split; [assumption|]);
      (split; [assumption|]); exists t; auto.
  - exact Hspec.
Qed.

Lemma schedule_validates_witness :
  exists s', schedule (at_ 2) (mkParams (Some 5) (Some 2) None None None None) oneQueued
             = Normal s' /\
             exists t, tasks s' !! 2%nat = Some t /\ priority t = 2 /\ timeAdded t = 2.
Proof.
  pose proof (schedule_validates (at_ 2) (mkParams (Some 5) (Some 2) None None None None)
                oneQueued eq_refl) as H.
  cbv zeta in H.
  destruct (schedule (at_ 2) (mkParams (Some 5) (Some 2) None None None None) oneQueued)
    as [s'|e s'] eqn:Hs; [|vm_compute in Hs; discriminate].
  exists s'. split; [reflexivity|].
  destruct H as (_ & _ & _ & t & Ht & Hp & Ha & _). exists t. auto.
Defined.

(** ** The slots of concurrency *)

Lemma keepsSlots_refl s : keepsSlots s s.
Proof. reflexivity. Qed.

Lemma keepsSlots_trans s1 s2 s3 : keepsSlots s1 s2 -> keepsSlots s2 s3 -> keepsSlots s1 s3.
Proof. unfold keepsSlots. congruence. Qed.

Lemma keepsSlots_sym s s' : keepsSlots s s' -> keepsSlots s' s.
Proof. unfold keepsSlots. congruence. Qed.

Lemma ks_same s0 s s' :
  usedConcurrent s' = usedConcurrent s -> runs s' = runs s -> tasks s' = tasks s ->
  keepsSlots s0 s -> keepsSlots s0 s'.
Proof. unfold keepsSlots, slotsOf, inFlight. intros -> -> ->. auto. Qed.

Ltac ks_same :=
  intros; match goal with H : keepsSlots ?s0 ?s |- _ => apply (ks_same s0 s); [reflexivity..|exact H] end.

Lemma ks_set_usedCapacity s0 v s : keepsSlots s0 s -> keepsSlots s0 (set_usedCapacity v s).
Proof. ks_same. Qed.
Lemma ks_set_queue s0 v s : keepsSlots s0 s -> keepsSlots s0 (set_queue v s).
Proof. ks_same. Qed.
Lemma ks_set_tasksByTimeAdded s0 v s : keepsSlots s0 s -> keepsSlots s0 (set_tasksByTimeAdded v s).
Proof. ks_same. Qed.
Lemma ks_set_tasksByTimeLimit s0 v s : keepsSlots s0 s -> keepsSlots s0 (set_tasksByTimeLimit v s).
Proof. ks_same. Qed.
Lemma ks_set_options s0 v s : keepsSlots s0 s -> keepsSlots s0 (set_options v s).
Proof. ks_same. Qed.
Lemma ks_set_originalOptions s0 v s : keepsSlots s0 s -> keepsSlots s0 (set_originalOptions v s).
Proof. ks_same. Qed.
Lemma ks_set_releaseTimers s0 v s : keepsSlots s0 s -> keepsSlots s0 (set_releaseTimers v s).
Proof. ks_same. Qed.
Lemma ks_set_releaseRuleTimersEnabled s0 v s :
  keepsSlots s0 s -> keepsSlots s0 (set_releaseRuleTimersEnabled v s).
Proof. ks_same. Qed.
Lemma ks_set_retryTimers s0 v s : keepsSlots s0 s -> keepsSlots s0 (set_retryTimers v s).
Proof. ks_same. Qed.
Lemma ks_set_executingTasks s0 v s : keepsSlots s0 s -> keepsSlots s0 (set_executingTasks v s).
Proof. ks_same. Qed.
Lemma ks_set_stopped s0 v s : keepsSlots s0 s -> keepsSlots s0 (set_stopped v s).
Proof. ks_same. Qed.
Lemma ks_set_stopPromises s0 v s : keepsSlots s0 s -> keepsSlots s0 (set_stopPromises v s).
Proof. ks_same. Qed.
Lemma ks_set_log s0 v s : keepsSlots s0 s -> keepsSlots s0 (set_log v s).
Proof. ks_same. Qed.
Lemma ks_set_timers s0 v s : keepsSlots s0 s -> keepsSlots s0 (set_timers v s).
Proof. ks_same. Qed.
Lemma ks_set_onFailureCalls s0 v s : keepsSlots s0 s -> keepsSlots s0 (set_onFailureCalls v s).
Proof. ks_same. Qed.
Lemma ks_emit s0 e s : keepsSlots s0 s -> keepsSlots s0 (emit e s).
Proof. ks_same. Qed.
Lemma ks_clearTimer s0 h s : keepsSlots s0 s -> keepsSlots s0 (clearTimer h s).
Proof. ks_same. Qed.
Lemma ks_setTimer s0 cb due s : keepsSlots s0 s -> keepsSlots s0 (snd (setTimer cb due s)).
Proof. ks_same. Qed.
Lemma ks_updStatus s0 rule f s : keepsSlots s0 s -> keepsSlots s0 (updStatus rule f s).
Proof. ks_same. Qed.

Lemma ks_besideRules s0 s s' : besideRules s' = besideRules s -> keepsSlots s0 s -> keepsSlots s0 s'.
Proof.
  unfold besideRules. intros [= H1 _ _ _ _ _ _ _ _ H3 H2 _ _]. now apply ks_same.
Qed.

Lemma map_alter_same {A B} (g : A -> B) (f : A -> A) (i : nat) (l : list A) :
  (forall x, g (f x) = g x) -> map g (alter f i l) = map g l.
Proof.
  intros Hf. revert i. induction l as [|a l IH]; intros [|i]; cbn; [reflexivity..| |].
  - now rewrite Hf.
  - now rewrite IH.
Qed.

Lemma ks_updTask s0 id f s : keepsSlot f -> keepsSlots s0 s -> keepsSlots s0 (updTask id f s).
Proof.
  unfold keepsSlots, slotsOf, inFlight, updTask. cbn [usedConcurrent runs tasks set_tasks].
  intros Hf <-. now rewrite (map_alter_same reservedConcurrent f id (tasks s) Hf).
Qed.

Lemma keepsSlot_capacity v : keepsSlot (task_set_capacity v).
Proof. intros t. reflexivity. Qed.
Lemma keepsSlot_reservedCapacity v : keepsSlot (task_set_reservedCapacity v).
Proof. intros t. reflexivity. Qed.
Lemma keepsSlot_timeLimit v : keepsSlot (task_set_timeLimit v).
Proof. intros t. reflexivity. Qed.
Lemma keepsSlot_executionTimerId v : keepsSlot (task_set_executionTimerId v).
Proof. intros t. reflexivity. Qed.
Lemma keepsSlot_queueWaitingTimerId v : keepsSlot (task_set_queueWaitingTimerId v).
Proof. intros t. reflexivity. Qed.
Lemma keepsSlot_retryAttempt v : keepsSlot (task_set_retryAttempt v).
Proof. intros t. reflexivity. Qed.
Lemma keepsSlot_settle o : keepsSlot (fun t => task_set_promise (settle o (promise t)) t).
Proof. intros t. reflexivity. Qed.

Create HintDb slots.
#[local] Hint Resolve keepsSlots_refl ks_set_usedCapacity ks_set_queue ks_set_tasksByTimeAdded
  ks_set_tasksByTimeLimit ks_set_options ks_set_originalOptions ks_set_releaseTimers
  ks_set_releaseRuleTimersEnabled ks_set_retryTimers ks_set_executingTasks ks_set_stopped
  ks_set_stopPromises ks_set_log ks_set_timers ks_set_onFailureCalls ks_emit ks_clearTimer
  ks_updStatus ks_updTask keepsSlot_capacity keepsSlot_reservedCapacity keepsSlot_timeLimit
  keepsSlot_executionTimerId keepsSlot_queueWaitingTimerId keepsSlot_retryAttempt
  keepsSlot_settle : slots.

Lemma ks_rejectTask s0 id e s : keepsSlots s0 s -> keepsSlots s0 (rejectTask id e s).
Proof. intros H. unfold rejectTask. auto with slots. Qed.

Lemma ks_resolveTaskPromise s0 id s : keepsSlots s0 s -> keepsSlots s0 (resolveTaskPromise id s).
Proof. intros H. unfold resolveTaskPromise. auto with slots. Qed.

Lemma ks_removeTaskFromQueues s0 id s : keepsSlots s0 s -> keepsSlots s0 (removeTaskFromQueues id s).
Proof. intros H. unfold removeTaskFromQueues. auto with slots. Qed.

Lemma ks_stoppedResolve s0 st s : keepsSlots s0 s -> keepsSlots s0 (stoppedResolve st s).
Proof. intros H. unfold stoppedResolve. destruct (stoppedPromise st); auto with slots. Qed.

#[local] Hint Resolve ks_rejectTask ks_resolveTaskPromise ks_removeTaskFromQueues
  ks_stoppedResolve : slots.

Lemma ks_foldl {A} (f : State -> A -> State) s0 l :
  (forall s a, keepsSlots s0 s -> keepsSlots s0 (f s a)) ->
  forall s, keepsSlots s0 s -> keepsSlots s0 (foldl f s l).
Proof. intros Hf. induction l as [|a l IH]; cbn [foldl]; auto. Qed.

Lemma ks_rejectEach s0 ids e s : keepsSlots s0 s -> keepsSlots s0 (rejectEach ids e s).
Proof. unfold rejectEach. apply ks_foldl. auto with slots. Qed.

Lemma ks_rejectAll s0 e s : keepsSlots s0 s -> keepsSlots s0 (rejectAll e s).
Proof.
  intros H. unfold rejectAll. apply ks_set_retryTimers. apply ks_foldl; [|assumption].
  auto with slots.
Qed.

Lemma ks_applyRule s0 rule times s : keepsSlots s0 s -> keepsSlots s0 (applyRule rule times s).
Proof. apply ks_besideRules, besideRules_applyRule. Qed.

Lemma ks_applyMissedRules s0 now s : keepsSlots s0 s -> keepsSlots s0 (applyMissedRules now s).
Proof. apply ks_besideRules, besideRules_applyMissedRules. Qed.

Lemma ks_enableTimers s0 env s : keepsSlots s0 s -> keepsSlots s0 (enableTimers env s).
Proof. apply ks_besideRules, besideRules_enableTimers. Qed.

Lemma ks_disableTimers s0 s : keepsSlots s0 s -> keepsSlots s0 (disableTimers s).
Proof. apply ks_besideRules, besideRules_disableTimers. Qed.

Lemma ks_setRules s0 env rules s : keepsSlots s0 s -> keepsSlots s0 (setRules env rules s).
Proof. apply ks_besideRules, besideRules_setRules. Qed.

#[local] Hint Resolve ks_rejectEach ks_rejectAll ks_applyRule ks_applyMissedRules ks_enableTimers
  ks_disableTimers ks_setRules : slots.

Lemma ks_admissionChecks s0 id task s :
  keepsSlots s0 s -> keepsSlots s0 (stateOf (admissionChecks id task s)).
Proof.
  intros H. unfold admissionChecks.
  destruct (match maxCapacity (options s) with Some m => m <? capacity task | None => false end);
    destruct (optTaskExceedsMaxCapacityStrategy (options s));
    repeat match goal with |- context [if ?b then _ else _] => destruct b end;
    cbn [stateOf]; auto with slots.
Qed.

Lemma ks_queueOverflow s0 id task s :
  keepsSlots s0 s -> match queueOverflow id task s with inl s' | inr s' => keepsSlots s0 s' end.
Proof.
  intros H. unfold queueOverflow.
  destruct (truthy (maxQueueSize (options s)) && _); [|assumption].
  destruct (optQueueSizeExceededStrategy (options s)).
  - auto with slots.
  - destruct (DLL.shift (tasksByTimeAdded s)) as [[oldest|] rest]; auto with slots.
  - destruct (DLL.peekLast (queue s)) as [least|]; [|auto with slots].
    destruct (priority task <? priorityOf s least); auto with slots.
  - assumption.
Qed.

Lemma ks_insertByTimeLimit s0 id task s :
  keepsSlots s0 s -> keepsSlots s0 (insertByTimeLimit id task s).
Proof.
  intros H. unfold insertByTimeLimit. destruct (truthy (queuedTimeLimit task s)); auto with slots.
Qed.

Lemma ks_armQueueWaitingTimer s0 env id task s :
  keepsSlots s0 s -> keepsSlots s0 (armQueueWaitingTimer env id task s).
Proof.
  intros H. unfold armQueueWaitingTimer.
  destruct (truthy _ && _); [|assumption].
  match goal with |- context [setTimer ?cb ?due ?s1] =>
    pose proof (ks_setTimer s0 cb due s1 H) as Hs;
    destruct (setTimer cb due s1) as [h s2] end.
  cbn [snd] in Hs. auto with slots.
Qed.

Lemma ks_enqueue s0 env id task s : keepsSlots s0 s -> keepsSlots s0 (enqueue env id task s).
Proof.
  intros H. unfold enqueue, insertIntoQueue.
  apply ks_enableTimers, ks_armQueueWaitingTimer, ks_insertByTimeLimit. auto with slots.
Qed.

Lemma ks_setRetryTimer s0 env id timeout s :
  keepsSlots s0 s -> keepsSlots s0 (setRetryTimer env id timeout s).
Proof.
  intros H. unfold setRetryTimer.
  match goal with |- context [setTimer ?cb ?due ?s1] =>
    assert (H1 : keepsSlots s0 s1) by auto with slots;
    pose proof (ks_setTimer s0 cb due s1 H1) as Hs;
    destruct (setTimer cb due s1) as [h s2] end.
  cbn [snd] in Hs. auto with slots.
Qed.

#[local] Hint Resolve ks_admissionChecks ks_insertByTimeLimit ks_armQueueWaitingTimer ks_enqueue
  ks_setRetryTimer : slots.

Lemma ks_useStrategy s0 env id strategy e attempt s :
  keepsSlots s0 s -> keepsSlots s0 (useStrategy env id strategy e attempt s).
Proof.
  intros H. unfold useStrategy. destruct strategy as [o|f].
  - destruct (_ <? _); auto with slots.
  - auto with slots.
Qed.

Lemma ks_onFailureSettled s0 env call r s :
  keepsSlots s0 s -> keepsSlots s0 (onFailureSettled env call r s).
Proof.
  intros H. unfold onFailureSettled. destruct (onFailureCalls s !! call) as [[c|]|]; try assumption.
  destruct r; auto with slots.
Qed.

#[local] Hint Resolve ks_useStrategy ks_onFailureSettled : slots.

(** *** The loop, for any invariant *)

Lemma executeTask_onward next env id s :
  executeTask_ next env id s = executeTask_ (fun s => s) env id s \/
  executeTask_ next env id s = next (executeTask_ (fun s => s) env id s).
Proof.
  unfold executeTask_. destruct (tasks s !! id); [|now left].
  destruct (throwsSync env id); [right|left]; reflexivity.
Qed.

Section LoopInvariant.
Variable I : State -> Prop.
Hypothesis I_stoppedResolve : forall st s, I s -> I (stoppedResolve st s).
Hypothesis I_dispatch :
  forall env s id s1, I s ->
    truthy (maxConcurrent (options s))
    && (default 0 (maxConcurrent (options s)) <=? usedConcurrent s) = false ->
    pickTaskToExecute env s = Some (id, s1) ->
    I (executeTask_ (fun s => s) env id (reserveResources id s1)).
Hypothesis I_disableTimers : forall s, I s -> I (disableTimers s).

Lemma startNextBody_invariant next env s :
  (forall s, I s -> I (next s)) -> I s -> I (startNextBody next env s).
Proof.
  intros Hnext Hs. unfold startNextBody.
  assert (Hgo : I (if truthy (maxConcurrent (options s))
                      && (default 0 (maxConcurrent (options s)) <=? usedConcurrent s)
                   then s
                   else match pickTaskToExecute env s with
                        | None => s
                        | Some (taskToExecute, s1) =>
                            let s2 := reserveResources taskToExecute s1 in
                            let s3 := executeTask_ next env taskToExecute s2 in
                            if bool_decide (DLL.length (queue s3) = 0) then disableTimers s3
                            else next s3
                        end)).
  { destruct (truthy _ && _) eqn:Hgate; [assumption|].
    destruct (pickTaskToExecute env s) as [[id s1]|] eqn:Hp; [|assumption].
    pose proof (I_dispatch env s id s1 Hs Hgate Hp) as H3. cbv zeta.
    assert (H4 : I (executeTask_ next env id (reserveResources id s1))).
    { destruct (executeTask_onward next env id (reserveResources id s1)) as [-> | ->]; auto. }
    destruct (bool_decide _); auto. }
  destruct (stopped s) as [st|]; [|exact Hgo].
  destruct (bool_decide (DLL.length (queue s) = 0)); [auto|exact Hgo].
Qed.

Lemma startNextRounds_invariant rounds env : forall s, I s -> I (startNextRounds rounds env s).
Proof.
  induction rounds as [|rounds IH]; intros s Hs; cbn [startNextRounds]; [assumption|].
  now apply startNextBody_invariant.
Qed.

Lemma startNextTaskIfPossible_invariant env s : I s -> I (startNextTaskIfPossible env s).
Proof. apply startNextRounds_invariant. Qed.
End LoopInvariant.

(** The functions of the loop up to their call of the loop keep the
    tasks in place. *)
Lemma onward_indexed (s : State) :
  indexed s -> indexed s /\ (length (queue s) <= length (queue s))%nat.
Proof. auto. Qed.

Lemma tryRejectTask_onward_placed env id e s :
  indexed s -> id ∉ tasksByTimeLimit s -> unplaced id s ->
  placed (tryRejectTask_ (fun s => s) env id e s).
Proof.
  intros Hi Hid Hroom. split.
  - destruct (tryRejectTask_before_next (fun s => s) env id e s Hid) as (s' & -> & Hk).
    now apply (indexed_keepsIndex s).
  - apply tryRejectTask_onePlace; auto using onward_indexed.
Qed.

Lemma resolveTask_onward_placed id s :
  indexed s -> id ∉ tasksByTimeLimit s -> unplaced id s ->
  placed (resolveTask_ (fun s => s) id s).
Proof.
  intros Hi Hid Hroom. unfold resolveTask_. split.
  - apply (indexed_keepsIndex s); [assumption|].
    apply ki_resolveTaskPromise, ki_releaseTaskResources; [assumption|apply keepsIndex_refl].
  - apply (onePlace_spends s); [now apply (unplaced_onePlace id)|].
    apply fnp_resolveTaskPromise, fnp_releaseTaskResources, fillsNoPlace_refl.
Qed.

Lemma dispatch_onward_placed env s id s1 :
  placed s -> pickTaskToExecute env s = Some (id, s1) ->
  placed (executeTask_ (fun s => s) env id (reserveResources id s1)).
Proof.
  intros [Hi Hl] Hp.
  destruct (dispatch_indexed env s id s1 Hi Hp) as (H1 & H2 & _).
  pose proof (dispatch_room env s id s1 Hi Hl Hp) as Hroom. split.
  - now apply (executeTask_indexed (fun s => s) onward_indexed).
  - apply executeTask_onePlace; auto using onward_indexed.
Qed.

Lemma enqueue_placed env id task s :
  indexed s -> unplaced id s -> placed (enqueue env id task s).
Proof.
  intros Hi Hroom. destruct (unplaced_absent id s Hi Hroom) as [Hq _].
  assert (Hid : exists t, tasks s !! id = Some t).
  { destruct Hroom as (_ & _ & Hlt). destruct (lookup_lt_is_Some_2 _ _ Hlt) as [t Ht]. eauto. }
  destruct Hid as [t Hid]. split.
  - now apply (indexed_enqueue env id task t).
  - apply (onePlace_bump id s); [assumption| |].
    + intros x. apply (placesOf_enqueue env id task s x).
    + apply (placesOf_enqueue env id task s id).
Qed.

(** *** The slots along a step *)

Lemma slots_lookup s s' :
  keepsSlots s s' ->
  forall i t', tasks s' !! i = Some t' ->
    exists t, tasks s !! i = Some t /\ reservedConcurrent t = reservedConcurrent t'.
Proof.
  unfold keepsSlots, slotsOf. intros [= _ _ Hm] i t' Ht'.
  assert (H : map reservedConcurrent (tasks s') !! i = Some (reservedConcurrent t'))
    by (rewrite list_lookup_fmap, Ht'; reflexivity).
  rewrite Hm, list_lookup_fmap in H. destruct (tasks s !! i) as [t|]; [|discriminate].
  exists t. split; [reflexivity|]. now injection H.
Qed.

Lemma slotted_keeps s s' : slotted s -> keepsSlots s s' -> slotted s'.
Proof.
  intros [H1 H2] Hk. pose proof (slots_lookup s s' Hk) as Hl.
  unfold keepsSlots, slotsOf in Hk. injection Hk as Hu Hf _. split.
  - now rewrite Hu, Hf.
  - intros id t' Ht'. destruct (Hl id t' Ht') as (t & Ht & <-). rewrite Hf. now apply H2.
Qed.

Lemma owing_keeps id s s' : owing id s -> keepsSlots s s' -> owing id s'.
Proof.
  intros (H1 & (t & Ht & Hrc) & H3 & H4) Hk.
  pose proof (slots_lookup s s' Hk) as Hl.
  assert (Hk' : keepsSlots s' s) by (unfold keepsSlots in *; congruence).
  pose proof (slots_lookup s' s Hk') as Hl'.
  unfold keepsSlots, slotsOf in Hk. injection Hk as Hu Hf _.
  split; [now rewrite Hu, Hf|]. split; [|split; [now rewrite Hf|]].
  - destruct (Hl' id t Ht) as (t' & Ht' & Hrc'). exists t'. split; [assumption|congruence].
  - intros i t' Hne Ht'. destruct (Hl i t' Ht') as (t0 & Ht0 & <-). rewrite Hf. now apply H4.
Qed.

Lemma reserveResources_slots id s t :
  tasks s !! id = Some t ->
  usedConcurrent (reserveResources id s) = usedConcurrent s + 1 /\
  runs (reserveResources id s) = runs s /\
  (exists t', tasks (reserveResources id s) !! id = Some t' /\ reservedConcurrent t' = Some 1) /\
  forall i, i <> id -> tasks (reserveResources id s) !! i = tasks s !! i.
Proof.
  intros Hid. unfold reserveResources, updTask, clearTimer. rewrite Hid.
  destruct (maxCapacity (options s)); [destruct (optCapacityStrategy (options s))|];
    cbn; destruct (queueWaitingTimerId t); cbn; destruct (truthy (timeLimit t)); cbn;
    (split; [reflexivity|]; split; [reflexivity|]; split;
     [eexists; rewrite ?list_lookup_alter_eq, ?Hid; cbn; split; reflexivity
     |intros i Hne; rewrite ?list_lookup_alter_ne by congruence; reflexivity]).
Qed.

Lemma releaseTaskResources_slots id s t :
  tasks s !! id = Some t -> reservedConcurrent t = Some 1 ->
  usedConcurrent (releaseTaskResources id s) = Z.max 0 (usedConcurrent s - 1) /\
  runs (releaseTaskResources id s) = runs s /\
  (exists t', tasks (releaseTaskResources id s) !! id = Some t' /\
              reservedConcurrent t' = Some 0) /\
  forall i, i <> id -> tasks (releaseTaskResources id s) !! i = tasks s !! i.
Proof.
  intros Hid Hrc. unfold releaseTaskResources, updTask, clearTimer. rewrite Hid, Hrc.
  cbn [truthy default Z.eqb negb].
  destruct (truthy (reservedCapacity t) && _); destruct (executionTimerId t); cbn;
    (split; [reflexivity|]; split; [reflexivity|]; split;
     [eexists; rewrite ?list_lookup_alter_eq, ?Hid; cbn; split; reflexivity
     |intros i Hne; rewrite ?list_lookup_alter_ne by congruence; reflexivity]).
Qed.

Lemma inFlight_newRun id s :
  inFlight (set_runs (runs s ++ [mkExecution id false]) s) = inFlight s ++ [id].
Proof. unfold inFlight. cbn [runs set_runs]. now rewrite omap_app. Qed.

Lemma inFlight_finishRun r s x :
  runs s !! r = Some x -> finished x = false ->
  exists l1 l2, inFlight s = l1 ++ ex_task x :: l2 /\ inFlight (finishRun r s) = l1 ++ l2.
Proof.
  intros Hr Hf. unfold inFlight, finishRun. cbn [runs set_runs].
  revert r Hr. induction (runs s) as [|y l IH]; intros [|r] Hr; try discriminate.
  - injection Hr as ->. exists [], (omap runToken l). cbn.
    unfold runToken at 1. rewrite Hf. split; reflexivity.
  - destruct (IH r Hr) as (l1 & l2 & H1 & H2). cbn [alter list_alter omap list_omap].
    change (list_alter ?f r l) with (alter f r l). rewrite H1, H2.
    destruct (runToken y) as [a|]; [exists (a :: l1), l2|exists l1, l2]; split; reflexivity.
Qed.

Lemma owing_reserve id s t :
  slotted s -> tasks s !! id = Some t -> occurrences id (inFlight s) = 0%nat ->
  owing id (reserveResources id s).
Proof.
  intros [H1 H2] Hid Hocc.
  destruct (reserveResources_slots id s t Hid) as (Hu & Hr & Ht & Ho).
  unfold owing, inFlight in *. rewrite Hu, Hr. split; [lia|]. split; [assumption|].
  split; [assumption|]. intros i t' Hne Hi. rewrite Ho in Hi by assumption. now apply H2.
Qed.

Lemma slotted_newRun id s :
  owing id s -> slotted (set_runs (runs s ++ [mkExecution id false]) s).
Proof.
  intros (H1 & (t & Ht & Hrc) & H3 & H4). split.
  - rewrite inFlight_newRun, length_app. cbn [usedConcurrent set_runs length]. lia.
  - intros i t' Hi. cbn [tasks set_runs] in Hi. rewrite inFlight_newRun, occurrences_app.
    rewrite occurrences_cons, occurrences_nil.
    destruct (decide (i = id)) as [->|Hne].
    + rewrite oneFor_same, H3. rewrite Ht in Hi. injection Hi as <-. now rewrite Hrc.
    + rewrite (oneFor_other id i) by congruence. rewrite (H4 i t' Hne Hi). lia.
Qed.

Lemma owing_finishRun r s x :
  slotted s -> runs s !! r = Some x -> finished x = false ->
  occurrences (ex_task x) (inFlight s) = 1%nat -> is_Some (tasks s !! ex_task x) ->
  owing (ex_task x) (finishRun r s).
Proof.
  intros [H1 H2] Hr Hf Hocc [t Ht].
  destruct (inFlight_finishRun r s x Hr Hf) as (l1 & l2 & Hl & Hl').
  rewrite Hl in *. rewrite occurrences_app, occurrences_cons, oneFor_same in Hocc.
  unfold owing. rewrite Hl'. cbn [usedConcurrent tasks finishRun set_runs].
  split; [rewrite H1, !length_app; cbn [length]; lia|]. split.
  - exists t. split; [assumption|]. specialize (H2 _ _ Ht).
    rewrite occurrences_app, occurrences_cons, oneFor_same in H2.
    destruct (reservedConcurrent t) as [z|]; cbn [default from_option] in H2;
      unfold id in H2; [f_equal; lia|lia].
  - split; [rewrite occurrences_app; lia|].
    intros i t' Hne Hi. rewrite (H2 i t' Hi).
    rewrite !occurrences_app, occurrences_cons, (oneFor_other (ex_task x) i) by congruence. lia.
Qed.

Lemma slotted_release id s : owing id s -> slotted (releaseTaskResources id s).
Proof.
  intros (H1 & (t & Ht & Hrc) & H3 & H4).
  destruct (releaseTaskResources_slots id s t Ht Hrc) as (Hu & Hr & (t' & Ht' & Hrc') & Ho).
  unfold slotted, inFlight in *. rewrite Hu, Hr. split; [lia|].
  intros i t0 Hi. destruct (decide (i = id)) as [->|Hne].
  - rewrite Ht' in Hi. injection Hi as <-. rewrite Hrc', H3. reflexivity.
  - rewrite Ho in Hi by assumption. now apply H4.
Qed.

Lemma counted_keeps s s' :
  counted s -> keepsIndex s s' -> fillsNoPlace s s' -> keepsSlots s s' -> counted s'.
Proof.
  intros [Hp Hs] Hk Hf Hks. split; [now apply (placed_keeps s)|now apply (slotted_keeps s)].
Qed.

Lemma tryRejectTask_onward_slotted env id e s :
  owing id s -> slotted (tryRejectTask_ (fun s => s) env id e s).
Proof.
  intros Ho. unfold tryRejectTask_. pose proof (slotted_release id s Ho) as H1.
  apply (slotted_keeps _ _ H1).
  destruct (tasks (releaseTaskResources id s) !! id) as [task|]; [|apply keepsSlots_refl].
  destruct (nullish _ _) as [[| |o]|]; auto 10 with slots.
Qed.

Lemma resolveTask_onward_slotted id s :
  owing id s -> slotted (resolveTask_ (fun s => s) id s).
Proof.
  intros Ho. unfold resolveTask_. pose proof (slotted_release id s Ho) as H1.
  apply (slotted_keeps _ _ H1). auto with slots.
Qed.

Lemma pickTaskToExecute_slots env s id s1 :
  pickTaskToExecute env s = Some (id, s1) -> keepsSlots s s1.
Proof.
  unfold pickTaskToExecute.
  assert (Hq : match DLL.pickFirstMatching (fits s) (queue s) with
               | (Some id, q) => Some (id, set_queue q s)
               | (None, _) => None
               end = Some (id, s1) -> keepsSlots s s1).
  { destruct (DLL.pickFirstMatching (fits s) (queue s)) as [[x|] q]; [|discriminate].
    intros [= <- <-]. auto with slots. }
  destruct (DLL.peekFirst (tasksByTimeLimit s)) as [important|]; [|auto].
  destruct (aged env s important); [|auto].
  destruct (fits s important); [|discriminate]. intros [= <- <-]. apply keepsSlots_refl.
Qed.

Lemma unplaced_idle id s : unplaced id s -> occurrences id (inFlight s) = 0%nat.
Proof. intros (_ & H0 & _). unfold placesOf in H0. unfold inFlight. lia. Qed.

Lemma counted_dispatch env s id s1 :
  counted s -> pickTaskToExecute env s = Some (id, s1) ->
  counted (executeTask_ (fun s => s) env id (reserveResources id s1)).
Proof.
  intros [[Hi Hl] Hs] Hp.
  split; [apply (dispatch_onward_placed env s id s1); [now split|assumption]|].
  pose proof (pickTaskToExecute_slots env s id s1 Hp) as Hk1.
  pose proof (slotted_keeps s s1 Hs Hk1) as Hs1.
  destruct (pickTaskToExecute_fits env s id s1 Hp) as (Hfit & Htasks & _).
  unfold fits in Hfit. destruct (tasks s !! id) as [t|] eqn:Hid; [|discriminate].
  rewrite <- Htasks in Hid.
  pose proof (unplaced_idle id _ (dispatch_room env s id s1 Hi Hl Hp)) as Hidle.
  destruct (reserveResources_slots id s1 t Hid) as (_ & Hr2 & _ & _).
  unfold inFlight in Hidle. rewrite Hr2 in Hidle.
  pose proof (owing_reserve id s1 t Hs1 Hid Hidle) as Ho. clear Hr2.
  set (s2 := reserveResources id s1) in *.
  destruct Ho as (Ho1 & (t2 & Ht2 & Hrc2) & Ho3 & Ho4).
  assert (Ho : owing id s2) by (split; [assumption|]; split; eauto).
  unfold executeTask_. rewrite Ht2.
  set (sA := set_runs (runs s2 ++ [mkExecution id false]) s2).
  pose proof (slotted_newRun id s2 Ho) as HsA. fold sA in HsA.
  match goal with |- context [emit (CallbackInvoked id) ?x] => set (sD := emit (CallbackInvoked id) x) end.
  assert (HkD : keepsSlots sA sD).
  { unfold sD. apply ks_emit. destruct (truthy _); [|auto with slots].
    match goal with |- context [setTimer ?cb ?due ?a] =>
      pose proof (ks_setTimer sA cb due a) as Hs';
      destruct (setTimer cb due a) as [h s3] end.
    cbn [snd] in Hs'. auto with slots. }
  pose proof (slotted_keeps sA sD HsA HkD) as HsD.
  destruct (throwsSync env id) as [e|]; [|exact HsD].
  apply tryRejectTask_onward_slotted.
  set (sE := set_executingTasks (setDelete id (executingTasks sD)) sD).
  assert (HkE : keepsSlots sA sE) by (unfold sE; auto with slots).
  assert (HrE : runs sE = runs s2 ++ [mkExecution id false]).
  { unfold keepsSlots, slotsOf in HkE. unfold sE, sD.
    cbn [runs set_executingTasks emit set_log].
    destruct (truthy _); [|reflexivity].
    match goal with |- context [setTimer ?cb ?due ?a] =>
      change (runs (let '(h, s3) := setTimer cb due a in
                    updTask id (task_set_executionTimerId (Some h)) s3))
        with (runs a) end.
    reflexivity. }
  change (owing (ex_task (mkExecution id false)) (finishRun (length (runs s2)) sE)).
  apply owing_finishRun.
  - now apply (slotted_keeps sA sE).
  - rewrite HrE. rewrite lookup_app_r by lia. now rewrite Nat.sub_diag.
  - reflexivity.
  - cbn [ex_task]. unfold inFlight. rewrite HrE, omap_app, occurrences_app.
    unfold inFlight in Ho3. rewrite Ho3.
    change (omap runToken [mkExecution id false]) with [id].
    now rewrite occurrences_cons, occurrences_nil, oneFor_same.
  - cbn [ex_task]. assert (Hk' : keepsSlots sE sA) by now apply keepsSlots_sym.
    destruct (slots_lookup sE sA Hk' id t2 Ht2) as (t3 & Ht3 & _). eauto.
Qed.

Lemma counted_loop env s : counted s -> counted (startNextTaskIfPossible env s).
Proof.
  apply startNextTaskIfPossible_invariant.
  - intros st s0 H. apply (counted_keeps s0); auto with kept places slots.
  - intros env0 s0 id s1 H _. now apply counted_dispatch.
  - intros s0 H. apply (counted_keeps s0); auto with kept places slots.
Qed.

Lemma tryRejectTask_counted env id e s :
  indexed s -> id ∉ tasksByTimeLimit s -> unplaced id s -> owing id s ->
  counted (tryRejectTask env id e s).
Proof.
  intros Hi Hid Hroom Ho.
  change (counted (startNextTaskIfPossible env (tryRejectTask_ (fun s => s) env id e s))).
  apply counted_loop. split.
  - now apply tryRejectTask_onward_placed.
  - now apply tryRejectTask_onward_slotted.
Qed.

Lemma resolveTask_counted env id s :
  indexed s -> id ∉ tasksByTimeLimit s -> unplaced id s -> owing id s ->
  counted (resolveTask env id s).
Proof.
  intros Hi Hid Hroom Ho.
  change (counted (startNextTaskIfPossible env (resolveTask_ (fun s => s) id s))).
  apply counted_loop. split.
  - now apply resolveTask_onward_placed.
  - now apply resolveTask_onward_slotted.
Qed.

Lemma scheduleTask_counted env id s :
  indexed s -> unplaced id s -> slotted s -> counted (stateOf (scheduleTask env id s)).
Proof.
  intros Hi Hroom Hs. pose proof (unplaced_onePlace id s Hroom) as Hl.
  assert (Hc : counted s) by (split; [split|]; assumption).
  unfold scheduleTask.
  destruct (tasks s !! id) as [task|] eqn:Hid; [|assumption].
  destruct (stopped s).
  { cbn [stateOf]. apply (counted_keeps s); auto with kept places slots. }
  pose proof (ki_admissionChecks s id task s (keepsIndex_refl s)) as Hk1.
  pose proof (fnp_admissionChecks s id task s (fillsNoPlace_refl s)) as Hf1.
  pose proof (ks_admissionChecks s id task s (keepsSlots_refl s)) as Hs1.
  destruct (admissionChecks id task s) as [s1|e s1]; cbn [stateOf] in *;
    [|now apply (counted_keeps s)].
  assert (Hi1 : indexed s1) by now apply (indexed_keepsIndex s).
  pose proof (indexed_queueOverflow id task s1 Hi1) as Hi2.
  pose proof (fnp_queueOverflow s1 id task s1 (fillsNoPlace_refl s1)) as Hf2.
  pose proof (ks_queueOverflow s1 id task s1 (keepsSlots_refl s1)) as Hs2.
  destruct (queueOverflow id task s1) as [s2|s2]; cbn [stateOf].
  - apply counted_loop.
    assert (Hroom2 : unplaced id s2).
    { apply (unplaced_spends id s); [assumption|]. eapply fillsNoPlace_trans; eassumption. }
    split; [now apply enqueue_placed|].
    apply (slotted_keeps s); [assumption|]. apply ks_enqueue.
    now apply (keepsSlots_trans s s1 s2).
  - split; [split; [assumption|]|].
    + apply (onePlace_spends s); [assumption|]. eapply fillsNoPlace_trans; eassumption.
    + apply (slotted_keeps s); [assumption|]. now apply (keepsSlots_trans s s1 s2).
Qed.

Lemma schedule_counted env p s : counted s -> counted (stateOf (schedule env p s)).
Proof.
  intros [[[Hnd Hin] Hl] [H1 H2]]. unfold schedule. apply scheduleTask_counted.
  - split; [exact Hnd|]. intros x Hx. destruct (Hin x Hx) as [Hq Ht]. split; [exact Hq|].
    unfold timeLimitOf in *. cbn [tasks set_tasks].
    destruct (tasks s !! x) as [t|] eqn:Hlook; [|discriminate].
    now rewrite (lookup_app_l_Some _ _ _ _ Hlook).
  - split; [|split].
    + intros x. destruct (Hl x) as [Ha Hb].
      rewrite (placesOf_same s (set_tasks _ s)) by reflexivity. split; [assumption|].
      cbn [tasks set_tasks]. rewrite length_app. cbn [length]. intros Hx. apply Hb. lia.
    + rewrite (placesOf_same s (set_tasks _ s)) by reflexivity. apply Hl. lia.
    + cbn [tasks set_tasks]. rewrite length_app. cbn [length]. lia.
  - split; [exact H1|]. intros id t Ht. cbn [tasks set_tasks] in Ht.
    change (inFlight (set_tasks _ s)) with (inFlight s).
    destruct (decide (id < length (tasks s))%nat) as [Hlt|Hge].
    + rewrite lookup_app_l in Ht by assumption. now apply H2.
    + assert (Hid : id = length (tasks s)).
      { apply lookup_lt_Some in Ht. rewrite length_app in Ht. cbn [length] in Ht. lia. }
      subst id. rewrite lookup_app_r in Ht by lia. rewrite Nat.sub_diag in Ht.
      injection Ht as <-. cbn [newTask reservedConcurrent default from_option].
      destruct (Hl (length (tasks s))) as [_ Hb]. specialize (Hb ltac:(lia)).
      unfold placesOf in Hb. unfold inFlight. lia.
Qed.

Lemma inFlight_unfinished r s x :
  runs s !! r = Some x -> finished x = false -> (0 < occurrences (ex_task x) (inFlight s))%nat.
Proof.
  intros Hr Hf. destruct (inFlight_finishRun r s x Hr Hf) as (l1 & l2 & -> & _).
  rewrite occurrences_app, occurrences_cons, oneFor_same. lia.
Qed.

Lemma whenUnfinished_counted r k s :
  (forall id s', indexed s' -> id ∉ tasksByTimeLimit s' -> unplaced id s' -> owing id s' ->
                 counted (k id s')) ->
  counted s -> counted (whenUnfinished r k s).
Proof.
  intros Hk [[Hi Hl] Hs]. unfold whenUnfinished.
  destruct (runs s !! r) as [x|] eqn:Hr; [|now split].
  destruct (finished x) eqn:Hf; [now split|].
  set (sE := set_executingTasks (setDelete (ex_task x) (executingTasks s)) s).
  set (s1 := finishRun r sE).
  assert (Hk1 : keepsIndex s s1) by (unfold s1, sE; auto with kept).
  assert (Hroom : unplaced (ex_task x) s1).
  { apply (unplaced_consume _ s); [assumption| |reflexivity].
    intros y. pose proof (placesOf_finishRun r sE y) as H.
    change (runs sE) with (runs s) in H. rewrite Hr in H.
    cbn [from_option] in H. unfold runToken in H. rewrite Hf in H.
    rewrite (placesOf_same s sE) in H by reflexivity. fold s1 in H. lia. }
  assert (Hi1 : indexed s1) by now apply (indexed_keepsIndex s).
  apply Hk; [assumption|now apply unplaced_absent|assumption|].
  pose proof (inFlight_unfinished r s x Hr Hf) as Hpos.
  destruct (Hl (ex_task x)) as [Hle Hout].
  apply owing_finishRun; [exact Hs|exact Hr|exact Hf| |].
  - change (inFlight sE) with (inFlight s). unfold placesOf in Hle. unfold inFlight in *. lia.
  - change (tasks sE) with (tasks s). apply lookup_lt_is_Some_2.
    destruct (decide (ex_task x < length (tasks s))%nat) as [Hlt|Hge]; [assumption|].
    specialize (Hout ltac:(lia)). unfold placesOf in Hout. unfold inFlight in Hpos. lia.
Qed.

Lemma applyRuleByInterval_counted env rule s : counted s -> counted (applyRuleByInterval env rule s).
Proof.
  intros H. unfold applyRuleByInterval. apply counted_loop.
  apply (counted_keeps s); auto with kept places slots.
Qed.

Lemma timerFired_counted env handle s : counted s -> counted (stateOf (timerFired env handle s)).
Proof.
  intros Hc. pose proof (timerFired_placed env handle s (proj1 Hc)) as Hpl.
  unfold timerFired in *.
  destruct (timers s !! handle) as [[t|]|] eqn:Harmed; [|assumption..].
  destruct (callback t) as [id|r|id|rule|rule] eqn:Hcb; cbn [stateOf] in *.
  - split; [assumption|]. apply (slotted_keeps s); [apply Hc|auto with slots].
  - apply whenUnfinished_counted.
    + intros id s'. apply tryRejectTask_counted.
    + apply (counted_keeps s); auto with kept places slots.
  - destruct Hc as [[Hi Hl] Hs].
    assert (Hroom : unplaced id (clearTimer handle s)).
    { apply (unplaced_consume _ s); [assumption| |reflexivity].
      intros y. pose proof (placesOf_clearTimer handle s y) as H. rewrite Harmed in H.
      cbn [from_option retryToken] in H. rewrite Hcb in H. lia. }
    apply scheduleTask_counted.
    + apply (indexed_keepsIndex s); auto with kept.
    + apply (unplaced_spends id (clearTimer handle s)); auto with places.
    + apply (slotted_keeps s); auto with slots.
  - unfold setTimer at 1. cbv beta iota. cbn [stateOf].
    apply applyRuleByInterval_counted. apply (counted_keeps s); [assumption| | |].
    + apply ki_updStatus. apply ki_set_timers. auto with kept.
    + apply fnp_updStatus.
      apply (fnp_setTimer s (RuleInterval rule) (now env + interval rule) (clearTimer handle s)
               eq_refl). auto with places.
    + auto with slots.
  - now apply applyRuleByInterval_counted.
Qed.

Lemma stop_counted env params s : counted s -> counted (snd (stop env params s)).
Proof.
  intros [[Hi Hl] Hs]. unfold stop.
  match goal with |- context [set_stopped (Some (mkStopped None)) ?x] => set (s1 := x) end.
  assert (H1 : placed s1 /\ keepsSlots s s1).
  { unfold s1.
    destruct (match params with
              | Some p => if stopAll p then Some (mkStopParams false true true true) else Some p
              | None => None end) as [p|]; [|split; [now split|apply keepsSlots_refl]].
    destruct (stopWaitingTasks p || rejectExecutingTasks p || stopWaitingTasks p);
      [|split; [now split|apply keepsSlots_refl]].
    match goal with |- placed (if stopTaskRetries p then rejectAll ?e ?a else ?a) /\ _ =>
      assert (Ha : placed a /\ keepsSlots s a) end.
    { match goal with |- placed (if rejectExecutingTasks p then _ else ?b) /\ _ =>
        assert (Hb : placed b /\ keepsSlots s b) end.
      { destruct (stopWaitingTasks p); [|split; [now split|apply keepsSlots_refl]].
        split; [split|auto 10 with slots].
        - now apply indexed_emptied.
        - apply (onePlace_spends s); [assumption|]. auto 10 with places. }
      destruct Hb as [Hb1 Hb2]. destruct (rejectExecutingTasks p); [|now split].
      split; [|auto with slots].
      apply (placed_keeps _ _ Hb1); [auto with kept|auto with places]. }
    destruct Ha as [Ha1 Ha2]. destruct (stopTaskRetries p); [|now split].
    split; [|auto with slots].
    apply (placed_keeps _ _ Ha1); [auto with kept|auto with places]. }
  destruct H1 as [H1 H2].
  assert (Hc1 : counted s1) by (split; [assumption|now apply (slotted_keeps s)]).
  destruct (bool_decide _); cbn [snd].
  - apply counted_loop. apply (counted_keeps _ _ Hc1); auto with kept places slots.
  - apply (counted_keeps _ _ Hc1); auto with kept places slots.
Qed.

Lemma step_counted env ev s : counted s -> counted (stateOf (step env ev s)).
Proof.
  intros Hc. pose proof (step_placed env ev s (proj1 Hc)) as Hpl.
  destruct ev as [p|r|r e|h|call r| |v|d|o|p]; cbn [step stateOf] in *.
  - now apply schedule_counted.
  - apply whenUnfinished_counted; [|assumption]. intros id s'. apply resolveTask_counted.
  - apply whenUnfinished_counted; [|assumption]. intros id s'. apply tryRejectTask_counted.
  - now apply timerFired_counted.
  - split; [assumption|]. apply (slotted_keeps s); [apply Hc|auto with slots].
  - split; [assumption|]. apply (slotted_keeps s); [apply Hc|].
    unfold getUsedCapacity. cbn [snd]. destruct (areTimersEnabled s); auto with slots.
  - unfold setUsedCapacity in *. destruct (checkUsedCapacity _ _); cbn [stateOf] in *;
      [assumption|].
    apply counted_loop. apply (counted_keeps s); auto with kept places slots.
  - unfold adjustUsedCapacity in *. destruct (maxCapacity (options s)); cbn [stateOf] in *;
      [|assumption].
    apply counted_loop. apply (counted_keeps s); auto with kept places slots.
  - split; [assumption|]. apply (slotted_keeps s); [apply Hc|].
    unfold setOptions. destruct (firstError _); cbn [stateOf]; auto with slots.
  - now apply stop_counted.
Qed.

Lemma run_counted events : forall s, counted s -> counted (run events s).
Proof.
  induction events as [|[env ev] rest IH]; intros s H; cbn [run]; [assumption|].
  apply IH. now apply step_counted.
Qed.

Lemma constructor_counted env o : counted (stateOf (constructor env o)).
Proof.
  split; [apply constructor_placed|].
  assert (H0 : slotted (initialState o)) by (split; [reflexivity|]; intros id t Ht; inversion Ht).
  unfold constructor. destruct (firstError _); cbn [stateOf]; [assumption|].
  apply (slotted_keeps _ _ H0). auto with slots.
Qed.

(** X21.  In every state a run from the constructor reaches,
    [usedConcurrent] is the number of the callables in flight, the runs
    of [executeTask] that have not finished; a task with a run that has
    not finished holds one slot ([reservedConcurrent] is 1) and has that
    run only, and a task without one holds none. *)
Theorem concurrency_counts_the_runs (env0 : Env) (o : CapacityLimiterOptions)
    (events : list (Env * Event)) :
  let s := run events (stateOf (constructor env0 o)) in
  usedConcurrent s = Z.of_nat (length (inFlight s)) /\
  (forall id t, tasks s !! id = Some t ->
     (reservedConcurrent t = Some 1 /\ occurrences id (inFlight s) = 1%nat) \/
     (truthy (reservedConcurrent t) = false /\ id ∉ inFlight s)).
Proof.
  cbv zeta. destruct (run_counted events _ (constructor_counted env0 o)) as [[_ Hl] [H1 H2]].
  split; [exact H1|]. intros id t Ht. specialize (H2 id t Ht).
  destruct (Hl id) as [Hle _]. unfold placesOf in Hle. fold (inFlight (run events (stateOf (constructor env0 o)))) in Hle.
  destruct (occurrences id (inFlight (run events (stateOf (constructor env0 o))))) as [|[|n]] eqn:Hocc.
  - right. split; [|now apply occurrences_absent].
    destruct (reservedConcurrent t) as [z|]; cbn in H2 |- *; [|reflexivity].
    unfold Datatypes.id in H2. subst z. reflexivity.
  - left. split; [|reflexivity].
    destruct (reservedConcurrent t) as [z|]; cbn in H2; unfold Datatypes.id in H2;
      [f_equal; lia|lia].
  - lia.
Qed.

(** X22.  Along the admissible runs no more callables are in flight
    than a positive [maxConcurrent] allows. *)
Theorem callables_in_flight_bounded (env0 : Env) (o : CapacityLimiterOptions) (s0 : State)
    (events : list (Env * Event)) :
  constructor env0 o = Normal s0 -> optionsOK o -> admissible events s0 ->
  let s := run events s0 in
  forall c, maxConcurrent (options s) = Some c -> 0 < c -> Z.of_nat (length (inFlight s)) <= c.
Proof.
  intros Hc Ho Hadm s c Hmax Hpos.
  pose proof (constructor_counted env0 o) as Hcnt. rewrite Hc in Hcnt. cbn [stateOf] in Hcnt.
  destruct (run_counted events s0 Hcnt) as [_ [H1 _]]. fold s in H1. rewrite <- H1.
  destruct (run_invariant events s0 Hadm) as [Hacc _].
  - now apply (constructor_Accounted env0 o).
  - pose proof (constructor_RuleTimersOK env0 o) as H. now rewrite Hc in H.
  - now apply (acc_concurrent _ Hacc).
Qed.

Lemma callables_in_flight_bounded_witness :
  inFlight (run twoScheduled (started oneAtATime)) = [0%nat] /\
  queue (run twoScheduled (started oneAtATime)) = [1%nat] /\
  Z.of_nat (length (inFlight (run twoScheduled (started oneAtATime)))) <= 1.
Proof.
  split; [reflexivity|]. split; [reflexivity|].
  apply (callables_in_flight_bounded (at_ 0) oneAtATime (started oneAtATime) twoScheduled).
  - reflexivity.
  - exact I.
  - cbn [admissible twoScheduled]. repeat split.
  - reflexivity.
  - lia.
Defined.

(** ** The indices of the queue *)

Lemma rests_refl s : rests s s.
Proof. repeat split. Qed.

Lemma rests_trans s1 s2 s3 : rests s1 s2 -> rests s2 s3 -> rests s1 s3.
Proof.
  intros (H1 & H2 & H3 & H4 & H5) (K1 & K2 & K3 & K4 & K5).
  repeat split; try congruence. intros id Hid. rewrite K5 by (now rewrite H1). auto.
Qed.

Lemma rs_same s0 s s' :
  queue s' = queue s -> tasksByTimeAdded s' = tasksByTimeAdded s ->
  tasksByTimeLimit s' = tasksByTimeLimit s -> options s' = options s -> tasks s' = tasks s ->
  rests s0 s -> rests s0 s'.
Proof.
  intros H1 H2 H3 H4 H5 (K1 & K2 & K3 & K4 & K5). unfold rests, timeLimitOf in *.
  rewrite H1, H2, H3, H4, H5. auto.
Qed.

Ltac rs_same :=
  intros; match goal with H : rests ?s0 ?s |- _ => apply (rs_same s0 s); [reflexivity..|exact H] end.

Lemma rs_set_usedCapacity s0 v s : rests s0 s -> rests s0 (set_usedCapacity v s).
Proof. rs_same. Qed.
Lemma rs_set_usedConcurrent s0 v s : rests s0 s -> rests s0 (set_usedConcurrent v s).
Proof. rs_same. Qed.
Lemma rs_set_originalOptions s0 v s : rests s0 s -> rests s0 (set_originalOptions v s).
Proof. rs_same. Qed.
Lemma rs_set_releaseTimers s0 v s : rests s0 s -> rests s0 (set_releaseTimers v s).
Proof. rs_same. Qed.
Lemma rs_set_releaseRuleTimersEnabled s0 v s :
  rests s0 s -> rests s0 (set_releaseRuleTimersEnabled v s).
Proof. rs_same. Qed.
Lemma rs_set_retryTimers s0 v s : rests s0 s -> rests s0 (set_retryTimers v s).
Proof. rs_same. Qed.
Lemma rs_set_executingTasks s0 v s : rests s0 s -> rests s0 (set_executingTasks v s).
Proof. rs_same. Qed.
Lemma rs_set_stopped s0 v s : rests s0 s -> rests s0 (set_stopped v s).
Proof. rs_same. Qed.
Lemma rs_set_runs s0 v s : rests s0 s -> rests s0 (set_runs v s).
Proof. rs_same. Qed.
Lemma rs_set_stopPromises s0 v s : rests s0 s -> rests s0 (set_stopPromises v s).
Proof. rs_same. Qed.
Lemma rs_set_log s0 v s : rests s0 s -> rests s0 (set_log v s).
Proof. rs_same. Qed.
Lemma rs_set_timers s0 v s : rests s0 s -> rests s0 (set_timers v s).
Proof. rs_same. Qed.
Lemma rs_set_onFailureCalls s0 v s : rests s0 s -> rests s0 (set_onFailureCalls v s).
Proof. rs_same. Qed.
Lemma rs_emit s0 e s : rests s0 s -> rests s0 (emit e s).
Proof. rs_same. Qed.
Lemma rs_clearTimer s0 h s : rests s0 s -> rests s0 (clearTimer h s).
Proof. rs_same. Qed.
Lemma rs_setTimer s0 cb due s : rests s0 s -> rests s0 (snd (setTimer cb due s)).
Proof. rs_same. Qed.
Lemma rs_updStatus s0 rule f s : rests s0 s -> rests s0 (updStatus rule f s).
Proof. rs_same. Qed.
Lemma rs_finishRun s0 r s : rests s0 s -> rests s0 (finishRun r s).
Proof. rs_same. Qed.

Lemma rs_besideRules s0 s s' : besideRules s' = besideRules s -> rests s0 s -> rests s0 s'.
Proof.
  unfold besideRules. intros [= _ H1 H2 H3 H4 _ _ _ _ H5 _ _ _]. now apply rs_same.
Qed.

Lemma rs_updTask_keeps s0 id f s : keepsLimit f -> rests s0 s -> rests s0 (updTask id f s).
Proof.
  intros Hf (K1 & K2 & K3 & K4 & K5). repeat split; try assumption.
  intros x Hx. rewrite timeLimitOf_updTask_keeps by exact Hf. auto.
Qed.

Lemma rs_updTask_absent s0 id f s : id ∉ queue s0 -> rests s0 s -> rests s0 (updTask id f s).
Proof.
  intros Hid (K1 & K2 & K3 & K4 & K5). repeat split; try assumption.
  intros x Hx. rewrite timeLimitOf_updTask_ne by (intros ->; contradiction). auto.
Qed.

Lemma keepsLimit_capacity v : keepsLimit (task_set_capacity v).
Proof. intros t. reflexivity. Qed.
Lemma keepsLimit_reservedCapacity v : keepsLimit (task_set_reservedCapacity v).
Proof. intros t. reflexivity. Qed.
Lemma keepsLimit_reservedConcurrent v : keepsLimit (task_set_reservedConcurrent v).
Proof. intros t. reflexivity. Qed.
Lemma keepsLimit_executionTimerId v : keepsLimit (task_set_executionTimerId v).
Proof. intros t. reflexivity. Qed.
Lemma keepsLimit_queueWaitingTimerId v : keepsLimit (task_set_queueWaitingTimerId v).
Proof. intros t. reflexivity. Qed.
Lemma keepsLimit_retryAttempt v : keepsLimit (task_set_retryAttempt v).
Proof. intros t. reflexivity. Qed.
Lemma keepsLimit_settle o : keepsLimit (fun t => task_set_promise (settle o (promise t)) t).
Proof. intros t. reflexivity. Qed.

Create HintDb rest.
#[local] Hint Resolve rests_refl rs_set_usedCapacity rs_set_usedConcurrent rs_set_originalOptions
  rs_set_releaseTimers rs_set_releaseRuleTimersEnabled rs_set_retryTimers rs_set_executingTasks
  rs_set_stopped rs_set_runs rs_set_stopPromises rs_set_log rs_set_timers rs_set_onFailureCalls
  rs_emit rs_clearTimer rs_updStatus rs_finishRun rs_updTask_keeps keepsLimit_capacity
  keepsLimit_reservedCapacity keepsLimit_reservedConcurrent keepsLimit_executionTimerId
  keepsLimit_queueWaitingTimerId keepsLimit_retryAttempt keepsLimit_settle : rest.

Lemma rs_rejectTask s0 id e s : rests s0 s -> rests s0 (rejectTask id e s).
Proof. intros H. unfold rejectTask. auto with rest. Qed.

Lemma rs_resolveTaskPromise s0 id s : rests s0 s -> rests s0 (resolveTaskPromise id s).
Proof. intros H. unfold resolveTaskPromise. auto with rest. Qed.

Lemma rs_stoppedResolve s0 st s : rests s0 s -> rests s0 (stoppedResolve st s).
Proof. intros H. unfold stoppedResolve. destruct (stoppedPromise st); auto with rest. Qed.

#[local] Hint Resolve rs_rejectTask rs_resolveTaskPromise rs_stoppedResolve : rest.

Lemma rs_releaseTaskResources s0 id s :
  id ∉ queue s0 -> rests s0 s -> rests s0 (releaseTaskResources id s).
Proof.
  intros Hid H. unfold releaseTaskResources. destruct (tasks s !! id) as [task|]; [|assumption].
  assert (H1 : rests s0 (updTask id (task_set_timeLimit None) s)) by now apply rs_updTask_absent.
  destruct (executionTimerId task); destruct (truthy (reservedConcurrent task));
    (destruct (truthy (reservedCapacity task) && _); auto 10 with rest).
Qed.

Lemma rs_foldl {A} (f : State -> A -> State) s0 l :
  (forall s a, rests s0 s -> rests s0 (f s a)) ->
  forall s, rests s0 s -> rests s0 (foldl f s l).
Proof. intros Hf. induction l as [|a l IH]; cbn [foldl]; auto. Qed.

Lemma rs_rejectEach s0 ids e s : rests s0 s -> rests s0 (rejectEach ids e s).
Proof. unfold rejectEach. apply rs_foldl. auto with rest. Qed.

Lemma rs_rejectAll s0 e s : rests s0 s -> rests s0 (rejectAll e s).
Proof.
  intros H. unfold rejectAll. apply rs_set_retryTimers. apply rs_foldl; [|assumption].
  auto with rest.
Qed.

Lemma rs_applyRule s0 rule times s : rests s0 s -> rests s0 (applyRule rule times s).
Proof. apply rs_besideRules, besideRules_applyRule. Qed.

Lemma rs_applyMissedRules s0 now s : rests s0 s -> rests s0 (applyMissedRules now s).
Proof. apply rs_besideRules, besideRules_applyMissedRules. Qed.

Lemma rs_enableTimers s0 env s : rests s0 s -> rests s0 (enableTimers env s).
Proof. apply rs_besideRules, besideRules_enableTimers. Qed.

Lemma rs_disableTimers s0 s : rests s0 s -> rests s0 (disableTimers s).
Proof. apply rs_besideRules, besideRules_disableTimers. Qed.

#[local] Hint Resolve rs_rejectEach rs_rejectAll rs_applyRule rs_applyMissedRules rs_enableTimers
  rs_disableTimers : rest.

Lemma rs_admissionChecks s0 id task s :
  rests s0 s -> rests s0 (stateOf (admissionChecks id task s)).
Proof.
  intros H. unfold admissionChecks.
  destruct (match maxCapacity (options s) with Some m => m <? capacity task | None => false end);
    destruct (optTaskExceedsMaxCapacityStrategy (options s));
    repeat match goal with |- context [if ?b then _ else _] => destruct b end;
    cbn [stateOf]; auto with rest.
Qed.

Lemma rs_armQueueWaitingTimer s0 env id task s :
  rests s0 s -> rests s0 (armQueueWaitingTimer env id task s).
Proof.
  intros H. unfold armQueueWaitingTimer.
  destruct (truthy _ && _); [|assumption].
  match goal with |- context [setTimer ?cb ?due ?s1] =>
    pose proof (rs_setTimer s0 cb due s1 H) as Hs;
    destruct (setTimer cb due s1) as [h s2] end.
  cbn [snd] in Hs. auto with rest.
Qed.

Lemma rs_setRetryTimer s0 env id timeout s :
  id ∉ queue s0 -> rests s0 s -> rests s0 (setRetryTimer env id timeout s).
Proof.
  intros Hid H. unfold setRetryTimer.
  match goal with |- context [setTimer ?cb ?due ?s1] =>
    assert (H1 : rests s0 s1) by (now apply rs_updTask_absent);
    pose proof (rs_setTimer s0 cb due s1 H1) as Hs;
    destruct (setTimer cb due s1) as [h s2] end.
  cbn [snd] in Hs. auto with rest.
Qed.

Lemma rs_useStrategy s0 env id strategy e attempt s :
  id ∉ queue s0 -> rests s0 s -> rests s0 (useStrategy env id strategy e attempt s).
Proof.
  intros Hid H. unfold useStrategy. destruct strategy as [o|f].
  - destruct (_ <? _); [auto with rest|]. apply rs_setRetryTimer; auto with rest.
  - auto with rest.
Qed.

#[local] Hint Resolve rs_admissionChecks rs_armQueueWaitingTimer : rest.

Lemma tryRejectTask_onward_rests env id e s :
  id ∉ queue s -> rests s (tryRejectTask_ (fun s => s) env id e s).
Proof.
  intros Hid. unfold tryRejectTask_.
  assert (H1 : rests s (releaseTaskResources id s))
    by (apply rs_releaseTaskResources; [assumption|apply rests_refl]).
  destruct (tasks (releaseTaskResources id s) !! id) as [task|]; [|assumption].
  destruct (nullish _ _) as [[| |o]|]; auto with rest;
    apply rs_useStrategy; auto with rest.
Qed.

Lemma resolveTask_onward_rests id s : id ∉ queue s -> rests s (resolveTask_ (fun s => s) id s).
Proof.
  intros Hid. unfold resolveTask_. apply rs_resolveTaskPromise, rs_releaseTaskResources;
    [assumption|apply rests_refl].
Qed.

Lemma executeTask_onward_rests env id s :
  id ∉ queue s -> rests s (executeTask_ (fun s => s) env id s).
Proof.
  intros Hid. unfold executeTask_. destruct (tasks s !! id) as [task|]; [|apply rests_refl].
  match goal with |- context [emit (CallbackInvoked id) ?x] => set (s1 := x) end.
  assert (H1 : rests s s1).
  { unfold s1. destruct (truthy _); [|auto with rest].
    match goal with |- context [setTimer ?cb ?due ?a] =>
      pose proof (rs_setTimer s cb due a) as Hs; destruct (setTimer cb due a) as [h s2] end.
    cbn [snd] in Hs. auto with rest. }
  destruct (throwsSync env id); [|auto with rest].
  match goal with |- rests s (tryRejectTask_ _ env id ?e ?x) =>
    assert (H2 : rests s x) by auto with rest;
    apply (rests_trans s x); [exact H2|apply tryRejectTask_onward_rests] end.
  destruct H2 as (H2 & _). now rewrite H2.
Qed.

Lemma limitOf_ext s s' l :
  Forall (fun id => timeLimitOf s' id = timeLimitOf s id) l ->
  ascending (limitOf s) l -> ascending (limitOf s') l.
Proof.
  intros H. apply ascending_ext. apply (Forall_impl _ _ _ H). intros id Hid.
  unfold limitOf. now rewrite Hid.
Qed.

Lemma indices_rests b s s' :
  (forall id, id ∈ tasksByTimeLimit s -> id ∈ queue s) ->
  indices b s -> rests s s' -> indices b s'.
Proof.
  intros Hin (Ha & Hl & Hc & Hb) (K1 & K2 & K3 & K4 & K5).
  unfold indices, aligned, byLimit, complete, bounded. rewrite K1, K2, K3, K4.
  split; [exact Ha|]. split; [|split; [|exact Hb]].
  - apply (limitOf_ext s); [|exact Hl]. apply Forall_forall. intros id Hid.
    apply K5. now apply Hin.
  - intros id Hid Ht. rewrite K5 in Ht by assumption. auto.
Qed.

Lemma placed_NoDup s : placed s -> NoDup (queue s).
Proof.
  intros [_ Hl]. apply occurrences_NoDup. intros id. destruct (Hl id) as [H _].
  unfold placesOf in H. lia.
Qed.

Lemma length_DLL (l : list TaskId) : DLL.length l = Z.of_nat (length l).
Proof. reflexivity. Qed.

Lemma indices_drops b x s s' :
  placed s -> indices b s -> drops x s s' -> indices b s'.
Proof.
  intros Hp (Ha & Hl & Hc & Hb) (K1 & K2 & K3 & K4 & K5).
  pose proof (placed_NoDup s Hp) as Hnd. destruct Hp as [[_ Hin] _].
  unfold indices, aligned, byLimit, complete, bounded. rewrite K1, K2, K3, K4.
  split; [|split; [|split]].
  - intros id. pose proof (occurrences_DLL_delete id x (tasksByTimeAdded s)) as H1.
    pose proof (occurrences_DLL_delete id x (queue s)) as H2.
    pose proof (Ha id) as Hid. pose proof (Ha x) as Hx.
    assert (Hiff : bool_decide (x ∈ tasksByTimeAdded s) = bool_decide (x ∈ queue s)).
    { apply bool_decide_ext. rewrite !occurrences_elem. lia. }
    rewrite Hiff in H1. lia.
  - apply (limitOf_ext s); [apply Forall_forall; intros id _; apply K5|].
    apply (ascending_sublist _ _ (tasksByTimeLimit s)); [apply sublist_DLL_delete|exact Hl].
  - intros id Hid Ht. rewrite K5 in Ht.
    assert (Hne : id <> x).
    { intros ->. now apply (proj2 (NoDup_DLL_delete x _ Hnd)). }
    apply elem_of_DLL_delete_ne; [assumption|]. apply Hc; [|assumption].
    now apply (elem_of_DLL_delete x).
  - intros Hbt n Hn Hpos. destruct (Hb Hbt n Hn Hpos) as [Hdec Hbn]. split; [exact Hdec|].
    pose proof (length_DLL_delete x (queue s)) as Hlen. rewrite length_DLL in *. lia.
Qed.

Lemma drops_removeTaskFromQueues x s : drops x s (removeTaskFromQueues x s).
Proof. repeat split. Qed.

Lemma reserveResources_queues id s task :
  tasks s !! id = Some task ->
  tasksByTimeAdded (reserveResources id s) = DLL.delete id (tasksByTimeAdded s) /\
  options (reserveResources id s) = options s.
Proof.
  intros Hid. unfold reserveResources, updTask, clearTimer. rewrite Hid.
  destruct (maxCapacity (options s)) eqn:Hm; [destruct (optCapacityStrategy (options s))|];
    cbn; destruct (queueWaitingTimerId task); cbn; destruct (truthy (timeLimit task)); cbn;
    split; reflexivity.
Qed.

Lemma dispatch_drops env s id s1 :
  placed s -> pickTaskToExecute env s = Some (id, s1) -> drops id s (reserveResources id s1).
Proof.
  intros Hp Hpick. pose proof (placed_NoDup s Hp) as Hnd. destruct Hp as [[Hndl Hin] _].
  destruct (pickTaskToExecute_fits env s id s1 Hpick) as (Hfit & Htasks & _).
  unfold fits in Hfit. destruct (tasks s !! id) as [task|] eqn:Hid; [|discriminate].
  assert (Hid1 : tasks s1 !! id = Some task) by now rewrite Htasks.
  destruct (reserveResources_indices id s1 task Hid1) as (Hq & Hl & Ht).
  destruct (reserveResources_queues id s1 task Hid1) as (Ha & Ho).
  assert (Hs1 : DLL.delete id (queue s1) = DLL.delete id (queue s) /\
                tasksByTimeAdded s1 = tasksByTimeAdded s /\
                tasksByTimeLimit s1 = tasksByTimeLimit s /\ options s1 = options s).
  { unfold pickTaskToExecute in Hpick.
    assert (Hq1 : match DLL.pickFirstMatching (fits s) (queue s) with
                  | (Some id0, q) => Some (id0, set_queue q s)
                  | (None, _) => None
                  end = Some (id, s1) ->
                  DLL.delete id (queue s1) = DLL.delete id (queue s) /\
                  tasksByTimeAdded s1 = tasksByTimeAdded s /\
                  tasksByTimeLimit s1 = tasksByTimeLimit s /\ options s1 = options s).
    { pose proof (pickFirstMatching_split (fits s) (queue s)) as Hsp.
      destruct (DLL.pickFirstMatching (fits s) (queue s)) as [[r|] q]; [|discriminate].
      intros [= -> <-]. destruct Hsp as (l1 & l2 & Hl12 & -> & _ & _).
      cbn [queue tasksByTimeAdded tasksByTimeLimit options set_queue].
      split; [|repeat split]. rewrite Hl12 in Hnd |- *.
      apply NoDup_app in Hnd as (_ & Hd & Hnd2). apply NoDup_cons in Hnd2 as [Hn2 _].
      assert (Hn1 : id ∉ l1) by (intros H; apply (Hd id H); left).
      rewrite !DLL_delete_app. rewrite !bool_decide_eq_false_2 by assumption.
      cbn [DLL.delete]. rewrite decide_True by reflexivity.
      now rewrite (DLL_delete_absent id l2). }
    destruct (DLL.peekFirst (tasksByTimeLimit s)) as [imp|]; [|auto].
    destruct (aged env s imp); [|auto].
    destruct (fits s imp); [|discriminate]. injection Hpick as -> <-. repeat split. }
  destruct Hs1 as (Hq1 & Ha1 & Hl1 & Ho1).
  split; [now rewrite Hq|]. split; [now rewrite Ha, Ha1|]. split; [|split].
  - rewrite Hl, Hl1. destruct (truthy (timeLimit task)) eqn:Htt; [reflexivity|].
    symmetry. apply DLL_delete_absent. intros Hm. destruct (Hin id Hm) as [_ Htr].
    unfold timeLimitOf in Htr. rewrite Hid in Htr. congruence.
  - now rewrite Ho.
  - intros x. rewrite Ht. unfold timeLimitOf. now rewrite Htasks.
Qed.

Lemma putBefore_ascending {A : Type} (key : A -> Z) (v : A) (c : A -> bool) (l : list A) :
  Forall (fun x => c x = (key v <? key x)) l ->
  ascending key l -> ascending key (DLL.putBefore v c l).
Proof.
  intros Hc Hl. destruct (putBefore_stops v c l) as (l1 & l2 & -> & -> & H1 & H2).
  apply Forall_app in Hc as [Hc1 Hc2].
  apply ascending_app in Hl as (Ha1 & Ha2 & H12).
  assert (Hle : Forall (fun x => key x <= key v) l1).
  { rewrite Forall_forall in *. intros x Hx. specialize (H1 x Hx). rewrite (Hc1 x Hx) in H1.
    apply Z.ltb_ge in H1. exact H1. }
  assert (Hgt : Forall (fun x => key v <= key x) l2).
  { destruct l2 as [|y l2]; [constructor|]. apply Forall_cons in Hc2 as [Hy _].
    rewrite Hy in H2. apply Z.ltb_lt in H2. destruct Ha2 as [Hy2 _]. constructor; [lia|].
    apply (Forall_impl _ _ _ Hy2). intros a Ha. lia. }
  apply ascending_app. split; [assumption|]. split; [cbn [ascending]; now split|].
  rewrite Forall_forall in *. intros a Ha. constructor; [now apply Hle|]. now apply H12.
Qed.

Lemma truthy_Some (o : option Z) : truthy o = true -> exists z, o = Some z.
Proof. destruct o as [z|]; [eauto|discriminate]. Qed.

Lemma indices_enqueue b env id task s :
  placed s -> indices b s -> id ∉ queue s -> is_Some (tasks s !! id) ->
  roomLeft b s ->
  indices b (enqueue env id task s).
Proof.
  intros Hp (Ha & Hl & Hc & Hb) Hout [t0 Hid] Hroom. destruct Hp as [[Hnd Hin] _].
  assert (Hout' : id ∉ tasksByTimeLimit s) by (intros H; now apply Hin in H).
  unfold enqueue.
  set (s1 := insertIntoQueue id task s).
  set (s2 := insertByTimeLimit id task s1).
  assert (H2 : indices b s2 /\ forall x, x ∈ tasksByTimeLimit s2 -> x ∈ queue s2).
  { unfold s2, insertByTimeLimit.
    set (limit := queuedTimeLimit task s1).
    set (s1' := updTask id (task_set_timeLimit limit) s1).
    assert (Ht : forall x, x <> id -> timeLimitOf s1' x = timeLimitOf s x).
    { intros x Hne. unfold s1'. now rewrite timeLimitOf_updTask_ne. }
    assert (Hti : timeLimitOf s1' id = limit).
    { unfold s1'. rewrite timeLimitOf_updTask_eq. change (tasks s1) with (tasks s).
      now rewrite Hid. }
    assert (Hq : forall x, x ∈ queue s1' <-> x = id \/ x ∈ queue s).
    { intros x. unfold s1', s1, insertIntoQueue. cbn [queue set_queue set_tasksByTimeAdded].
      apply elem_of_putAfter. }
    assert (Hal : forall x, occurrences x (tasksByTimeAdded s1') = occurrences x (queue s1')).
    { intros x. unfold s1', s1, insertIntoQueue, updTask.
      cbn [queue tasksByTimeAdded set_queue set_tasksByTimeAdded set_tasks].
      rewrite occurrences_putAfter. unfold DLL.push.
      rewrite occurrences_app, occurrences_cons, occurrences_nil, (Ha x). lia. }
    assert (Hbd : b = true -> forall n, maxQueueSize (options s) = Some n -> 0 < n ->
                              optQueueSizeExceededStrategy (options s) <> queue_undefined /\
                              DLL.length (queue s1') <= n).
    { intros Hbt n Hn Hpos. destruct (Hroom Hbt n Hn Hpos) as [Hdec Hlt]. split; [exact Hdec|].
      clear Hroom. rename Hlt into Hroom.
      unfold s1', s1, insertIntoQueue, updTask. cbn [queue set_queue set_tasksByTimeAdded set_tasks].
      destruct (putAfter_split id (fun other => priorityOf s other <=? priority task) (queue s))
        as (l1 & l2 & -> & Hl12 & _).
      rewrite Hl12 in Hroom. rewrite length_DLL in *. rewrite length_app in *.
      cbn [length]. lia. }
    assert (Hmem : Forall (fun x => timeLimitOf s1' x = timeLimitOf s x) (tasksByTimeLimit s)).
    { apply Forall_forall. intros x Hx. apply Ht. intros ->. contradiction. }
    assert (Hasc : ascending (limitOf s1') (tasksByTimeLimit s))
      by now apply (limitOf_ext s).
    assert (Hold : forall x, x ∈ queue s -> truthy (timeLimitOf s1' x) = true ->
                             x ∈ tasksByTimeLimit s).
    { intros x Hx Htr. rewrite Ht in Htr by (intros ->; contradiction). auto. }
    destruct (truthy limit) eqn:Hlim.
    - split; [split; [exact Hal|split; [|split; [|exact Hbd]]]|].
      + unfold byLimit. cbn [tasksByTimeLimit set_tasksByTimeLimit].
        change (limitOf (set_tasksByTimeLimit _ s1')) with (limitOf s1').
        change (tasksByTimeLimit s1') with (tasksByTimeLimit s).
        apply putBefore_ascending; [|exact Hasc].
        apply Forall_forall. intros x Hx. destruct (Hin x Hx) as [_ Htr].
        rewrite <- (Ht x) in Htr by (intros ->; contradiction).
        unfold limitOf. rewrite Hti.
        destruct (truthy_Some _ Htr) as [l ->]. reflexivity.
      + intros x Hx Htr. cbn [tasksByTimeLimit set_tasksByTimeLimit].
        change (tasksByTimeLimit s1') with (tasksByTimeLimit s).
        apply elem_of_putBefore. apply Hq in Hx as [->|Hx]; [now left|right].
        now apply Hold.
      + intros x Hx. cbn [tasksByTimeLimit set_tasksByTimeLimit] in Hx.
        change (tasksByTimeLimit s1') with (tasksByTimeLimit s) in Hx.
        apply elem_of_putBefore in Hx. apply Hq. destruct Hx as [->|Hx]; [now left|right].
        now apply Hin.
    - split; [split; [exact Hal|split; [exact Hasc|split; [|exact Hbd]]]|].
      + intros x Hx Htr. change (tasksByTimeLimit s1') with (tasksByTimeLimit s).
        apply Hq in Hx as [->|Hx]; [|now apply Hold]. rewrite Hti in Htr. congruence.
      + intros x Hx. change (tasksByTimeLimit s1') with (tasksByTimeLimit s) in Hx.
        apply Hq. right. now apply Hin. }
  destruct H2 as [H2 Hsub]. apply (indices_rests b s2); [exact Hsub|exact H2|].
  auto with rest.
Qed.

Lemma orderly_rests b s s' : orderly b s -> placed s' -> rests s s' -> orderly b s'.
Proof.
  intros [[[_ Hin] _] Hi] Hp Hr. split; [exact Hp|].
  apply (indices_rests b s); [|assumption..]. intros id Hid. now apply Hin.
Qed.

Lemma orderly_keeps b s s' :
  orderly b s -> keepsIndex s s' -> fillsNoPlace s s' -> rests s s' -> orderly b s'.
Proof.
  intros Ho Hk Hf Hr. apply (orderly_rests b s); [assumption| |assumption].
  now apply (placed_keeps s); [apply Ho|..].
Qed.

Lemma orderly_drops b x s s' : orderly b s -> placed s' -> drops x s s' -> orderly b s'.
Proof. intros [Hp Hi] Hp' Hd. split; [exact Hp'|]. now apply (indices_drops b x s). Qed.

Lemma aligned_elem s x : aligned s -> (x ∈ tasksByTimeAdded s <-> x ∈ queue s).
Proof. intros Ha. rewrite !occurrences_elem. now rewrite (Ha x). Qed.

Lemma queueOverflow_orderly b id task s :
  orderly b s ->
  match queueOverflow id task s with
  | inl s' => orderly b s' /\ roomLeft b s'
  | inr s' => orderly b s'
  end.
Proof.
  intros Ho. pose proof Ho as [Hp (Ha & Hl & Hc & Hb)].
  pose proof (indexed_queueOverflow id task s (proj1 Hp)) as Hi2.
  pose proof (fnp_queueOverflow s id task s (fillsNoPlace_refl s)) as Hf2.
  assert (Hpl : match queueOverflow id task s with inl s' | inr s' => placed s' end).
  { destruct (queueOverflow id task s); (split; [assumption|]);
      now apply (onePlace_spends s); [apply Hp|]. }
  clear Hi2 Hf2. unfold queueOverflow in *.
  destruct (truthy (maxQueueSize (options s))
            && (default 0 (maxQueueSize (options s)) <=? DLL.length (queue s))) eqn:Htest.
  2: { split; [assumption|]. intros Hbt n Hn Hpos. split; [now apply (Hb Hbt n)|].
       rewrite Hn in Htest. cbn in Htest.
       destruct (n =? 0) eqn:H0; [apply Z.eqb_eq in H0; lia|]. cbn in Htest.
       apply Z.leb_gt in Htest. exact Htest. }
  assert (Hfull : b = true -> forall n, maxQueueSize (options s) = Some n -> 0 < n ->
                    forall x, x ∈ queue s -> DLL.length (DLL.delete x (queue s)) < n).
  { intros Hbt n Hn Hpos x Hx. destruct (Hb Hbt n Hn Hpos) as [_ Hbn].
    pose proof (length_DLL_delete_elem x (queue s) Hx) as Hlen. rewrite length_DLL in *. lia. }
  assert (Hrej : forall x e s1, placed (rejectTask x e s1) -> orderly b s1 ->
                                orderly b (rejectTask x e s1)).
  { intros x e s1 Hp1 Ho1. apply (orderly_rests b s1); auto with rest. }
  destruct (optQueueSizeExceededStrategy (options s)) eqn:Hstr.
  - now apply Hrej.
  - destruct (DLL.shift (tasksByTimeAdded s)) as [[oldest|] rest] eqn:Hshift.
    + destruct (tasksByTimeAdded s) as [|y rest'] eqn:Hadded; [discriminate|].
      injection Hshift as -> ->.
      assert (Hin : oldest ∈ queue s).
      { apply (aligned_elem s oldest Ha). rewrite Hadded. left. }
      assert (Hnd : oldest ∉ rest).
      { pose proof (Ha oldest) as H. rewrite Hadded, occurrences_cons, oneFor_same in H.
        destruct (proj2 Hp oldest) as [Hle _].
        unfold placesOf in Hle. apply occurrences_absent. lia. }
      set (sR := removeTaskFromQueues oldest (set_tasksByTimeAdded rest s)).
      assert (Hd : drops oldest s sR).
      { unfold sR, removeTaskFromQueues. repeat split.
        cbn [tasksByTimeAdded set_tasksByTimeAdded set_queue set_tasksByTimeLimit].
        rewrite Hadded. cbn [DLL.delete]. rewrite decide_True by reflexivity.
        now apply DLL_delete_absent. }
      assert (HpR : placed sR).
      { destruct Hp as [Hi Hlp]. unfold sR. split.
        - apply indexed_removeTaskFromQueues. apply (indexed_keepsIndex s); auto with kept.
        - apply (onePlace_spends s); auto with places. }
      pose proof (orderly_drops b oldest s sR Ho HpR Hd) as HoR.
      split; [now apply Hrej|].
      intros Hbt n Hn Hpos.
      split; [change (optQueueSizeExceededStrategy (options s) <> queue_undefined);
              rewrite Hstr; discriminate|].
      now apply (Hfull Hbt n Hn Hpos oldest).
    + split; [assumption|]. intros Hbt n Hn Hpos.
      split; [rewrite Hstr; discriminate|].
      destruct (tasksByTimeAdded s) as [|y rest'] eqn:Hadded; [|discriminate].
      destruct (queue s) as [|y l] eqn:Hq; [rewrite length_DLL; cbn; lia|].
      pose proof (Ha y) as H. rewrite Hadded, Hq, occurrences_nil, occurrences_cons, oneFor_same in H.
      lia.
  - destruct (DLL.peekLast (queue s)) as [least|] eqn:Hlast; [|now apply Hrej].
    destruct (priority task <? priorityOf s least); [|now apply Hrej].
    assert (Hin : least ∈ queue s).
    { unfold DLL.peekLast in Hlast. destruct (queue s) as [|a l _] using rev_ind; [discriminate|].
      rewrite last_snoc in Hlast. injection Hlast as ->. apply elem_of_app. right. left. }
    assert (HpR : placed (removeTaskFromQueues least s)).
    { destruct Hp as [Hi Hlp]. split; [now apply indexed_removeTaskFromQueues|].
      apply (onePlace_spends s); auto with places. }
    pose proof (orderly_drops b least s _ Ho HpR (drops_removeTaskFromQueues least s)) as HoR.
    split; [now apply Hrej|].
    intros Hbt n Hn Hpos.
    split; [change (optQueueSizeExceededStrategy (options s) <> queue_undefined);
            rewrite Hstr; discriminate|].
    now apply (Hfull Hbt n Hn Hpos least).
  - split; [assumption|]. intros Hbt n Hn Hpos.
    destruct (Hb Hbt n Hn Hpos) as [Hdec _]. contradiction.
Qed.

Lemma orderly_dispatch b env s id s1 :
  orderly b s -> pickTaskToExecute env s = Some (id, s1) ->
  orderly b (executeTask_ (fun s => s) env id (reserveResources id s1)).
Proof.
  intros Ho Hp. pose proof Ho as [[Hi Hl] _].
  destruct (dispatch_indexed env s id s1 Hi Hp) as (H1 & H2 & _).
  pose proof (dispatch_room env s id s1 Hi Hl Hp) as Hroom.
  assert (Hp2 : placed (reserveResources id s1))
    by (split; [assumption|now apply (unplaced_onePlace id)]).
  pose proof (orderly_drops b id s _ Ho Hp2 (dispatch_drops env s id s1 (proj1 Ho) Hp)) as Ho2.
  apply (orderly_rests b (reserveResources id s1)); [assumption| |].
  - apply (dispatch_onward_placed env s id s1); [apply Ho|assumption].
  - apply executeTask_onward_rests. now apply (unplaced_absent id _ H1 Hroom).
Qed.

Lemma orderly_loop b env s : orderly b s -> orderly b (startNextTaskIfPossible env s).
Proof.
  apply startNextTaskIfPossible_invariant.
  - intros st s0 H. apply (orderly_keeps b s0); auto with kept places rest.
  - intros env0 s0 id s1 H _. now apply orderly_dispatch.
  - intros s0 H. apply (orderly_keeps b s0); auto with kept places rest.
Qed.

Lemma tryRejectTask_orderly b env id e s :
  indexed s -> id ∉ tasksByTimeLimit s -> unplaced id s -> orderly b s ->
  orderly b (tryRejectTask env id e s).
Proof.
  intros Hi Hid Hroom Ho.
  change (orderly b (startNextTaskIfPossible env (tryRejectTask_ (fun s => s) env id e s))).
  apply orderly_loop. apply (orderly_rests b s); [assumption| |].
  - now apply tryRejectTask_onward_placed.
  - apply tryRejectTask_onward_rests. now apply (unplaced_absent id s Hi Hroom).
Qed.

Lemma resolveTask_orderly b env id s :
  indexed s -> id ∉ tasksByTimeLimit s -> unplaced id s -> orderly b s ->
  orderly b (resolveTask env id s).
Proof.
  intros Hi Hid Hroom Ho.
  change (orderly b (startNextTaskIfPossible env (resolveTask_ (fun s => s) id s))).
  apply orderly_loop. apply (orderly_rests b s); [assumption| |].
  - now apply resolveTask_onward_placed.
  - apply resolveTask_onward_rests. now apply (unplaced_absent id s Hi Hroom).
Qed.

Lemma scheduleTask_orderly b env id s :
  unplaced id s -> orderly b s -> orderly b (stateOf (scheduleTask env id s)).
Proof.
  intros Hroom Ho. pose proof Ho as [[Hi Hl] _]. unfold scheduleTask.
  destruct (tasks s !! id) as [task|] eqn:Hid; [|assumption].
  destruct (stopped s).
  { cbn [stateOf]. apply (orderly_keeps b s); auto with kept places rest. }
  pose proof (ki_admissionChecks s id task s (keepsIndex_refl s)) as Hk1.
  pose proof (fnp_admissionChecks s id task s (fillsNoPlace_refl s)) as Hf1.
  pose proof (rs_admissionChecks s id task s (rests_refl s)) as Hr1.
  destruct (admissionChecks id task s) as [s1|e s1]; cbn [stateOf] in *;
    [|now apply (orderly_keeps b s)].
  pose proof (orderly_keeps b s s1 Ho Hk1 Hf1 Hr1) as Ho1.
  pose proof (queueOverflow_orderly b id task s1 Ho1) as Ho2.
  pose proof (fnp_queueOverflow s1 id task s1 (fillsNoPlace_refl s1)) as Hf2.
  destruct (queueOverflow id task s1) as [s2|s2]; cbn [stateOf]; [|assumption].
  destruct Ho2 as [Ho2 Hrl]. apply orderly_loop.
  assert (Hroom2 : unplaced id s2).
  { apply (unplaced_spends id s); [assumption|]. eapply fillsNoPlace_trans; eassumption. }
  pose proof Ho2 as [[Hi2 Hl2] Hx2].
  destruct (unplaced_absent id s2 Hi2 Hroom2) as [Hq _].
  split; [now apply enqueue_placed|].
  apply indices_enqueue; try assumption; [now split|].
  destruct Hroom2 as (_ & _ & Hlt). now apply lookup_lt_is_Some_2.
Qed.

Lemma placed_queued s id : placed s -> id ∈ queue s -> (id < length (tasks s))%nat.
Proof.
  intros [_ Hl] Hid. destruct (Hl id) as [_ Hout].
  destruct (decide (id < length (tasks s))%nat) as [Hlt|Hge]; [assumption|].
  specialize (Hout ltac:(lia)). apply occurrences_elem in Hid. unfold placesOf in Hout. lia.
Qed.

Lemma schedule_orderly b env p s : orderly b s -> orderly b (stateOf (schedule env p s)).
Proof.
  intros Ho. pose proof Ho as [Hp Hx]. pose proof Hp as [[Hnd Hin] Hl].
  unfold schedule.
  set (s0 := set_tasks (tasks s ++ [newTask env p]) s).
  assert (Hi0 : indexed s0).
  { split; [exact Hnd|]. intros x Hx'. destruct (Hin x Hx') as [Hq Ht]. split; [exact Hq|].
    unfold timeLimitOf in *. cbn [tasks set_tasks s0].
    destruct (tasks s !! x) as [t|] eqn:Hlook; [|discriminate].
    now rewrite (lookup_app_l_Some _ _ _ _ Hlook). }
  assert (Hroom : unplaced (length (tasks s)) s0).
  { split; [|split].
    - intros x. destruct (Hl x) as [Ha Hb].
      rewrite (placesOf_same s s0) by reflexivity. split; [assumption|].
      cbn [tasks set_tasks s0]. rewrite length_app. cbn [length]. intros Hx'. apply Hb. lia.
    - rewrite (placesOf_same s s0) by reflexivity. apply Hl. lia.
    - cbn [tasks set_tasks s0]. rewrite length_app. cbn [length]. lia. }
  apply scheduleTask_orderly; [assumption|].
  apply (orderly_rests b s); [assumption|split; [assumption|now apply (unplaced_onePlace _ _ Hroom)]|].
  repeat split. intros id Hid. unfold timeLimitOf. cbn [tasks set_tasks s0].
  rewrite lookup_app_l; [reflexivity|]. now apply placed_queued.
Qed.

Lemma whenUnfinished_orderly b r k s :
  (forall id s', indexed s' -> id ∉ tasksByTimeLimit s' -> unplaced id s' -> orderly b s' ->
                 orderly b (k id s')) ->
  orderly b s -> orderly b (whenUnfinished r k s).
Proof.
  intros Hk Ho. pose proof Ho as [[Hi Hl] _]. unfold whenUnfinished.
  destruct (runs s !! r) as [x|] eqn:Hr; [|assumption].
  destruct (finished x) eqn:Hf; [assumption|].
  set (sE := set_executingTasks (setDelete (ex_task x) (executingTasks s)) s).
  set (s1 := finishRun r sE).
  assert (Hk1 : keepsIndex s s1) by (unfold s1, sE; auto with kept).
  assert (Hroom : unplaced (ex_task x) s1).
  { apply (unplaced_consume _ s); [assumption| |reflexivity].
    intros y. pose proof (placesOf_finishRun r sE y) as H.
    change (runs sE) with (runs s) in H. rewrite Hr in H.
    cbn [from_option] in H. unfold runToken in H. rewrite Hf in H.
    rewrite (placesOf_same s sE) in H by reflexivity. fold s1 in H. lia. }
  assert (Hi1 : indexed s1) by now apply (indexed_keepsIndex s).
  apply Hk; [assumption|now apply unplaced_absent|assumption|].
  apply (orderly_rests b s); [assumption| |unfold s1, sE; auto with rest].
  split; [assumption|now apply (unplaced_onePlace _ _ Hroom)].
Qed.

Lemma applyRuleByInterval_orderly b env rule s :
  orderly b s -> orderly b (applyRuleByInterval env rule s).
Proof.
  intros H. unfold applyRuleByInterval. apply orderly_loop.
  apply (orderly_keeps b s); auto with kept places rest.
Qed.

Lemma timerFired_orderly b env handle s :
  orderly b s -> orderly b (stateOf (timerFired env handle s)).
Proof.
  intros Ho. pose proof Ho as [Hp _].
  pose proof (timerFired_placed env handle s Hp) as Hpl.
  unfold timerFired in *.
  destruct (timers s !! handle) as [[t|]|] eqn:Harmed; [|assumption..].
  destruct (callback t) as [id|r|id|rule|rule] eqn:Hcb; cbn [stateOf] in *.
  - assert (Hoc : orderly b (clearTimer handle s))
      by (apply (orderly_keeps b s); auto with kept places rest).
    assert (Hpr : placed (removeTaskFromQueues id (clearTimer handle s))).
    { destruct Hoc as [[Hi Hl] _]. split; [now apply indexed_removeTaskFromQueues|].
      apply (onePlace_spends _ _ Hl). auto with places. }
    pose proof (orderly_drops b id _ _ Hoc Hpr (drops_removeTaskFromQueues id _)) as Hor.
    apply (orderly_rests b _ _ Hor); auto with rest.
  - apply whenUnfinished_orderly.
    + intros id s'. apply tryRejectTask_orderly.
    + apply (orderly_keeps b s); auto with kept places rest.
  - destruct Hp as [Hi Hl].
    assert (Hroom : unplaced id (clearTimer handle s)).
    { apply (unplaced_consume _ s); [assumption| |reflexivity].
      intros y. pose proof (placesOf_clearTimer handle s y) as H. rewrite Harmed in H.
      cbn [from_option retryToken] in H. rewrite Hcb in H. lia. }
    apply scheduleTask_orderly.
    + apply (unplaced_spends id (clearTimer handle s)); auto with places.
    + apply (orderly_keeps b s); auto with kept places rest.
  - unfold setTimer at 1. cbv beta iota. cbn [stateOf].
    apply applyRuleByInterval_orderly. apply (orderly_keeps b s); [assumption| | |].
    + apply ki_updStatus. apply ki_set_timers. auto with kept.
    + apply fnp_updStatus.
      apply (fnp_setTimer s (RuleInterval rule) (now env + interval rule) (clearTimer handle s)
               eq_refl). auto with places.
    + auto with rest.
  - now apply applyRuleByInterval_orderly.
Qed.

Lemma onFailureSettled_orderly b env call r s :
  orderly b s -> orderly b (onFailureSettled env call r s).
Proof.
  intros Ho. pose proof Ho as [[Hi Hl] _].
  pose proof (onFailureSettled_placed env call r s (proj1 Ho)) as Hpl.
  unfold onFailureSettled in *.
  destruct (onFailureCalls s !! call) as [[c|]|] eqn:Hc; [|assumption..].
  set (s1 := set_onFailureCalls _ s) in *.
  assert (Hk1 : keepsIndex s s1) by (unfold s1; auto with kept).
  assert (Hi1 : indexed s1) by now apply (indexed_keepsIndex s).
  assert (Hroom : unplaced (of_task c) s1).
  { apply (unplaced_consume _ s); [assumption| |reflexivity].
    intros y. unfold placesOf, s1. cbn [queue runs timers onFailureCalls set_onFailureCalls].
    pose proof (occurrences_omap_insert hookToken None y (onFailureCalls s) call) as H.
    rewrite Hc in H. cbn [hookToken option_map oneFor] in H. cbn [oneFor]. lia. }
  destruct (unplaced_absent _ _ Hi1 Hroom) as [Hout _].
  assert (Ho1 : orderly b s1).
  { apply (orderly_rests b s); [assumption| |unfold s1; auto with rest].
    split; [assumption|now apply (unplaced_onePlace _ _ Hroom)]. }
  apply (orderly_rests b s1); [assumption..|].
  destruct r as [timeout|e|e]; [|auto with rest..].
  apply rs_setRetryTimer; [assumption|apply rests_refl].
Qed.

Lemma indices_cleared b s :
  (b = true -> decided (options s)) ->
  queue s = [] -> tasksByTimeAdded s = [] -> tasksByTimeLimit s = [] -> indices b s.
Proof.
  intros Hd H1 H2 H3. unfold indices, aligned, byLimit, complete, bounded.
  rewrite H1, H2, H3. split; [reflexivity|]. split; [exact I|]. split.
  - intros id Hid. inversion Hid.
  - intros Hbt n Hn Hpos. split; [now apply (Hd Hbt n)|]. rewrite length_DLL. cbn. lia.
Qed.

Lemma stop_orderly b env params s : orderly b s -> orderly b (snd (stop env params s)).
Proof.
  intros Ho. pose proof Ho as [[Hi Hl] Hx]. unfold stop.
  match goal with |- context [set_stopped (Some (mkStopped None)) ?x] => set (s1 := x) end.
  assert (H1 : orderly b s1).
  { unfold s1.
    destruct (match params with
              | Some p => if stopAll p then Some (mkStopParams false true true true) else Some p
              | None => None end) as [p|]; [|assumption].
    destruct (stopWaitingTasks p || rejectExecutingTasks p || stopWaitingTasks p);
      [|assumption].
    match goal with |- orderly b (if stopTaskRetries p then rejectAll ?e ?a else ?a) =>
      assert (Ha : orderly b a) end.
    { match goal with |- orderly b (if rejectExecutingTasks p then _ else ?c) =>
        assert (Hb : orderly b c) end.
      { destruct (stopWaitingTasks p); [|assumption]. split; [split|].
        - now apply indexed_emptied.
        - apply (onePlace_spends s); [assumption|]. auto 10 with places.
        - apply indices_cleared; try reflexivity.
          intros Hbt n Hn Hpos.
          cbn [options set_tasksByTimeLimit set_tasksByTimeAdded set_queue] in *.
          destruct (rs_rejectEach s (queue s) (CapacityLimiterError stopped_error) s
                      (rests_refl s)) as (_ & _ & _ & Hopt & _).
          rewrite Hopt in *. now apply (proj2 (proj2 (proj2 Hx)) Hbt n). }
      destruct (rejectExecutingTasks p); [|assumption].
      apply (orderly_keeps b _ _ Hb); auto with kept places rest. }
    destruct (stopTaskRetries p); [|assumption].
    apply (orderly_keeps b _ _ Ha); auto with kept places rest. }
  destruct (bool_decide _); cbn [snd].
  - apply orderly_loop. apply (orderly_keeps b _ _ H1); auto with kept places rest.
  - apply (orderly_keeps b _ _ H1); auto with kept places rest.
Qed.

Lemma setOptions_orderly b env o s :
  orderly b s -> (b = true -> leavesRoom s (SetOptions o)) ->
  orderly b (stateOf (setOptions env o s)).
Proof.
  intros Ho Hroom. pose proof (setOptions_placed env o s (proj1 Ho)) as Hpl.
  unfold setOptions in *. destruct (firstError _); cbn [stateOf] in *; [assumption|].
  split; [assumption|]. destruct Ho as [_ (Ha & Hl & Hc & Hb)]. cbv zeta.
  match goal with |- context [setRules env ?r ?a] =>
    pose proof (besideRules_setRules env r a) as Hbr end.
  unfold besideRules in Hbr. injection Hbr as _ H1 H2 H3 H4 _ _ _ _ H5 _ _ _.
  cbn [queue tasksByTimeAdded tasksByTimeLimit options tasks set_options set_originalOptions]
    in H1, H2, H3, H4, H5.
  unfold indices, aligned, byLimit, complete, bounded, limitOf, timeLimitOf in *.
  rewrite H1, H2, H3, H4, H5. split; [exact Ha|]. split; [exact Hl|]. split; [exact Hc|].
  intros Hbt. exact (Hroom Hbt).
Qed.

Lemma step_orderly b env ev s :
  orderly b s -> (b = true -> leavesRoom s ev) -> orderly b (stateOf (step env ev s)).
Proof.
  intros Ho Hroom.
  destruct ev as [p|r|r e|h|call r| |v|d|o|p]; cbn [step stateOf].
  - now apply schedule_orderly.
  - apply whenUnfinished_orderly; [|assumption]. intros id s'. apply resolveTask_orderly.
  - apply whenUnfinished_orderly; [|assumption]. intros id s'. apply tryRejectTask_orderly.
  - now apply timerFired_orderly.
  - now apply onFailureSettled_orderly.
  - unfold getUsedCapacity. cbn [snd]. destruct (areTimersEnabled s); [assumption|].
    apply (orderly_keeps b s); auto with kept places rest.
  - unfold setUsedCapacity. destruct (checkUsedCapacity _ _); cbn [stateOf]; [assumption|].
    apply orderly_loop. apply (orderly_keeps b s); auto with kept places rest.
  - unfold adjustUsedCapacity. destruct (maxCapacity (options s)); cbn [stateOf]; [|assumption].
    apply orderly_loop. apply (orderly_keeps b s); auto with kept places rest.
  - now apply setOptions_orderly.
  - now apply stop_orderly.
Qed.

Lemma run_orderly b events :
  forall s, orderly b s -> (b = true -> roomy events s) -> orderly b (run events s).
Proof.
  induction events as [|[env ev] rest IH]; intros s Ho Hroom; cbn [run]; [assumption|].
  apply IH.
  - apply step_orderly; [assumption|]. intros Hbt. exact (proj1 (Hroom Hbt)).
  - intros Hbt. exact (proj2 (Hroom Hbt)).
Qed.

Lemma constructor_orderly b env o :
  (b = true -> decided o) -> orderly b (stateOf (constructor env o)).
Proof.
  intros Hd. split; [apply constructor_placed|].
  unfold constructor. destruct (firstError _); cbn [stateOf]; [now apply indices_cleared|].
  cbv zeta.
  match goal with |- context [setRules env ?r ?a] =>
    pose proof (besideRules_setRules env r a) as Hbr end.
  unfold besideRules in Hbr. injection Hbr as _ H1 H2 H3 H4 _ _ _ _ _ _ _ _.
  apply indices_cleared; try assumption.
  cbn [options set_usedCapacity initialState] in H4. now rewrite H4.
Qed.

(** X23.  In every state a run from the constructor reaches, the three
    indices agree: [tasksByTimeAdded] holds the queued tasks, each once;
    [tasksByTimeLimit] holds the queued tasks that have a time limit and
    no other, in the order of their time limits, so that its head, the
    task the loop looks at first, has the earliest time limit of the
    queue. *)
Theorem indices_agree (env0 : Env) (o : CapacityLimiterOptions) (events : list (Env * Event)) :
  let s := run events (stateOf (constructor env0 o)) in
  tasksByTimeAdded s ≡ₚ queue s /\
  ascending (limitOf s) (tasksByTimeLimit s) /\
  (forall id, id ∈ tasksByTimeLimit s <-> id ∈ queue s /\ truthy (timeLimitOf s id) = true) /\
  (forall h id, DLL.peekFirst (tasksByTimeLimit s) = Some h ->
                id ∈ queue s -> truthy (timeLimitOf s id) = true ->
                limitOf s h <= limitOf s id).
Proof.
  cbv zeta.
  destruct (run_orderly false events _ (constructor_orderly false env0 o ltac:(discriminate)))
    as [Hp (Ha & Hl & Hc & _)]; [discriminate|].
  set (s := run events (stateOf (constructor env0 o))) in *.
  split; [|split; [exact Hl|split]].
  - apply NoDup_Permutation.
    + apply occurrences_NoDup. intros id. rewrite (Ha id). destruct (proj2 Hp id) as [H _].
      unfold placesOf in H. lia.
    + now apply placed_NoDup.
    + intros id. now apply aligned_elem.
  - intros id. split; [apply (proj2 (proj1 Hp))|]. intros [Hq Ht]. now apply Hc.
  - intros h id Hh Hq Ht. specialize (Hc id Hq Ht). unfold byLimit in Hl.
    unfold DLL.peekFirst in Hh. destruct (tasksByTimeLimit s) as [|h' rest]; [discriminate|].
    injection Hh as ->. destruct Hl as [Hall _].
    apply elem_of_cons in Hc as [->|Hc]; [lia|]. rewrite Forall_forall in Hall. now apply Hall.
Qed.

(** X24.  Where the options, those of the constructor and of every
    reconfiguration, do not give [queueSizeExceededStrategy] as
    [undefined] under a positive [maxQueueSize], and every
    reconfiguration leaves room for the queue as it is, the queue never
    holds more tasks than a positive [maxQueueSize]. *)
Theorem queue_within_maxQueueSize (env0 : Env) (o : CapacityLimiterOptions)
    (events : list (Env * Event)) :
  decided o ->
  roomy events (stateOf (constructor env0 o)) ->
  let s := run events (stateOf (constructor env0 o)) in
  forall n, maxQueueSize (options s) = Some n -> 0 < n -> DLL.length (queue s) <= n.
Proof.
  intros Hd Hroom s.
  destruct (run_orderly true events _ (constructor_orderly true env0 o (fun _ => Hd)))
    as (_ & _ & _ & _ & Hb); [intros _; exact Hroom|].
  intros n Hn Hpos. now apply (Hb eq_refl n).
Qed.

Lemma queue_within_maxQueueSize_witness :
  queue (run twoScheduled (started onePlaceQueue)) = [0%nat] /\
  DLL.length (queue (run twoScheduled (started onePlaceQueue))) <= 1.
Proof.
  split; [reflexivity|].
  apply (queue_within_maxQueueSize (at_ 0) onePlaceQueue twoScheduled).
  - intros n _ _. discriminate.
  - cbn [roomy twoScheduled leavesRoom]. repeat split.
  - reflexivity.
  - lia.
Defined.

(** With the key given as [undefined] no branch of the overflow chain
    compares equal: nothing is rejected and the queue grows past
    [maxQueueSize]. *)
Lemma undefined_strategy_overfills :
  maxQueueSize (options (run threeScheduled (started undecidedQueue))) = Some 2 /\
  queue (run threeScheduled (started undecidedQueue)) = [0; 1; 2]%nat.
Proof. split; reflexivity. Qed.

(** ** The attempts *)

Lemma keepsTally_refl s : keepsTally s s.
Proof. reflexivity. Qed.

Lemma keepsTally_trans s1 s2 s3 : keepsTally s1 s2 -> keepsTally s2 s3 -> keepsTally s1 s3.
Proof. unfold keepsTally. congruence. Qed.

Lemma kt_same s0 s s' :
  log s' = log s -> tasks s' = tasks s -> keepsTally s0 s -> keepsTally s0 s'.
Proof. unfold keepsTally, tallyOf, invoked. intros -> ->. auto. Qed.

Ltac kt_same :=
  intros; match goal with H : keepsTally ?s0 ?s |- _ => apply (kt_same s0 s); [reflexivity..|exact H] end.

Lemma kt_set_usedCapacity s0 v s : keepsTally s0 s -> keepsTally s0 (set_usedCapacity v s).
Proof. kt_same. Qed.
Lemma kt_set_usedConcurrent s0 v s : keepsTally s0 s -> keepsTally s0 (set_usedConcurrent v s).
Proof. kt_same. Qed.
Lemma kt_set_queue s0 v s : keepsTally s0 s -> keepsTally s0 (set_queue v s).
Proof. kt_same. Qed.
Lemma kt_set_tasksByTimeAdded s0 v s : keepsTally s0 s -> keepsTally s0 (set_tasksByTimeAdded v s).
Proof. kt_same. Qed.
Lemma kt_set_tasksByTimeLimit s0 v s : keepsTally s0 s -> keepsTally s0 (set_tasksByTimeLimit v s).
Proof. kt_same. Qed.
Lemma kt_set_options s0 v s : keepsTally s0 s -> keepsTally s0 (set_options v s).
Proof. kt_same. Qed.
Lemma kt_set_originalOptions s0 v s : keepsTally s0 s -> keepsTally s0 (set_originalOptions v s).
Proof. kt_same. Qed.
Lemma kt_set_releaseTimers s0 v s : keepsTally s0 s -> keepsTally s0 (set_releaseTimers v s).
Proof. kt_same. Qed.
Lemma kt_set_releaseRuleTimersEnabled s0 v s :
  keepsTally s0 s -> keepsTally s0 (set_releaseRuleTimersEnabled v s).
Proof. kt_same. Qed.
Lemma kt_set_retryTimers s0 v s : keepsTally s0 s -> keepsTally s0 (set_retryTimers v s).
Proof. kt_same. Qed.
Lemma kt_set_executingTasks s0 v s : keepsTally s0 s -> keepsTally s0 (set_executingTasks v s).
Proof. kt_same. Qed.
Lemma kt_set_stopped s0 v s : keepsTally s0 s -> keepsTally s0 (set_stopped v s).
Proof. kt_same. Qed.
Lemma kt_set_stopPromises s0 v s : keepsTally s0 s -> keepsTally s0 (set_stopPromises v s).
Proof. kt_same. Qed.
Lemma kt_set_runs s0 v s : keepsTally s0 s -> keepsTally s0 (set_runs v s).
Proof. kt_same. Qed.
Lemma kt_set_timers s0 v s : keepsTally s0 s -> keepsTally s0 (set_timers v s).
Proof. kt_same. Qed.
Lemma kt_set_onFailureCalls s0 v s : keepsTally s0 s -> keepsTally s0 (set_onFailureCalls v s).
Proof. kt_same. Qed.
Lemma kt_clearTimer s0 h s : keepsTally s0 s -> keepsTally s0 (clearTimer h s).
Proof. kt_same. Qed.
Lemma kt_setTimer s0 cb due s : keepsTally s0 s -> keepsTally s0 (snd (setTimer cb due s)).
Proof. kt_same. Qed.
Lemma kt_updStatus s0 rule f s : keepsTally s0 s -> keepsTally s0 (updStatus rule f s).
Proof. kt_same. Qed.
Lemma kt_finishRun s0 r s : keepsTally s0 s -> keepsTally s0 (finishRun r s).
Proof. kt_same. Qed.
Lemma kt_clearOpt s0 o s : keepsTally s0 s -> keepsTally s0 (clearOpt o s).
Proof. destruct o; kt_same. Qed.

Lemma kt_emit_strategy s0 id attempt s :
  keepsTally s0 s -> keepsTally s0 (emit (StrategyUsed id attempt) s).
Proof.
  unfold keepsTally, tallyOf, invoked, emit. cbn [log tasks set_log]. intros <-.
  now rewrite omap_app, app_nil_r.
Qed.

Lemma kt_emit_rule s0 rule times s :
  keepsTally s0 s -> keepsTally s0 (emit (RuleApplied rule times) s).
Proof.
  unfold keepsTally, tallyOf, invoked, emit. cbn [log tasks set_log]. intros <-.
  now rewrite omap_app, app_nil_r.
Qed.

Lemma kt_updTask s0 id f s : keepsTry f -> keepsTally s0 s -> keepsTally s0 (updTask id f s).
Proof.
  unfold keepsTally, tallyOf, invoked, updTask. cbn [log tasks set_tasks].
  intros Hf <-.
  rewrite (map_alter_same retryAttempt f id (tasks s) (fun t => proj1 (Hf t))).
  now rewrite (map_alter_same params f id (tasks s) (fun t => proj2 (Hf t))).
Qed.

Lemma keepsTry_capacity v : keepsTry (task_set_capacity v).
Proof. intros t. split; reflexivity. Qed.
Lemma keepsTry_reservedCapacity v : keepsTry (task_set_reservedCapacity v).
Proof. intros t. split; reflexivity. Qed.
Lemma keepsTry_reservedConcurrent v : keepsTry (task_set_reservedConcurrent v).
Proof. intros t. split; reflexivity. Qed.
Lemma keepsTry_timeLimit v : keepsTry (task_set_timeLimit v).
Proof. intros t. split; reflexivity. Qed.
Lemma keepsTry_executionTimerId v : keepsTry (task_set_executionTimerId v).
Proof. intros t. split; reflexivity. Qed.
Lemma keepsTry_queueWaitingTimerId v : keepsTry (task_set_queueWaitingTimerId v).
Proof. intros t. split; reflexivity. Qed.
Lemma keepsTry_settle o : keepsTry (fun t => task_set_promise (settle o (promise t)) t).
Proof. intros t. split; reflexivity. Qed.

Create HintDb tally.
#[local] Hint Resolve keepsTally_refl kt_set_usedCapacity kt_set_usedConcurrent kt_set_queue
  kt_set_tasksByTimeAdded kt_set_tasksByTimeLimit kt_set_options kt_set_originalOptions
  kt_set_releaseTimers kt_set_releaseRuleTimersEnabled kt_set_retryTimers kt_set_executingTasks
  kt_set_stopped kt_set_stopPromises kt_set_runs kt_set_timers kt_set_onFailureCalls
  kt_clearTimer kt_updStatus kt_finishRun kt_clearOpt kt_emit_strategy kt_emit_rule kt_updTask
  keepsTry_capacity keepsTry_reservedCapacity keepsTry_reservedConcurrent keepsTry_timeLimit
  keepsTry_executionTimerId keepsTry_queueWaitingTimerId keepsTry_settle : tally.

Lemma kt_rejectTask s0 id e s : keepsTally s0 s -> keepsTally s0 (rejectTask id e s).
Proof. intros H. unfold rejectTask. auto with tally. Qed.

Lemma kt_resolveTaskPromise s0 id s : keepsTally s0 s -> keepsTally s0 (resolveTaskPromise id s).
Proof. intros H. unfold resolveTaskPromise. auto with tally. Qed.

Lemma kt_removeTaskFromQueues s0 id s : keepsTally s0 s -> keepsTally s0 (removeTaskFromQueues id s).
Proof. intros H. unfold removeTaskFromQueues. auto with tally. Qed.

Lemma kt_stoppedResolve s0 st s : keepsTally s0 s -> keepsTally s0 (stoppedResolve st s).
Proof. intros H. unfold stoppedResolve. destruct (stoppedPromise st); auto with tally. Qed.

Lemma kt_releaseTaskResources s0 id s :
  keepsTally s0 s -> keepsTally s0 (releaseTaskResources id s).
Proof.
  intros H. unfold releaseTaskResources. destruct (tasks s !! id) as [task|]; [|assumption].
  destruct (truthy (reservedConcurrent task)); destruct (truthy (reservedCapacity task) && _);
    destruct (executionTimerId task); auto 15 with tally.
Qed.

Lemma kt_reserveResources s0 id s :
  keepsTally s0 s -> keepsTally s0 (reserveResources id s).
Proof.
  intros H. unfold reserveResources. destruct (tasks s !! id) as [task|]; [|assumption].
  destruct (queueWaitingTimerId task);
    destruct (maxCapacity (options s)); try destruct (optCapacityStrategy (options s));
    destruct (truthy (timeLimit task)); auto 20 with tally.
Qed.

#[local] Hint Resolve kt_rejectTask kt_resolveTaskPromise kt_removeTaskFromQueues
  kt_stoppedResolve kt_releaseTaskResources kt_reserveResources : tally.

Lemma kt_foldl {A} (f : State -> A -> State) s0 l :
  (forall s a, keepsTally s0 s -> keepsTally s0 (f s a)) ->
  forall s, keepsTally s0 s -> keepsTally s0 (foldl f s l).
Proof. intros Hf. induction l as [|a l IH]; cbn [foldl]; auto. Qed.

Lemma kt_rejectEach s0 ids e s : keepsTally s0 s -> keepsTally s0 (rejectEach ids e s).
Proof. unfold rejectEach. apply kt_foldl. auto with tally. Qed.

Lemma kt_rejectAll s0 e s : keepsTally s0 s -> keepsTally s0 (rejectAll e s).
Proof.
  intros H. unfold rejectAll. apply kt_set_retryTimers. apply kt_foldl; [|assumption].
  auto with tally.
Qed.

Lemma kt_applyRule s0 rule times s : keepsTally s0 s -> keepsTally s0 (applyRule rule times s).
Proof. intros H. unfold applyRule. destruct (type rule); auto with tally. Qed.

#[local] Hint Resolve kt_rejectEach kt_rejectAll kt_applyRule : tally.

Lemma kt_missedReduces s0 now t entries s :
  keepsTally s0 s -> keepsTally s0 (snd (missedReduces now t entries s)).
Proof.
  revert s. induction entries as [|[rule status] rest IH]; intros s H; [assumption|].
  cbn [missedReduces]. destruct (type rule).
  - specialize (IH s H); destruct (missedReduces now t rest s) as [rest' r]. exact IH.
  - destruct (interval rule <=? now - lastApplied status).
    + match goal with |- context [missedReduces now t rest ?a] =>
        assert (Ha : keepsTally s0 a) by (destruct (canReduceCapacity s); auto with tally);
        specialize (IH a Ha); destruct (missedReduces now t rest a) as [rest' r] end.
      exact IH.
    + specialize (IH s H); destruct (missedReduces now t rest s) as [rest' r]. exact IH.
Qed.

Lemma kt_applyMissedRules s0 now s : keepsTally s0 s -> keepsTally s0 (applyMissedRules now s).
Proof.
  intros H. unfold applyMissedRules.
  destruct (missedResets now (releaseTimers s) (None, None)) as [entries [t r]].
  match goal with |- context [missedReduces now t entries ?a] =>
    assert (Ha : keepsTally s0 a) by (destruct r; auto with tally);
    pose proof (kt_missedReduces s0 now t entries a Ha) as H3;
    destruct (missedReduces now t entries a) as [entries' s2] end.
  cbn [snd] in H3. auto with tally.
Qed.

Lemma kt_clearReleaseRuleTimer s0 rule status s :
  keepsTally s0 s -> keepsTally s0 (clearReleaseRuleTimer rule status s).
Proof. intros H. unfold clearReleaseRuleTimer. auto with tally. Qed.

Lemma kt_setRuleTimerWithDelay s0 env rule delay s :
  keepsTally s0 s -> keepsTally s0 (setRuleTimerWithDelay env rule delay s).
Proof.
  intros H. unfold setRuleTimerWithDelay. destruct (decide (delay = interval rule)).
  - pose proof (kt_setTimer s0 (RuleInterval rule) (now env + interval rule) s H) as Hs.
    destruct (setTimer _ _ s) as [h s2]. cbn [snd] in Hs. auto with tally.
  - pose proof (kt_setTimer s0 (RuleTimeout rule) (now env + delay) s H) as Hs.
    destruct (setTimer _ _ s) as [h s2]. cbn [snd] in Hs. auto with tally.
Qed.

#[local] Hint Resolve kt_applyMissedRules kt_clearReleaseRuleTimer kt_setRuleTimerWithDelay
  : tally.

Lemma kt_disableTimers s0 s : keepsTally s0 s -> keepsTally s0 (disableTimers s).
Proof.
  intros H. unfold disableTimers. destruct (releaseRuleTimersEnabled s); [|assumption].
  apply kt_foldl; auto with tally.
Qed.

Lemma kt_enableTimers s0 env s : keepsTally s0 s -> keepsTally s0 (enableTimers env s).
Proof.
  intros H. unfold enableTimers. destruct (releaseRuleTimersEnabled s); [assumption|].
  unfold armRuleTimers. apply kt_foldl; auto with tally.
Qed.

Lemma kt_addRules s0 env rules : forall s, keepsTally s0 s -> keepsTally s0 (addRules env rules s).
Proof.
  induction rules as [|rule rest IH]; intros s H; cbn [addRules]; [assumption|].
  destruct (hasRule rule (releaseTimers s)); [auto|]. apply IH.
  destruct (releaseRuleTimersEnabled _); auto with tally.
Qed.

Lemma kt_dropRules s0 rules entries :
  forall s, keepsTally s0 s -> keepsTally s0 (dropRules rules entries s).
Proof.
  induction entries as [|[rule status] rest IH]; intros s H; cbn [dropRules]; [assumption|].
  destruct (bool_decide (rule ∈ rules)); [auto|]. apply IH. auto with tally.
Qed.

Lemma kt_setRules s0 env rules s : keepsTally s0 s -> keepsTally s0 (setRules env rules s).
Proof. intros H. unfold setRules. apply kt_dropRules. now apply kt_addRules. Qed.

#[local] Hint Resolve kt_disableTimers kt_enableTimers kt_setRules : tally.

Lemma kt_admissionChecks s0 id task s :
  keepsTally s0 s -> keepsTally s0 (stateOf (admissionChecks id task s)).
Proof.
  intros H. unfold admissionChecks.
  destruct (match maxCapacity (options s) with Some m => m <? capacity task | None => false end);
    destruct (optTaskExceedsMaxCapacityStrategy (options s));
    repeat match goal with |- context [if ?b then _ else _] => destruct b end;
    cbn [stateOf]; auto with tally.
Qed.

Lemma kt_queueOverflow s0 id task s :
  keepsTally s0 s -> match queueOverflow id task s with inl s' | inr s' => keepsTally s0 s' end.
Proof.
  intros H. unfold queueOverflow.
  destruct (truthy (maxQueueSize (options s)) && _); [|assumption].
  destruct (optQueueSizeExceededStrategy (options s)).
  - auto with tally.
  - destruct (DLL.shift (tasksByTimeAdded s)) as [[oldest|] rest]; auto with tally.
  - destruct (DLL.peekLast (queue s)) as [least|]; [|auto with tally].
    destruct (priority task <? priorityOf s least); auto with tally.
  - assumption.
Qed.

Lemma kt_insertByTimeLimit s0 id task s :
  keepsTally s0 s -> keepsTally s0 (insertByTimeLimit id task s).
Proof.
  intros H. unfold insertByTimeLimit. destruct (truthy (queuedTimeLimit task s)); auto with tally.
Qed.

Lemma kt_armQueueWaitingTimer s0 env id task s :
  keepsTally s0 s -> keepsTally s0 (armQueueWaitingTimer env id task s).
Proof.
  intros H. unfold armQueueWaitingTimer.
  destruct (truthy _ && _); [|assumption].
  match goal with |- context [setTimer ?cb ?due ?s1] =>
    pose proof (kt_setTimer s0 cb due s1 H) as Hs;
    destruct (setTimer cb due s1) as [h s2] end.
  cbn [snd] in Hs. auto with tally.
Qed.

Lemma kt_enqueue s0 env id task s : keepsTally s0 s -> keepsTally s0 (enqueue env id task s).
Proof.
  intros H. unfold enqueue, insertIntoQueue.
  apply kt_enableTimers, kt_armQueueWaitingTimer, kt_insertByTimeLimit. auto with tally.
Qed.

Lemma kt_setRetryTimer s0 env id timeout s :
  keepsTally s0 s -> keepsTally s0 (setRetryTimer env id timeout s).
Proof.
  intros H. unfold setRetryTimer.
  match goal with |- context [setTimer ?cb ?due ?s1] =>
    assert (H1 : keepsTally s0 s1) by auto with tally;
    pose proof (kt_setTimer s0 cb due s1 H1) as Hs;
    destruct (setTimer cb due s1) as [h s2] end.
  cbn [snd] in Hs. auto with tally.
Qed.

#[local] Hint Resolve kt_admissionChecks kt_insertByTimeLimit kt_armQueueWaitingTimer kt_enqueue
  kt_setRetryTimer : tally.

Lemma kt_useStrategy s0 env id strategy e attempt s :
  keepsTally s0 s -> keepsTally s0 (useStrategy env id strategy e attempt s).
Proof.
  intros H. unfold useStrategy. destruct strategy as [o|f].
  - destruct (_ <? _); auto with tally.
  - auto with tally.
Qed.

Lemma kt_onFailureSettled s0 env call r s :
  keepsTally s0 s -> keepsTally s0 (onFailureSettled env call r s).
Proof.
  intros H. unfold onFailureSettled. destruct (onFailureCalls s !! call) as [[c|]|]; try assumption.
  destruct r; auto with tally.
Qed.

#[local] Hint Resolve kt_useStrategy kt_onFailureSettled : tally.

(** *** The attempts along a step *)

Lemma placesOf_waitingOf s id :
  placesOf s id = (waitingOf s id + occurrences id (inFlight s))%nat.
Proof. unfold placesOf, waitingOf, inFlight. lia. Qed.

Lemma maps_lookup {A B C} (f : A -> B) (g : A -> C) (l l' : list A) i x' :
  map f l' = map f l -> map g l' = map g l -> l' !! i = Some x' ->
  exists x, l !! i = Some x /\ f x = f x' /\ g x = g x'.
Proof.
  intros Hf Hg Hx'.
  assert (H1 : map f l' !! i = Some (f x')) by (rewrite list_lookup_fmap, Hx'; reflexivity).
  assert (H2 : map g l' !! i = Some (g x')) by (rewrite list_lookup_fmap, Hx'; reflexivity).
  rewrite Hf, list_lookup_fmap in H1. rewrite Hg, list_lookup_fmap in H2.
  destruct (l !! i) as [x|]; [|discriminate].
  exists x. split; [reflexivity|]. cbn in H1, H2. split; congruence.
Qed.

Lemma tally_lookup s s' :
  keepsTally s s' ->
  forall i t', tasks s' !! i = Some t' ->
    exists t, tasks s !! i = Some t /\ retryAttempt t = retryAttempt t' /\ params t = params t'.
Proof.
  unfold keepsTally, tallyOf. intros [= _ H1 H2] i t'. now apply maps_lookup.
Qed.

Lemma tally_invoked s s' : keepsTally s s' -> invoked s' = invoked s.
Proof. unfold keepsTally, tallyOf. now intros [= H _ _]. Qed.

Lemma tally_length s s' : keepsTally s s' -> length (tasks s') = length (tasks s).
Proof.
  unfold keepsTally, tallyOf. intros [= _ H _].
  apply (f_equal length) in H. now rewrite !length_map in H.
Qed.

Lemma slots_inFlight s s' : keepsSlots s s' -> inFlight s' = inFlight s.
Proof. unfold keepsSlots, slotsOf. now intros [= _ H _]. Qed.

(** A step that calls no callable and counts no attempt keeps the count
    when every task it puts into a place is ready. *)
Lemma attempted_moves s s' :
  attempted s -> keepsTally s s' ->
  (forall x, (waitingOf s' x <= waitingOf s x /\ placesOf s' x <= placesOf s x)%nat \/ ready x s) ->
  attempted s'.
Proof.
  intros [HF HA] Hk Hx. pose proof (tally_invoked s s' Hk) as Hinv.
  pose proof (tally_length s s' Hk) as Hlen. split.
  - intros id Hid. rewrite Hinv. apply HF. lia.
  - intros id t' Ht'. destruct (tally_lookup s s' Hk id t' Ht') as (t & Ht & Hr & Hp).
    destruct (HA id t Ht) as (A1 & A2 & A3).
    unfold callsOf, attemptOf in *. rewrite Hinv, <- Hr, <- Hp.
    split; [exact A1|]. destruct (Hx id) as [[Hw Hpl]|Hready].
    + split; [intros H; apply A2; lia|]. intros n Hn. destruct (A3 n Hn) as [B1 B2].
      split; [exact B1|]. intros H. apply B2. lia.
    + destruct (Hready t Ht) as [R1 R2]. unfold callsOf, attemptOf in *.
      split; [intros _; exact R1|]. intros n Hn. destruct (A3 n Hn) as [B1 _].
      split; [exact B1|]. intros _. now apply R2.
Qed.

Lemma attempted_keeps s s' :
  attempted s -> fillsNoPlace s s' -> inFlight s' = inFlight s -> keepsTally s s' ->
  attempted s'.
Proof.
  intros Ha [Hf _] Hi Hk. apply (attempted_moves s s' Ha Hk). intros x. left.
  specialize (Hf x). rewrite !placesOf_waitingOf, Hi in Hf. split; [lia|].
  rewrite !placesOf_waitingOf, Hi. exact Hf.
Qed.

Lemma ready_keeps id s s' : ready id s -> keepsTally s s' -> ready id s'.
Proof.
  intros Hr Hk t' Ht'. destruct (tally_lookup s s' Hk id t' Ht') as (t & Ht & Hra & Hp).
  destruct (Hr t Ht) as [R1 R2]. unfold callsOf, attemptOf in *.
  rewrite (tally_invoked s s' Hk), <- Hra, <- Hp. now split.
Qed.

Lemma ready_waiting id s : attempted s -> (0 < waitingOf s id)%nat -> ready id s.
Proof.
  intros [_ HA] Hw t Ht. destruct (HA id t Ht) as (_ & A2 & A3). split; [now apply A2|].
  intros n Hn. apply (A3 n Hn). rewrite placesOf_waitingOf. lia.
Qed.

(** The call of the callable of a task that is ready. *)
Lemma attempted_call id s s' :
  attempted s -> ready id s -> waitingOf s id = 0%nat -> (id < length (tasks s))%nat ->
  invoked s' = invoked s ++ [id] ->
  map retryAttempt (tasks s') = map retryAttempt (tasks s) ->
  map params (tasks s') = map params (tasks s) ->
  (forall x, waitingOf s' x <= waitingOf s x)%nat ->
  (forall x, placesOf s' x <= placesOf s x + oneFor (Some id) x)%nat ->
  attempted s'.
Proof.
  intros [HF HA] Hr Hw0 Hid Hinv Hm1 Hm2 Hw Hp.
  assert (Hlen : length (tasks s') = length (tasks s)).
  { apply (f_equal length) in Hm1. now rewrite !length_map in Hm1. }
  assert (Hocc : forall x, occurrences x (invoked s')
                           = (occurrences x (invoked s) + oneFor (Some id) x)%nat).
  { intros x. rewrite Hinv, occurrences_app, occurrences_cons, occurrences_nil. lia. }
  split.
  - intros x Hx. rewrite Hocc, HF by lia. apply oneFor_other. lia.
  - intros x t' Ht'.
    destruct (maps_lookup retryAttempt params (tasks s) (tasks s') x t' Hm1 Hm2 Ht')
      as (t & Ht & Hra & Hpa).
    destruct (HA x t Ht) as (A1 & A2 & A3).
    unfold callsOf, attemptOf in *. rewrite Hocc, <- Hra, <- Hpa.
    destruct (decide (x = id)) as [->|Hne].
    + destruct (Hr t Ht) as [R1 R2]. unfold callsOf, attemptOf in *.
      rewrite oneFor_same. split; [lia|]. split.
      * intros H. specialize (Hw id). lia.
      * intros n Hn. specialize (R2 n Hn). split; [lia|]. intros _. exact R2.
    + rewrite (oneFor_other id x) by congruence. rewrite Nat.add_0_r.
      split; [exact A1|]. split.
      * intros H. apply A2. specialize (Hw x). lia.
      * intros n Hn. destruct (A3 n Hn) as [B1 B2]. split; [exact B1|].
        intros H. apply B2. specialize (Hp x). rewrite (oneFor_other id x) in Hp by congruence. lia.
Qed.

(** The count of a failure of a task that is in no place. *)
Lemma attempted_retry id task s :
  attempted s -> tasks s !! id = Some task -> placesOf s id = 0%nat ->
  attempted (updTask id (task_set_retryAttempt (Some (attemptOf task + 1))) s) /\
  callsOf s id <= attemptOf task + 1.
Proof.
  intros [HF HA] Hid H0. split; [|apply (HA id task Hid)]. split.
  - intros x Hx. unfold updTask in Hx. cbn [tasks set_tasks] in Hx. rewrite length_alter in Hx.
    now apply HF.
  - intros x t' Ht'. unfold updTask in Ht'. cbn [tasks set_tasks] in Ht'.
    change (callsOf (updTask id _ s) x) with (callsOf s x).
    change (waitingOf (updTask id _ s) x) with (waitingOf s x).
    change (placesOf (updTask id _ s) x) with (placesOf s x).
    destruct (decide (x = id)) as [->|Hne].
    + rewrite list_lookup_alter_eq, Hid in Ht'. cbn in Ht'. injection Ht' as <-.
      destruct (HA id task Hid) as (A1 & A2 & A3).
      change (attemptOf (task_set_retryAttempt (Some (attemptOf task + 1)) task))
        with (attemptOf task + 1).
      change (params (task_set_retryAttempt (Some (attemptOf task + 1)) task))
        with (params task).
      split; [lia|]. split.
      * intros H. rewrite placesOf_waitingOf in H0. lia.
      * intros n Hn. destruct (A3 n Hn) as [B1 _]. split; [exact B1|]. intros H. lia.
    + rewrite list_lookup_alter_ne in Ht' by congruence. now apply HA.
Qed.

(** The strategy object of a task that has a number of retries of its
    own is a retry strategy with that number. *)
Lemma ownRetries_strategy p opts strategy n :
  nullish (p_failRecoveryStrategy p) opts = Some strategy -> strategy <> StrategyNone ->
  ownRetries p = Some n ->
  exists o, match strategy with
            | Strategy o => o
            | _ => RetryFailRecoveryStrategy defaultRetryOptions
            end = RetryFailRecoveryStrategy o /\
            n = default defaultRetriesLimit (retries o).
Proof.
  unfold ownRetries. destruct (p_failRecoveryStrategy p) as [[| |[o|f]]|]; try discriminate;
    cbn [nullish]; intros [= <-] Hne [= <-]; [congruence|eexists; split; reflexivity..].
Qed.

Lemma inFlight_releaseTaskResources id s : inFlight (releaseTaskResources id s) = inFlight s.
Proof.
  unfold releaseTaskResources. destruct (tasks s !! id) as [task|]; [|reflexivity].
  destruct (truthy (reservedConcurrent task)); destruct (truthy (reservedCapacity task) && _);
    destruct (executionTimerId task); reflexivity.
Qed.

Lemma inFlight_reserveResources id s : inFlight (reserveResources id s) = inFlight s.
Proof.
  unfold reserveResources. destruct (tasks s !! id) as [task|]; [|reflexivity].
  destruct (queueWaitingTimerId task);
    destruct (maxCapacity (options s)); try destruct (optCapacityStrategy (options s));
    destruct (truthy (timeLimit task)); reflexivity.
Qed.

Lemma tallied_keeps s s' :
  tallied s -> keepsIndex s s' -> fillsNoPlace s s' -> keepsSlots s s' -> keepsTally s s' ->
  tallied s'.
Proof.
  intros [Hp Ha] Hk Hf Hks Hkt. split; [now apply (placed_keeps s)|].
  apply (attempted_keeps s); auto using slots_inFlight.
Qed.

(** [useStrategy] puts the task behind a retry timer or a call of the
    hook when the number of retries of the strategy allows it. *)
Lemma useStrategy_attempted env id strategy e attempt s :
  attempted s ->
  (forall t, tasks s !! id = Some t ->
     callsOf s id <= attemptOf t /\ attemptOf t = attempt /\
     forall n, ownRetries (params t) = Some n ->
       exists o, strategy = RetryFailRecoveryStrategy o /\
                 n = default defaultRetriesLimit (retries o)) ->
  attempted (useStrategy env id strategy e attempt s).
Proof.
  intros Ha Hid.
  assert (Hk : keepsTally s (useStrategy env id strategy e attempt s)) by auto with tally.
  assert (Hi : inFlight (useStrategy env id strategy e attempt s) = inFlight s)
    by (apply slots_inFlight; auto with slots).
  assert (Hcase : fillsNoPlace s (useStrategy env id strategy e attempt s) \/ ready id s).
  { unfold useStrategy. destruct strategy as [o|f].
    - destruct (_ <? attempt) eqn:Hlt; [left; auto with places|right].
      apply Z.ltb_ge in Hlt. intros t Ht. destruct (Hid t Ht) as (H1 & H2 & H3).
      split; [exact H1|]. intros n Hn. destruct (H3 n Hn) as (o' & [= <-] & ->). lia.
    - right. intros t Ht. destruct (Hid t Ht) as (H1 & H2 & H3). split; [exact H1|].
      intros n Hn. destruct (H3 n Hn) as (o' & Ho & _). discriminate. }
  destruct Hcase as [Hf|Hr]; [now apply (attempted_keeps s)|].
  apply (attempted_moves s _ Ha Hk). intros x.
  destruct (decide (x = id)) as [->|Hne]; [now right|left].
  pose proof (proj1 (placesOf_useStrategy env id strategy e attempt s x)) as Hp.
  rewrite (oneFor_other id x) in Hp by congruence.
  rewrite !placesOf_waitingOf, Hi in Hp. split; [lia|]. rewrite !placesOf_waitingOf, Hi. lia.
Qed.

Lemma tryRejectTask_onward_attempted env id e s :
  unplaced id s -> attempted s -> attempted (tryRejectTask_ (fun s => s) env id e s).
Proof.
  intros Hroom Ha. unfold tryRejectTask_.
  set (s1 := releaseTaskResources id s).
  assert (Ha1 : attempted s1).
  { apply (attempted_keeps s); [assumption|unfold s1; auto with places
                               |apply inFlight_releaseTaskResources|unfold s1; auto with tally]. }
  assert (Hroom1 : unplaced id s1)
    by (apply (unplaced_spends id s); [assumption|unfold s1; auto with places]).
  destruct (tasks s1 !! id) as [task|] eqn:Hid; [|assumption].
  assert (Hrej : attempted (rejectTask id e s1)).
  { apply (attempted_keeps s1); [assumption|auto with places|reflexivity|auto with tally]. }
  destruct (nullish _ _) as [strategy|] eqn:Hst; [|exact Hrej].
  destruct (attempted_retry id task s1 Ha1 Hid (proj1 (proj2 Hroom1))) as [Ha2 Hc].
  assert (Hgo : strategy <> StrategyNone ->
                attempted (useStrategy env id
                             (match strategy with
                              | Strategy o => o
                              | _ => RetryFailRecoveryStrategy defaultRetryOptions
                              end) e (attemptOf task + 1)
                             (updTask id (task_set_retryAttempt (Some (attemptOf task + 1))) s1))).
  { intros Hne. apply useStrategy_attempted; [exact Ha2|].
    intros t Ht. unfold updTask in Ht. cbn [tasks set_tasks] in Ht.
    rewrite list_lookup_alter_eq, Hid in Ht. cbn in Ht. injection Ht as <-.
    split; [exact Hc|]. split; [reflexivity|].
    intros n Hn. exact (ownRetries_strategy (params task) _ strategy n Hst Hne Hn). }
  destruct strategy as [| |o]; [exact Hrej|apply Hgo; discriminate..].
Qed.

Lemma resolveTask_onward_attempted id s :
  attempted s -> attempted (resolveTask_ (fun s => s) id s).
Proof.
  intros Ha. unfold resolveTask_. apply (attempted_keeps s); [assumption|auto with places| |auto with tally].
  change (inFlight (resolveTaskPromise id (releaseTaskResources id s)))
    with (inFlight (releaseTaskResources id s)).
  apply inFlight_releaseTaskResources.
Qed.

Lemma pickTaskToExecute_queued env s id s1 :
  indexed s -> pickTaskToExecute env s = Some (id, s1) ->
  id ∈ queue s /\ fillsNoPlace s s1 /\ keepsTally s s1.
Proof.
  intros [_ Hin] Hp. unfold pickTaskToExecute in Hp.
  assert (Hq : match DLL.pickFirstMatching (fits s) (queue s) with
               | (Some id, q) => Some (id, set_queue q s)
               | (None, _) => None
               end = Some (id, s1) -> id ∈ queue s /\ fillsNoPlace s s1 /\ keepsTally s s1).
  { destruct (DLL.pickFirstMatching (fits s) (queue s)) as [[x|] q] eqn:Hpk; [|discriminate].
    intros [= <- <-]. split; [|split; [|auto with tally]].
    - apply occurrences_elem.
      rewrite (occurrences_pickFirstMatching x _ _ _ _ Hpk), oneFor_same. lia.
    - split; [|reflexivity]. intros y. pose proof (placesOf_set_queue q s y).
      pose proof (occurrences_pickFirstMatching y _ _ _ _ Hpk). lia. }
  destruct (DLL.peekFirst (tasksByTimeLimit s)) as [important|] eqn:Hpeek; [|auto].
  destruct (aged env s important); [|auto].
  destruct (fits s important); [|discriminate]. injection Hp as <- <-.
  split; [|split; [apply fillsNoPlace_refl|apply keepsTally_refl]].
  apply Hin. unfold DLL.peekFirst in Hpeek. destruct (tasksByTimeLimit s); [discriminate|].
  injection Hpeek as ->. left.
Qed.

Lemma tallied_dispatch env s id s1 :
  tallied s -> pickTaskToExecute env s = Some (id, s1) ->
  tallied (executeTask_ (fun s => s) env id (reserveResources id s1)).
Proof.
  intros [[Hi Hl] Ha] Hp.
  split; [apply (dispatch_onward_placed env s id s1); [now split|assumption]|].
  destruct (pickTaskToExecute_queued env s id s1 Hi Hp) as (Hq & Hf1 & Hk1).
  pose proof (pickTaskToExecute_slots env s id s1 Hp) as Hs1.
  pose proof (dispatch_room env s id s1 Hi Hl Hp) as Hroom.
  set (s2 := reserveResources id s1) in *.
  assert (Hk2 : keepsTally s s2) by (unfold s2; auto with tally).
  assert (Ha2 : attempted s2).
  { apply (attempted_keeps s); [assumption|unfold s2; auto with places| |assumption].
    unfold s2. rewrite inFlight_reserveResources. now apply slots_inFlight. }
  assert (Hr2 : ready id s2).
  { apply (ready_keeps id s); [|assumption]. apply ready_waiting; [assumption|].
    apply occurrences_elem in Hq. unfold waitingOf. lia. }
  destruct Hroom as (Hl2 & H0 & Hlt).
  assert (Hw0 : waitingOf s2 id = 0%nat) by (rewrite placesOf_waitingOf in H0; lia).
  unfold executeTask_. destruct (tasks s2 !! id) as [t2|] eqn:Ht2; [|assumption].
  match goal with |- context [emit (CallbackInvoked id) ?x] => set (sC := x) end.
  set (sD := emit (CallbackInvoked id) sC).
  assert (HC : log sC = log s2 /\
               map retryAttempt (tasks sC) = map retryAttempt (tasks s2) /\
               map params (tasks sC) = map params (tasks s2) /\
               queue sC = queue s2 /\ onFailureCalls sC = onFailureCalls s2 /\
               runs sC = runs s2 ++ [mkExecution id false] /\
               forall x, occurrences x (omap retryToken (timers sC))
                         = occurrences x (omap retryToken (timers s2))).
  { unfold sC. destruct (truthy _).
    - unfold setTimer, updTask.
      cbn [log tasks queue onFailureCalls runs timers set_tasks set_timers set_runs
           set_executingTasks].
      repeat split; try reflexivity; try (apply map_alter_same; reflexivity).
      intros x. rewrite occurrences_omap_snoc. cbn [retryToken callback oneFor]. lia.
    - repeat split; reflexivity. }
  destruct HC as (HC1 & HC2 & HC3 & HC4 & HC5 & HC6 & HC7).
  assert (Hw : forall x, waitingOf sD x = waitingOf s2 x).
  { intros x. unfold waitingOf.
    change (queue sD) with (queue sC). change (timers sD) with (timers sC).
    change (onFailureCalls sD) with (onFailureCalls sC). now rewrite HC4, HC5, HC7. }
  assert (Hpl : forall x, placesOf sD x = (placesOf s2 x + oneFor (Some id) x)%nat).
  { intros x. rewrite !placesOf_waitingOf, Hw. unfold inFlight.
    change (runs sD) with (runs sC). rewrite HC6, occurrences_omap_snoc.
    cbn [runToken finished ex_task]. lia. }
  assert (HaD : attempted sD).
  { apply (attempted_call id s2 sD); try assumption.
    - unfold invoked, sD, emit. cbn [log set_log]. now rewrite omap_app, HC1.
    - intros x. rewrite Hw. lia.
    - intros x. rewrite Hpl. lia. }
  destruct (throwsSync env id) as [e|]; [|exact HaD].
  set (sE := set_executingTasks (setDelete id (executingTasks sD)) sD).
  set (r := length (runs s2)).
  assert (Hlook : runs sE !! r = Some (mkExecution id false)).
  { change (runs sE) with (runs sC). rewrite HC6. unfold r.
    rewrite lookup_app_r by lia. now rewrite Nat.sub_diag. }
  assert (HplF : forall x, placesOf (finishRun r sE) x = placesOf s2 x).
  { intros x. pose proof (placesOf_finishRun r sE x) as Hf. rewrite Hlook in Hf.
    cbn [from_option runToken finished ex_task] in Hf.
    rewrite (placesOf_same sD sE) in Hf by reflexivity. rewrite Hpl in Hf. lia. }
  assert (HlenF : length (tasks (finishRun r sE)) = length (tasks s2)).
  { change (tasks (finishRun r sE)) with (tasks sC).
    apply (f_equal length) in HC2. now rewrite !length_map in HC2. }
  apply tryRejectTask_onward_attempted.
  - split; [|split; [now rewrite HplF|now rewrite HlenF]].
    apply (onePlace_spends s2); [assumption|]. split; [|now rewrite HlenF].
    intros x. now rewrite HplF.
  - apply (attempted_moves sD); [assumption|unfold sE; auto with tally|].
    intros x. left. split.
    + change (waitingOf (finishRun r sE) x) with (waitingOf sD x). lia.
    + rewrite HplF, Hpl. lia.
Qed.

Lemma tallied_loop env s : tallied s -> tallied (startNextTaskIfPossible env s).
Proof.
  apply startNextTaskIfPossible_invariant.
  - intros st s0 H. apply (tallied_keeps s0); auto with kept places slots tally.
  - intros env0 s0 id s1 H _. now apply tallied_dispatch.
  - intros s0 H. apply (tallied_keeps s0); auto with kept places slots tally.
Qed.

Lemma tryRejectTask_tallied env id e s :
  indexed s -> id ∉ tasksByTimeLimit s -> unplaced id s -> attempted s ->
  tallied (tryRejectTask env id e s).
Proof.
  intros Hi Hid Hroom Ha.
  change (tallied (startNextTaskIfPossible env (tryRejectTask_ (fun s => s) env id e s))).
  apply tallied_loop. split.
  - now apply tryRejectTask_onward_placed.
  - now apply tryRejectTask_onward_attempted.
Qed.

Lemma resolveTask_tallied env id s :
  indexed s -> id ∉ tasksByTimeLimit s -> unplaced id s -> attempted s ->
  tallied (resolveTask env id s).
Proof.
  intros Hi Hid Hroom Ha.
  change (tallied (startNextTaskIfPossible env (resolveTask_ (fun s => s) id s))).
  apply tallied_loop. split.
  - now apply resolveTask_onward_placed.
  - now apply resolveTask_onward_attempted.
Qed.

Lemma scheduleTask_tallied env id s :
  indexed s -> unplaced id s -> attempted s -> ready id s ->
  tallied (stateOf (scheduleTask env id s)).
Proof.
  intros Hi Hroom Ha Hr. pose proof (unplaced_onePlace id s Hroom) as Hl.
  assert (Hc : tallied s) by (split; [split|]; assumption).
  unfold scheduleTask.
  destruct (tasks s !! id) as [task|] eqn:Hid; [|assumption].
  destruct (stopped s).
  { cbn [stateOf]. apply (tallied_keeps s); auto with kept places slots tally. }
  pose proof (ki_admissionChecks s id task s (keepsIndex_refl s)) as Hk1.
  pose proof (fnp_admissionChecks s id task s (fillsNoPlace_refl s)) as Hf1.
  pose proof (ks_admissionChecks s id task s (keepsSlots_refl s)) as Hs1.
  pose proof (kt_admissionChecks s id task s (keepsTally_refl s)) as Ht1.
  destruct (admissionChecks id task s) as [s1|e s1]; cbn [stateOf] in *;
    [|now apply (tallied_keeps s)].
  assert (Hi1 : indexed s1) by now apply (indexed_keepsIndex s).
  pose proof (indexed_queueOverflow id task s1 Hi1) as Hi2.
  pose proof (fnp_queueOverflow s1 id task s1 (fillsNoPlace_refl s1)) as Hf2.
  pose proof (ks_queueOverflow s1 id task s1 (keepsSlots_refl s1)) as Hs2.
  pose proof (kt_queueOverflow s1 id task s1 (keepsTally_refl s1)) as Ht2.
  destruct (queueOverflow id task s1) as [s2|s2]; cbn [stateOf].
  - assert (Hf : fillsNoPlace s s2) by (eapply fillsNoPlace_trans; eassumption).
    assert (Hks : keepsSlots s s2) by now apply (keepsSlots_trans s s1 s2).
    assert (Hkt : keepsTally s s2) by now apply (keepsTally_trans s s1 s2).
    assert (Ha2 : attempted s2) by (apply (attempted_keeps s); auto using slots_inFlight).
    apply tallied_loop.
    assert (Hroom2 : unplaced id s2) by now apply (unplaced_spends id s).
    split; [now apply enqueue_placed|].
    apply (attempted_moves s2); [assumption|auto with tally|].
    intros x. destruct (decide (x = id)) as [->|Hne]; [right; now apply (ready_keeps id s)|left].
    pose proof (proj1 (placesOf_enqueue env id task s2 x)) as Hp.
    rewrite (oneFor_other id x) in Hp by congruence.
    assert (Hin : inFlight (enqueue env id task s2) = inFlight s2)
      by (apply slots_inFlight; auto with slots).
    rewrite !placesOf_waitingOf, Hin in Hp. split; [lia|].
    rewrite !placesOf_waitingOf, Hin. lia.
  - split; [split; [assumption|]|].
    + apply (onePlace_spends s); [assumption|]. eapply fillsNoPlace_trans; eassumption.
    + apply (attempted_keeps s); [assumption|eapply fillsNoPlace_trans; eassumption| |].
      * apply slots_inFlight. now apply (keepsSlots_trans s s1 s2).
      * now apply (keepsTally_trans s s1 s2).
Qed.

Lemma schedule_tallied env p s : tallied s -> tallied (stateOf (schedule env p s)).
Proof.
  intros [[[Hnd Hin] Hl] [HF HA]]. unfold schedule.
  set (s0 := set_tasks (tasks s ++ [newTask env p]) s).
  assert (Hnew : forall t, tasks s0 !! length (tasks s) = Some t -> t = newTask env p).
  { intros t Ht. unfold s0 in Ht. cbn [tasks set_tasks] in Ht.
    rewrite lookup_app_r in Ht by lia. rewrite Nat.sub_diag in Ht. now injection Ht. }
  assert (H0 : callsOf s0 (length (tasks s)) = 0).
  { unfold callsOf. change (invoked s0) with (invoked s). rewrite HF by lia. reflexivity. }
  apply scheduleTask_tallied.
  - unfold s0. split; [exact Hnd|]. intros x Hx. destruct (Hin x Hx) as [Hq Ht].
    split; [exact Hq|]. unfold timeLimitOf in *. cbn [tasks set_tasks].
    destruct (tasks s !! x) as [t|] eqn:Hlook; [|discriminate].
    now rewrite (lookup_app_l_Some _ _ _ _ Hlook).
  - unfold s0. split; [|split].
    + intros x. destruct (Hl x) as [Ha Hb].
      rewrite (placesOf_same s (set_tasks _ s)) by reflexivity. split; [assumption|].
      cbn [tasks set_tasks]. rewrite length_app. cbn [length]. intros Hx. apply Hb. lia.
    + rewrite (placesOf_same s (set_tasks _ s)) by reflexivity. apply Hl. lia.
    + cbn [tasks set_tasks]. rewrite length_app. cbn [length]. lia.
  - split.
    + intros x Hx. unfold s0 in Hx. cbn [tasks set_tasks] in Hx. rewrite length_app in Hx.
      cbn [length] in Hx. change (invoked s0) with (invoked s). apply HF. lia.
    + intros x t Ht. destruct (decide (x < length (tasks s))%nat) as [Hlt|Hge].
      * unfold s0 in Ht. cbn [tasks set_tasks] in Ht. rewrite lookup_app_l in Ht by assumption.
        exact (HA x t Ht).
      * assert (Hx : x = length (tasks s)).
        { apply lookup_lt_Some in Ht. unfold s0 in Ht. cbn [tasks set_tasks] in Ht.
          rewrite length_app in Ht. cbn [length] in Ht. lia. }
        subst x. rewrite (Hnew t Ht), H0.
        change (attemptOf (newTask env p)) with 0.
        split; [lia|]. split; [lia|]. intros n Hn. split; lia.
  - intros t Ht. rewrite (Hnew t Ht), H0. change (attemptOf (newTask env p)) with 0.
    split; [lia|]. intros n Hn. lia.
Qed.

Lemma whenUnfinished_tallied r k s :
  (forall id s', indexed s' -> id ∉ tasksByTimeLimit s' -> unplaced id s' -> attempted s' ->
                 tallied (k id s')) ->
  tallied s -> tallied (whenUnfinished r k s).
Proof.
  intros Hk [[Hi Hl] Ha]. unfold whenUnfinished.
  destruct (runs s !! r) as [x|] eqn:Hr; [|now split].
  destruct (finished x) eqn:Hf; [now split|].
  set (sE := set_executingTasks (setDelete (ex_task x) (executingTasks s)) s).
  set (s1 := finishRun r sE).
  assert (Hk1 : keepsIndex s s1) by (unfold s1, sE; auto with kept).
  assert (Hroom : unplaced (ex_task x) s1).
  { apply (unplaced_consume _ s); [assumption| |reflexivity].
    intros y. pose proof (placesOf_finishRun r sE y) as H.
    change (runs sE) with (runs s) in H. rewrite Hr in H.
    cbn [from_option] in H. unfold runToken in H. rewrite Hf in H.
    rewrite (placesOf_same s sE) in H by reflexivity. fold s1 in H. lia. }
  assert (Hi1 : indexed s1) by now apply (indexed_keepsIndex s).
  apply Hk; [assumption|now apply unplaced_absent|assumption|].
  apply (attempted_moves s); [assumption|unfold s1, sE; auto with tally|].
  intros y. left. split.
  - change (waitingOf s1 y) with (waitingOf s y). lia.
  - assert (Hf1 : fillsNoPlace s s1) by (unfold s1, sE; auto with places).
    apply Hf1.
Qed.

Lemma applyRuleByInterval_tallied env rule s : tallied s -> tallied (applyRuleByInterval env rule s).
Proof.
  intros H. unfold applyRuleByInterval. apply tallied_loop.
  apply (tallied_keeps s); auto with kept places slots tally.
Qed.

Lemma timerFired_tallied env handle s : tallied s -> tallied (stateOf (timerFired env handle s)).
Proof.
  intros Hc. pose proof (timerFired_placed env handle s (proj1 Hc)) as Hpl.
  unfold timerFired in *.
  destruct (timers s !! handle) as [[t|]|] eqn:Harmed; [|assumption..].
  destruct (callback t) as [id|r|id|rule|rule] eqn:Hcb; cbn [stateOf] in *.
  - split; [assumption|].
    apply (attempted_keeps s); [apply Hc|auto with places|reflexivity|auto with tally].
  - apply whenUnfinished_tallied.
    + intros id s'. apply tryRejectTask_tallied.
    + apply (tallied_keeps s); auto with kept places slots tally.
  - destruct Hc as [[Hi Hl] Ha].
    assert (Hroom : unplaced id (clearTimer handle s)).
    { apply (unplaced_consume _ s); [assumption| |reflexivity].
      intros y. pose proof (placesOf_clearTimer handle s y) as H. rewrite Harmed in H.
      cbn [from_option retryToken] in H. rewrite Hcb in H. lia. }
    assert (Hr : ready id s).
    { apply ready_waiting; [assumption|].
      assert (H1 : (1 <= occurrences id (omap retryToken (timers s)))%nat).
      { apply (occurrences_omap_lookup retryToken (timers s) handle (Some t) id Harmed).
        cbn [retryToken]. now rewrite Hcb. }
      unfold waitingOf. lia. }
    apply scheduleTask_tallied.
    + apply (indexed_keepsIndex s); auto with kept.
    + apply (unplaced_spends id (clearTimer handle s)); auto with places.
    + apply (attempted_keeps s); [assumption|auto with places|reflexivity|auto with tally].
    + apply (ready_keeps id s); [assumption|auto with tally].
  - unfold setTimer at 1. cbv beta iota. cbn [stateOf].
    apply applyRuleByInterval_tallied. apply (tallied_keeps s); [assumption| | | |].
    + apply ki_updStatus. apply ki_set_timers. auto with kept.
    + apply fnp_updStatus.
      apply (fnp_setTimer s (RuleInterval rule) (now env + interval rule) (clearTimer handle s)
               eq_refl). auto with places.
    + auto with slots.
    + auto with tally.
  - now apply applyRuleByInterval_tallied.
Qed.

Lemma onFailureSettled_attempted env call r s :
  attempted s -> attempted (onFailureSettled env call r s).
Proof.
  intros Ha.
  assert (Hk : keepsTally s (onFailureSettled env call r s)) by auto with tally.
  assert (Hin : inFlight (onFailureSettled env call r s) = inFlight s)
    by (apply slots_inFlight; auto with slots).
  unfold onFailureSettled in *.
  destruct (onFailureCalls s !! call) as [[c|]|] eqn:Hc; [|assumption..].
  set (s1 := set_onFailureCalls _ s) in *.
  assert (Hf1 : fillsNoPlace s s1).
  { split; [|reflexivity]. intros y. unfold placesOf, s1.
    cbn [queue runs timers onFailureCalls set_onFailureCalls].
    pose proof (occurrences_omap_insert hookToken None y (onFailureCalls s) call) as H.
    rewrite Hc in H. cbn [hookToken option_map oneFor] in H. lia. }
  assert (Hr : ready (of_task c) s).
  { apply ready_waiting; [assumption|].
    pose proof (occurrences_omap_lookup hookToken (onFailureCalls s) call (Some c) (of_task c)
                  Hc eq_refl). unfold waitingOf. lia. }
  assert (Hrej : forall e, attempted (rejectTask (of_task c) e s1)).
  { intros e.
    apply (attempted_keeps s); [assumption|auto with places|reflexivity|unfold s1; auto with tally]. }
  destruct r as [timeout|e|e]; [|apply Hrej..].
  apply (attempted_moves s); [assumption|assumption|].
  intros x. destruct (decide (x = of_task c)) as [->|Hne]; [now right|left].
  pose proof (proj1 (placesOf_setRetryTimer env (of_task c) timeout s1 x)) as Hp.
  rewrite (oneFor_other (of_task c) x) in Hp by congruence. destruct Hf1 as [Hf1 _].
  specialize (Hf1 x). rewrite !placesOf_waitingOf, Hin in *. split; lia.
Qed.

Lemma stop_tallied env params s : tallied s -> tallied (snd (stop env params s)).
Proof.
  intros [[Hi Hl] Ha]. unfold stop.
  match goal with |- context [set_stopped (Some (mkStopped None)) ?x] => set (s1 := x) end.
  assert (H1 : placed s1 /\ fillsNoPlace s s1 /\ keepsSlots s s1 /\ keepsTally s s1).
  { unfold s1.
    destruct (match params with
              | Some p => if stopAll p then Some (mkStopParams false true true true) else Some p
              | None => None end) as [p|];
      [|split; [now split|]; auto with places slots tally].
    destruct (stopWaitingTasks p || rejectExecutingTasks p || stopWaitingTasks p);
      [|split; [now split|]; auto with places slots tally].
    match goal with |- placed (if stopTaskRetries p then rejectAll ?e ?a else ?a) /\ _ =>
      assert (Ha' : placed a /\ fillsNoPlace s a /\ keepsSlots s a /\ keepsTally s a) end.
    { match goal with |- placed (if rejectExecutingTasks p then _ else ?b) /\ _ =>
        assert (Hb : placed b /\ fillsNoPlace s b /\ keepsSlots s b /\ keepsTally s b) end.
      { destruct (stopWaitingTasks p); [|split; [now split|]; auto with places slots tally].
        match goal with |- placed ?b /\ _ =>
          assert (Hf : fillsNoPlace s b) by auto 10 with places end.
        split; [split|split; [exact Hf|split; [auto 10 with slots|auto 10 with tally]]].
        - now apply indexed_emptied.
        - now apply (onePlace_spends s). }
      destruct Hb as (Hb1 & Hb2 & Hb3 & Hb4). destruct (rejectExecutingTasks p); [|auto].
      split; [|auto with places slots tally].
      apply (placed_keeps _ _ Hb1); [auto with kept|auto with places]. }
    destruct Ha' as (Ha1 & Ha2 & Ha3 & Ha4). destruct (stopTaskRetries p); [|auto].
    split; [|auto with places slots tally].
    apply (placed_keeps _ _ Ha1); [auto with kept|auto with places]. }
  destruct H1 as (H1 & H2 & H3 & H4).
  assert (Hc1 : tallied s1).
  { split; [assumption|]. apply (attempted_keeps s); auto using slots_inFlight. }
  destruct (bool_decide _); cbn [snd].
  - apply tallied_loop. apply (tallied_keeps _ _ Hc1); auto with kept places slots tally.
  - apply (tallied_keeps _ _ Hc1); auto with kept places slots tally.
Qed.

Lemma step_tallied env ev s : tallied s -> tallied (stateOf (step env ev s)).
Proof.
  intros Hc. pose proof (step_placed env ev s (proj1 Hc)) as Hpl.
  assert (Hkeep : forall s', fillsNoPlace s s' -> keepsSlots s s' -> keepsTally s s' ->
                             attempted s').
  { intros s' Hf Hks Hkt. apply (attempted_keeps s); auto using slots_inFlight. apply Hc. }
  destruct ev as [p|r|r e|h|call r| |v|d|o|p]; cbn [step stateOf] in *.
  - now apply schedule_tallied.
  - apply whenUnfinished_tallied; [|assumption]. intros id s'. apply resolveTask_tallied.
  - apply whenUnfinished_tallied; [|assumption]. intros id s'. apply tryRejectTask_tallied.
  - now apply timerFired_tallied.
  - split; [assumption|]. apply onFailureSettled_attempted, Hc.
  - split; [assumption|]. unfold getUsedCapacity. cbn [snd].
    destruct (areTimersEnabled s); [apply Hc|]. apply Hkeep; auto with places slots tally.
  - unfold setUsedCapacity in *. destruct (checkUsedCapacity _ _); cbn [stateOf] in *;
      [assumption|].
    apply tallied_loop. apply (tallied_keeps s); auto with kept places slots tally.
  - unfold adjustUsedCapacity in *. destruct (maxCapacity (options s)); cbn [stateOf] in *;
      [|assumption].
    apply tallied_loop. apply (tallied_keeps s); auto with kept places slots tally.
  - split; [assumption|].
    unfold setOptions. destruct (firstError _); cbn [stateOf]; [apply Hc|].
    apply Hkeep; auto with places slots tally.
  - now apply stop_tallied.
Qed.

Lemma run_tallied events : forall s, tallied s -> tallied (run events s).
Proof.
  induction events as [|[env ev] rest IH]; intros s H; cbn [run]; [assumption|].
  apply IH. now apply step_tallied.
Qed.

Lemma constructor_tallied env o : tallied (stateOf (constructor env o)).
Proof.
  split; [apply constructor_placed|].
  assert (H0 : attempted (initialState o)).
  { split; [reflexivity|]. intros id t Ht. inversion Ht. }
  unfold constructor. destruct (firstError _); cbn [stateOf]; [assumption|].
  apply (attempted_keeps _ _ H0); [auto with places| |auto with tally].
  apply slots_inFlight. auto with slots.
Qed.

(** X25.  In every state a run from the constructor reaches, the
    callable of a task was called once more than the failures counted in
    [retryAttempt] at most; for a task scheduled with a strategy of its
    own that is ['none'], ['retry'] or a retry strategy, it was called
    once and once more for each of the retries the strategy allows at
    most (none, the default of 10, or [retries]), whatever the options
    of the limiter are set to in between. *)
Theorem callable_called_within_retries (env0 : Env) (o : CapacityLimiterOptions)
    (events : list (Env * Event)) (id : TaskId) (t : Task) :
  let s := run events (stateOf (constructor env0 o)) in
  tasks s !! id = Some t ->
  callsOf s id <= attemptOf t + 1 /\
  forall n, ownRetries (params t) = Some n -> callsOf s id <= Z.max n 0 + 1.
Proof.
  intros s Ht.
  destruct (run_tallied events _ (constructor_tallied env0 o)) as [_ [_ HA]].
  destruct (HA id t Ht) as (A1 & _ & A3). split; [exact A1|].
  intros n Hn. apply (A3 n Hn).
Qed.

Lemma callable_called_within_retries_witness :
  let s := run failingTwice (stateOf (constructor (at_ 0) emptyOptions)) in
  exists t, tasks s !! 0%nat = Some t /\ ownRetries (params t) = Some 1 /\
            log s = [CallbackInvoked 0; StrategyUsed 0 1; CallbackInvoked 0; StrategyUsed 0 2] /\
            callsOf s 0 <= 2.
Proof.
  cbv zeta. eexists. split; [vm_compute; reflexivity|]. split; [reflexivity|].
  split; [reflexivity|].
  refine (proj2 (callable_called_within_retries (at_ 0) emptyOptions failingTwice 0%nat _ _) 1 _).
  - vm_compute. reflexivity.
  - reflexivity.
Defined.

(** ** The loop runs until nothing can be started *)

Lemma pickTaskToExecute_empty env s :
  indexed s -> queue s = [] -> pickTaskToExecute env s = None.
Proof.
  intros [_ Hin] Hq. unfold pickTaskToExecute. rewrite Hq. cbn [DLL.pickFirstMatching].
  destruct (tasksByTimeLimit s) as [|x l] eqn:Hl; [reflexivity|].
  destruct (Hin x ltac:(left)) as [Hx _]. rewrite Hq in Hx. inversion Hx.
Qed.

Lemma startNextTaskIfPossible_blocked env :
  forall n s, (length (queue s) <= n)%nat -> indexed s ->
              blocked env (startNextTaskIfPossible env s).
Proof.
  induction n as [|n IH]; intros s Hn Hi; rewrite (startNextTaskIfPossible_unfold env s Hi);
    unfold startNextBody.
  - assert (Hq : queue s = []) by (destruct (queue s); [reflexivity|cbn in Hn; lia]).
    assert (Hgo : forall st, blocked env (stoppedResolve st s)).
    { intros st. right. apply pickTaskToExecute_empty.
      - apply (indexed_keepsIndex s); auto with kept.
      - unfold stoppedResolve. destruct (stoppedPromise st); exact Hq. }
    assert (Hrest : blocked env
              (if truthy (maxConcurrent (options s))
                  && (default 0 (maxConcurrent (options s)) <=? usedConcurrent s)
               then s
               else match pickTaskToExecute env s with
                    | None => s
                    | Some (taskToExecute, s1) =>
                        let s2 := reserveResources taskToExecute s1 in
                        let s3 := executeTask_ (startNextTaskIfPossible env) env taskToExecute s2 in
                        if bool_decide (DLL.length (queue s3) = 0) then disableTimers s3
                        else startNextTaskIfPossible env s3
                    end)).
    { rewrite (pickTaskToExecute_empty env s Hi Hq).
      destruct (truthy _ && _) eqn:Hg; [now left|right].
      now apply pickTaskToExecute_empty. }
    destruct (stopped s) as [st|]; [|exact Hrest].
    destruct (bool_decide _); [apply Hgo|exact Hrest].
  - assert (Hrest : blocked env
              (if truthy (maxConcurrent (options s))
                  && (default 0 (maxConcurrent (options s)) <=? usedConcurrent s)
               then s
               else match pickTaskToExecute env s with
                    | None => s
                    | Some (taskToExecute, s1) =>
                        let s2 := reserveResources taskToExecute s1 in
                        let s3 := executeTask_ (startNextTaskIfPossible env) env taskToExecute s2 in
                        if bool_decide (DLL.length (queue s3) = 0) then disableTimers s3
                        else startNextTaskIfPossible env s3
                    end)).
    { destruct (truthy _ && _) eqn:Hg; [now left|].
      destruct (pickTaskToExecute env s) as [[id s1]|] eqn:Hp; [|now right].
      destruct (dispatch_indexed env s id s1 Hi Hp) as (H1 & H2 & H3).
      destruct (executeTask_indexed (startNextTaskIfPossible env)
                  (startNextTaskIfPossible_indexed env) env id _ H1 H2) as [H4 H5].
      cbv zeta. destruct (bool_decide _) eqn:Hb.
      - right. apply bool_decide_eq_true in Hb. apply DLL_length_0 in Hb.
        apply pickTaskToExecute_empty.
        + apply (indexed_keepsIndex _ _ H4). auto with kept.
        + destruct (ki_disableTimers _ _ (keepsIndex_refl
                      (executeTask_ (startNextTaskIfPossible env) env id
                         (reserveResources id s1)))) as (_ & -> & _). exact Hb.
      - apply IH; [lia|assumption]. }
    destruct (stopped s) as [st|]; [|exact Hrest].
    destruct (bool_decide _) eqn:Hb; [|exact Hrest].
    right. apply bool_decide_eq_true in Hb. apply DLL_length_0 in Hb.
    apply pickTaskToExecute_empty.
    + apply (indexed_keepsIndex s); auto with kept.
    + unfold stoppedResolve. destruct (stoppedPromise st); exact Hb.
Qed.

(** X26.  In every state a run from the constructor reaches,
    [startNextTaskIfPossible] goes on until nothing can be started: in
    the state it returns every slot of concurrency is taken, or
    [pickTaskToExecute] selects no task (the queue is empty, the head of
    [tasksByTimeLimit] has reached its time limit and does not fit, or
    no queued task fits). *)
Theorem loop_starts_what_it_can (env0 : Env) (o : CapacityLimiterOptions)
    (events : list (Env * Event)) (env : Env) :
  let s := run events (stateOf (constructor env0 o)) in
  blocked env (startNextTaskIfPossible env s).
Proof.
  intros s. apply (startNextTaskIfPossible_blocked env (length (queue s))); [lia|].
  apply (run_placed events), constructor_placed.
Qed.

(** X27.  From any state and along any sequence of events a task stays
    in the store with the priority, the time it was added at and the
    parameters it has, and a promise that has settled keeps its outcome:
    no step resolves or rejects it a second time.  A run keeps its task,
    and a run that has finished stays finished. *)
Theorem settled_for_good (events : list (Env * Event)) (s : State) (id : TaskId) (t : Task) :
  tasks s !! id = Some t ->
  (exists t', tasks (run events s) !! id = Some t' /\
              priority t' = priority t /\ timeAdded t' = timeAdded t /\ params t' = params t /\
              (promise t <> Pending -> promise t' = promise t)) /\
  (forall r x, runs s !! r = Some x ->
     exists x', runs (run events s) !! r = Some x' /\ ex_task x' = ex_task x /\
                (finished x = true -> finished x' = true)).
Proof.
  intros Ht. destruct (ev_run events s s (evolves_refl s)) as (H1 & H2 & _).
  split; [|exact H2]. destruct (H1 id t Ht) as (t' & Ht' & Hsame).
  destruct Hsame as (Hp & Ha & Hpar & Hpr). exists t'. auto.
Qed.

Lemma settled_for_good_witness :
  let s := run failingTwice (stateOf (constructor (at_ 0) emptyOptions)) in
  let s' := run [ (at_ 3000, CallbackResolved 1%nat); (at_ 3001, Schedule emptyParams) ] s in
  exists t', tasks s' !! 0%nat = Some t' /\ promise t' = Rejected (TaskFailure 1).
Proof.
  cbv zeta.
  destruct (tasks (run failingTwice (stateOf (constructor (at_ 0) emptyOptions))) !! 0%nat)
    as [t|] eqn:Ht; [|vm_compute in Ht; discriminate].
  destruct (settled_for_good
              [ (at_ 3000, CallbackResolved 1%nat); (at_ 3001, Schedule emptyParams) ]
              _ 0%nat t Ht) as [(t' & Ht' & _ & _ & _ & Hpr) _].
  exists t'. split; [exact Ht'|].
  assert (Hp : promise t = Rejected (TaskFailure 1)).
  { vm_compute in Ht. injection Ht as <-. reflexivity. }
  rewrite Hpr; [exact Hp|]. rewrite Hp. discriminate.
Defined.

(** ** The promises of the tasks in a place *)

Lemma armsNoQueueTimer_refl s : armsNoQueueTimer s s.
Proof. intros h tm id H _. exact H. Qed.

Lemma keepsWord_refl s : keepsWord s s.
Proof. split; [reflexivity|apply armsNoQueueTimer_refl]. Qed.

Lemma keepsWord_trans s1 s2 s3 : keepsWord s1 s2 -> keepsWord s2 s3 -> keepsWord s1 s3.
Proof.
  intros [H1 H2] [K1 K2]. split; [congruence|].
  intros h tm id H Hcb. apply (H2 h tm id); [|assumption]. now apply (K2 h tm id).
Qed.

Lemma kw_same s0 s s' :
  tasks s' = tasks s -> stopped s' = stopped s -> timers s' = timers s ->
  keepsWord s0 s -> keepsWord s0 s'.
Proof. unfold keepsWord, wordOf, armsNoQueueTimer. intros -> -> ->. auto. Qed.

Ltac kw_same :=
  intros; match goal with H : keepsWord ?s0 ?s |- _ => apply (kw_same s0 s); [reflexivity..|exact H] end.

Lemma kw_set_usedCapacity s0 v s : keepsWord s0 s -> keepsWord s0 (set_usedCapacity v s).
Proof. kw_same. Qed.
Lemma kw_set_usedConcurrent s0 v s : keepsWord s0 s -> keepsWord s0 (set_usedConcurrent v s).
Proof. kw_same. Qed.
Lemma kw_set_queue s0 v s : keepsWord s0 s -> keepsWord s0 (set_queue v s).
Proof. kw_same. Qed.
Lemma kw_set_tasksByTimeAdded s0 v s : keepsWord s0 s -> keepsWord s0 (set_tasksByTimeAdded v s).
Proof. kw_same. Qed.
Lemma kw_set_tasksByTimeLimit s0 v s : keepsWord s0 s -> keepsWord s0 (set_tasksByTimeLimit v s).
Proof. kw_same. Qed.
Lemma kw_set_options s0 v s : keepsWord s0 s -> keepsWord s0 (set_options v s).
Proof. kw_same. Qed.
Lemma kw_set_originalOptions s0 v s : keepsWord s0 s -> keepsWord s0 (set_originalOptions v s).
Proof. kw_same. Qed.
Lemma kw_set_releaseTimers s0 v s : keepsWord s0 s -> keepsWord s0 (set_releaseTimers v s).
Proof. kw_same. Qed.
Lemma kw_set_releaseRuleTimersEnabled s0 v s :
  keepsWord s0 s -> keepsWord s0 (set_releaseRuleTimersEnabled v s).
Proof. kw_same. Qed.
Lemma kw_set_retryTimers s0 v s : keepsWord s0 s -> keepsWord s0 (set_retryTimers v s).
Proof. kw_same. Qed.
Lemma kw_set_executingTasks s0 v s : keepsWord s0 s -> keepsWord s0 (set_executingTasks v s).
Proof. kw_same. Qed.
Lemma kw_set_stopPromises s0 v s : keepsWord s0 s -> keepsWord s0 (set_stopPromises v s).
Proof. kw_same. Qed.
Lemma kw_set_runs s0 v s : keepsWord s0 s -> keepsWord s0 (set_runs v s).
Proof. kw_same. Qed.
Lemma kw_set_log s0 v s : keepsWord s0 s -> keepsWord s0 (set_log v s).
Proof. kw_same. Qed.
Lemma kw_set_onFailureCalls s0 v s : keepsWord s0 s -> keepsWord s0 (set_onFailureCalls v s).
Proof. kw_same. Qed.
Lemma kw_emit s0 e s : keepsWord s0 s -> keepsWord s0 (emit e s).
Proof. kw_same. Qed.
Lemma kw_updStatus s0 rule f s : keepsWord s0 s -> keepsWord s0 (updStatus rule f s).
Proof. kw_same. Qed.
Lemma kw_finishRun s0 r s : keepsWord s0 s -> keepsWord s0 (finishRun r s).
Proof. kw_same. Qed.

Lemma kw_clearTimer s0 h s : keepsWord s0 s -> keepsWord s0 (clearTimer h s).
Proof.
  intros [H1 H2]. split; [exact H1|]. intros h' tm id H Hcb. apply (H2 h' tm id); [|assumption].
  unfold clearTimer in H. cbn [timers set_timers] in H.
  apply list_lookup_insert_Some in H. destruct H as [(_ & H & _)|[_ H]]; [discriminate|exact H].
Qed.

Lemma kw_setTimer s0 cb due s :
  (forall id, cb <> QueueWaitingTimer id) ->
  keepsWord s0 s -> keepsWord s0 (snd (setTimer cb due s)).
Proof.
  intros Hcb [H1 H2]. split; [exact H1|]. intros h tm id H Hq. apply (H2 h tm id); [|assumption].
  unfold setTimer in H. cbn [snd timers set_timers] in H.
  apply lookup_app_Some in H. destruct H as [H|[_ H]]; [exact H|].
  apply list_lookup_singleton_Some in H. destruct H as [_ [= <-]]. cbn in Hq.
  now destruct (Hcb id).
Qed.

Lemma kw_clearOpt s0 o s : keepsWord s0 s -> keepsWord s0 (clearOpt o s).
Proof. destruct o; cbn [clearOpt]; auto using kw_clearTimer. Qed.

Lemma kw_updTask s0 id f s : keepsPromise f -> keepsWord s0 s -> keepsWord s0 (updTask id f s).
Proof.
  intros Hf [H1 H2]. split; [|exact H2]. rewrite <- H1.
  unfold wordOf, updTask. cbn [tasks stopped set_tasks].
  rewrite (map_alter_same promise f id (tasks s) (fun t => proj1 (Hf t))).
  now rewrite (map_alter_same queueWaitingTimerId f id (tasks s) (fun t => proj2 (Hf t))).
Qed.

Lemma keepsPromise_capacity v : keepsPromise (task_set_capacity v).
Proof. intros t. split; reflexivity. Qed.
Lemma keepsPromise_reservedCapacity v : keepsPromise (task_set_reservedCapacity v).
Proof. intros t. split; reflexivity. Qed.
Lemma keepsPromise_reservedConcurrent v : keepsPromise (task_set_reservedConcurrent v).
Proof. intros t. split; reflexivity. Qed.
Lemma keepsPromise_timeLimit v : keepsPromise (task_set_timeLimit v).
Proof. intros t. split; reflexivity. Qed.
Lemma keepsPromise_executionTimerId v : keepsPromise (task_set_executionTimerId v).
Proof. intros t. split; reflexivity. Qed.
Lemma keepsPromise_retryAttempt v : keepsPromise (task_set_retryAttempt v).
Proof. intros t. split; reflexivity. Qed.

Create HintDb word.
#[local] Hint Resolve keepsWord_refl kw_set_usedCapacity kw_set_usedConcurrent kw_set_queue
  kw_set_tasksByTimeAdded kw_set_tasksByTimeLimit kw_set_options kw_set_originalOptions
  kw_set_releaseTimers kw_set_releaseRuleTimersEnabled kw_set_retryTimers kw_set_executingTasks
  kw_set_stopPromises kw_set_runs kw_set_log kw_set_onFailureCalls kw_emit kw_updStatus
  kw_finishRun kw_clearTimer kw_clearOpt kw_updTask keepsPromise_capacity
  keepsPromise_reservedCapacity keepsPromise_reservedConcurrent keepsPromise_timeLimit
  keepsPromise_executionTimerId keepsPromise_retryAttempt : word.

Lemma kw_removeTaskFromQueues s0 id s : keepsWord s0 s -> keepsWord s0 (removeTaskFromQueues id s).
Proof. intros H. unfold removeTaskFromQueues. auto with word. Qed.

Lemma kw_stoppedResolve s0 st s : keepsWord s0 s -> keepsWord s0 (stoppedResolve st s).
Proof. intros H. unfold stoppedResolve. destruct (stoppedPromise st); auto with word. Qed.

Lemma kw_releaseTaskResources s0 id s :
  keepsWord s0 s -> keepsWord s0 (releaseTaskResources id s).
Proof.
  intros H. unfold releaseTaskResources. destruct (tasks s !! id) as [task|]; [|assumption].
  destruct (truthy (reservedConcurrent task)); destruct (truthy (reservedCapacity task) && _);
    destruct (executionTimerId task); auto 15 with word.
Qed.

#[local] Hint Resolve kw_removeTaskFromQueues kw_stoppedResolve kw_releaseTaskResources : word.

Lemma kw_foldl {A} (f : State -> A -> State) s0 l :
  (forall s a, keepsWord s0 s -> keepsWord s0 (f s a)) ->
  forall s, keepsWord s0 s -> keepsWord s0 (foldl f s l).
Proof. intros Hf. induction l as [|a l IH]; cbn [foldl]; auto. Qed.

Lemma kw_applyRule s0 rule times s : keepsWord s0 s -> keepsWord s0 (applyRule rule times s).
Proof. intros H. unfold applyRule. destruct (type rule); auto with word. Qed.

#[local] Hint Resolve kw_applyRule : word.

Lemma kw_missedReduces s0 now t entries s :
  keepsWord s0 s -> keepsWord s0 (snd (missedReduces now t entries s)).
Proof.
  revert s. induction entries as [|[rule status] rest IH]; intros s H; [assumption|].
  cbn [missedReduces]. destruct (type rule).
  - specialize (IH s H); destruct (missedReduces now t rest s) as [rest' r]. exact IH.
  - destruct (interval rule <=? now - lastApplied status).
    + match goal with |- context [missedReduces now t rest ?a] =>
        assert (Ha : keepsWord s0 a) by (destruct (canReduceCapacity s); auto with word);
        specialize (IH a Ha); destruct (missedReduces now t rest a) as [rest' r] end.
      exact IH.
    + specialize (IH s H); destruct (missedReduces now t rest s) as [rest' r]. exact IH.
Qed.

Lemma kw_applyMissedRules s0 now s : keepsWord s0 s -> keepsWord s0 (applyMissedRules now s).
Proof.
  intros H. unfold applyMissedRules.
  destruct (missedResets now (releaseTimers s) (None, None)) as [entries [t r]].
  match goal with |- context [missedReduces now t entries ?a] =>
    assert (Ha : keepsWord s0 a) by (destruct r; auto with word);
    pose proof (kw_missedReduces s0 now t entries a Ha) as H3;
    destruct (missedReduces now t entries a) as [entries' s2] end.
  cbn [snd] in H3. auto with word.
Qed.

Lemma kw_clearReleaseRuleTimer s0 rule status s :
  keepsWord s0 s -> keepsWord s0 (clearReleaseRuleTimer rule status s).
Proof. intros H. unfold clearReleaseRuleTimer. auto with word. Qed.

Lemma kw_setRuleTimerWithDelay s0 env rule delay s :
  keepsWord s0 s -> keepsWord s0 (setRuleTimerWithDelay env rule delay s).
Proof.
  intros H. unfold setRuleTimerWithDelay. destruct (decide (delay = interval rule)).
  - pose proof (kw_setTimer s0 (RuleInterval rule) (now env + interval rule) s
                  ltac:(discriminate) H) as Hs.
    destruct (setTimer _ _ s) as [h s2]. cbn [snd] in Hs. auto with word.
  - pose proof (kw_setTimer s0 (RuleTimeout rule) (now env + delay) s
                  ltac:(discriminate) H) as Hs.
    destruct (setTimer _ _ s) as [h s2]. cbn [snd] in Hs. auto with word.
Qed.

#[local] Hint Resolve kw_applyMissedRules kw_clearReleaseRuleTimer kw_setRuleTimerWithDelay
  : word.

Lemma kw_disableTimers s0 s : keepsWord s0 s -> keepsWord s0 (disableTimers s).
Proof.
  intros H. unfold disableTimers. destruct (releaseRuleTimersEnabled s); [|assumption].
  apply kw_foldl; auto with word.
Qed.

Lemma kw_enableTimers s0 env s : keepsWord s0 s -> keepsWord s0 (enableTimers env s).
Proof.
  intros H. unfold enableTimers. destruct (releaseRuleTimersEnabled s); [assumption|].
  unfold armRuleTimers. apply kw_foldl; auto with word.
Qed.

Lemma kw_addRules s0 env rules : forall s, keepsWord s0 s -> keepsWord s0 (addRules env rules s).
Proof.
  induction rules as [|rule rest IH]; intros s H; cbn [addRules]; [assumption|].
  destruct (hasRule rule (releaseTimers s)); [auto|]. apply IH.
  destruct (releaseRuleTimersEnabled _); auto with word.
Qed.

Lemma kw_dropRules s0 rules entries :
  forall s, keepsWord s0 s -> keepsWord s0 (dropRules rules entries s).
Proof.
  induction entries as [|[rule status] rest IH]; intros s H; cbn [dropRules]; [assumption|].
  destruct (bool_decide (rule ∈ rules)); [auto|]. apply IH. auto with word.
Qed.

Lemma kw_setRules s0 env rules s : keepsWord s0 s -> keepsWord s0 (setRules env rules s).
Proof. intros H. unfold setRules. apply kw_dropRules. now apply kw_addRules. Qed.

#[local] Hint Resolve kw_disableTimers kw_enableTimers kw_setRules : word.

Lemma kw_admissionChecks s0 id task s :
  keepsWord s0 s -> keepsWord s0 (stateOf (admissionChecks id task s)).
Proof.
  intros H. unfold admissionChecks.
  destruct (match maxCapacity (options s) with Some m => m <? capacity task | None => false end);
    destruct (optTaskExceedsMaxCapacityStrategy (options s));
    repeat match goal with |- context [if ?b then _ else _] => destruct b end;
    cbn [stateOf]; auto with word.
Qed.

Lemma kw_insertByTimeLimit s0 id task s :
  keepsWord s0 s -> keepsWord s0 (insertByTimeLimit id task s).
Proof.
  intros H. unfold insertByTimeLimit. destruct (truthy (queuedTimeLimit task s)); auto with word.
Qed.

Lemma kw_insertIntoQueue s0 id task s :
  keepsWord s0 s -> keepsWord s0 (insertIntoQueue id task s).
Proof. intros H. unfold insertIntoQueue. auto with word. Qed.

Lemma kw_setRetryTimer s0 env id timeout s :
  keepsWord s0 s -> keepsWord s0 (setRetryTimer env id timeout s).
Proof.
  intros H. unfold setRetryTimer.
  match goal with |- context [setTimer ?cb ?due ?s1] =>
    assert (H1 : keepsWord s0 s1) by auto with word;
    pose proof (kw_setTimer s0 cb due s1 ltac:(discriminate) H1) as Hs;
    destruct (setTimer cb due s1) as [h s2] end.
  cbn [snd] in Hs. auto with word.
Qed.

#[local] Hint Resolve kw_admissionChecks kw_insertByTimeLimit kw_insertIntoQueue
  kw_setRetryTimer : word.

(** *** The promises along a step *)

Lemma word_lookup s s' :
  keepsWord s s' ->
  forall i t', tasks s' !! i = Some t' ->
    exists t, tasks s !! i = Some t /\ promise t = promise t' /\
              queueWaitingTimerId t = queueWaitingTimerId t'.
Proof.
  intros [Hw _] i t'. unfold wordOf in Hw. injection Hw as H1 H2 _. now apply maps_lookup.
Qed.

Lemma word_lookup_back s s' :
  keepsWord s s' ->
  forall i t, tasks s !! i = Some t ->
    exists t', tasks s' !! i = Some t' /\ promise t' = promise t /\
               queueWaitingTimerId t' = queueWaitingTimerId t.
Proof.
  intros [Hw _] i t. unfold wordOf in Hw. injection Hw as H1 H2 _.
  now apply maps_lookup.
Qed.

Lemma word_length s s' : keepsWord s s' -> length (tasks s') = length (tasks s).
Proof.
  intros [Hw _]. unfold wordOf in Hw. injection Hw as H1 _ _.
  apply (f_equal length) in H1. now rewrite !length_map in H1.
Qed.

Lemma word_pending s s' id : keepsWord s s' -> (pending s' id <-> pending s id).
Proof.
  intros Hk. split.
  - intros (t' & Ht' & Hp). destruct (word_lookup s s' Hk id t' Ht') as (t & Ht & H1 & _).
    exists t. split; [assumption|congruence].
  - intros (t & Ht & Hp). destruct (word_lookup_back s s' Hk id t Ht) as (t' & Ht' & H1 & _).
    exists t'. split; [assumption|congruence].
Qed.

Lemma word_queueTimerOf s s' id : keepsWord s s' -> queueTimerOf s' id = queueTimerOf s id.
Proof.
  intros Hk. unfold queueTimerOf.
  destruct (tasks s' !! id) as [t'|] eqn:Ht'.
  - destruct (word_lookup s s' Hk id t' Ht') as (t & -> & _ & H2). now symmetry.
  - destruct (tasks s !! id) as [t|] eqn:Ht; [|reflexivity].
    destruct (word_lookup_back s s' Hk id t Ht) as (t' & Ht2 & _). congruence.
Qed.

(** A step that arms no queue-waiting timer, takes no task with a
    pending promise out of the queue, and leaves the tasks it puts into
    a place with a pending promise. *)
Lemma awaited_moves s s' :
  awaited s -> length (tasks s') = length (tasks s) -> armsNoQueueTimer s s' ->
  (forall x, pending s' x ->
     pending s x /\ queueTimerOf s' x = queueTimerOf s x /\ (x ∈ queue s -> x ∈ queue s')) ->
  (forall x, (0 < placesOf s' x)%nat ->
     pending s' x \/ ((0 < placesOf s x)%nat /\ (pending s x -> pending s' x))) ->
  awaited s'.
Proof.
  intros [HW HT] Hlen Harm Hpend Hplaces. split.
  - intros x Hx. destruct (Hplaces x Hx) as [H|[H1 H2]]; [exact H|]. apply H2. now apply HW.
  - intros h tm x Hh Hcb. pose proof (Harm h tm x Hh Hcb) as Hh0.
    destruct (HT h tm x Hh0 Hcb) as [H1 H2]. split; [lia|].
    intros Hp. destruct (Hpend x Hp) as (Hp0 & Hq & Hin). destruct (H2 Hp0) as [H3 H4].
    split; [now apply Hin|congruence].
Qed.

Lemma awaited_keeps s s' :
  awaited s -> queue s' = queue s -> fillsNoPlace s s' -> keepsWord s s' -> awaited s'.
Proof.
  intros Ha Hq [Hf _] Hk. apply (awaited_moves s s' Ha).
  - now apply word_length.
  - apply Hk.
  - intros x Hp. split; [now apply (word_pending s s')|]. split.
    + now apply word_queueTimerOf.
    + now rewrite Hq.
  - intros x Hx. right. specialize (Hf x). split; [lia|]. now apply word_pending.
Qed.

(** A task with a pending promise is put into a place. *)
Lemma awaited_puts id s s' :
  awaited s -> pending s id -> keepsWord s s' -> (forall x, x ∈ queue s -> x ∈ queue s') ->
  (forall x, placesOf s' x <= placesOf s x + oneFor (Some id) x)%nat -> awaited s'.
Proof.
  intros Ha Hid Hk Hq Hp. apply (awaited_moves s s' Ha).
  - now apply word_length.
  - apply Hk.
  - intros x Hx. split; [now apply (word_pending s s')|]. split; [now apply word_queueTimerOf|].
    apply Hq.
  - intros x Hx. destruct (decide (x = id)) as [->|Hne].
    + left. now apply (word_pending s s').
    + right. specialize (Hp x). rewrite (oneFor_other id x) in Hp by congruence.
      split; [lia|]. now apply word_pending.
Qed.

Lemma pending_settled o id t s :
  o <> Pending -> tasks s !! id = Some t ->
  ~ pending (updTask id (fun t => task_set_promise (settle o (promise t)) t) s) id.
Proof.
  intros Ho Ht (t' & Ht' & Hp). unfold updTask in Ht'. cbn [tasks set_tasks] in Ht'.
  rewrite list_lookup_alter_eq, Ht in Ht'. cbn in Ht'. injection Ht' as <-.
  cbn [promise task_set_promise] in Hp. destruct (promise t); cbn in Hp; congruence.
Qed.

Lemma pending_other id x f s : x <> id -> (pending (updTask id f s) x <-> pending s x).
Proof.
  intros Hne. unfold pending, updTask. cbn [tasks set_tasks].
  now rewrite list_lookup_alter_ne by congruence.
Qed.

Lemma queueTimerOf_other id x f s : x <> id -> queueTimerOf (updTask id f s) x = queueTimerOf s x.
Proof.
  intros Hne. unfold queueTimerOf, updTask. cbn [tasks set_tasks].
  now rewrite list_lookup_alter_ne by congruence.
Qed.

(** The promise of a task that is in no place settles. *)
Lemma awaited_settles o id s :
  o <> Pending -> awaited s -> (pending s id -> placesOf s id = 0%nat) ->
  awaited (updTask id (fun t => task_set_promise (settle o (promise t)) t) s).
Proof.
  intros Ho Ha Hid. set (s' := updTask id _ s). apply (awaited_moves s s' Ha); subst s'.
  - unfold updTask. cbn [tasks set_tasks]. apply length_alter.
  - intros h tm x H _. exact H.
  - intros x Hx. destruct (decide (x = id)) as [->|Hne].
    + exfalso. destruct Hx as (t' & Ht' & Hp).
      destruct (tasks s !! id) as [t|] eqn:Ht.
      * apply (pending_settled o id t s Ho Ht). now exists t'.
      * unfold updTask in Ht'. cbn [tasks set_tasks] in Ht'.
        rewrite list_lookup_alter_eq, Ht in Ht'. discriminate.
    + split; [exact (proj1 (pending_other id x _ s Hne) Hx)|]. split; [|auto].
      now apply queueTimerOf_other.
  - intros x Hx. right.
    change (placesOf (updTask id ?f s) x) with (placesOf s x) in Hx. split; [exact Hx|].
    intros Hp. destruct (decide (x = id)) as [->|Hne].
    + specialize (Hid Hp). lia.
    + exact (proj2 (pending_other id x _ s Hne) Hp).
Qed.

Lemma awaited_rejectTask id e s :
  awaited s -> (pending s id -> placesOf s id = 0%nat) -> awaited (rejectTask id e s).
Proof. apply awaited_settles. discriminate. Qed.

Lemma awaited_resolveTaskPromise id s :
  awaited s -> (pending s id -> placesOf s id = 0%nat) -> awaited (resolveTaskPromise id s).
Proof. apply awaited_settles. discriminate. Qed.

(** A queued task is taken out of the queue and rejected. *)
Lemma awaited_evicts x e s :
  onePlace s -> awaited s -> (pending s x -> x ∈ queue s) ->
  awaited (rejectTask x e (removeTaskFromQueues x s)).
Proof.
  intros Hl Ha Hx. set (s' := rejectTask x e (removeTaskFromQueues x s)).
  assert (Hpl : forall y, placesOf s' y
                          = (placesOf s y - (if bool_decide (x ∈ queue s)
                                             then oneFor (Some x) y else 0))%nat).
  { intros y. unfold s', placesOf, rejectTask, updTask, removeTaskFromQueues.
    cbn [queue runs timers onFailureCalls set_tasks set_queue set_tasksByTimeAdded
         set_tasksByTimeLimit].
    pose proof (occurrences_DLL_delete y x (queue s)). lia. }
  apply (awaited_moves s s' Ha); subst s'.
  - unfold rejectTask, updTask. cbn [tasks set_tasks]. apply length_alter.
  - intros h tm y H _. exact H.
  - intros y Hy. destruct (decide (y = x)) as [->|Hne].
    + exfalso. destruct Hy as (t' & Ht' & Hp).
      destruct (tasks s !! x) as [t|] eqn:Ht.
      * apply (pending_settled (Rejected e) x t (removeTaskFromQueues x s)); [discriminate|exact Ht|].
        now exists t'.
      * unfold rejectTask, updTask in Ht'. cbn [tasks set_tasks] in Ht'.
        rewrite list_lookup_alter_eq in Ht'. cbn [tasks removeTaskFromQueues set_queue
          set_tasksByTimeAdded set_tasksByTimeLimit] in Ht'. rewrite Ht in Ht'. discriminate.
    + split; [exact (proj1 (pending_other x y _ (removeTaskFromQueues x s) Hne) Hy)|].
      split; [exact (queueTimerOf_other x y _ (removeTaskFromQueues x s) Hne)|].
      intros Hin. now apply elem_of_DLL_delete_ne.
  - intros y Hy. right. rewrite Hpl in Hy. split; [lia|].
    intros Hp. destruct (decide (y = x)) as [->|Hne].
    + exfalso. specialize (Hx Hp). rewrite bool_decide_eq_true_2, oneFor_same in Hy by assumption.
      destruct (Hl x) as [Hle _]. lia.
    + exact (proj2 (pending_other x y _ (removeTaskFromQueues x s) Hne) Hp).
Qed.

(** *** The dispatch *)

Lemma pickTaskToExecute_timers env s id s1 :
  pickTaskToExecute env s = Some (id, s1) -> tasks s1 = tasks s /\ timers s1 = timers s.
Proof.
  unfold pickTaskToExecute.
  assert (Hq : match DLL.pickFirstMatching (fits s) (queue s) with
               | (Some id, q) => Some (id, set_queue q s)
               | (None, _) => None
               end = Some (id, s1) -> tasks s1 = tasks s /\ timers s1 = timers s).
  { destruct (DLL.pickFirstMatching (fits s) (queue s)) as [[x|] q]; [|discriminate].
    intros [= <- <-]. split; reflexivity. }
  destruct (DLL.peekFirst (tasksByTimeLimit s)) as [important|]; [|auto].
  destruct (aged env s important); [|auto].
  destruct (fits s important); [|discriminate]. intros [= <- <-]. split; reflexivity.
Qed.

Lemma reserveResources_word id s task :
  tasks s !! id = Some task ->
  length (tasks (reserveResources id s)) = length (tasks s) /\
  (forall i, i <> id -> tasks (reserveResources id s) !! i = tasks s !! i) /\
  (exists t', tasks (reserveResources id s) !! id = Some t' /\
              promise t' = promise task /\ queueWaitingTimerId t' = None) /\
  timers (reserveResources id s) = timers (clearOpt (queueWaitingTimerId task) s).
Proof.
  intros Hid. unfold reserveResources, updTask, clearOpt, clearTimer. rewrite Hid.
  destruct (maxCapacity (options s)); [destruct (optCapacityStrategy (options s))|];
    cbn; destruct (queueWaitingTimerId task) eqn:Hqw; cbn; destruct (truthy (timeLimit task)); cbn;
    rewrite ?length_alter;
    (split; [reflexivity|]; split;
     [intros i Hne; rewrite ?list_lookup_alter_ne by congruence; reflexivity|];
     split; [|reflexivity];
     eexists; rewrite ?list_lookup_alter_eq, ?Hid; cbn; split; [reflexivity|];
     split; [reflexivity|]; cbn; try reflexivity; exact Hqw).
Qed.

Lemma awaited_reserve env s id s1 :
  placed s -> awaited s -> pickTaskToExecute env s = Some (id, s1) ->
  awaited (reserveResources id s1) /\ pending (reserveResources id s1) id.
Proof.
  intros Hp [HW HT] Hpick. pose proof Hp as [Hi Hl].
  destruct (pickTaskToExecute_queued env s id s1 Hi Hpick) as (Hq & Hf1 & _).
  destruct (pickTaskToExecute_timers env s id s1 Hpick) as [Ht1 Htm1].
  destruct (dispatch_drops env s id s1 Hp Hpick) as (Hq2 & _).
  assert (Hf2 : fillsNoPlace s (reserveResources id s1)) by auto with places.
  assert (Hpid : pending s id).
  { apply HW. apply occurrences_elem in Hq. unfold placesOf. lia. }
  destruct Hpid as (task & Hid & Hpr). pose proof Hid as Hid1. rewrite <- Ht1 in Hid1.
  destruct (reserveResources_word id s1 task Hid1) as (Hlen & Ho & (t2 & Ht2 & Hp2 & Hqw2) & Htm).
  set (s2 := reserveResources id s1) in *.
  assert (Hpend : forall x, pending s2 x <-> pending s x).
  { intros x. unfold pending. destruct (decide (x = id)) as [->|Hne].
    - rewrite Ht2, Hid. split; intros (t & [= <-] & H); eexists; (split; [reflexivity|]); congruence.
    - rewrite (Ho x Hne), Ht1. reflexivity. }
  split; [|apply Hpend; now exists task]. split.
  - intros x Hx. apply Hpend, HW. destruct Hf2 as [Hf2 _]. specialize (Hf2 x). lia.
  - intros h tm x Hh Hcb. rewrite Htm in Hh.
    assert (Hh0 : timers s !! h = Some (Some tm) /\ queueWaitingTimerId task <> Some h).
    { rewrite <- Htm1. destruct (queueWaitingTimerId task) as [h0|]; cbn [clearOpt] in Hh.
      - unfold clearTimer in Hh. cbn [timers set_timers] in Hh.
        apply list_lookup_insert_Some in Hh. destruct Hh as [(_ & H & _)|[Hne H]]; [discriminate|].
        split; [exact H|congruence].
      - split; [exact Hh|discriminate]. }
    destruct Hh0 as [Hh0 Hne]. destruct (HT h tm x Hh0 Hcb) as [H1 H2].
    split; [rewrite Hlen, Ht1; exact H1|]. intros Hpx. apply Hpend in Hpx.
    destruct (H2 Hpx) as [H3 H4]. destruct (decide (x = id)) as [->|Hx].
    + exfalso. apply Hne. unfold queueTimerOf in H4. now rewrite Hid in H4.
    + split; [rewrite Hq2; now apply elem_of_DLL_delete_ne|].
      unfold queueTimerOf in *. now rewrite (Ho x Hx), Ht1.
Qed.

(** *** The failure and the completion of a run *)

Lemma queue_setRetryTimer env id timeout s : queue (setRetryTimer env id timeout s) = queue s.
Proof. reflexivity. Qed.

Lemma useStrategy_awaited env id strategy e attempt s :
  awaited s -> pending s id -> placesOf s id = 0%nat ->
  awaited (useStrategy env id strategy e attempt s).
Proof.
  intros Ha Hp H0.
  pose proof (fun x => proj1 (placesOf_useStrategy env id strategy e attempt s x)) as Hpl.
  set (sE := emit (StrategyUsed id attempt) s).
  assert (HaE : awaited sE) by (apply (awaited_keeps s); unfold sE; auto with places word).
  assert (Hk : (exists e', useStrategy env id strategy e attempt s = rejectTask id e' sE) \/
               (keepsWord s (useStrategy env id strategy e attempt s) /\
                queue (useStrategy env id strategy e attempt s) = queue s)).
  { unfold useStrategy. fold sE. destruct strategy as [o|f].
    - destruct (_ <? attempt); [left; eauto|right].
      split; [unfold sE; auto with word|reflexivity].
    - right. split; [unfold sE; auto with word|reflexivity]. }
  destruct Hk as [[e' ->]|[Hk Hq]].
  - apply awaited_rejectTask; [assumption|]. intros _. exact H0.
  - apply (awaited_puts id s); [assumption..| |exact Hpl]. intros x Hx. now rewrite Hq.
Qed.

Lemma queue_releaseTaskResources id s : queue (releaseTaskResources id s) = queue s.
Proof.
  unfold releaseTaskResources. destruct (tasks s !! id) as [task|]; [|reflexivity].
  destruct (truthy (reservedConcurrent task)); destruct (truthy (reservedCapacity task) && _);
    destruct (executionTimerId task); reflexivity.
Qed.

Lemma tryRejectTask_onward_awaited env id e s :
  unplaced id s -> awaited s -> pending s id ->
  awaited (tryRejectTask_ (fun s => s) env id e s).
Proof.
  intros Hroom Ha Hp. unfold tryRejectTask_.
  set (s1 := releaseTaskResources id s).
  assert (Hk1 : keepsWord s s1) by (unfold s1; auto with word).
  assert (Ha1 : awaited s1).
  { apply (awaited_keeps s); [assumption|apply queue_releaseTaskResources
                             |unfold s1; auto with places|assumption]. }
  assert (Hroom1 : unplaced id s1)
    by (apply (unplaced_spends id s); [assumption|unfold s1; auto with places]).
  assert (Hp1 : pending s1 id) by now apply (word_pending s s1).
  destruct Hroom1 as (_ & H0 & _).
  destruct (tasks s1 !! id) as [task|] eqn:Hid; [|assumption].
  assert (Hrej : awaited (rejectTask id e s1)) by (apply awaited_rejectTask; auto).
  destruct (nullish _ _) as [strategy|]; [|exact Hrej].
  assert (Hgo : forall st a, awaited (useStrategy env id st e a
                               (updTask id (task_set_retryAttempt (Some a)) s1))).
  { intros st a. apply useStrategy_awaited.
    - apply (awaited_keeps s1); auto with places word.
    - apply (word_pending s1); auto with word.
    - exact H0. }
  destruct strategy as [| |o]; [exact Hrej|apply Hgo..].
Qed.

Lemma resolveTask_onward_awaited id s :
  unplaced id s -> awaited s -> awaited (resolveTask_ (fun s => s) id s).
Proof.
  intros Hroom Ha. unfold resolveTask_.
  set (s1 := releaseTaskResources id s).
  assert (Ha1 : awaited s1).
  { apply (awaited_keeps s); [assumption|apply queue_releaseTaskResources
                             |unfold s1; auto with places|unfold s1; auto with word]. }
  assert (Hroom1 : unplaced id s1)
    by (apply (unplaced_spends id s); [assumption|unfold s1; auto with places]).
  apply awaited_resolveTaskPromise; [assumption|]. intros _. apply Hroom1.
Qed.

Lemma live_keeps s s' :
  live s -> keepsIndex s s' -> fillsNoPlace s s' -> keepsWord s s' -> live s'.
Proof.
  intros [Hp Ha] Hk Hf Hw. split; [now apply (placed_keeps s)|].
  apply (awaited_keeps s); [assumption|apply Hk|assumption..].
Qed.

Lemma live_dispatch env s id s1 :
  live s -> pickTaskToExecute env s = Some (id, s1) ->
  live (executeTask_ (fun s => s) env id (reserveResources id s1)).
Proof.
  intros [[Hi Hl] Ha] Hp.
  split; [apply (dispatch_onward_placed env s id s1); [now split|assumption]|].
  destruct (awaited_reserve env s id s1 (conj Hi Hl) Ha Hp) as [Ha2 Hp2].
  pose proof (dispatch_room env s id s1 Hi Hl Hp) as Hroom.
  set (s2 := reserveResources id s1) in *.
  destruct Hroom as (Hl2 & H0 & Hlt).
  unfold executeTask_. destruct (tasks s2 !! id) as [t2|] eqn:Ht2; [|assumption].
  set (s0 := set_executingTasks (setAdd id (executingTasks (set_runs _ s2))) (set_runs _ s2)).
  match goal with |- context [emit (CallbackInvoked id) ?x] => set (sC := x) end.
  set (sD := emit (CallbackInvoked id) sC).
  assert (Hpl0 : forall x, placesOf s0 x = (placesOf s2 x + oneFor (Some id) x)%nat).
  { intros x. unfold placesOf, s0.
    cbn [queue runs timers onFailureCalls set_runs set_executingTasks].
    rewrite occurrences_omap_snoc. cbn [runToken finished ex_task]. lia. }
  assert (HC : keepsWord s2 sC /\ fillsNoPlace s0 sC /\ queue sC = queue s2 /\
               runs sC = runs s2 ++ [mkExecution id false]).
  { assert (Hk0 : keepsWord s2 s0) by (unfold s0; auto with word).
    unfold sC. destruct (truthy _).
    - match goal with |- context [setTimer ?cb ?due ?a] =>
        pose proof (kw_setTimer s2 cb due a ltac:(discriminate) Hk0) as Hs';
        pose proof (fnp_setTimer s0 cb due a eq_refl (fillsNoPlace_refl s0)) as Hs'';
        assert (Hr : runs (snd (setTimer cb due a)) = runs s2 ++ [mkExecution id false])
          by reflexivity;
        assert (Hq : queue (snd (setTimer cb due a)) = queue s2) by reflexivity;
        destruct (setTimer cb due a) as [h s3] end.
      cbn [snd] in Hs', Hs'', Hr, Hq.
      split; [auto 10 with word|]. split; [auto with places|]. split; assumption.
    - split; [exact Hk0|]. split; [auto with places|]. split; reflexivity. }
  destruct HC as (HC1 & HC2 & HC3 & HC4).
  assert (HplD : forall x, (placesOf sD x <= placesOf s2 x + oneFor (Some id) x)%nat).
  { intros x. rewrite (placesOf_same sC sD) by reflexivity. rewrite <- Hpl0. apply HC2. }
  assert (HkD : keepsWord s2 sD) by (unfold sD; auto with word).
  assert (HaD : awaited sD).
  { apply (awaited_puts id s2); [assumption..| |exact HplD].
    intros x Hx. change (queue sD) with (queue sC). now rewrite HC3. }
  destruct (throwsSync env id) as [e|]; [|exact HaD].
  set (sE := set_executingTasks (setDelete id (executingTasks sD)) sD).
  set (r := length (runs s2)).
  assert (Hlook : runs sE !! r = Some (mkExecution id false)).
  { change (runs sE) with (runs sC). rewrite HC4. unfold r.
    rewrite lookup_app_r by lia. now rewrite Nat.sub_diag. }
  assert (HplF : forall x, (placesOf (finishRun r sE) x <= placesOf s2 x)%nat).
  { intros x. pose proof (placesOf_finishRun r sE x) as Hf. rewrite Hlook in Hf.
    cbn [from_option runToken finished ex_task] in Hf.
    rewrite (placesOf_same sD sE) in Hf by reflexivity. specialize (HplD x). lia. }
  assert (HkF : keepsWord s2 (finishRun r sE)) by (unfold sE; auto with word).
  pose proof (word_length _ _ HkF) as HlenF.
  apply tryRejectTask_onward_awaited.
  - split; [|split; [specialize (HplF id); lia|now rewrite HlenF]].
    apply (onePlace_spends s2); [assumption|]. split; [exact HplF|now rewrite HlenF].
  - apply (awaited_keeps sD); [assumption|reflexivity|unfold sE; auto with places
                              |unfold sE; auto with word].
  - now apply (word_pending s2).
Qed.

Lemma live_loop env s : live s -> live (startNextTaskIfPossible env s).
Proof.
  apply startNextTaskIfPossible_invariant.
  - intros st s0 H. apply (live_keeps s0); auto with kept places word.
  - intros env0 s0 id s1 H _. now apply live_dispatch.
  - intros s0 H. apply (live_keeps s0); auto with kept places word.
Qed.

Lemma tryRejectTask_live env id e s :
  indexed s -> id ∉ tasksByTimeLimit s -> unplaced id s -> awaited s -> pending s id ->
  live (tryRejectTask env id e s).
Proof.
  intros Hi Hid Hroom Ha Hp.
  change (live (startNextTaskIfPossible env (tryRejectTask_ (fun s => s) env id e s))).
  apply live_loop. split.
  - now apply tryRejectTask_onward_placed.
  - now apply tryRejectTask_onward_awaited.
Qed.

Lemma resolveTask_live env id s :
  indexed s -> id ∉ tasksByTimeLimit s -> unplaced id s -> awaited s -> pending s id ->
  live (resolveTask env id s).
Proof.
  intros Hi Hid Hroom Ha _.
  change (live (startNextTaskIfPossible env (resolveTask_ (fun s => s) id s))).
  apply live_loop. split.
  - now apply resolveTask_onward_placed.
  - now apply resolveTask_onward_awaited.
Qed.

(** *** The admission to the queue *)

Lemma queued_shape id task s :
  let sB := insertByTimeLimit id task (insertIntoQueue id task s) in
  queue sB = DLL.putAfter id (fun other => priorityOf s other <=? priority task) (queue s) /\
  runs sB = runs s /\ timers sB = timers s /\ onFailureCalls sB = onFailureCalls s.
Proof.
  cbv zeta. unfold insertByTimeLimit.
  destruct (truthy (queuedTimeLimit task (insertIntoQueue id task s))); repeat split; reflexivity.
Qed.

Lemma awaited_queued id task s :
  awaited s -> pending s id ->
  awaited (insertByTimeLimit id task (insertIntoQueue id task s)).
Proof.
  intros Ha Hp. destruct (queued_shape id task s) as (Hq & Hr & Ht & Hc).
  apply (awaited_puts id s); [assumption..|auto with word| |].
  - intros x Hx. rewrite Hq. apply elem_of_putAfter. now right.
  - intros x. unfold placesOf. rewrite Hq, Hr, Ht, Hc, occurrences_putAfter. lia.
Qed.

Lemma awaited_armQueueWaitingTimer env id task s :
  awaited s -> id ∈ queue s -> (id < length (tasks s))%nat ->
  (forall h tm, timers s !! h = Some (Some tm) -> callback tm <> QueueWaitingTimer id) ->
  awaited (armQueueWaitingTimer env id task s).
Proof.
  intros [HW HT] Hq Hlt Hnone. unfold armQueueWaitingTimer.
  destruct (truthy _ && _); [|now split].
  match goal with |- awaited ?x =>
    assert (Hshape : exists due,
              x = updTask id (task_set_queueWaitingTimerId (Some (length (timers s))))
                    (set_timers (timers s ++ [Some (mkTimer (QueueWaitingTimer id) due)]) s))
      by (eexists; reflexivity) end.
  destruct Hshape as [due ->].
  set (s' := updTask id _ _).
  assert (Hpend : forall x, pending s' x <-> pending s x).
  { intros x. destruct (decide (x = id)) as [->|Hne].
    - unfold pending, s', updTask. cbn [tasks set_tasks set_timers].
      rewrite list_lookup_alter_eq. destruct (tasks s !! id) as [t|]; cbn.
      + split; intros (t' & [= <-] & H); eexists; (split; [reflexivity|exact H]).
      + split; intros (t' & [=] & _).
    - unfold s'. rewrite pending_other by assumption. reflexivity. }
  assert (Hpl : forall x, placesOf s' x = placesOf s x).
  { intros x. unfold placesOf, s', updTask.
    cbn [queue runs timers onFailureCalls set_tasks set_timers].
    rewrite occurrences_omap_snoc. cbn [retryToken callback oneFor]. lia. }
  split.
  - intros x Hx. apply Hpend, HW. now rewrite <- Hpl.
  - intros h tm x Hh Hcb. unfold s', updTask in Hh. cbn [timers set_tasks set_timers] in Hh.
    assert (Hlen : length (tasks s') = length (tasks s))
      by (unfold s', updTask; cbn [tasks set_tasks set_timers]; apply length_alter).
    apply lookup_app_Some in Hh. destruct Hh as [Hh|[Hge Hh]].
    + assert (Hx : x <> id) by (intros ->; now apply (Hnone h tm Hh)).
      destruct (HT h tm x Hh Hcb) as [H1 H2]. split; [lia|]. intros Hp. apply Hpend in Hp.
      destruct (H2 Hp) as [H3 H4]. split; [exact H3|].
      unfold s'. now rewrite queueTimerOf_other.
    + apply list_lookup_singleton_Some in Hh. destruct Hh as [Hh [= <-]].
      cbn [callback] in Hcb. injection Hcb as <-. split; [lia|]. intros _. split; [exact Hq|].
      assert (h = length (timers s)) as -> by lia.
      unfold queueTimerOf, s', updTask. cbn [tasks set_tasks set_timers].
      rewrite list_lookup_alter_eq. destruct (lookup_lt_is_Some_2 _ _ Hlt) as [t ->]. reflexivity.
Qed.

Lemma awaited_enqueue env id task s :
  awaited s -> placesOf s id = 0%nat -> pending s id -> awaited (enqueue env id task s).
Proof.
  intros Ha H0 Hp. unfold enqueue.
  set (sB := insertByTimeLimit id task (insertIntoQueue id task s)).
  assert (HaB : awaited sB) by now apply awaited_queued.
  assert (Hout : id ∉ queue s) by (apply occurrences_absent; unfold placesOf in H0; lia).
  assert (Hlt : (id < length (tasks s))%nat).
  { destruct Hp as (t & Ht & _). now apply lookup_lt_Some in Ht. }
  assert (HkB : keepsWord s sB) by (unfold sB; auto with word).
  destruct (queued_shape id task s) as (HqB' & _ & HtB & _). fold sB in HqB', HtB.
  assert (HqB : id ∈ queue sB) by (rewrite HqB'; apply elem_of_putAfter; now left).
  assert (HaC : awaited (armQueueWaitingTimer env id task sB)).
  { apply awaited_armQueueWaitingTimer; [assumption..|now rewrite (word_length s sB)|].
    intros h tm Hh Hcb. rewrite HtB in Hh. destruct Ha as [_ HT].
    destruct (HT h tm id Hh Hcb) as [_ H2]. now destruct (H2 Hp). }
  apply (awaited_keeps _ _ HaC); [|auto with places|auto with word].
  apply (ki_enableTimers _ env _ (keepsIndex_refl _)).
Qed.

Lemma queueOverflow_awaited id task s :
  orderly false s -> awaited s -> placesOf s id = 0%nat ->
  match queueOverflow id task s with
  | inl s' => awaited s' /\ (pending s id -> pending s' id)
  | inr s' => awaited s'
  end.
Proof.
  intros Ho Ha H0. pose proof Ho as [[Hi Hl] (Hal & _)].
  assert (Hout : id ∉ queue s) by (apply occurrences_absent; unfold placesOf in H0; lia).
  assert (Hrej : forall e, awaited (rejectTask id e s))
    by (intros e; apply awaited_rejectTask; auto).
  unfold queueOverflow. destruct (truthy (maxQueueSize (options s)) && _); [|now split].
  destruct (optQueueSizeExceededStrategy (options s)).
  - apply Hrej.
  - destruct (DLL.shift (tasksByTimeAdded s)) as [[oldest|] rest] eqn:Hshift; [|now split].
    assert (Hin : oldest ∈ queue s).
    { apply (aligned_elem s oldest Hal).
      destruct (tasksByTimeAdded s) as [|y l]; [discriminate|]. injection Hshift as -> _. left. }
    set (s1 := set_tasksByTimeAdded rest s).
    assert (Ha1 : awaited s1) by (apply (awaited_keeps s); unfold s1; auto with places word).
    split.
    + apply awaited_evicts; [exact Hl|exact Ha1|]. intros _. exact Hin.
    + intros Hp. apply pending_other; [|exact Hp]. intros ->. contradiction.
  - destruct (DLL.peekLast (queue s)) as [least|] eqn:Hlast; [|apply Hrej].
    destruct (priority task <? priorityOf s least); [|apply Hrej].
    assert (Hin : least ∈ queue s).
    { unfold DLL.peekLast in Hlast. destruct (queue s) as [|a l _] using rev_ind; [discriminate|].
      rewrite last_snoc in Hlast. injection Hlast as ->. apply elem_of_app. right. left. }
    split.
    + apply awaited_evicts; [exact Hl|exact Ha|]. intros _. exact Hin.
    + intros Hp. apply pending_other; [|exact Hp]. intros ->. contradiction.
  - now split.
Qed.

Lemma scheduleTask_live env id s :
  orderly false s -> unplaced id s -> awaited s -> pending s id ->
  live (stateOf (scheduleTask env id s)).
Proof.
  intros Ho Hroom Ha Hp. pose proof Ho as [[Hi Hl] _].
  assert (Hlive : live s) by (split; [split|]; assumption).
  unfold scheduleTask.
  destruct (tasks s !! id) as [task|] eqn:Hid; [|assumption].
  destruct (stopped s).
  { cbn [stateOf]. split.
    - apply (placed_keeps s); [now split|auto with kept|auto with places].
    - apply awaited_rejectTask; [assumption|]. intros _. apply Hroom. }
  pose proof (ki_admissionChecks s id task s (keepsIndex_refl s)) as Hk1.
  pose proof (fnp_admissionChecks s id task s (fillsNoPlace_refl s)) as Hf1.
  pose proof (rs_admissionChecks s id task s (rests_refl s)) as Hr1.
  pose proof (kw_admissionChecks s id task s (keepsWord_refl s)) as Hw1.
  destruct (admissionChecks id task s) as [s1|e s1]; cbn [stateOf] in *;
    [|now apply (live_keeps s)].
  pose proof (orderly_keeps false s s1 Ho Hk1 Hf1 Hr1) as Ho1.
  destruct (live_keeps s s1 Hlive Hk1 Hf1 Hw1) as [_ Ha1].
  assert (Hroom1 : unplaced id s1) by now apply (unplaced_spends id s).
  assert (Hp1 : pending s1 id) by now apply (word_pending s s1).
  pose proof (queueOverflow_orderly false id task s1 Ho1) as Ho2.
  pose proof (fnp_queueOverflow s1 id task s1 (fillsNoPlace_refl s1)) as Hf2.
  pose proof (queueOverflow_awaited id task s1 Ho1 Ha1 (proj1 (proj2 Hroom1))) as Ha2.
  destruct (queueOverflow id task s1) as [s2|s2]; cbn [stateOf].
  - destruct Ho2 as [[[Hi2 Hl2] _] _]. destruct Ha2 as [Ha2 Hp2].
    assert (Hroom2 : unplaced id s2) by now apply (unplaced_spends id s1).
    apply live_loop. split; [now apply enqueue_placed|].
    apply awaited_enqueue; [assumption|apply Hroom2|auto].
  - split; [apply Ho2|exact Ha2].
Qed.

Lemma schedule_live env p s : orderly false s -> awaited s -> live (stateOf (schedule env p s)).
Proof.
  intros Ho Ha. pose proof Ho as [Hp Hx]. pose proof Hp as [[Hnd Hin] Hl].
  unfold schedule.
  set (s0 := set_tasks (tasks s ++ [newTask env p]) s).
  assert (Hroom : unplaced (length (tasks s)) s0).
  { split; [|split].
    - intros x. destruct (Hl x) as [Ha' Hb].
      rewrite (placesOf_same s s0) by reflexivity. split; [assumption|].
      cbn [tasks set_tasks s0]. rewrite length_app. cbn [length]. intros Hx'. apply Hb. lia.
    - rewrite (placesOf_same s s0) by reflexivity. apply Hl. lia.
    - cbn [tasks set_tasks s0]. rewrite length_app. cbn [length]. lia. }
  assert (Ho0 : orderly false s0).
  { apply (orderly_rests false s); [assumption| |].
    - split; [|now apply (unplaced_onePlace _ _ Hroom)].
      split; [exact Hnd|]. intros x Hx'. destruct (Hin x Hx') as [Hq Ht]. split; [exact Hq|].
      unfold timeLimitOf in *. cbn [tasks set_tasks s0].
      destruct (tasks s !! x) as [t|] eqn:Hlook; [|discriminate].
      now rewrite (lookup_app_l_Some _ _ _ _ Hlook).
    - repeat split. intros id Hid. unfold timeLimitOf. cbn [tasks set_tasks s0].
      rewrite lookup_app_l; [reflexivity|]. now apply placed_queued. }
  assert (Hold : forall x, (x < length (tasks s))%nat -> tasks s0 !! x = tasks s !! x).
  { intros x Hx'. unfold s0. cbn [tasks set_tasks]. now apply lookup_app_l. }
  assert (Hnew : pending s0 (length (tasks s))).
  { exists (newTask env p). split; [|reflexivity]. unfold s0. cbn [tasks set_tasks].
    rewrite lookup_app_r by lia. now rewrite Nat.sub_diag. }
  apply scheduleTask_live; [assumption..| |assumption].
  destruct Ha as [HW HT]. split.
  - intros x Hx'. rewrite (placesOf_same s s0) in Hx' by reflexivity.
    destruct (HW x Hx') as (t & Ht & Hpr). exists t. split; [|exact Hpr].
    rewrite Hold; [exact Ht|]. now apply lookup_lt_Some in Ht.
  - intros h tm x Hh Hcb. change (timers s0) with (timers s) in Hh.
    destruct (HT h tm x Hh Hcb) as [H1 H2]. split.
    + unfold s0. cbn [tasks set_tasks]. rewrite length_app. lia.
    + intros (t & Ht & Hpr). rewrite (Hold x H1) in Ht.
      destruct (H2 (ex_intro _ t (conj Ht Hpr))) as [H3 H4]. split; [exact H3|].
      unfold queueTimerOf in *. now rewrite (Hold x H1).
Qed.

(** *** The events *)

Lemma whenUnfinished_live r k s :
  (forall id s', indexed s' -> id ∉ tasksByTimeLimit s' -> unplaced id s' -> awaited s' ->
                 pending s' id -> live (k id s')) ->
  live s -> live (whenUnfinished r k s).
Proof.
  intros Hk [[Hi Hl] Ha]. unfold whenUnfinished.
  destruct (runs s !! r) as [x|] eqn:Hr; [|now split].
  destruct (finished x) eqn:Hf; [now split|].
  set (sE := set_executingTasks (setDelete (ex_task x) (executingTasks s)) s).
  set (s1 := finishRun r sE).
  assert (Hk1 : keepsIndex s s1) by (unfold s1, sE; auto with kept).
  assert (Hw1 : keepsWord s s1) by (unfold s1, sE; auto with word).
  assert (Hroom : unplaced (ex_task x) s1).
  { apply (unplaced_consume _ s); [assumption| |reflexivity].
    intros y. pose proof (placesOf_finishRun r sE y) as H.
    change (runs sE) with (runs s) in H. rewrite Hr in H.
    cbn [from_option] in H. unfold runToken in H. rewrite Hf in H.
    rewrite (placesOf_same s sE) in H by reflexivity. fold s1 in H. lia. }
  assert (Hi1 : indexed s1) by now apply (indexed_keepsIndex s).
  apply Hk; [assumption|now apply unplaced_absent|assumption| |].
  - apply (awaited_keeps s); [assumption|reflexivity|unfold s1, sE; auto with places|assumption].
  - apply (word_pending s s1 _ Hw1). apply Ha.
    pose proof (inFlight_unfinished r s x Hr Hf) as Hpos.
    unfold placesOf. unfold inFlight in Hpos. lia.
Qed.

Lemma applyRuleByInterval_live env rule s : live s -> live (applyRuleByInterval env rule s).
Proof.
  intros H. unfold applyRuleByInterval. apply live_loop.
  apply (live_keeps s); auto with kept places word.
Qed.

Lemma timerFired_live env handle s :
  orderly false s -> awaited s -> live (stateOf (timerFired env handle s)).
Proof.
  intros Ho Ha. pose proof Ho as [Hp _]. pose proof Hp as [Hi Hl].
  assert (Hlive : live s) by now split.
  pose proof (timerFired_placed env handle s Hp) as Hpl.
  unfold timerFired in *.
  destruct (timers s !! handle) as [[t|]|] eqn:Harmed; [|assumption..].
  destruct (callback t) as [id|r|id|rule|rule] eqn:Hcb; cbn [stateOf] in *.
  - split; [assumption|].
    assert (Ha1 : awaited (clearTimer handle s))
      by (apply (awaited_keeps s); auto with places word).
    apply awaited_evicts; [apply (onePlace_spends s); auto with places|exact Ha1|].
    intros Hpid. change (queue (clearTimer handle s)) with (queue s).
    apply (proj2 Ha handle t id Harmed Hcb).
    apply (word_pending s (clearTimer handle s)); auto with word.
  - apply whenUnfinished_live.
    + intros id s'. apply tryRejectTask_live.
    + apply (live_keeps s); auto with kept places word.
  - assert (Hroom : unplaced id (clearTimer handle s)).
    { apply (unplaced_consume _ s); [assumption| |reflexivity].
      intros y. pose proof (placesOf_clearTimer handle s y) as H. rewrite Harmed in H.
      cbn [from_option retryToken] in H. rewrite Hcb in H. lia. }
    assert (Hpid : pending s id).
    { apply Ha.
      assert (H1 : (1 <= occurrences id (omap retryToken (timers s)))%nat).
      { apply (occurrences_omap_lookup retryToken (timers s) handle (Some t) id Harmed).
        cbn [retryToken]. now rewrite Hcb. }
      unfold placesOf. lia. }
    apply scheduleTask_live.
    + apply (orderly_keeps false s); auto with kept places rest.
    + apply (unplaced_spends id (clearTimer handle s)); auto with places.
    + apply (awaited_keeps s); auto with places word.
    + apply (word_pending s); auto with word.
  - unfold setTimer at 1. cbv beta iota. cbn [stateOf].
    apply applyRuleByInterval_live. apply (live_keeps s); [assumption| | |].
    + apply ki_updStatus. apply ki_set_timers. auto with kept.
    + apply fnp_updStatus.
      apply (fnp_setTimer s (RuleInterval rule) (now env + interval rule) (clearTimer handle s)
               eq_refl). auto with places.
    + apply kw_updStatus.
      apply (kw_setTimer s (RuleInterval rule) (now env + interval rule) (clearTimer handle s)
               ltac:(discriminate)). auto with word.
  - now apply applyRuleByInterval_live.
Qed.

Lemma onFailureSettled_awaited env call r s :
  onePlace s -> awaited s -> awaited (onFailureSettled env call r s).
Proof.
  intros Hl Ha. unfold onFailureSettled.
  destruct (onFailureCalls s !! call) as [[c|]|] eqn:Hc; [|assumption..].
  set (s1 := set_onFailureCalls _ s).
  assert (Hroom : unplaced (of_task c) s1).
  { apply (unplaced_consume _ s); [assumption| |reflexivity].
    intros y. unfold placesOf, s1. cbn [queue runs timers onFailureCalls set_onFailureCalls].
    pose proof (occurrences_omap_insert hookToken None y (onFailureCalls s) call) as H.
    rewrite Hc in H. cbn [hookToken option_map oneFor] in H. cbn [oneFor]. lia. }
  assert (Hf1 : fillsNoPlace s s1).
  { split; [|reflexivity]. intros y. unfold placesOf, s1.
    cbn [queue runs timers onFailureCalls set_onFailureCalls].
    pose proof (occurrences_omap_insert hookToken None y (onFailureCalls s) call) as H.
    rewrite Hc in H. cbn [hookToken option_map oneFor] in H. lia. }
  assert (Hw1 : keepsWord s s1) by (unfold s1; auto with word).
  assert (Ha1 : awaited s1) by now apply (awaited_keeps s).
  assert (Hp1 : pending s1 (of_task c)).
  { apply (word_pending s s1 _ Hw1). apply Ha.
    pose proof (occurrences_omap_lookup hookToken (onFailureCalls s) call (Some c) (of_task c)
                  Hc eq_refl). unfold placesOf. lia. }
  destruct Hroom as (_ & H0 & _).
  assert (Hrej : forall e, awaited (rejectTask (of_task c) e s1))
    by (intros e; apply awaited_rejectTask; auto).
  destruct r as [timeout|e|e]; [|apply Hrej..].
  apply (awaited_puts (of_task c) s1); [assumption..|auto with word|auto|].
  intros x. rewrite (proj1 (placesOf_setRetryTimer env (of_task c) timeout s1 x)). lia.
Qed.

Lemma step_live env ev s :
  orderly false s -> awaited s -> (forall p, ev <> Stop p) -> live (stateOf (step env ev s)).
Proof.
  intros Ho Ha Hev. pose proof Ho as [Hp _]. assert (Hlive : live s) by now split.
  pose proof (step_placed env ev s Hp) as Hpl.
  destruct ev as [p|r|r e|h|call r| |v|d|o|p]; cbn [step stateOf] in *.
  - now apply schedule_live.
  - apply whenUnfinished_live; [|assumption]. intros id s'. apply resolveTask_live.
  - apply whenUnfinished_live; [|assumption]. intros id s'. apply tryRejectTask_live.
  - now apply timerFired_live.
  - split; [assumption|]. apply onFailureSettled_awaited; [apply Hp|assumption].
  - unfold getUsedCapacity. cbn [snd]. destruct (areTimersEnabled s); [assumption|].
    apply (live_keeps s); auto with kept places word.
  - unfold setUsedCapacity in *. destruct (checkUsedCapacity _ _); cbn [stateOf] in *;
      [assumption|].
    apply live_loop. apply (live_keeps s); auto with kept places word.
  - unfold adjustUsedCapacity in *. destruct (maxCapacity (options s)); cbn [stateOf] in *;
      [|assumption].
    apply live_loop. apply (live_keeps s); auto with kept places word.
  - unfold setOptions in *. destruct (firstError _); cbn [stateOf] in *; [assumption|].
    apply (live_keeps s); auto with kept places word.
  - now destruct (Hev p).
Qed.

Lemma run_live events :
  forall s, orderly false s -> (stopped s = None -> awaited s) ->
            stopped (run events s) = None -> awaited (run events s).
Proof.
  induction events as [|[env ev] rest IH]; intros s Ho Ha Hst; cbn [run] in *; [auto|].
  apply IH; [apply step_orderly; [assumption|discriminate]| |assumption].
  intros Hst1.
  assert (Hst0 : stopped s = None).
  { destruct (ev_step s env ev s (evolves_refl s)) as (_ & _ & H).
    destruct (stopped s) as [st|]; [|reflexivity].
    destruct (H ltac:(eauto)) as [st' Hst']. congruence. }
  apply step_live; auto. intros p ->. cbn [step stateOf] in Hst1.
  pose proof (stop_stopped env p s) as H. rewrite Hst1 in H. now destruct H.
Qed.

Lemma constructor_awaited env o : awaited (stateOf (constructor env o)).
Proof.
  assert (H0 : awaited (initialState o)).
  { split.
    - intros id Hid. unfold placesOf in Hid. cbn in Hid. lia.
    - intros h tm id Hh. cbn in Hh. discriminate. }
  unfold constructor. destruct (firstError _); cbn [stateOf]; [assumption|].
  apply (awaited_keeps _ _ H0); [|auto with places|auto with word].
  match goal with |- queue (setRules env ?r ?a) = _ =>
    apply (ki_setRules (initialState o) env r a); auto with kept end.
Qed.

(** X28.  In every state a run from the constructor reaches before
    [stop] is called, the promise of a task that is queued, in a run
    that has not finished, behind a retry timer or behind a call of the
    [onFailure] hook is pending: no task is left in a place with a
    settled promise, and the task [startNextTaskIfPossible] selects has
    a pending promise.  An armed queue-waiting timer of a task with a
    pending promise is the timer the task holds in
    [queueWaitingTimerId], and the task is queued: the timer rejects
    no task that runs or waits for a retry. *)
Theorem tasks_in_place_are_pending (env0 : Env) (o : CapacityLimiterOptions)
    (events : list (Env * Event)) :
  let s := run events (stateOf (constructor env0 o)) in
  stopped s = None ->
  (forall id, id ∈ queue s \/ id ∈ inFlight s \/ (0 < placesOf s id)%nat -> pending s id) /\
  (forall h tm id, timers s !! h = Some (Some tm) -> callback tm = QueueWaitingTimer id ->
     pending s id -> id ∈ queue s /\ queueTimerOf s id = Some h) /\
  (forall env id s1, pickTaskToExecute env s = Some (id, s1) -> pending s id).
Proof.
  intros s Hst.
  destruct (run_live events _ (constructor_orderly false env0 o ltac:(discriminate))
              (fun _ => constructor_awaited env0 o) Hst) as [HW HT].
  fold s in HW, HT.
  assert (Hq : forall id, id ∈ queue s -> pending s id).
  { intros id Hid. apply HW. apply occurrences_elem in Hid. unfold placesOf. lia. }
  split; [|split].
  - intros id [Hid|[Hid|Hid]]; [now apply Hq| |now apply HW].
    apply HW. apply occurrences_elem in Hid. unfold placesOf. unfold inFlight in Hid. lia.
  - intros h tm id Hh Hcb Hp. now apply (HT h tm id Hh Hcb).
  - intros env id s1 Hpick. apply Hq.
    assert (Hi : indexed s) by (apply (run_placed events), constructor_placed).
    now destruct (pickTaskToExecute_queued env s id s1 Hi Hpick).
Qed.

Lemma tasks_in_place_are_pending_witness :
  let s := run twoScheduled (stateOf (constructor (at_ 0) oneAtATime)) in
  queue s = [1%nat] /\ inFlight s = [0%nat] /\ pending s 0 /\ pending s 1.
Proof.
  cbv zeta.
  destruct (tasks_in_place_are_pending (at_ 0) oneAtATime twoScheduled eq_refl) as (H & _).
  assert (Hq : queue (run twoScheduled (stateOf (constructor (at_ 0) oneAtATime))) = [1%nat])
    by reflexivity.
  assert (Hf : inFlight (run twoScheduled (stateOf (constructor (at_ 0) oneAtATime))) = [0%nat])
    by reflexivity.
  split; [exact Hq|]. split; [exact Hf|]. split; apply H.
  - right. left. rewrite Hf. left.
  - left. rewrite Hq. left.
Defined.

(** ** The failures the engine raises *)

Lemma rejectedWith_evolves e s s' id :
  evolves s s' -> rejectedWith e s id -> rejectedWith e s' id.
Proof.
  intros (H & _ & _) (t & Ht & Hp). destruct (H id t Ht) as (t' & Ht' & _ & _ & _ & Hs).
  exists t'. split; [exact Ht'|]. rewrite Hs; [exact Hp|]. rewrite Hp. discriminate.
Qed.

Lemma rejectEach_tasks e ids :
  forall s id t,
    tasks s !! id = Some t ->
    tasks (rejectEach ids e s) !! id
    = Some (if bool_decide (id ∈ ids)
            then task_set_promise (settle (Rejected e) (promise t)) t else t).
Proof.
  unfold rejectEach. induction ids as [|x ids IH]; intros s id t Hid; cbn [foldl].
  - now rewrite bool_decide_eq_false_2 by apply not_elem_of_nil.
  - assert (H1 : tasks (rejectTask x e s) !! id
                 = Some (if decide (id = x)
                         then task_set_promise (settle (Rejected e) (promise t)) t else t)).
    { unfold rejectTask, updTask. cbn [tasks set_tasks].
      destruct (decide (id = x)) as [->|Hne].
      - now rewrite list_lookup_alter_eq, Hid.
      - now rewrite list_lookup_alter_ne by congruence. }
    rewrite (IH _ id _ H1).
    destruct (decide (id = x)) as [->|Hne].
    + rewrite (bool_decide_eq_true_2 (_ ∈ _ :: _)) by left.
      destruct (bool_decide _); [|reflexivity]. cbn [promise task_set_promise].
      destruct t as [? ? ? ? ? ? ? ? ? ? p]. cbn. now destruct p.
    + destruct (bool_decide (id ∈ ids)) eqn:Hin.
      * rewrite bool_decide_eq_true_2; [reflexivity|]. right.
        now apply bool_decide_eq_true in Hin.
      * rewrite bool_decide_eq_false_2; [reflexivity|]. apply bool_decide_eq_false in Hin.
        intros Hx. apply elem_of_cons in Hx as [->|Hx]; contradiction.
Qed.

Lemma rejectEach_beside ids e s :
  (executingTasks (rejectEach ids e s), retryTimers (rejectEach ids e s),
   onFailureCalls (rejectEach ids e s), timers (rejectEach ids e s))
  = (executingTasks s, retryTimers s, onFailureCalls s, timers s).
Proof.
  unfold rejectEach.
  apply (foldl_invariant
           (fun s' => (executingTasks s', retryTimers s', onFailureCalls s', timers s')
                      = (executingTasks s, retryTimers s, onFailureCalls s, timers s)));
    [|reflexivity].
  intros s' a Hs'. exact Hs'.
Qed.

(** A promise that is pending, or rejected with [e] already, is rejected
    with [e] after [task.reject(e)], and stays as it is otherwise. *)
Lemma reject_settles e (b : bool) t :
  promise t = Pending \/ promise t = Rejected e ->
  let t' := if b then task_set_promise (settle (Rejected e) (promise t)) t else t in
  (promise t' = Pending \/ promise t' = Rejected e) /\
  (promise t = Rejected e -> promise t' = Rejected e) /\
  (b = true -> promise t' = Rejected e).
Proof.
  intros [H|H]; destruct b; cbn [promise task_set_promise]; rewrite ?H; cbn [settle];
    repeat split; auto; discriminate.
Qed.

(** The rejections of [stop]: the state [stop] hands to the loop, or
    returns when the queue is empty, has the tasks of the queue, the
    executing tasks and the tasks asleep before a retry rejected with
    [stopped] as the parameters ask for, through [task.reject] alone. *)
Lemma stop_rejects env p s :
  let p' := if stopAll p then mkStopParams false true true true else p in
  exists s1,
    (snd (stop env (Some p) s) = s1 \/
     snd (stop env (Some p) s) = startNextTaskIfPossible env s1) /\
    log s1 = log s /\ onFailureCalls s1 = onFailureCalls s /\
    (retryTimers s1 = retryTimers s \/ retryTimers s1 = []) /\
    forall id t,
      tasks s !! id = Some t -> promise t = Pending ->
      (stopWaitingTasks p' = true /\ id ∈ queue s) \/
      (rejectExecutingTasks p' = true /\ id ∈ executingTasks s) \/
      (stopTaskRetries p' = true /\
       stopWaitingTasks p' || rejectExecutingTasks p' = true /\ id ∈ getAwaitingTasks s) ->
      rejectedWith (CapacityLimiterError stopped_error) s1 id.
Proof.
  intros p'. set (e := CapacityLimiterError stopped_error).
  unfold stop.
  replace (if stopAll p then Some (mkStopParams false true true true) else Some p)
    with (Some p') by (subst p'; now destruct (stopAll p)).
  cbv zeta.
  match goal with |- context [set_stopped (Some (mkStopped None)) ?a] => set (s0 := a) end.
  assert (H0 : log s0 = log s /\ onFailureCalls s0 = onFailureCalls s /\
               (retryTimers s0 = retryTimers s \/ retryTimers s0 = []) /\
               forall id t,
                 tasks s !! id = Some t -> promise t = Pending ->
                 (stopWaitingTasks p' = true /\ id ∈ queue s) \/
                 (rejectExecutingTasks p' = true /\ id ∈ executingTasks s) \/
                 (stopTaskRetries p' = true /\
                  stopWaitingTasks p' || rejectExecutingTasks p' = true /\
                  id ∈ getAwaitingTasks s) ->
                 rejectedWith e s0 id).
  { subst s0. fold e.
    destruct (stopWaitingTasks p' || rejectExecutingTasks p' || stopWaitingTasks p') eqn:Hg.
    2: { apply orb_false_elim in Hg as [Hg _]. apply orb_false_elim in Hg as [Hw He].
         rewrite Hw, He. split; [reflexivity|]. split; [reflexivity|]. split; [now left|].
         intros id t _ _ [[? _]|[[? _]|(_ & ? & _)]]; discriminate. }
    clear Hg.
    (* the tasks of the queue *)
    match goal with |- context [if rejectExecutingTasks p' then _ else ?a] => set (sA := a) end.
    assert (HA : log sA = log s /\ onFailureCalls sA = onFailureCalls s /\
                 retryTimers sA = retryTimers s /\ executingTasks sA = executingTasks s /\
                 forall id t, tasks s !! id = Some t -> promise t = Pending ->
                   exists tA, tasks sA !! id = Some tA /\
                     (promise tA = Pending \/ promise tA = Rejected e) /\
                     (stopWaitingTasks p' = true /\ id ∈ queue s -> promise tA = Rejected e)).
    { subst sA. destruct (stopWaitingTasks p') eqn:Hw.
      - cbn [log onFailureCalls retryTimers executingTasks tasks
             set_tasksByTimeLimit set_tasksByTimeAdded set_queue].
        pose proof (rejectEach_beside (queue s) e s) as Hb. injection Hb as Hb1 Hb2 Hb3 _.
        rewrite log_rejectEach, Hb1, Hb2, Hb3. repeat split.
        intros id t Hid Hp. eexists. split; [apply (rejectEach_tasks e _ s id t Hid)|].
        destruct (reject_settles e (bool_decide (id ∈ queue s)) t (or_introl Hp))
          as (K1 & _ & K3).
        split; [exact K1|]. intros [_ Hin]. apply K3. now apply bool_decide_eq_true_2.
      - repeat split. intros id t Hid Hp. exists t. split; [exact Hid|].
        split; [now left|]. intros [? _]. discriminate. }
    destruct HA as (A1 & A2 & A3 & A4 & A5).
    (* the executing tasks *)
    match goal with |- context [if stopTaskRetries p' then _ else ?a] => set (sB := a) end.
    assert (HB : log sB = log s /\ onFailureCalls sB = onFailureCalls s /\
                 retryTimers sB = retryTimers s /\
                 forall id t, tasks s !! id = Some t -> promise t = Pending ->
                   exists tB, tasks sB !! id = Some tB /\
                     (promise tB = Pending \/ promise tB = Rejected e) /\
                     ((stopWaitingTasks p' = true /\ id ∈ queue s) \/
                      (rejectExecutingTasks p' = true /\ id ∈ executingTasks s) ->
                      promise tB = Rejected e)).
    { subst sB. destruct (rejectExecutingTasks p') eqn:Hx.
      - cbn [log onFailureCalls retryTimers tasks set_executingTasks].
        pose proof (rejectEach_beside (executingTasks sA) e sA) as Hb.
        injection Hb as Hb1 Hb2 Hb3 _.
        rewrite log_rejectEach, Hb2, Hb3. repeat split; try assumption.
        intros id t Hid Hp. destruct (A5 id t Hid Hp) as (tA & HtA & HQ & HPA).
        eexists. split; [apply (rejectEach_tasks e _ sA id tA HtA)|].
        destruct (reject_settles e (bool_decide (id ∈ executingTasks sA)) tA HQ)
          as (K1 & K2 & K3).
        split; [exact K1|]. intros [Hc|[_ Hin]]; [apply K2; now apply HPA|].
        apply K3. apply bool_decide_eq_true_2. now rewrite A4.
      - repeat split; try assumption. intros id t Hid Hp.
        destruct (A5 id t Hid Hp) as (tA & HtA & HQ & HPA). exists tA.
        split; [exact HtA|]. split; [exact HQ|]. intros [Hc|[? _]]; [auto|discriminate]. }
    destruct HB as (B1 & B2 & B3 & B5).
    (* the tasks asleep before a retry *)
    destruct (stopTaskRetries p') eqn:Hr.
    - destruct (rejectAll_fold e (retryTimers sB) sB) as (_ & R2 & _ & R4).
      cbv zeta in R2, R4. injection R4 as _ _ _ R4 _ R5.
      unfold rejectAll. cbn [log onFailureCalls retryTimers tasks set_retryTimers].
      rewrite R4, R5. split; [assumption|]. split; [assumption|]. split; [now right|].
      intros id t Hid Hp Hc. destruct (B5 id t Hid Hp) as (tB & HtB & HQ & HPB).
      eexists. split; [apply (R2 id tB HtB)|].
      destruct (reject_settles e (bool_decide (id ∈ map rt_task (retryTimers sB))) tB HQ)
        as (_ & K2 & K3).
      destruct Hc as [Hc|[Hc|(_ & _ & Hin)]]; [apply K2; auto..|].
      apply K3. apply bool_decide_eq_true_2. rewrite B3. exact Hin.
    - split; [assumption|]. split; [assumption|]. split; [now left|].
      intros id t Hid Hp Hc. destruct (B5 id t Hid Hp) as (tB & HtB & HQ & HPB).
      exists tB. split; [exact HtB|].
      destruct Hc as [Hc|[Hc|(? & _)]]; [auto..|discriminate]. }
  clearbody s0. destruct H0 as (L & F & R & Hrej).
  destruct (bool_decide _); cbn [snd]; eexists; (split; [|split; [|split; [|split]]]);
    [right; reflexivity|exact L|exact F|exact R|exact Hrej
    |left; reflexivity|exact L|exact F|exact R|exact Hrej].
Qed.

(** C1, amended.  [stopped], [queue-size-exceeded] and [queue-timeout]
    are delivered by [task.reject] alone: the state is the one [rejectTask]
    leaves, the fail-recovery strategy is not used (the log is unchanged).
    For [stopped]: a call of [schedule] on a stopped limiter and the
    retry timer of a task that fires on a stopped limiter reject the task;
    [stop] rejects the pending tasks of the queue (with
    [stopWaitingTasks]), the executing tasks (with
    [rejectExecutingTasks]) and the tasks asleep before a retry (with
    [stopTaskRetries] next to one of the two), in the state it hands to
    the loop and in the state it returns, without a call of the strategy,
    of a hook or a new retry timer before the loop.
    [max-capacity-exceeded] is thrown by [scheduleTask] and nothing is
    settled.  The execution timer takes the path of a rejection of the
    callback, [tryRejectTask]: without a strategy (or with 'none') the
    promise is rejected with the error, with any other strategy
    [useStrategy] is called with the next attempt number. *)
Theorem engine_failures_and_the_strategy :
  (forall id e s t,
      tasks s !! id = Some t -> promise t = Pending ->
      (exists t', tasks (rejectTask id e s) !! id = Some t' /\ promise t' = Rejected e) /\
      log (rejectTask id e s) = log s /\
      retryTimers (rejectTask id e s) = retryTimers s /\
      onFailureCalls (rejectTask id e s) = onFailureCalls s) /\
  (forall env p s,
      is_Some (stopped s) ->
      schedule env p s
      = Normal (rejectTask (length (tasks s)) (CapacityLimiterError stopped_error)
                  (set_tasks (tasks s ++ [newTask env p]) s))) /\
  (forall env handle id due s t,
      timers s !! handle = Some (Some (mkTimer (RetryTimer id) due)) ->
      tasks s !! id = Some t -> is_Some (stopped s) ->
      timerFired env handle s
      = Normal (rejectTask id (CapacityLimiterError stopped_error)
                  (set_retryTimers
                     (filter (fun info => rt_timer info <> handle) (retryTimers s))
                     (clearTimer handle s)))) /\
  (forall env p s,
      stopWaitingTasks p = true \/ stopAll p = true ->
      log (snd (stop env (Some p) s)) = log s) /\
  (forall env p s,
      let p' := if stopAll p then mkStopParams false true true true else p in
      let s' := snd (stop env (Some p) s) in
      exists s1,
        (s' = s1 \/ s' = startNextTaskIfPossible env s1) /\
        log s1 = log s /\ onFailureCalls s1 = onFailureCalls s /\
        (retryTimers s1 = retryTimers s \/ retryTimers s1 = []) /\
        forall id t,
          tasks s !! id = Some t -> promise t = Pending ->
          (stopWaitingTasks p' = true /\ id ∈ queue s) \/
          (rejectExecutingTasks p' = true /\ id ∈ executingTasks s) \/
          (stopTaskRetries p' = true /\
           stopWaitingTasks p' || rejectExecutingTasks p' = true /\
           id ∈ getAwaitingTasks s) ->
          rejectedWith (CapacityLimiterError stopped_error) s1 id /\
          rejectedWith (CapacityLimiterError stopped_error) s' id) /\
  (forall env id t s m,
      tasks s !! id = Some t -> stopped s = None ->
      maxCapacity (options s) = Some m -> m < capacity t ->
      optTaskExceedsMaxCapacityStrategy (options s) = exceeds_throw_error ->
      scheduleTask env id s = Throw (CapacityLimiterError max_capacity_exceeded) s) /\
  (forall env id t s s1,
      tasks s !! id = Some t -> stopped s = None ->
      admissionChecks id t s = Normal s1 ->
      match queueOverflow id t s1 with
      | inr s2 =>
          scheduleTask env id s = Normal s2 /\
          s2 = rejectTask id (CapacityLimiterError queue_size_exceeded) s1
      | inl s2 =>
          s2 = s1 \/
          exists victim s1',
            s2 = rejectTask victim (CapacityLimiterError queue_size_exceeded)
                   (removeTaskFromQueues victim s1') /\
            log s1' = log s1 /\ tasks s1' = tasks s1
      end) /\
  (forall env handle id due s,
      timers s !! handle = Some (Some (mkTimer (QueueWaitingTimer id) due)) ->
      timerFired env handle s
      = Normal (rejectTask id (CapacityLimiterError queue_timeout)
                  (removeTaskFromQueues id (clearTimer handle s)))) /\
  (forall env handle run due s,
      timers s !! handle = Some (Some (mkTimer (ExecutionTimer run) due)) ->
      timerFired env handle s
      = step env (CallbackRejected run (CapacityLimiterError execution_timeout))
             (clearTimer handle s)) /\
  (forall env id e s t,
      tasks s !! id = Some t ->
      match nullish (p_failRecoveryStrategy (params t)) (failRecoveryStrategy (options s)) with
      | None | Some StrategyNone =>
          tryRejectTask env id e s
          = startNextTaskIfPossible env (rejectTask id e (releaseTaskResources id s))
      | Some _ =>
          exists rest,
            log (tryRejectTask env id e s)
            = log s ++ StrategyUsed id (default 0 (retryAttempt t) + 1) :: rest
      end).
Proof.
  repeat apply conj.
  - intros id e s t Hid Hp. split; [now apply (rejectTask_pending id e s t)|]. repeat split.
  - intros env p s [st Hst]. unfold schedule, scheduleTask.
    cbn [tasks set_tasks stopped].
    rewrite lookup_app_r by lia. rewrite Nat.sub_diag. cbn. now rewrite Hst.
  - intros env handle id due s t Ht Hid [st Hst]. unfold timerFired. rewrite Ht.
    cbn [callback]. unfold scheduleTask, clearTimer.
    cbn [tasks stopped set_retryTimers set_timers]. now rewrite Hid, Hst.
  - intros env p s Hp. now apply stop_waiting_log.
  - intros env p s p' s'. destruct (stop_rejects env p s) as (s1 & Hs1 & L & F & R & Hrej).
    exists s1. split; [exact Hs1|]. split; [exact L|]. split; [exact F|]. split; [exact R|].
    intros id t Hid Hp Hc. pose proof (Hrej id t Hid Hp Hc) as H1. split; [exact H1|].
    destruct Hs1 as [Hs1|Hs1]; unfold s'; rewrite Hs1; [exact H1|].
    apply (rejectedWith_evolves _ s1); [|exact H1].
    apply (th_startNextTaskIfPossible s1 env s1 (thins_refl s1)).
  - intros env id t s m Hid Hst Hm Hlt Hstr. unfold scheduleTask, admissionChecks.
    rewrite Hid, Hst, Hm, Hstr. apply Z.ltb_lt in Hlt. now rewrite Hlt.
  - intros env id t s s1 Hid Hst Hadm. unfold scheduleTask. rewrite Hid, Hst, Hadm.
    unfold queueOverflow. destruct (truthy _ && _); [|now left].
    destruct (optQueueSizeExceededStrategy (options s1)).
    + split; reflexivity.
    + destruct (DLL.shift (tasksByTimeAdded s1)) as [[oldest|] rest]; [|now left].
      right. exists oldest, (set_tasksByTimeAdded rest s1). repeat split.
    + destruct (DLL.peekLast (queue s1)) as [least|]; [|split; reflexivity].
      destruct (_ <? _); [|split; reflexivity].
      right. exists least, s1. repeat split.
    + now left.
  - intros env handle id due s Ht. unfold timerFired. now rewrite Ht.
  - intros env handle run due s Ht. unfold timerFired. rewrite Ht. reflexivity.
  - intros env id e s t Hid.
    destruct (releaseTaskResources_task id s t Hid) as (Ho & t' & Hid' & Hpar & Hatt & _).
    unfold tryRejectTask, tryRejectTask_. rewrite Hid', Hpar, Ho, Hatt.
    destruct (nullish _ _) as [[| |o]|]; try reflexivity;
      match goal with |- context [startNextTaskIfPossible env ?s1] =>
        destruct (startNextRounds_log (S (length (queue s1))) env s1) as [rest Hrest];
        exists rest; unfold startNextTaskIfPossible; rewrite Hrest end;
      rewrite log_useStrategy, log_updTask, log_releaseTaskResources;
      now rewrite <- app_assoc.
Qed.

Lemma engine_failures_and_the_strategy_witness :
  (exists t', tasks (rejectTask 1%nat (CapacityLimiterError stopped_error) oneQueued) !! 1%nat
              = Some t' /\ promise t' = Rejected (CapacityLimiterError stopped_error)) /\
  schedule (at_ 3) (ofCapacity 1) (snd (stop (at_ 2) None oneQueued))
  = Normal (rejectTask 2%nat (CapacityLimiterError stopped_error)
              (set_tasks (tasks (snd (stop (at_ 2) None oneQueued))
                          ++ [newTask (at_ 3) (ofCapacity 1)])
                 (snd (stop (at_ 2) None oneQueued)))) /\
  timerFired (at_ 1005) 0%nat (snd (stop (at_ 6) None retrying))
  = Normal (rejectTask 0%nat (CapacityLimiterError stopped_error)
              (set_retryTimers
                 (filter (fun info => rt_timer info <> 0%nat)
                         (retryTimers (snd (stop (at_ 6) None retrying))))
                 (clearTimer 0%nat (snd (stop (at_ 6) None retrying))))) /\
  log (snd (stop (at_ 2) (Some (mkStopParams true false false false)) oneQueued))
  = log oneQueued /\
  rejectedWith (CapacityLimiterError stopped_error)
    (snd (stop (at_ 2) (Some (mkStopParams false true false false)) oneQueued)) 1%nat /\
  rejectedWith (CapacityLimiterError stopped_error)
    (snd (stop (at_ 2) (Some (mkStopParams false false true false)) oneQueued)) 0%nat /\
  rejectedWith (CapacityLimiterError stopped_error)
    (snd (stop (at_ 6) (Some (mkStopParams false false true true)) retrying)) 0%nat /\
  scheduleTask (at_ 1) 1%nat (newcomer 11)
  = Throw (CapacityLimiterError max_capacity_exceeded) (newcomer 11) /\
  scheduleTask (at_ 1) 1%nat (newcomer 1)
  = Normal (rejectTask 1%nat (CapacityLimiterError queue_size_exceeded) (newcomer 1)) /\
  timerFired (at_ 100) 0%nat waiting
  = Normal (rejectTask 0%nat (CapacityLimiterError queue_timeout)
              (removeTaskFromQueues 0%nat (clearTimer 0%nat waiting))) /\
  timerFired (at_ 100) 0%nat running
  = step (at_ 100) (CallbackRejected 0%nat (CapacityLimiterError execution_timeout))
         (clearTimer 0%nat running) /\
  (exists rest,
     log (tryRejectTask (at_ 100) 0%nat (CapacityLimiterError execution_timeout) running)
     = log running ++ StrategyUsed 0%nat (default 0 None + 1) :: rest).
Proof.
  destruct engine_failures_and_the_strategy
    as (H1 & H2 & H2' & H3 & H3' & H4 & H5 & H6 & H7 & H8).
  assert (Hstop : forall env p s id,
            (exists t, tasks s !! id = Some t /\ promise t = Pending) ->
            (let p' := if stopAll p then mkStopParams false true true true else p in
             (stopWaitingTasks p' = true /\ id ∈ queue s) \/
             (rejectExecutingTasks p' = true /\ id ∈ executingTasks s) \/
             (stopTaskRetries p' = true /\
              stopWaitingTasks p' || rejectExecutingTasks p' = true /\
              id ∈ getAwaitingTasks s)) ->
            rejectedWith (CapacityLimiterError stopped_error)
              (snd (stop env (Some p) s)) id).
  { intros env p s id (t & Hid & Hp) Hc.
    destruct (H3' env p s) as (s1 & _ & _ & _ & _ & Hrej).
    exact (proj2 (Hrej id t Hid Hp Hc)). }
  repeat apply conj.
  - refine (proj1 (H1 1%nat _ oneQueued
                     (mkTask 5 10 None None 1 None None None None (ofCapacity 10) Pending)
                     _ _)); reflexivity.
  - apply H2. vm_compute. eauto.
  - destruct (tasks (snd (stop (at_ 6) None retrying)) !! 0%nat) as [t|] eqn:Ht;
      [|vm_compute in Ht; discriminate].
    apply (H2' (at_ 1005) 0%nat 0%nat 1005 _ t); [reflexivity|exact Ht|].
    vm_compute. eauto.
  - apply H3. right. reflexivity.
  - apply Hstop.
    + eexists. split; [vm_compute; reflexivity|reflexivity].
    + left. split; [reflexivity|]. vm_compute. left.
  - apply Hstop.
    + eexists. split; [vm_compute; reflexivity|reflexivity].
    + right. left. split; [reflexivity|]. vm_compute. left.
  - apply Hstop.
    + eexists. split; [vm_compute; reflexivity|reflexivity].
    + right. right. split; [reflexivity|]. split; [reflexivity|]. vm_compute. left.
  - apply (H4 (at_ 1) 1%nat (newTask (at_ 1) (ofCapacity 11)) (newcomer 11) 10);
      vm_compute; reflexivity.
  - pose proof (H5 (at_ 1) 1%nat (newTask (at_ 1) (ofCapacity 1)) (newcomer 1) (newcomer 1)
                   eq_refl eq_refl eq_refl) as H.
    vm_compute in H. destruct H as [H _]. vm_compute. exact H.
  - apply (H6 (at_ 100) 0%nat 0%nat 100 waiting). reflexivity.
  - apply (H7 (at_ 100) 0%nat 0%nat 100 running). reflexivity.
  - exact (H8 (at_ 100) 0%nat (CapacityLimiterError execution_timeout) running
              (mkTask 5 1 (Some 1) (Some 1) 0 None (Some 0%nat) None None timedTask Pending)
              eq_refl).
Defined.

(** ** The time limit of a task asleep before a retry *)

Create HintDb due.

Section DueFrames.
Variable o : option TaskId.

Lemma keepsDue_refl s : keepsDue o s s.
Proof. split; [intros id t _ H; eauto|intros h tm id H _; exact H]. Qed.

Lemma kd_same s0 s s' :
  tasks s' = tasks s -> timers s' = timers s -> keepsDue o s0 s -> keepsDue o s0 s'.
Proof. unfold keepsDue, armsNoRetryTimer. intros -> ->. auto. Qed.

Ltac kd_same :=
  intros; match goal with H : keepsDue o ?s0 ?s |- _ =>
            apply (kd_same s0 s); [reflexivity..|exact H] end.

Lemma kd_set_usedCapacity s0 v s : keepsDue o s0 s -> keepsDue o s0 (set_usedCapacity v s).
Proof. kd_same. Qed.
Lemma kd_set_usedConcurrent s0 v s : keepsDue o s0 s -> keepsDue o s0 (set_usedConcurrent v s).
Proof. kd_same. Qed.
Lemma kd_set_queue s0 v s : keepsDue o s0 s -> keepsDue o s0 (set_queue v s).
Proof. kd_same. Qed.
Lemma kd_set_tasksByTimeAdded s0 v s :
  keepsDue o s0 s -> keepsDue o s0 (set_tasksByTimeAdded v s).
Proof. kd_same. Qed.
Lemma kd_set_tasksByTimeLimit s0 v s :
  keepsDue o s0 s -> keepsDue o s0 (set_tasksByTimeLimit v s).
Proof. kd_same. Qed.
Lemma kd_set_options s0 v s : keepsDue o s0 s -> keepsDue o s0 (set_options v s).
Proof. kd_same. Qed.
Lemma kd_set_originalOptions s0 v s :
  keepsDue o s0 s -> keepsDue o s0 (set_originalOptions v s).
Proof. kd_same. Qed.
Lemma kd_set_releaseTimers s0 v s : keepsDue o s0 s -> keepsDue o s0 (set_releaseTimers v s).
Proof. kd_same. Qed.
Lemma kd_set_releaseRuleTimersEnabled s0 v s :
  keepsDue o s0 s -> keepsDue o s0 (set_releaseRuleTimersEnabled v s).
Proof. kd_same. Qed.
Lemma kd_set_retryTimers s0 v s : keepsDue o s0 s -> keepsDue o s0 (set_retryTimers v s).
Proof. kd_same. Qed.
Lemma kd_set_executingTasks s0 v s : keepsDue o s0 s -> keepsDue o s0 (set_executingTasks v s).
Proof. kd_same. Qed.
Lemma kd_set_stopped s0 v s : keepsDue o s0 s -> keepsDue o s0 (set_stopped v s).
Proof. kd_same. Qed.
Lemma kd_set_stopPromises s0 v s : keepsDue o s0 s -> keepsDue o s0 (set_stopPromises v s).
Proof. kd_same. Qed.
Lemma kd_set_runs s0 v s : keepsDue o s0 s -> keepsDue o s0 (set_runs v s).
Proof. kd_same. Qed.
Lemma kd_set_log s0 v s : keepsDue o s0 s -> keepsDue o s0 (set_log v s).
Proof. kd_same. Qed.
Lemma kd_set_onFailureCalls s0 v s : keepsDue o s0 s -> keepsDue o s0 (set_onFailureCalls v s).
Proof. kd_same. Qed.
Lemma kd_emit s0 e s : keepsDue o s0 s -> keepsDue o s0 (emit e s).
Proof. kd_same. Qed.
Lemma kd_updStatus s0 rule f s : keepsDue o s0 s -> keepsDue o s0 (updStatus rule f s).
Proof. kd_same. Qed.
Lemma kd_finishRun s0 r s : keepsDue o s0 s -> keepsDue o s0 (finishRun r s).
Proof. kd_same. Qed.

Lemma kd_clearTimer s0 h s : keepsDue o s0 s -> keepsDue o s0 (clearTimer h s).
Proof.
  intros [H1 H2]. split; [exact H1|]. intros h' tm id H Hcb. apply (H2 h' tm id); [|assumption].
  unfold clearTimer in H. cbn [timers set_timers] in H.
  apply list_lookup_insert_Some in H. destruct H as [(_ & H & _)|[_ H]]; [discriminate|exact H].
Qed.

Lemma kd_setTimer s0 cb due s :
  (forall id, cb <> RetryTimer id) ->
  keepsDue o s0 s -> keepsDue o s0 (snd (setTimer cb due s)).
Proof.
  intros Hcb [H1 H2]. split; [exact H1|]. intros h tm id H Hq. apply (H2 h tm id); [|assumption].
  unfold setTimer in H. cbn [snd timers set_timers] in H.
  apply lookup_app_Some in H. destruct H as [H|[_ H]]; [exact H|].
  apply list_lookup_singleton_Some in H. destruct H as [_ [= <-]]. cbn in Hq.
  now destruct (Hcb id).
Qed.

Lemma kd_clearOpt s0 h s : keepsDue o s0 s -> keepsDue o s0 (clearOpt h s).
Proof. destruct h; cbn [clearOpt]; auto using kd_clearTimer. Qed.

Lemma kd_updTask s0 id f s : keepsLimit f -> keepsDue o s0 s -> keepsDue o s0 (updTask id f s).
Proof.
  intros Hf [H1 H2]. split; [|exact H2]. intros x t Hx Ht.
  destruct (H1 x t Hx Ht) as (t1 & Ht1 & Hl). unfold updTask. cbn [tasks set_tasks].
  destruct (decide (x = id)) as [->|Hne].
  - exists (f t1). rewrite list_lookup_alter_eq, Ht1. split; [reflexivity|].
    now rewrite Hf.
  - exists t1. now rewrite list_lookup_alter_ne by congruence.
Qed.

#[local] Hint Resolve keepsDue_refl kd_set_usedCapacity kd_set_usedConcurrent kd_set_queue
  kd_set_tasksByTimeAdded kd_set_tasksByTimeLimit kd_set_options kd_set_originalOptions
  kd_set_releaseTimers kd_set_releaseRuleTimersEnabled kd_set_retryTimers kd_set_executingTasks
  kd_set_stopped kd_set_stopPromises kd_set_runs kd_set_log kd_set_onFailureCalls kd_emit
  kd_updStatus kd_finishRun kd_clearTimer kd_clearOpt kd_updTask keepsLimit_capacity
  keepsLimit_reservedCapacity keepsLimit_reservedConcurrent keepsLimit_executionTimerId
  keepsLimit_queueWaitingTimerId keepsLimit_retryAttempt keepsLimit_settle : due.

Lemma kd_rejectTask s0 id e s : keepsDue o s0 s -> keepsDue o s0 (rejectTask id e s).
Proof. intros H. unfold rejectTask. auto with due. Qed.

Lemma kd_resolveTaskPromise s0 id s : keepsDue o s0 s -> keepsDue o s0 (resolveTaskPromise id s).
Proof. intros H. unfold resolveTaskPromise. auto with due. Qed.

Lemma kd_removeTaskFromQueues s0 id s :
  keepsDue o s0 s -> keepsDue o s0 (removeTaskFromQueues id s).
Proof. intros H. unfold removeTaskFromQueues. auto with due. Qed.

Lemma kd_stoppedResolve s0 st s : keepsDue o s0 s -> keepsDue o s0 (stoppedResolve st s).
Proof. intros H. unfold stoppedResolve. destruct (stoppedPromise st); auto with due. Qed.

Lemma kd_reserveResources s0 id s : keepsDue o s0 s -> keepsDue o s0 (reserveResources id s).
Proof.
  intros H. unfold reserveResources. destruct (tasks s !! id) as [task|]; [|assumption].
  destruct (truthy (timeLimit task)); destruct (queueWaitingTimerId task);
    destruct (maxCapacity (options s)); try destruct (optCapacityStrategy (options s));
    auto 15 with due.
Qed.

#[local] Hint Resolve kd_rejectTask kd_resolveTaskPromise kd_removeTaskFromQueues
  kd_stoppedResolve kd_reserveResources : due.

Lemma kd_foldl {A} (f : State -> A -> State) s0 l :
  (forall s a, keepsDue o s0 s -> keepsDue o s0 (f s a)) ->
  forall s, keepsDue o s0 s -> keepsDue o s0 (foldl f s l).
Proof. intros Hf. induction l as [|a l IH]; cbn [foldl]; auto. Qed.

Lemma kd_rejectEach s0 ids e s : keepsDue o s0 s -> keepsDue o s0 (rejectEach ids e s).
Proof. unfold rejectEach. apply kd_foldl. auto with due. Qed.

Lemma kd_rejectAll s0 e s : keepsDue o s0 s -> keepsDue o s0 (rejectAll e s).
Proof.
  intros H. unfold rejectAll. apply kd_set_retryTimers. apply kd_foldl; [|assumption].
  auto with due.
Qed.

Lemma kd_applyRule s0 rule times s : keepsDue o s0 s -> keepsDue o s0 (applyRule rule times s).
Proof. intros H. unfold applyRule. destruct (type rule); auto with due. Qed.

#[local] Hint Resolve kd_rejectEach kd_rejectAll kd_applyRule : due.

Lemma kd_missedReduces s0 now t entries s :
  keepsDue o s0 s -> keepsDue o s0 (snd (missedReduces now t entries s)).
Proof.
  revert s. induction entries as [|[rule status] rest IH]; intros s H; [assumption|].
  cbn [missedReduces]. destruct (type rule).
  - specialize (IH s H); destruct (missedReduces now t rest s) as [rest' r]. exact IH.
  - destruct (interval rule <=? now - lastApplied status).
    + match goal with |- context [missedReduces now t rest ?a] =>
        assert (Ha : keepsDue o s0 a) by (destruct (canReduceCapacity s); auto with due);
        specialize (IH a Ha); destruct (missedReduces now t rest a) as [rest' r] end.
      exact IH.
    + specialize (IH s H); destruct (missedReduces now t rest s) as [rest' r]. exact IH.
Qed.

Lemma kd_applyMissedRules s0 now s : keepsDue o s0 s -> keepsDue o s0 (applyMissedRules now s).
Proof.
  intros H. unfold applyMissedRules.
  destruct (missedResets now (releaseTimers s) (None, None)) as [entries [t r]].
  match goal with |- context [missedReduces now t entries ?a] =>
    assert (Ha : keepsDue o s0 a) by (destruct r; auto with due);
    pose proof (kd_missedReduces s0 now t entries a Ha) as H3;
    destruct (missedReduces now t entries a) as [entries' s2] end.
  cbn [snd] in H3. auto with due.
Qed.

Lemma kd_clearReleaseRuleTimer s0 rule status s :
  keepsDue o s0 s -> keepsDue o s0 (clearReleaseRuleTimer rule status s).
Proof. intros H. unfold clearReleaseRuleTimer. auto with due. Qed.

Lemma kd_setRuleTimerWithDelay s0 env rule delay s :
  keepsDue o s0 s -> keepsDue o s0 (setRuleTimerWithDelay env rule delay s).
Proof.
  intros H. unfold setRuleTimerWithDelay. destruct (decide (delay = interval rule)).
  - pose proof (kd_setTimer s0 (RuleInterval rule) (now env + interval rule) s
                  ltac:(discriminate) H) as Hs.
    destruct (setTimer _ _ s) as [h s2]. cbn [snd] in Hs. auto with due.
  - pose proof (kd_setTimer s0 (RuleTimeout rule) (now env + delay) s
                  ltac:(discriminate) H) as Hs.
    destruct (setTimer _ _ s) as [h s2]. cbn [snd] in Hs. auto with due.
Qed.

#[local] Hint Resolve kd_applyMissedRules kd_clearReleaseRuleTimer kd_setRuleTimerWithDelay
  : due.

Lemma kd_disableTimers s0 s : keepsDue o s0 s -> keepsDue o s0 (disableTimers s).
Proof.
  intros H. unfold disableTimers. destruct (releaseRuleTimersEnabled s); [|assumption].
  apply kd_foldl; auto with due.
Qed.

Lemma kd_enableTimers s0 env s : keepsDue o s0 s -> keepsDue o s0 (enableTimers env s).
Proof.
  intros H. unfold enableTimers. destruct (releaseRuleTimersEnabled s); [assumption|].
  unfold armRuleTimers. apply kd_foldl; auto with due.
Qed.

Lemma kd_addRules s0 env rules :
  forall s, keepsDue o s0 s -> keepsDue o s0 (addRules env rules s).
Proof.
  induction rules as [|rule rest IH]; intros s H; cbn [addRules]; [assumption|].
  destruct (hasRule rule (releaseTimers s)); [auto|]. apply IH.
  destruct (releaseRuleTimersEnabled _); auto with due.
Qed.

Lemma kd_dropRules s0 rules entries :
  forall s, keepsDue o s0 s -> keepsDue o s0 (dropRules rules entries s).
Proof.
  induction entries as [|[rule status] rest IH]; intros s H; cbn [dropRules]; [assumption|].
  destruct (bool_decide (rule ∈ rules)); [auto|]. apply IH. auto with due.
Qed.

Lemma kd_setRules s0 env rules s : keepsDue o s0 s -> keepsDue o s0 (setRules env rules s).
Proof. intros H. unfold setRules. apply kd_dropRules. now apply kd_addRules. Qed.

#[local] Hint Resolve kd_disableTimers kd_enableTimers kd_setRules : due.

Lemma kd_admissionChecks s0 id task s :
  keepsDue o s0 s -> keepsDue o s0 (stateOf (admissionChecks id task s)).
Proof.
  intros H. unfold admissionChecks.
  destruct (match maxCapacity (options s) with Some m => m <? capacity task | None => false end);
    destruct (optTaskExceedsMaxCapacityStrategy (options s));
    repeat match goal with |- context [if ?b then _ else _] => destruct b end;
    cbn [stateOf]; auto with due.
Qed.

Lemma kd_queueOverflow s0 id task s :
  keepsDue o s0 s ->
  match queueOverflow id task s with inl s' | inr s' => keepsDue o s0 s' end.
Proof.
  intros H. unfold queueOverflow.
  destruct (truthy (maxQueueSize (options s)) && _); [|assumption].
  destruct (optQueueSizeExceededStrategy (options s)).
  - auto with due.
  - destruct (DLL.shift (tasksByTimeAdded s)) as [[oldest|] rest]; auto with due.
  - destruct (DLL.peekLast (queue s)) as [least|]; [|auto with due].
    destruct (priority task <? priorityOf s least); auto with due.
  - assumption.
Qed.

Lemma kd_insertIntoQueue s0 id task s :
  keepsDue o s0 s -> keepsDue o s0 (insertIntoQueue id task s).
Proof. intros H. unfold insertIntoQueue. auto with due. Qed.

Lemma kd_armQueueWaitingTimer s0 env id task s :
  keepsDue o s0 s -> keepsDue o s0 (armQueueWaitingTimer env id task s).
Proof.
  intros H. unfold armQueueWaitingTimer.
  destruct (truthy _ && _); [|assumption].
  match goal with |- context [setTimer ?cb ?d ?s1] =>
    pose proof (kd_setTimer s0 cb d s1 ltac:(discriminate) H) as Hs;
    destruct (setTimer cb d s1) as [h s2] end.
  cbn [snd] in Hs. auto with due.
Qed.
End DueFrames.

#[local] Hint Resolve keepsDue_refl kd_set_usedCapacity kd_set_usedConcurrent kd_set_queue
  kd_set_tasksByTimeAdded kd_set_tasksByTimeLimit kd_set_options kd_set_originalOptions
  kd_set_releaseTimers kd_set_releaseRuleTimersEnabled kd_set_retryTimers kd_set_executingTasks
  kd_set_stopped kd_set_stopPromises kd_set_runs kd_set_log kd_set_onFailureCalls kd_emit
  kd_updStatus kd_finishRun kd_clearTimer kd_clearOpt kd_updTask keepsLimit_capacity
  keepsLimit_reservedCapacity keepsLimit_reservedConcurrent keepsLimit_executionTimerId
  keepsLimit_queueWaitingTimerId keepsLimit_retryAttempt keepsLimit_settle : due.
#[local] Hint Resolve kd_rejectTask kd_resolveTaskPromise kd_removeTaskFromQueues
  kd_stoppedResolve kd_reserveResources kd_rejectEach kd_rejectAll kd_applyRule : due.
#[local] Hint Resolve kd_applyMissedRules kd_clearReleaseRuleTimer kd_setRuleTimerWithDelay
  kd_disableTimers kd_enableTimers kd_setRules kd_admissionChecks kd_insertIntoQueue
  kd_armQueueWaitingTimer : due.

Lemma keepsDue_trans o s1 s2 s3 : keepsDue o s1 s2 -> keepsDue o s2 s3 -> keepsDue o s1 s3.
Proof.
  intros [H1 H2] [K1 K2]. split.
  - intros id t Ho Ht. destruct (H1 id t Ho Ht) as (t1 & Ht1 & Hl1).
    destruct (K1 id t1 Ho Ht1) as (t2 & Ht2 & Hl2). exists t2. split; [exact Ht2|congruence].
  - intros h tm id H Hcb. apply (H2 h tm id); [|assumption]. now apply (K2 h tm id).
Qed.

Lemma kd_updTask_at s0 id f s :
  keepsDue (Some id) s0 s -> keepsDue (Some id) s0 (updTask id f s).
Proof.
  intros [H1 H2]. split; [|exact H2]. intros x t Hx Ht.
  destruct (H1 x t Hx Ht) as (t1 & Ht1 & Hl). exists t1. split; [|exact Hl].
  unfold updTask. cbn [tasks set_tasks]. rewrite list_lookup_alter_ne by congruence. exact Ht1.
Qed.

#[local] Hint Resolve kd_updTask_at : due.

Lemma kd_releaseTaskResources s0 id s :
  keepsDue (Some id) s0 s -> keepsDue (Some id) s0 (releaseTaskResources id s).
Proof.
  intros H. unfold releaseTaskResources. destruct (tasks s !! id) as [task|]; [|assumption].
  destruct (truthy (reservedConcurrent task)); destruct (truthy (reservedCapacity task) && _);
    destruct (executionTimerId task); auto 15 with due.
Qed.

Lemma kd_insertByTimeLimit s0 id task s :
  keepsDue (Some id) s0 s -> keepsDue (Some id) s0 (insertByTimeLimit id task s).
Proof.
  intros H. unfold insertByTimeLimit. destruct (truthy (queuedTimeLimit task s)); auto with due.
Qed.

Lemma kd_enqueue s0 env id task s :
  keepsDue (Some id) s0 s -> keepsDue (Some id) s0 (enqueue env id task s).
Proof.
  intros H. unfold enqueue. cbv zeta.
  apply kd_enableTimers, kd_armQueueWaitingTimer, kd_insertByTimeLimit, kd_insertIntoQueue, H.
Qed.

(** *** The invariant along a step *)

Lemma retryDue_keeps s s' : retryDue s -> keepsDue None s s' -> retryDue s'.
Proof.
  intros Hd [H1 H2] h tm id Hh Hcb. pose proof (H2 h tm id Hh Hcb) as Hh0.
  pose proof (Hd h tm id Hh0 Hcb) as Hl. unfold timeLimitOf in *.
  destruct (tasks s !! id) as [t|] eqn:Ht; [|discriminate].
  destruct (H1 id t ltac:(discriminate) Ht) as (t' & -> & Hl'). congruence.
Qed.

Lemma awake_keeps o id s s' : keepsDue o s s' -> awake id s -> awake id s'.
Proof.
  intros [_ H2] Ha h tm Hh Hcb. apply (Ha h tm); [|exact Hcb]. exact (H2 h tm id Hh Hcb).
Qed.

Lemma retryDue_but id s s' :
  retryDue s -> awake id s -> keepsDue (Some id) s s' -> retryDue s'.
Proof.
  intros Hd Ha [H1 H2] h tm x Hh Hcb. pose proof (H2 h tm x Hh Hcb) as Hh0.
  assert (Hx : x <> id) by (intros ->; exact (Ha h tm Hh0 Hcb)).
  pose proof (Hd h tm x Hh0 Hcb) as Hl. unfold timeLimitOf in *.
  destruct (tasks s !! x) as [t|] eqn:Ht; [|discriminate].
  destruct (H1 x t ltac:(congruence) Ht) as (t' & -> & Hl'). congruence.
Qed.

Lemma unplaced_awake id s : placesOf s id = 0%nat -> awake id s.
Proof.
  intros H0 h tm Hh Hcb.
  pose proof (occurrences_omap_lookup retryToken (timers s) h (Some tm) id Hh) as H.
  cbn [retryToken] in H. rewrite Hcb in H. specialize (H eq_refl).
  unfold placesOf in H0. lia.
Qed.

Lemma queued_awake id s : onePlace s -> id ∈ queue s -> awake id s.
Proof.
  intros Hl Hq h tm Hh Hcb.
  pose proof (occurrences_omap_lookup retryToken (timers s) h (Some tm) id Hh) as H.
  cbn [retryToken] in H. rewrite Hcb in H. specialize (H eq_refl).
  apply occurrences_elem in Hq. destruct (Hl id) as [Hle _]. unfold placesOf in Hle. lia.
Qed.

Lemma retryDue_setRetryTimer env id timeout s :
  retryDue s -> awake id s -> is_Some (tasks s !! id) ->
  retryDue (setRetryTimer env id timeout s).
Proof.
  intros Hd Ha [t Hid] h tm x Hh Hcb.
  unfold setRetryTimer, setTimer, updTask in *.
  cbn [timers tasks set_tasks set_timers set_retryTimers] in *.
  unfold timeLimitOf. cbn [tasks set_tasks set_timers set_retryTimers].
  apply lookup_app_Some in Hh. destruct Hh as [Hh|[_ Hh]].
  - assert (Hx : x <> id) by (intros ->; exact (Ha h tm Hh Hcb)).
    rewrite list_lookup_alter_ne by congruence. exact (Hd h tm x Hh Hcb).
  - apply list_lookup_singleton_Some in Hh. destruct Hh as [_ [= <-]].
    cbn [callback] in Hcb. injection Hcb as <-.
    rewrite list_lookup_alter_eq, Hid. reflexivity.
Qed.

Lemma useStrategy_due env id strategy e attempt s :
  retryDue s -> awake id s -> is_Some (tasks s !! id) ->
  retryDue (useStrategy env id strategy e attempt s).
Proof.
  intros Hd Ha Hid. unfold useStrategy.
  set (sE := emit (StrategyUsed id attempt) s).
  assert (Hk : keepsDue None s sE) by (unfold sE; auto with due).
  assert (HdE : retryDue sE) by now apply (retryDue_keeps s).
  destruct strategy as [o|f].
  - destruct (_ <? attempt).
    + apply (retryDue_keeps sE); auto with due.
    + apply retryDue_setRetryTimer; [assumption|now apply (awake_keeps None id s)|exact Hid].
  - apply (retryDue_keeps sE); auto with due.
Qed.

Lemma tryRejectTask_onward_due env id e s :
  awake id s -> retryDue s -> retryDue (tryRejectTask_ (fun s => s) env id e s).
Proof.
  intros Ha Hd. unfold tryRejectTask_.
  set (s1 := releaseTaskResources id s).
  assert (Hk1 : keepsDue (Some id) s s1)
    by (unfold s1; apply kd_releaseTaskResources, keepsDue_refl).
  assert (Hd1 : retryDue s1) by now apply (retryDue_but id s).
  assert (Ha1 : awake id s1) by now apply (awake_keeps (Some id) id s).
  destruct (tasks s1 !! id) as [task|] eqn:Hid; [|assumption].
  assert (Hrej : retryDue (rejectTask id e s1)) by (apply (retryDue_keeps s1); auto with due).
  destruct (nullish _ _) as [strategy|]; [|exact Hrej].
  assert (Hgo : forall st a, retryDue (useStrategy env id st e a
                               (updTask id (task_set_retryAttempt (Some a)) s1))).
  { intros st a.
    assert (Hk : keepsDue None s1 (updTask id (task_set_retryAttempt (Some a)) s1))
      by auto with due.
    apply useStrategy_due.
    - now apply (retryDue_keeps s1).
    - now apply (awake_keeps None id s1).
    - unfold updTask. cbn [tasks set_tasks]. rewrite list_lookup_alter_eq, Hid. cbn. eauto. }
  destruct strategy as [| |o]; [exact Hrej|apply Hgo..].
Qed.

Lemma resolveTask_onward_due id s :
  awake id s -> retryDue s -> retryDue (resolveTask_ (fun s => s) id s).
Proof.
  intros Ha Hd. unfold resolveTask_. apply (retryDue_but id s); [assumption..|].
  apply kd_resolveTaskPromise, kd_releaseTaskResources, keepsDue_refl.
Qed.

Lemma timed_keeps s s' :
  timed s -> keepsIndex s s' -> fillsNoPlace s s' -> keepsDue None s s' -> timed s'.
Proof.
  intros [Hp Hd] Hk Hf Hkd. split; [now apply (placed_keeps s)|now apply (retryDue_keeps s)].
Qed.

Lemma executeTask_onward_due env id s :
  retryDue s -> awake id s -> retryDue (executeTask_ (fun s => s) env id s).
Proof.
  intros Hd Ha. unfold executeTask_. destruct (tasks s !! id) as [t|] eqn:Ht; [|assumption].
  match goal with |- context [emit (CallbackInvoked id) ?x] => set (sC := x) end.
  assert (HC : keepsDue None s sC).
  { unfold sC. destruct (truthy _); [|auto with due].
    match goal with |- context [setTimer ?cb ?d ?a] =>
      assert (Hk0 : keepsDue None s a) by auto with due;
      pose proof (kd_setTimer None s cb d a ltac:(discriminate) Hk0) as Hs';
      destruct (setTimer cb d a) as [h s3] end.
    cbn [snd] in Hs'. auto with due. }
  set (sD := emit (CallbackInvoked id) sC).
  assert (HD : keepsDue None s sD) by (unfold sD; auto with due).
  destruct (throwsSync env id) as [e|]; [|now apply (retryDue_keeps s)].
  match goal with |- retryDue (tryRejectTask_ _ env id e ?x) =>
    assert (HF : keepsDue None s x) by auto with due end.
  apply tryRejectTask_onward_due;
    [now apply (awake_keeps None id s)|now apply (retryDue_keeps s)].
Qed.

Lemma timed_dispatch env s id s1 :
  timed s -> pickTaskToExecute env s = Some (id, s1) ->
  timed (executeTask_ (fun s => s) env id (reserveResources id s1)).
Proof.
  intros [[Hi Hl] Hd] Hp.
  split; [apply (dispatch_onward_placed env s id s1); [now split|assumption]|].
  destruct (pickTaskToExecute_queued env s id s1 Hi Hp) as (Hq & _).
  destruct (pickTaskToExecute_timers env s id s1 Hp) as [Ht1 Htm1].
  assert (Hk : keepsDue None s (reserveResources id s1)).
  { apply kd_reserveResources. apply (kd_same None s s s1 Ht1 Htm1), keepsDue_refl. }
  apply executeTask_onward_due.
  - now apply (retryDue_keeps s).
  - apply (awake_keeps None id s); [assumption|]. now apply queued_awake.
Qed.

Lemma timed_loop env s : timed s -> timed (startNextTaskIfPossible env s).
Proof.
  apply startNextTaskIfPossible_invariant.
  - intros st s0 H. apply (timed_keeps s0); auto with kept places due.
  - intros env0 s0 id s1 H _. now apply timed_dispatch.
  - intros s0 H. apply (timed_keeps s0); auto with kept places due.
Qed.

Lemma tryRejectTask_timed env id e s :
  indexed s -> id ∉ tasksByTimeLimit s -> unplaced id s -> retryDue s ->
  timed (tryRejectTask env id e s).
Proof.
  intros Hi Hid Hroom Hd.
  change (timed (startNextTaskIfPossible env (tryRejectTask_ (fun s => s) env id e s))).
  apply timed_loop. split.
  - now apply tryRejectTask_onward_placed.
  - apply tryRejectTask_onward_due; [|assumption]. apply unplaced_awake, Hroom.
Qed.

Lemma resolveTask_timed env id s :
  indexed s -> id ∉ tasksByTimeLimit s -> unplaced id s -> retryDue s ->
  timed (resolveTask env id s).
Proof.
  intros Hi Hid Hroom Hd.
  change (timed (startNextTaskIfPossible env (resolveTask_ (fun s => s) id s))).
  apply timed_loop. split.
  - now apply resolveTask_onward_placed.
  - apply resolveTask_onward_due; [|assumption]. apply unplaced_awake, Hroom.
Qed.

(** The insertion of a task that holds no retry timer keeps the
    invariant, whatever time limit the task is queued with. *)
Lemma scheduleTask_timed env id s :
  indexed s -> unplaced id s -> retryDue s -> timed (stateOf (scheduleTask env id s)).
Proof.
  intros Hi Hroom Hd. pose proof (unplaced_onePlace id s Hroom) as Hl.
  assert (Hc : timed s) by (split; [split|]; assumption).
  unfold scheduleTask.
  destruct (tasks s !! id) as [task|] eqn:Hid; [|assumption].
  destruct (stopped s).
  { cbn [stateOf]. apply (timed_keeps s); auto with kept places due. }
  pose proof (ki_admissionChecks s id task s (keepsIndex_refl s)) as Hk1.
  pose proof (fnp_admissionChecks s id task s (fillsNoPlace_refl s)) as Hf1.
  pose proof (kd_admissionChecks None s id task s (keepsDue_refl None s)) as Hd1.
  destruct (admissionChecks id task s) as [s1|e s1]; cbn [stateOf] in *;
    [|now apply (timed_keeps s)].
  assert (Hi1 : indexed s1) by now apply (indexed_keepsIndex s).
  pose proof (indexed_queueOverflow id task s1 Hi1) as Hi2.
  pose proof (fnp_queueOverflow s1 id task s1 (fillsNoPlace_refl s1)) as Hf2.
  pose proof (kd_queueOverflow None s1 id task s1 (keepsDue_refl None s1)) as Hd2.
  destruct (queueOverflow id task s1) as [s2|s2]; cbn [stateOf].
  - assert (Hf : fillsNoPlace s s2) by (eapply fillsNoPlace_trans; eassumption).
    assert (Hkd : keepsDue None s s2) by now apply (keepsDue_trans None s s1 s2).
    assert (Hroom2 : unplaced id s2) by now apply (unplaced_spends id s).
    apply timed_loop. split; [now apply enqueue_placed|].
    apply (retryDue_but id s2).
    + now apply (retryDue_keeps s).
    + apply unplaced_awake, Hroom2.
    + apply kd_enqueue, keepsDue_refl.
  - split; [split; [assumption|]|].
    + apply (onePlace_spends s); [assumption|]. eapply fillsNoPlace_trans; eassumption.
    + apply (retryDue_keeps s); [assumption|]. now apply (keepsDue_trans None s s1 s2).
Qed.

Lemma schedule_timed env p s : timed s -> timed (stateOf (schedule env p s)).
Proof.
  intros [[[Hnd Hin] Hl] Hd]. unfold schedule.
  set (s0 := set_tasks (tasks s ++ [newTask env p]) s).
  apply scheduleTask_timed.
  - unfold s0. split; [exact Hnd|]. intros x Hx. destruct (Hin x Hx) as [Hq Ht].
    split; [exact Hq|]. unfold timeLimitOf in *. cbn [tasks set_tasks].
    destruct (tasks s !! x) as [t|] eqn:Hlook; [|discriminate].
    now rewrite (lookup_app_l_Some _ _ _ _ Hlook).
  - unfold s0. split; [|split].
    + intros x. destruct (Hl x) as [Ha Hb].
      rewrite (placesOf_same s (set_tasks _ s)) by reflexivity. split; [assumption|].
      cbn [tasks set_tasks]. rewrite length_app. cbn [length]. intros Hx. apply Hb. lia.
    + rewrite (placesOf_same s (set_tasks _ s)) by reflexivity. apply Hl. lia.
    + cbn [tasks set_tasks]. rewrite length_app. cbn [length]. lia.
  - intros h tm x Hh Hcb. change (timers s0) with (timers s) in Hh.
    pose proof (Hd h tm x Hh Hcb) as Hlim. unfold timeLimitOf in *. unfold s0.
    cbn [tasks set_tasks]. destruct (tasks s !! x) as [t|] eqn:Hlook; [|discriminate].
    now rewrite (lookup_app_l_Some _ _ _ _ Hlook).
Qed.

Lemma whenUnfinished_timed r k s :
  (forall id s', indexed s' -> id ∉ tasksByTimeLimit s' -> unplaced id s' -> retryDue s' ->
                 timed (k id s')) ->
  timed s -> timed (whenUnfinished r k s).
Proof.
  intros Hk [[Hi Hl] Hd]. unfold whenUnfinished.
  destruct (runs s !! r) as [x|] eqn:Hr; [|now split].
  destruct (finished x) eqn:Hf; [now split|].
  set (sE := set_executingTasks (setDelete (ex_task x) (executingTasks s)) s).
  set (s1 := finishRun r sE).
  assert (Hk1 : keepsIndex s s1) by (unfold s1, sE; auto with kept).
  assert (Hroom : unplaced (ex_task x) s1).
  { apply (unplaced_consume _ s); [assumption| |reflexivity].
    intros y. pose proof (placesOf_finishRun r sE y) as H.
    change (runs sE) with (runs s) in H. rewrite Hr in H.
    cbn [from_option] in H. unfold runToken in H. rewrite Hf in H.
    rewrite (placesOf_same s sE) in H by reflexivity. fold s1 in H. lia. }
  assert (Hi1 : indexed s1) by now apply (indexed_keepsIndex s).
  apply Hk; [assumption|now apply unplaced_absent|assumption|].
  apply (retryDue_keeps s); [assumption|unfold s1, sE; auto with due].
Qed.

Lemma applyRuleByInterval_timed env rule s : timed s -> timed (applyRuleByInterval env rule s).
Proof.
  intros H. unfold applyRuleByInterval. apply timed_loop.
  apply (timed_keeps s); auto with kept places due.
Qed.

Lemma timerFired_timed env handle s : timed s -> timed (stateOf (timerFired env handle s)).
Proof.
  intros Hc. pose proof (timerFired_placed env handle s (proj1 Hc)) as Hpl.
  unfold timerFired in *.
  destruct (timers s !! handle) as [[t|]|] eqn:Harmed; [|assumption..].
  destruct (callback t) as [id|r|id|rule|rule] eqn:Hcb; cbn [stateOf] in *.
  - split; [assumption|]. apply (retryDue_keeps s); [apply Hc|auto with due].
  - apply whenUnfinished_timed.
    + intros id s'. apply tryRejectTask_timed.
    + apply (timed_keeps s); auto with kept places due.
  - destruct Hc as [[Hi Hl] Hd].
    assert (Hroom : unplaced id (clearTimer handle s)).
    { apply (unplaced_consume _ s); [assumption| |reflexivity].
      intros y. pose proof (placesOf_clearTimer handle s y) as H. rewrite Harmed in H.
      cbn [from_option retryToken] in H. rewrite Hcb in H. lia. }
    apply scheduleTask_timed.
    + apply (indexed_keepsIndex s); auto with kept.
    + apply (unplaced_spends id (clearTimer handle s)); auto with places.
    + apply (retryDue_keeps s); [assumption|auto with due].
  - unfold setTimer at 1. cbv beta iota. cbn [stateOf].
    apply applyRuleByInterval_timed. apply (timed_keeps s); [assumption| | |].
    + apply ki_updStatus. apply ki_set_timers. auto with kept.
    + apply fnp_updStatus.
      apply (fnp_setTimer s (RuleInterval rule) (now env + interval rule) (clearTimer handle s)
               eq_refl). auto with places.
    + apply kd_updStatus.
      apply (kd_setTimer None s (RuleInterval rule) (now env + interval rule)
               (clearTimer handle s) ltac:(discriminate)). auto with due.
  - now apply applyRuleByInterval_timed.
Qed.

Lemma onFailureSettled_due env call r s :
  onePlace s -> retryDue s -> retryDue (onFailureSettled env call r s).
Proof.
  intros Hl Hd. unfold onFailureSettled.
  destruct (onFailureCalls s !! call) as [[c|]|] eqn:Hc; [|assumption..].
  set (s1 := set_onFailureCalls _ s).
  assert (Hroom : unplaced (of_task c) s1).
  { apply (unplaced_consume _ s); [assumption| |reflexivity].
    intros y. unfold placesOf, s1. cbn [queue runs timers onFailureCalls set_onFailureCalls].
    pose proof (occurrences_omap_insert hookToken None y (onFailureCalls s) call) as H.
    rewrite Hc in H. cbn [hookToken option_map oneFor] in H. cbn [oneFor]. lia. }
  assert (Hk1 : keepsDue None s s1) by (unfold s1; auto with due).
  assert (Hd1 : retryDue s1) by now apply (retryDue_keeps s).
  destruct Hroom as (_ & H0 & Hlt).
  assert (Hrej : forall e, retryDue (rejectTask (of_task c) e s1))
    by (intros e; apply (retryDue_keeps s1); auto with due).
  destruct r as [timeout|e|e]; [|apply Hrej..].
  apply retryDue_setRetryTimer; [assumption|now apply unplaced_awake|].
  now apply lookup_lt_is_Some_2.
Qed.

Lemma stop_timed env params s : timed s -> timed (snd (stop env params s)).
Proof.
  intros [[Hi Hl] Hd]. unfold stop.
  match goal with |- context [set_stopped (Some (mkStopped None)) ?x] => set (s1 := x) end.
  assert (H1 : placed s1 /\ keepsDue None s s1).
  { unfold s1.
    destruct (match params with
              | Some p => if stopAll p then Some (mkStopParams false true true true) else Some p
              | None => None end) as [p|];
      [|split; [now split|]; auto with due].
    destruct (stopWaitingTasks p || rejectExecutingTasks p || stopWaitingTasks p);
      [|split; [now split|]; auto with due].
    match goal with |- placed (if stopTaskRetries p then rejectAll ?e ?a else ?a) /\ _ =>
      assert (Ha' : placed a /\ keepsDue None s a) end.
    { match goal with |- placed (if rejectExecutingTasks p then _ else ?b) /\ _ =>
        assert (Hb : placed b /\ keepsDue None s b) end.
      { destruct (stopWaitingTasks p); [|split; [now split|]; auto with due].
        match goal with |- placed ?b /\ _ =>
          assert (Hf : fillsNoPlace s b) by auto 10 with places end.
        split; [split|auto 10 with due].
        - now apply indexed_emptied.
        - now apply (onePlace_spends s). }
      destruct Hb as (Hb1 & Hb2). destruct (rejectExecutingTasks p); [|auto].
      split; [|auto with due].
      apply (placed_keeps _ _ Hb1); [auto with kept|auto with places]. }
    destruct Ha' as (Ha1 & Ha2). destruct (stopTaskRetries p); [|auto].
    split; [|auto with due].
    apply (placed_keeps _ _ Ha1); [auto with kept|auto with places]. }
  destruct H1 as (H1 & H2).
  assert (Hc1 : timed s1) by (split; [assumption|now apply (retryDue_keeps s)]).
  destruct (bool_decide _); cbn [snd].
  - apply timed_loop. apply (timed_keeps _ _ Hc1); auto with kept places due.
  - apply (timed_keeps _ _ Hc1); auto with kept places due.
Qed.

Lemma step_timed env ev s : timed s -> timed (stateOf (step env ev s)).
Proof.
  intros Hc. pose proof (step_placed env ev s (proj1 Hc)) as Hpl.
  destruct ev as [p|r|r e|h|call r| |v|d|o|p]; cbn [step stateOf] in *.
  - now apply schedule_timed.
  - apply whenUnfinished_timed; [|assumption]. intros id s'. apply resolveTask_timed.
  - apply whenUnfinished_timed; [|assumption]. intros id s'. apply tryRejectTask_timed.
  - now apply timerFired_timed.
  - split; [assumption|]. apply onFailureSettled_due; apply Hc.
  - split; [assumption|]. unfold getUsedCapacity. cbn [snd].
    destruct (areTimersEnabled s); [apply Hc|].
    apply (retryDue_keeps s); [apply Hc|auto with due].
  - unfold setUsedCapacity in *. destruct (checkUsedCapacity _ _); cbn [stateOf] in *;
      [assumption|].
    apply timed_loop. apply (timed_keeps s); auto with kept places due.
  - unfold adjustUsedCapacity in *. destruct (maxCapacity (options s)); cbn [stateOf] in *;
      [|assumption].
    apply timed_loop. apply (timed_keeps s); auto with kept places due.
  - split; [assumption|].
    unfold setOptions. destruct (firstError _); cbn [stateOf]; [apply Hc|].
    apply (retryDue_keeps s); [apply Hc|auto with due].
  - now apply stop_timed.
Qed.

Lemma run_timed events : forall s, timed s -> timed (run events s).
Proof.
  induction events as [|[env ev] rest IH]; intros s H; cbn [run]; [assumption|].
  apply IH. now apply step_timed.
Qed.

Lemma constructor_timed env o : timed (stateOf (constructor env o)).
Proof.
  split; [apply constructor_placed|].
  assert (H0 : retryDue (initialState o)) by (intros h tm id Hh; cbn in Hh; discriminate).
  unfold constructor. destruct (firstError _); cbn [stateOf]; [assumption|].
  apply (retryDue_keeps _ _ H0). auto with due.
Qed.

(** ** The retried task at its re-admission *)


(** The head of [tasksByTimeLimit] after the insertion of a task with a
    time limit: its limit is not later. *)
Lemma readmitted_head env id t s limit :
  is_Some (tasks s !! id) -> timeLimit t = Some limit -> limit <> 0 -> limitsSet s ->
  let s' := enqueue env id t s in
  timeLimitOf s' id = Some limit /\ id ∈ queue s' /\ id ∈ tasksByTimeLimit s' /\
  exists hd lim,
    DLL.peekFirst (tasksByTimeLimit s') = Some hd /\
    timeLimitOf s' hd = Some lim /\ lim <= limit /\
    ((forall x l, x ∈ tasksByTimeLimit s -> timeLimitOf s x = Some l -> limit < l) -> hd = id).
Proof.
  intros Hid Hlim Hnz Hset s'.
  assert (Hq : queuedTimeLimit t s = Some limit).
  { unfold queuedTimeLimit. rewrite Hlim. cbn.
    destruct (limit =? 0) eqn:E; [apply Z.eqb_eq in E; lia|].
    cbn. now rewrite andb_false_r. }
  destruct (enqueue_spec env id t s Hid) as (Hqueue & Hl & Hid' & Hother & _).
  fold s' in Hqueue, Hl, Hid', Hother. rewrite Hq in Hl, Hid'.
  assert (Htr : truthy (Some limit) = true).
  { cbn. destruct (limit =? 0) eqn:E; [apply Z.eqb_eq in E; lia|reflexivity]. }
  rewrite Htr in Hl.
  split; [exact Hid'|]. split; [rewrite Hqueue; apply elem_of_putAfter; now left|].
  match type of Hl with _ = DLL.putBefore id ?c ?l =>
    destruct (putBefore_split id c l) as (l1 & l2 & Hput & Hsplit & Hall) end.
  rewrite Hput in Hl. split.
  { rewrite Hl. apply elem_of_app. right. left. }
  rewrite Hl. destruct l1 as [|h l1]; cbn.
  - exists id, limit. split; [reflexivity|]. split; [exact Hid'|]. split; [lia|auto].
  - apply Forall_cons in Hall as [Hh _]. cbn in Hh.
    destruct (decide (h = id)) as [->|Hne].
    + exists id, limit. split; [reflexivity|]. split; [exact Hid'|]. split; [lia|auto].
    + rewrite timeLimitOf_updTask_ne in Hh by auto.
      unfold limitsSet in Hset. rewrite Hsplit in Hset.
      apply Forall_cons in Hset as [[l Hhl] _].
      rewrite Hhl in Hh. apply Z.ltb_ge in Hh.
      exists h, l. split; [reflexivity|]. split; [now rewrite (Hother h Hne)|].
      split; [exact Hh|]. intros Hall'. exfalso.
      assert (Hin : h ∈ tasksByTimeLimit s) by (rewrite Hsplit; left).
      specialize (Hall' h l Hin Hhl). lia.
Qed.


